(* ===== verification/_CoqProject ===== *)
-Q . S2P
Prelude.v
Text.v
X86.v
Assembler.v
Calls.v
Optimizer.v
OptimizerSem.v
Wasm.v
Programs.v
Instructions.v
Codegen.v
Function.v
FunctionSem.v
FunctionOpt.v
CallsSem.v
ModuleApi.v
Compile.v
Layout.v
Tables.v
Binding.v
Disassembly.v
EndToEnd.v
Loaded.v
Operators.v
Boot.v
Serial.v
Kernel.v
Console.v
TestRunner.v
Emulator.v
EmulatorRuns.v
