(* ===== verification/Prelude.v ===== *)
(** * ParaOS: the Parawasm compiler and the kernel start-up

    ParaOS is an operating system that runs WebAssembly.  The repository has two
    parts with logic of their own: [parawasm], a compiler from WebAssembly to
    x86-64 machine code, and [paraos], the kernel that starts the cores.  A third
    crate, [parawasm_tests], runs compiled code on a CPU emulator.

    ** How a module is compiled

    [compile] ([parawasm/src/x86_64/mod.rs]) pulls payloads from wasmparser's
    parser.  Import and function sections reserve quadwords and labels in an iced
    [CodeAssembler]; every code section entry becomes a frame set-up, the stores
    of the parameters, the code of its operators ([instructions.rs]) and a frame
    tear-down.  The collected instructions go through a peephole optimizer
    ([optimizer.rs]) that also moves the label positions; then labels are bound,
    entry points recorded and the bytes assembled.  [link_import] later patches
    addresses into the import slots.

    ** Files

    - [Prelude]: fallible computations ([Res]: a value, an error that [?]
      propagates, or a panic), loops that can fail, machine integers and build
      profiles, little-endian words, [BTreeMap] iteration, tactics.
    - [Text]: the characters of formatted numbers.
    - [X86]: the x86-64 instructions the compiler emits and a machine for them:
      64-bit registers, byte memory, a stack whose space below [rsp] is lost;
      calls and 32-bit forms are an environment [Env].
    - [Calls]: the environment with calls: code memory, labels of loaded modules,
      a call pushes an opaque return address and runs the callee.
    - [Assembler]: iced's assembler as the interface [Assembler] with its laws
      [AssemblerLaws], the instance [BufferAssembler], and [mod.rs]'s [Error].
    - [Optimizer]: [optimizer.rs] ([optimize], [optimize_loop], [update_labels])
      and its specification ([windows], [reduce], [normalize], [relocate_all]).
    - [OptimizerSem]: what the optimizer does to the meaning of code.
    - [Wasm]: value and function types, wasmparser's operators, a machine for
      straight-line WebAssembly.
    - [Programs]: WebAssembly functions that call each other, in the dialect of
      the specification and in the one the compiler implements; their typing.
    - [Instructions]: [instructions.rs] ([handle_instruction], [handle_call]).
    - [Operators]: the operators [instructions.rs] leaves to [todo!()], in its
      groups.
    - [Codegen]: the emitted code simulates the WebAssembly machine.
    - [Function]: the body of the [CodeSectionEntry] handler in [mod.rs]
      ([compile_body] and its loops); the interface [FuncValidator].
    - [FunctionSem], [FunctionOpt]: a compiled function as seen by its caller,
      before and after optimization; [CallsSem]: functions that call each other.
    - [ModuleApi]: [Module], [AssembledModule], their queries and [link_import].
    - [Compile]: the driver, one handler per payload, the loop, [bind_label],
      [finish] and [compile]; the interfaces [Parser] and [Validator].
    - [Layout], [Tables]: invariants of the driver's state.
    - [Binding]: the properties of whole compilations; [EndToEnd]: executing a
      compiled module from its recorded entry points; [Loaded]: compiled modules
      in memory, linked to each other, and the calls between them.
    - [Disassembly]: [dump_asm] of [mod.rs] with iced's decoder and formatter as the
      interface [Decoder].
    - [Boot]: [paraos/src/bootboot.rs] and the heap set-up of [main.rs].
    - [Serial]: [paraos/src/serial.rs] and [panic.rs] as actions of concurrent
      cores under explicit schedules.
    - [Kernel]: [paraos/src/kernel.rs] and [platform.rs]: the cores' start-up as
      a step function under explicit schedules; [Console]: what a start-up prints,
      with the bootstrap closure of [main.rs].
    - [TestRunner]: [paraos/src/test.rs] and [pick_leader_core]: the kernel's tests
      on all cores.
    - [Emulator]: [parawasm_tests/src/testing.rs], the emulator the tests run
      compiled modules on, with the shared modules as cells of a store;
      [EmulatorRuns]: what its operations can reach, what a call loads and counts.

    ** What the theorems show

    Modules in memory ([Loaded]): take functions of compiled modules that call
    each other and their imports, linked and installed anywhere. If a call has a
    result in the compiled dialect of WebAssembly, the machine code at the
    function's entry point returns it ([compiled_modules_run]); well-typed
    functions always have one, unless calls nest too deep
    ([compiled_modules_typed]); and where no operand order matters it is the
    result of the WebAssembly specification ([compiled_modules_standard]). The
    proof goes function by function ([compiled_function_optimized],
    [programs_simulate]) through the invariants of the driver ([compiled_at]).
    For functions of constants, additions and local accesses
    [compiled_module_correct] says the same from the module's tables alone.
    Every operator is implemented or panics ([handle_instruction_todo]).
    Optimizer: it terminates in a normal form, keeps meaning outside one unsound
    window, and moves labels with their code. Modules: entry points, stack
    heights, import slots and the index space of a compiled module are right,
    and linking writes what it should and nothing else. Termination: [compile]
    returns on complete inputs and never returns on truncated ones. Kernel: the
    start-up rendezvous is safe, and live unless a core panics, which blocks all
    others; the memory map is decoded and registered as intended, the start-up
    prints its text, serial output is in order per core, and a test run that
    reports success has passed on every core. Test emulator: a call runs the
    current code of all modules, counts instructions once per hook, and its
    stack is last in, first out. Several theorems state divergences between what
    the code does and what it should do: exchanged operands of [i64.sub],
    reversed parameters, aliased locals, the panic on seven parameters, 32-bit
    arithmetic that cannot be assembled, the double look-up of types, the
    dropped lock guard and others.

    ** Fuel

    Three loops and the semantics of calls are not structural. [optimize] makes
    at most one pass more than there are instructions ([optimize_enough_fuel]),
    since every pass but the last removes an instruction. [compile_loop] needs
    one unit per payload and one for the end ([compile_loop_parses]); results do
    not change with more fuel. Schedules of the kernel's cores are finite
    because every step uses up one of at most six steps per core. [wcall] and
    [machine] take the depth of nested calls, the same for both, and more depth
    does not change a result ([wcall_mono]); WebAssembly programs may recurse
    for ever, so no depth is enough for all.

    ** Not modelled

    iced-x86, wasmparser, byteorder, spin, the allocator, the emulator and the
    hardware are interfaces, with the documented behaviour that is relied on as
    laws.  Calls are related to WebAssembly for functions of at most six 64-bit
    parameters without declared locals and callees of at most one result; the
    divergences outside this (aliased locals, results reversed by a call) are
    theorems or findings.  A return address is opaque: that the code does not read
    it follows from the machine having no such instruction.  The idle loops after
    start-up and after a panic, the build script (it passes one argument to the
    linker), the trait [Compiler], the tests that run on the emulator and the
    listing that [call_function] prints before a call are left out. *)
From stdpp Require Export base gmap strings list numbers sorting.
#[global] Open Scope Z_scope.

(** ** Panics and fallible computations

    Rust code fails in two ways: it returns [Err e], which [?] propagates, or
    it panics.  [Res E A] keeps the two apart; the constructors of [panic] say
    which language construct panicked. *)
Inductive panic :=
  | Todo             (* todo!() *)
  | UnwrapNone       (* Option::unwrap on None *)
  | OutOfRange       (* slice, drain or index out of range *)
  | Overflow         (* arithmetic overflow with overflow checks on *)
  | AssertFailed     (* assert!, expect, unreachable!() *).

Inductive Res (E A : Type) :=
  | Ok (a : A)
  | Err (e : E)
  | Panic (p : panic).
Arguments Ok {E A} a.
Arguments Err {E A} e.
Arguments Panic {E A} p.

#[global] Instance panic_eq_dec : EqDecision panic.
Proof. solve_decision. Defined.

#[global] Instance res_ret {E} : MRet (Res E) := fun A a => Ok a.
#[global] Instance res_bind {E} : MBind (Res E) := fun A B f r =>
  match r with Ok a => f a | Err e => Err e | Panic p => Panic p end.

Lemma res_bind_ok {E A B} (f : A -> Res E B) a : mbind f (Ok a) = f a.
Proof. reflexivity. Qed.

Lemma Ok_inj {E A} (a b : A) : @Ok E A a = Ok b -> a = b.
Proof. congruence. Qed.

(** [e.map_err(From::from)], the conversion [?] inserts. *)
Definition map_err {E F A} (f : E -> F) (r : Res E A) : Res F A :=
  match r with Ok a => Ok a | Err e => Err (f e) | Panic p => Panic p end.

Definition of_sum {E A} (r : E + A) : Res E A :=
  match r with inl e => Err e | inr a => Ok a end.

Definition of_option {E A} (p : panic) (o : option A) : Res E A :=
  match o with Some a => Ok a | None => Panic p end.

(** A [for] loop whose body may leave early through [?] or a panic. *)
Fixpoint for_each {E A S} (body : A -> S -> Res E S) (l : list A) (s : S) : Res E S :=
  match l with
  | [] => Ok s
  | x :: l => s ← body x s; for_each body l s
  end.

(** [Iterator::find_map]. *)
Fixpoint find_map {A B} (f : A -> option B) (l : list A) : option B :=
  match l with
  | [] => None
  | x :: l => match f x with Some b => Some b | None => find_map f l end
  end.

(** [VecDeque::pop_back] and [VecDeque::pop_front]. *)
Definition pop_back {A} (l : list A) : option (A * list A) :=
  match reverse l with [] => None | x :: r => Some (x, reverse r) end.
Definition pop_front {A} (l : list A) : option (A * list A) :=
  match l with [] => None | x :: r => Some (x, r) end.

(** [Vec::drain(0..n)]: panics when [n] is greater than the length. *)
Definition drain {E A} (n : nat) (l : list A) : Res E (list A) :=
  if decide (n <= length l)%nat then Ok (take n l) else Panic OutOfRange.

Lemma pop_back_nil {A} : pop_back (@nil A) = None.
Proof. reflexivity. Qed.

Lemma pop_back_snoc {A} (l : list A) x : pop_back (l ++ [x]) = Some (x, l).
Proof. unfold pop_back. rewrite reverse_app. simpl. by rewrite reverse_involutive. Qed.

(** ** Machine integers

    A w-bit integer is a [Z]; the operations that can leave the range say so.
    [overflow_checks] is the build profile: a debug build panics where a
    release build wraps around. *)
Definition u16_max : Z := 2 ^ 16 - 1.
Definition u32_max : Z := 2 ^ 32 - 1.
Definition u64_max : Z := 2 ^ 64 - 1.
Definition wrap32 (x : Z) : Z := x `mod` 2 ^ 32.
Definition wrap64 (x : Z) : Z := x `mod` 2 ^ 64.
Definition u32_ok (x : Z) : bool := (0 <=? x) && (x <=? u32_max).
Definition u64_ok (x : Z) : bool := (0 <=? x) && (x <=? u64_max).

Class Profile := { overflow_checks : bool }.
Definition debug : Profile := {| overflow_checks := true |}.
Definition release : Profile := {| overflow_checks := false |}.

Section Checked.
Context `{Profile}.

Definition checked {E} (ok : bool) (wrapped x : Z) : Res E Z :=
  if ok then Ok x else if overflow_checks then Panic Overflow else Ok wrapped.
Definition u32_arith {E} (x : Z) : Res E Z := checked (u32_ok x) (wrap32 x) x.
Definition u64_arith {E} (x : Z) : Res E Z := checked (u64_ok x) (wrap64 x) x.

Lemma u32_arith_ok {E} x : 0 <= x <= u32_max -> @u32_arith E x = Ok x.
Proof.
  intros. unfold u32_arith, checked, u32_ok.
  by rewrite (proj2 (Z.leb_le _ _)), (proj2 (Z.leb_le _ _)) by lia.
Qed.

Lemma u64_arith_ok {E} x : 0 <= x <= u64_max -> @u64_arith E x = Ok x.
Proof.
  intros. unfold u64_arith, checked, u64_ok.
  by rewrite (proj2 (Z.leb_le _ _)), (proj2 (Z.leb_le _ _)) by lia.
Qed.

(** With overflow checks an addition that returns is exact. *)
Lemma u32_arith_exact {E} x y : overflow_checks = true -> @u32_arith E x = Ok y -> y = x.
Proof. unfold u32_arith, checked. intros ->. case_match; congruence. Qed.

Lemma u64_arith_exact {E} x y : overflow_checks = true -> @u64_arith E x = Ok y -> y = x.
Proof. unfold u64_arith, checked. intros ->. case_match; congruence. Qed.
End Checked.

(** [usize as isize] and [isize as usize] reinterpret 64 bits. *)
Definition usize_as_isize (x : Z) : Z := if x <? 2 ^ 63 then x else x - 2 ^ 64.
Definition isize_as_usize (x : Z) : Z := x `mod` 2 ^ 64.

Lemma wrap64_range x : 0 <= wrap64 x < 2 ^ 64.
Proof. apply Z.mod_pos_bound. lia. Qed.

Lemma wrap64_small x : 0 <= x < 2 ^ 64 -> wrap64 x = x.
Proof. apply Z.mod_small. Qed.

Lemma wrap64_idemp x : wrap64 (wrap64 x) = wrap64 x.
Proof. apply Z.mod_mod. lia. Qed.

Lemma wrap64_add_l x y : wrap64 (wrap64 x + y) = wrap64 (x + y).
Proof. apply Zplus_mod_idemp_l. Qed.

Lemma wrap64_add_r x y : wrap64 (x + wrap64 y) = wrap64 (x + y).
Proof. apply Zplus_mod_idemp_r. Qed.

(** ** Little-endian words *)
Fixpoint le_bytes (n : nat) (v : Z) : list Z :=
  match n with
  | O => []
  | S n => v `mod` 256 :: le_bytes n (v / 256)
  end.

Fixpoint le_word (bs : list Z) : Z :=
  match bs with
  | [] => 0
  | b :: bs => b + 256 * le_word bs
  end.

Lemma length_le_bytes n v : length (le_bytes n v) = n.
Proof. revert v. induction n; intros; simpl; auto. Qed.

Lemma le_word_le_bytes n v : le_word (le_bytes n v) = v `mod` 256 ^ Z.of_nat n.
Proof.
  revert v. induction n as [|n IH]; intros v; [by rewrite Z.mod_1_r|].
  cbn [le_bytes le_word]. rewrite IH, Nat2Z.inj_succ, Z.pow_succ_r by lia.
  rewrite Z.rem_mul_r by lia. lia.
Qed.

Lemma le_bytes_range n v : Forall (fun b => 0 <= b < 256) (le_bytes n v).
Proof.
  revert v. induction n; intros; constructor; auto using Z.mod_pos_bound.
  apply Z.mod_pos_bound. lia.
Qed.

Lemma le_bytes_le_word bs :
  Forall (fun b => 0 <= b < 256) bs -> le_bytes (length bs) (le_word bs) = bs.
Proof.
  induction 1 as [|b bs Hb _ IH]; [done|]. cbn [length le_bytes le_word].
  rewrite (Z.mul_comm 256), Z_mod_plus_full, Z.mod_small by lia.
  rewrite Z.div_add, Z.div_small, Z.add_0_l by lia. by rewrite IH.
Qed.

(** ** BTreeMap iteration

    A [BTreeMap<u32, V>] is a [gmap Z V]; where the source iterates over one it
    sees the bindings in increasing key order. *)
Definition key_le {V} (x y : Z * V) : Prop := x.1 <= y.1.
#[global] Instance key_le_dec {V} : RelDecision (@key_le V).
Proof. intros x y. unfold key_le. apply _. Defined.
#[global] Instance key_le_total {V} : Total (@key_le V).
Proof. intros x y. unfold key_le. lia. Qed.
#[global] Instance key_le_trans {V} : Transitive (@key_le V).
Proof. intros x y z. unfold key_le. lia. Qed.

Definition btree_iter {V} (m : gmap Z V) : list (Z * V) :=
  merge_sort key_le (map_to_list m).

Lemma elem_of_btree_iter {V} (m : gmap Z V) k v :
  (k, v) ∈ btree_iter m <-> m !! k = Some v.
Proof. unfold btree_iter. by rewrite merge_sort_Permutation, elem_of_map_to_list. Qed.

Lemma btree_iter_sorted {V} (m : gmap Z V) : StronglySorted key_le (btree_iter m).
Proof. apply StronglySorted_merge_sort; apply _. Qed.

(** [find_map] over a sorted list returns the value of the least key that
    satisfies the test. *)
Lemma find_map_Some {A B} (f : A -> option B) l b :
  find_map f l = Some b ->
  ∃ l1 x l2, l = l1 ++ x :: l2 /\ f x = Some b /\ Forall (fun y => f y = None) l1.
Proof.
  induction l as [|x l IH]; [done|]. simpl. destruct (f x) eqn:Hx.
  - intros [= <-]. by exists [], x, l.
  - intros (l1 & y & l2 & -> & ? & ?)%IH. exists (x :: l1), y, l2. by repeat constructor.
Qed.

Lemma find_map_None {A B} (f : A -> option B) l :
  find_map f l = None <-> Forall (fun y => f y = None) l.
Proof.
  induction l as [|x l IHl]; simpl; [by split|]. rewrite Forall_cons, <- IHl.
  destruct (f x); split; [done|by intros []|auto|by intros []].
Qed.

Lemma find_map_first {A B} (f : A -> option B) l1 x l2 b :
  Forall (fun y => f y = None) l1 -> f x = Some b -> find_map f (l1 ++ x :: l2) = Some b.
Proof. induction 1 as [|y l1 Hy _ IH]; simpl; intros Hx; [by rewrite Hx|by rewrite Hy, IH]. Qed.

Lemma Forall2_impl_elem {A B} (P Q : A -> B -> Prop) l k :
  Forall2 P l k -> (∀ x y, x ∈ l -> P x y -> Q x y) -> Forall2 Q l k.
Proof.
  induction 1 as [|x y l k Hp _ IH]; intros Himp; constructor.
  - apply Himp; [apply list_elem_of_here|done].
  - apply IH. intros. apply Himp; [by apply list_elem_of_further|done].
Qed.

(** ** Sums over lists *)
Definition sum_by {X} (g : X -> nat) (l : list X) : nat := foldr (fun x k => (g x + k)%nat) 0%nat l.

Lemma sum_by_insert {X} (g : X -> nat) l i x y :
  l !! i = Some x -> (sum_by g (<[i := y]> l) + g x = sum_by g l + g y)%nat.
Proof.
  revert i. induction l as [|z l IH]; intros [|i] Hi; simplify_eq/=; [lia|].
  specialize (IH i Hi). lia.
Qed.

Lemma sum_by_app {X} (g : X -> nat) l1 l2 : sum_by g (l1 ++ l2) = (sum_by g l1 + sum_by g l2)%nat.
Proof. induction l1 as [|x l1 IH]; simpl; [done|]. rewrite IH. lia. Qed.

Lemma sum_by_bound {X} (g : X -> nat) m l : (∀ x, (g x <= m)%nat) -> (sum_by g l <= m * length l)%nat.
Proof. intros Hg. induction l as [|x l IH]; simpl; [lia|]. specialize (Hg x). lia. Qed.

(** ** Automation *)
Create HintDb paraos.

(** [x ∉ l] for an explicit list of values distinct from [x]. *)
Ltac not_in :=
  repeat (apply not_elem_of_cons; split; [discriminate|]); apply not_elem_of_nil.

(** [lia] with quotients and remainders by constants. *)
Ltac div_lia := Z.to_euclidean_division_equations; lia.

(** Split an equation [m ≫= f = Ok b] about the result monad into its steps. *)
Ltac res_inv :=
  repeat match goal with
  | H : Ok _ = Ok _ |- _ => injection H as H; subst
  | H : Err _ = Err _ |- _ => injection H as H; subst
  | H : Panic _ = Panic _ |- _ => injection H as H; subst
  | H : Ok _ = Err _ |- _ => discriminate H
  | H : Ok _ = Panic _ |- _ => discriminate H
  | H : Err _ = Ok _ |- _ => discriminate H
  | H : Panic _ = Ok _ |- _ => discriminate H
  | H : Err _ = Panic _ |- _ => discriminate H
  | H : Panic _ = Err _ |- _ => discriminate H
  | H : context [mret] |- _ => unfold mret, res_ret in H
  | H : mbind _ ?m = _ |- _ =>
      unfold mbind, res_bind in H; let E := fresh "E" in destruct m eqn:E
  end.

(** One step of that: name the outcome of the first computation bound in [H]. *)
Tactic Notation "res_step" hyp(H) "as" simple_intropattern(p) ident(E) :=
  match type of H with
  | mbind _ ?m = Ok _ => destruct m as [p| |] eqn:E; [|discriminate H..]; rewrite res_bind_ok in H
  end.
Tactic Notation "res_step" hyp(H) ident(E) := res_step H as ? E.

Lemma for_each_app {E A S} (body : A -> S -> Res E S) l1 l2 s :
  for_each body (l1 ++ l2) s = (s' ← for_each body l1 s; for_each body l2 s').
Proof.
  revert s. induction l1 as [|x l1 IH]; intros s; simpl; [done|].
  unfold mbind, res_bind. by destruct (body x s).
Qed.

(** An invariant of the body is an invariant of the loop. *)
Lemma for_each_inv {E A S} (body : A -> S -> Res E S) (P : S -> Prop) l s s' :
  (∀ x s s', x ∈ l -> P s -> body x s = Ok s' -> P s') ->
  P s -> for_each body l s = Ok s' -> P s'.
Proof.
  revert s. induction l as [|x l IH]; intros s Hb Hs H; cbn [for_each] in H.
  - by res_inv.
  - res_inv. eapply IH; [|eapply Hb|]; eauto using list_elem_of_further, list_elem_of_here.
Qed.
