(* ===== verification/Text.v ===== *)
(** * Formatted text

    What the standard library's formatting makes of unsigned integers: decimal
    ([{}]) and padded upper-case hexadecimal ([{:016X}], [{:02X}]).  A text is a
    list of character codes. *)
From Stdlib Require Ascii String.
From S2P Require Import Prelude.

(** ** Decimal numbers *)
Definition chars (s : string) : list Z := map (fun c => Z.of_N (Ascii.N_of_ascii c)) (String.list_ascii_of_string s).
Definition newline : list Z := [10].

(** The digits of [n], the last one first; 20 of them are enough for 64 bits. *)
Fixpoint digits (fuel : nat) (n : Z) : list Z :=
  match fuel with
  | O => []
  | S fuel => 48 + n `mod` 10 :: if n <? 10 then [] else digits fuel (n / 10)
  end.
Definition decimal (n : Z) : list Z := reverse (digits 20 n).

(** Reading a decimal number. *)
Definition parse_decimal (s : list Z) : Z := foldr (fun c n => 10 * n + (c - 48)) 0 (reverse s).

Lemma digits_spec fuel n :
  0 <= n < 10 ^ Z.of_nat fuel ->
  foldr (fun c n => 10 * n + (c - 48)) 0 (digits fuel n) = n /\
  Forall (fun c => 48 <= c <= 57) (digits fuel n) /\ (0 < n -> last (digits fuel n) <> Some 48).
Proof.
  revert n. induction fuel as [|fuel IH]; intros n Hn.
  { assert (n = 0) as -> by (simpl in Hn; lia). by split_and!; [|constructor|]. }
  rewrite Nat2Z.inj_succ, Z.pow_succ_r in Hn by lia. cbn [digits].
  destruct (Z.ltb_spec n 10).
  - cbn [foldr]. rewrite Z.mod_small by lia. split_and!; [lia|apply Forall_singleton; lia|]. simpl. intros ? [= ?]. lia.
  - destruct (IH (n / 10)) as (Hp & Hd & Hl); [div_lia|]. cbn [foldr]. split_and!.
    + rewrite Hp. div_lia.
    + constructor; [div_lia|done].
    + intros _. rewrite last_cons. destruct (last (digits fuel (n / 10))) as [c|] eqn:Hlast.
      * apply Hl. div_lia.
      * apply last_None in Hlast. rewrite Hlast in Hp. simpl in Hp. div_lia.
Qed.

Lemma decimal_spec n :
  0 <= n <= u64_max ->
  parse_decimal (decimal n) = n /\ Forall (fun c => 48 <= c <= 57) (decimal n) /\
  (0 < n -> head (decimal n) <> Some 48).
Proof.
  intros Hn. unfold u64_max in Hn. destruct (digits_spec 20 n) as (Hp & Hd & Hl); [lia|].
  unfold parse_decimal, decimal. rewrite reverse_involutive. split_and!; [done|by apply Forall_reverse|].
  by rewrite head_reverse.
Qed.

(** ** Hexadecimal numbers *)
Definition hex_digit (d : Z) : Z := if d <? 10 then 48 + d else 55 + d.

(** The [width] last digits, the last one first. *)
Fixpoint hex_digits (width : nat) (n : Z) : list Z :=
  match width with O => [] | S width => hex_digit (n `mod` 16) :: hex_digits width (n / 16) end.

(** [{:0wX}] for a number of at most [w] digits. *)
Definition hex (width : nat) (n : Z) : list Z := reverse (hex_digits width n).

Definition hex_value (c : Z) : Z := if c <? 58 then c - 48 else c - 55.
Definition parse_hex (s : list Z) : Z := foldr (fun c n => 16 * n + hex_value c) 0 (reverse s).

Lemma hex_value_digit d : 0 <= d < 16 -> hex_value (hex_digit d) = d.
Proof.
  intros Hd. unfold hex_digit, hex_value. destruct (Z.ltb_spec d 10).
  - destruct (Z.ltb_spec (48 + d) 58); lia.
  - destruct (Z.ltb_spec (55 + d) 58); lia.
Qed.

Lemma parse_hex_hex width n : 0 <= n < 16 ^ Z.of_nat width -> parse_hex (hex width n) = n.
Proof.
  unfold parse_hex, hex. rewrite reverse_involutive. revert n.
  induction width as [|width IH]; intros n Hn; [simpl in *; lia|].
  rewrite Nat2Z.inj_succ, Z.pow_succ_r in Hn by lia. cbn [hex_digits foldr].
  rewrite IH by div_lia. rewrite hex_value_digit by div_lia. div_lia.
Qed.

Lemma length_hex width n : length (hex width n) = width.
Proof. unfold hex. rewrite length_reverse. revert n. induction width; intros n; simpl; auto. Qed.
