(* ===== verification/X86.v ===== *)
(** * The x86-64 vocabulary of the compiler and the machine it compiles for

    The compiler builds code with the [iced_x86] crate.  [Register], [Code],
    [Operand] and [Instruction] are the values it hands over and inspects: one
    [Code] per assembler method the sources call, with the operands they pass.
    [state] and [step] give such an instruction its meaning on the processor:
    sixty-four-bit registers, byte-addressed little-endian memory and a stack
    that grows downwards.  Flags are left out: no instruction the compiler
    emits reads them.

    Memory that the stack pointer has been lowered over, without a store, holds
    unspecified bytes ([None]), and so does memory below the stack pointer as
    far as [≡] is concerned: kernel-mode code has no red zone, an interrupt may
    overwrite it at any time. *)
From S2P Require Import Prelude.

(** ** Registers, operands, instructions *)
Inductive Register :=
  | RAX | RCX | RDX | RBX | RSP | RBP | RSI | RDI
  | R8 | R9 | R10 | R11 | EAX | EBX | NoRegister.
#[global] Instance Register_eq_dec : EqDecision Register.
Proof. solve_decision. Defined.

Record CodeLabel := mkLabel { label_id : Z }.
#[global] Instance CodeLabel_eq_dec : EqDecision CodeLabel.
Proof. solve_decision. Defined.

Inductive OpKind := KRegister | KMemory | KImmediate | KNearBranch.
#[global] Instance OpKind_eq_dec : EqDecision OpKind.
Proof. solve_decision. Defined.

Inductive Operand :=
  | OpNone
  | OpRegister (r : Register)
  | OpMemory (base : Register) (disp : Z)   (* ptr(base + disp) *)
  | OpMemoryLabel (l : CodeLabel)           (* ptr(label) *)
  | OpImmediate (v : Z)
  | OpNearBranch (l : CodeLabel).
#[global] Instance Operand_eq_dec : EqDecision Operand.
Proof. solve_decision. Defined.

Inductive Code :=
  | Push_r64 | Pop_r64 | Push_r32 | Pop_r32
  | Mov_rm64_r64 | Mov_r64_rm64 | Mov_r64_imm64
  | Add_rm64_r64 | Sub_rm64_r64 | Add_rm32_r32 | Sub_rm32_r32
  | Add_rm64_imm32 | Sub_rm64_imm32
  | Call_rm64 | Call_rel32_64 | Retnq | Nopd | DeclareQword | Zero_bytes.
#[global] Instance Code_eq_dec : EqDecision Code.
Proof. solve_decision. Defined.

Record Instruction := mkInstr { code : Code; op0 : Operand; op1 : Operand }.
#[global] Instance Instruction_eq_dec : EqDecision Instruction.
Proof. solve_decision. Defined.

Definition op_kind (o : Operand) : OpKind :=
  match o with
  | OpNone | OpRegister _ => KRegister
  | OpMemory _ _ | OpMemoryLabel _ => KMemory
  | OpImmediate _ => KImmediate
  | OpNearBranch _ => KNearBranch
  end.
Definition op_register (o : Operand) : Register :=
  match o with OpRegister r => r | _ => NoRegister end.
Definition op0_kind (i : Instruction) : OpKind := op_kind (op0 i).
Definition op1_kind (i : Instruction) : OpKind := op_kind (op1 i).
Definition op0_register (i : Instruction) : Register := op_register (op0 i).
Definition op1_register (i : Instruction) : Register := op_register (op1 i).

(** The assembler methods the sources call, by the operands they are called
    with: [push(r)], [pop(r)], [mov(r, r)], [mov(ptr(b + d), r)], ... *)
Definition i_push (r : Register) := mkInstr Push_r64 (OpRegister r) OpNone.
Definition i_pop (r : Register) := mkInstr Pop_r64 (OpRegister r) OpNone.
Definition i_push32 (r : Register) := mkInstr Push_r32 (OpRegister r) OpNone.
Definition i_pop32 (r : Register) := mkInstr Pop_r32 (OpRegister r) OpNone.
Definition i_mov (d s : Register) := mkInstr Mov_rm64_r64 (OpRegister d) (OpRegister s).
Definition i_store (b : Register) (d : Z) (s : Register) :=
  mkInstr Mov_rm64_r64 (OpMemory b d) (OpRegister s).
Definition i_load (d b : Register) (o : Z) :=
  mkInstr Mov_r64_rm64 (OpRegister d) (OpMemory b o).
Definition i_load_label (d : Register) (l : CodeLabel) :=
  mkInstr Mov_r64_rm64 (OpRegister d) (OpMemoryLabel l).
Definition i_mov_imm (d : Register) (v : Z) :=
  mkInstr Mov_r64_imm64 (OpRegister d) (OpImmediate v).
Definition i_add (d s : Register) := mkInstr Add_rm64_r64 (OpRegister d) (OpRegister s).
Definition i_sub (d s : Register) := mkInstr Sub_rm64_r64 (OpRegister d) (OpRegister s).
Definition i_add32 (d s : Register) := mkInstr Add_rm32_r32 (OpRegister d) (OpRegister s).
Definition i_sub32 (d s : Register) := mkInstr Sub_rm32_r32 (OpRegister d) (OpRegister s).
Definition i_add_imm (d : Register) (v : Z) :=
  mkInstr Add_rm64_imm32 (OpRegister d) (OpImmediate v).
Definition i_sub_imm (d : Register) (v : Z) :=
  mkInstr Sub_rm64_imm32 (OpRegister d) (OpImmediate v).
Definition i_call_reg (r : Register) := mkInstr Call_rm64 (OpRegister r) OpNone.
Definition i_call (l : CodeLabel) := mkInstr Call_rel32_64 (OpNearBranch l) OpNone.
Definition i_ret := mkInstr Retnq OpNone OpNone.
Definition i_nop := mkInstr Nopd OpNone OpNone.
Definition i_dq (v : Z) := mkInstr DeclareQword (OpImmediate v) OpNone.
Definition i_zero_bytes := mkInstr Zero_bytes OpNone OpNone.

(** ** Memory *)
Abbreviation memory := (Z -> option Z).

Fixpoint read_bytes (m : memory) (a : Z) (n : nat) : option (list Z) :=
  match n with
  | O => Some []
  | S n => b ← m a; bs ← read_bytes m (a + 1) n; Some (b :: bs)
  end.

Fixpoint write_bytes (m : memory) (a : Z) (bs : list Z) : memory :=
  match bs with
  | [] => m
  | b :: bs => fun x => if decide (x = a) then Some b else write_bytes m (a + 1) bs x
  end.

Definition load64 (m : memory) (a : Z) : option Z := le_word <$> read_bytes m a 8.
Definition store64 (m : memory) (a v : Z) : memory := write_bytes m a (le_bytes 8 v).

Arguments load64 : simpl never.
Arguments store64 : simpl never.

(** The bytes of [lo, hi) become unspecified. *)
Definition forget (lo hi : Z) (m : memory) : memory :=
  fun x => if decide (lo <= x < hi) then None else m x.

Lemma write_bytes_other m a bs x :
  x < a \/ a + Z.of_nat (length bs) <= x -> write_bytes m a bs x = m x.
Proof.
  revert a. induction bs as [|b bs IH]; intros a Hx; simpl in *; [done|].
  rewrite decide_False by lia. apply IH. lia.
Qed.

Lemma read_bytes_ext m m' a n :
  (∀ x, a <= x < a + Z.of_nat n -> m x = m' x) -> read_bytes m a n = read_bytes m' a n.
Proof.
  revert a. induction n as [|n IH]; intros a Hx; simpl; [done|].
  rewrite (Hx a) by lia. rewrite (IH (a + 1)); [done|]. intros. apply Hx. lia.
Qed.

Lemma read_write_bytes m a bs : read_bytes (write_bytes m a bs) a (length bs) = Some bs.
Proof.
  revert a. induction bs as [|b bs IH]; intros a; cbn [read_bytes write_bytes length]; [done|].
  rewrite decide_True by done. simpl.
  erewrite read_bytes_ext; [by rewrite IH|].
  intros x Hx. cbv beta. by rewrite decide_False by lia.
Qed.

Lemma store64_other m a v x : x < a \/ a + 8 <= x -> store64 m a v x = m x.
Proof. intros. apply write_bytes_other. rewrite length_le_bytes. lia. Qed.

Lemma load64_ext m m' a :
  (∀ x, a <= x < a + 8 -> m x = m' x) -> load64 m a = load64 m' a.
Proof. intros H. unfold load64. f_equal. by apply read_bytes_ext. Qed.

Lemma load_store_same m a v : load64 (store64 m a v) a = Some (wrap64 v).
Proof.
  unfold load64, store64. rewrite <- (length_le_bytes 8 v) at 2.
  rewrite read_write_bytes. simpl fmap. f_equal. apply (le_word_le_bytes 8).
Qed.

Lemma load_store_other m a b v :
  b + 8 <= a \/ a + 8 <= b -> load64 (store64 m a v) b = load64 m b.
Proof. intros. apply load64_ext. intros. apply store64_other. lia. Qed.

Lemma forget_other lo hi m x : x < lo \/ hi <= x -> forget lo hi m x = m x.
Proof. intros. unfold forget. by rewrite decide_False by lia. Qed.

Lemma load_forget_other lo hi m a :
  a + 8 <= lo \/ hi <= a -> load64 (forget lo hi m) a = load64 m a.
Proof. intros. apply load64_ext. intros. apply forget_other. lia. Qed.

(** ** Machine states and single instructions *)
Record state := mkState { regs : Register -> Z; rip : Z; mem : memory }.

Definition set_regs (f : Register -> Z) (r : Register) (v : Z) : Register -> Z :=
  fun r' => if decide (r' = r) then v else f r'.

Lemma set_regs_eq f r v : set_regs f r v r = v.
Proof. unfold set_regs. by rewrite decide_True. Qed.

Lemma set_regs_ne f r v r' : r' <> r -> set_regs f r v r' = f r'.
Proof. intros. unfold set_regs. by rewrite decide_False. Qed.

(** Evaluate register look-ups after writes to concrete registers. *)
Ltac regs_simpl :=
  repeat match goal with
  | |- context [set_regs ?f ?r ?v ?r] => rewrite (set_regs_eq f r v)
  | |- context [set_regs ?f ?r ?v ?r'] => rewrite (set_regs_ne f r v r') by (discriminate || done)
  | H : context [set_regs ?f ?r ?v ?r] |- _ => rewrite (set_regs_eq f r v) in H
  | H : context [set_regs ?f ?r ?v ?r'] |- _ =>
      rewrite (set_regs_ne f r v r') in H by (discriminate || done)
  end.

(** A register write.  Lowering the stack pointer exposes unspecified bytes. *)
Definition set_reg (r : Register) (v : Z) (s : state) : state :=
  mkState (set_regs (regs s) r v) (rip s)
    (if decide (r = RSP) then forget v (regs s RSP) (mem s) else mem s).

Definition push_val (v : Z) (s : state) : option state :=
  let sp := regs s RSP - 8 in
  if decide (0 <= sp) then
    Some (mkState (set_regs (regs s) RSP sp) (rip s) (store64 (mem s) sp v))
  else None.

Definition pop_val (s : state) : option (Z * state) :=
  let sp := regs s RSP in
  if decide (sp + 8 < 2 ^ 64) then
    v ← load64 (mem s) sp; Some (v, mkState (set_regs (regs s) RSP (sp + 8)) (rip s) (mem s))
  else None.

(** The address of a memory operand; [None] when the access leaves the address
    space or reaches below the stack pointer. *)
Definition address (b : Register) (d : Z) (s : state) : option Z :=
  let a := wrap64 (regs s b + d) in
  if decide (regs s RSP <= a /\ a + 8 <= 2 ^ 64) then Some a else None.

Arguments push_val : simpl never.
Arguments pop_val : simpl never.
Arguments address : simpl never.

(** What lies outside a function's own code, its callees and the import table,
    is an environment: the effect of a call instruction, up to the return, and
    of a load from a labelled quadword. *)
Class Env := { ext_step : Instruction -> state -> option state }.

Create Rewrite HintDb x86.

Section Step.
Context `{Env}.

(** One instruction other than a return. *)
Definition step (i : Instruction) (s : state) : option state :=
  match code i, op0 i, op1 i with
  | Push_r64, OpRegister r, _ => push_val (regs s r) s
  | Pop_r64, OpRegister r, _ => '(v, s') ← pop_val s; Some (set_reg r v s')
  | Mov_rm64_r64, OpRegister d, OpRegister r => Some (set_reg d (regs s r) s)
  | Mov_rm64_r64, OpMemory b o, OpRegister r =>
      a ← address b o s; Some (mkState (regs s) (rip s) (store64 (mem s) a (regs s r)))
  | Mov_r64_rm64, OpRegister d, OpMemory b o =>
      a ← address b o s; v ← load64 (mem s) a; Some (set_reg d v s)
  | Mov_r64_imm64, OpRegister d, OpImmediate v => Some (set_reg d (wrap64 v) s)
  | Add_rm64_r64, OpRegister d, OpRegister r =>
      Some (set_reg d (wrap64 (regs s d + regs s r)) s)
  | Sub_rm64_r64, OpRegister d, OpRegister r =>
      Some (set_reg d (wrap64 (regs s d - regs s r)) s)
  | Add_rm64_imm32, OpRegister d, OpImmediate v => Some (set_reg d (wrap64 (regs s d + v)) s)
  | Sub_rm64_imm32, OpRegister d, OpImmediate v => Some (set_reg d (wrap64 (regs s d - v)) s)
  | Nopd, _, _ | Zero_bytes, _, _ => Some s
  | Call_rm64, OpRegister _, _ | Call_rel32_64, OpNearBranch _, _
  | Mov_r64_rm64, OpRegister _, OpMemoryLabel _ => ext_step i s
  | _, _, _ => None
  end.

Fixpoint exec (l : list Instruction) (s : state) : option state :=
  match l with
  | [] => Some s
  | i :: l => s' ← step i s; exec l s'
  end.

Definition ret_step (s : state) : option state :=
  '(v, s') ← pop_val s; Some (mkState (regs s') v (mem s')).

(** Execution from a function's entry up to and including its first [ret]. *)
Fixpoint run (l : list Instruction) (s : state) : option state :=
  match l with
  | [] => None
  | i :: l => if decide (i = i_ret) then ret_step s else s' ← step i s; run l s'
  end.
End Step.

(** The instructions the compiler emits, one by one. *)
Section StepEquations.
Context `{Env}.
Lemma step_push r s : step (i_push r) s = push_val (regs s r) s.
Proof. reflexivity. Qed.
Lemma step_pop r s : step (i_pop r) s = ('(v, s') ← pop_val s; Some (set_reg r v s')).
Proof. reflexivity. Qed.
Lemma step_mov_reg d r s : step (i_mov d r) s = Some (set_reg d (regs s r) s).
Proof. reflexivity. Qed.
Lemma step_store b o r s : step (i_store b o r) s =
  (a ← address b o s; Some (mkState (regs s) (rip s) (store64 (mem s) a (regs s r)))).
Proof. reflexivity. Qed.
Lemma step_load d b o s : step (i_load d b o) s =
  (a ← address b o s; v ← load64 (mem s) a; Some (set_reg d v s)).
Proof. reflexivity. Qed.
Lemma step_mov_imm d v s : step (i_mov_imm d v) s = Some (set_reg d (wrap64 v) s).
Proof. reflexivity. Qed.
Lemma step_add d r s : step (i_add d r) s = Some (set_reg d (wrap64 (regs s d + regs s r)) s).
Proof. reflexivity. Qed.
Lemma step_sub d r s : step (i_sub d r) s = Some (set_reg d (wrap64 (regs s d - regs s r)) s).
Proof. reflexivity. Qed.
Lemma step_add_imm d v s : step (i_add_imm d v) s = Some (set_reg d (wrap64 (regs s d + v)) s).
Proof. reflexivity. Qed.
Lemma step_sub_imm d v s : step (i_sub_imm d v) s = Some (set_reg d (wrap64 (regs s d - v)) s).
Proof. reflexivity. Qed.
Lemma step_nop s : step i_nop s = Some s.
Proof. reflexivity. Qed.
Lemma exec_nil s : exec [] s = Some s.
Proof. reflexivity. Qed.
Lemma exec_cons i l s : exec (i :: l) s = (s' ← step i s; exec l s').
Proof. reflexivity. Qed.
End StepEquations.
#[export] Hint Rewrite @step_push @step_pop @step_mov_reg @step_store @step_load @step_mov_imm
  @step_add @step_sub @step_add_imm @step_sub_imm @step_nop @exec_nil @exec_cons : x86.

(** Execute the next instruction of a sequence by the equation [E] for it. *)
Ltac exec_by E := rewrite exec_cons, E; cbn [mbind option_bind].

(** The environment in which nothing can be called. *)
Definition no_env : Env := {| ext_step _ _ := None |}.

(** ** Observational equality of states

    Two states are equivalent when they agree on every register and on the
    memory from the stack pointer upwards. *)
#[global] Instance state_equiv : Equiv state := fun s t =>
  (∀ r, regs s r = regs t r) /\ rip s = rip t /\
  (∀ x, regs s RSP <= x -> mem s x = mem t x).

#[global] Instance state_equivalence : Equivalence (≡@{state}).
Proof.
  split.
  - intros s. by repeat split.
  - intros s t (Hr & Hi & Hm). repeat split; [done..|].
    intros x Hx. symmetry. apply Hm. by rewrite Hr.
  - intros s t u (Hr & Hi & Hm) (Hr' & Hi' & Hm'). repeat split.
    + intros r. by rewrite Hr.
    + by rewrite Hi.
    + intros x Hx. rewrite Hm by done. apply Hm'. by rewrite <- Hr.
Qed.

Lemma set_reg_proper r v s t : s ≡ t -> set_reg r v s ≡ set_reg r v t.
Proof.
  intros (Hr & Hi & Hm). split; [|split]; simpl.
  - intros r'. unfold set_regs. by case_decide.
  - done.
  - unfold set_regs. intros x. destruct (decide (r = RSP)) as [->|Hne].
    + rewrite decide_True by done. intros Hx. unfold forget. rewrite <- Hr.
      case_decide; [done|]. apply Hm. lia.
    + rewrite decide_False by done. apply Hm.
Qed.

Lemma load64_proper s t a : s ≡ t -> regs s RSP <= a -> load64 (mem s) a = load64 (mem t) a.
Proof. intros (_ & _ & Hm) Ha. apply load64_ext. intros. apply Hm. lia. Qed.

Lemma store64_ext m m' a v x :
  m x = m' x \/ a <= x < a + 8 -> store64 m a v x = store64 m' a v x.
Proof.
  unfold store64. change 8 with (Z.of_nat 8). rewrite <- (length_le_bytes 8 v) at 1.
  generalize (le_bytes 8 v). intros bs. revert a.
  induction bs as [|b bs IH]; intros a; cbn [length write_bytes]; intros H.
  - destruct H as [H|H]; [done|simpl in H; lia].
  - case_decide; [done|]. apply IH. destruct H as [H|H]; [by left|right; lia].
Qed.

#[global] Instance push_val_proper v : Proper ((≡) ==> (≡)) (push_val v).
Proof.
  intros s t (Hr & Hi & Hm). unfold push_val. rewrite <- (Hr RSP).
  case_decide; constructor. split; [|split]; simpl.
  - intros r. unfold set_regs. by case_decide.
  - done.
  - unfold set_regs. rewrite decide_True by done. intros x Hx. apply store64_ext.
    destruct (decide (x < regs s RSP)); [right; lia|left; apply Hm; lia].
Qed.

#[global] Instance address_proper b d : Proper ((≡) ==> (=)) (address b d).
Proof. intros s t (Hr & _). unfold address. by rewrite !Hr. Qed.

(** A pop gives equivalent states equal values. *)
Lemma pop_val_proper s t v s' :
  s ≡ t -> pop_val s = Some (v, s') -> ∃ t', pop_val t = Some (v, t') /\ s' ≡ t'.
Proof.
  intros Hst. pose proof Hst as (Hr & Hi & Hm). unfold pop_val. rewrite <- (Hr RSP).
  case_decide; [|done]. rewrite <- (load64_proper s t) by done.
  destruct (load64 _ _) as [w|]; [|done]. intros [= <- <-]. eexists; split; [done|].
  split; [|split]; simpl; [|done|].
  - intros r. unfold set_regs. by case_decide.
  - unfold set_regs. rewrite decide_True by done. intros. apply Hm. lia.
Qed.

Lemma pop_val_proper_None s t : s ≡ t -> pop_val s = None -> pop_val t = None.
Proof.
  intros Hst H. destruct (pop_val t) as [[v t']|] eqn:E; [|done].
  destruct (pop_val_proper t s v t') as (? & ? & _); [by symmetry|done|congruence].
Qed.

(** ** Well-formed states: registers hold 64-bit values, memory holds bytes *)
Record wf (s : state) : Prop := {
  wf_regs r : 0 <= regs s r < 2 ^ 64;
  wf_mem x b : mem s x = Some b -> 0 <= b < 256 }.

(** What the environment owes the code: it observes no more than the code does,
    and it hands back a well-formed state. *)
Class EnvLaws `{Env} : Prop := {
  ext_step_proper i :: Proper ((≡) ==> (≡)) (ext_step i);
  ext_step_wf i s s' : wf s -> ext_step i s = Some s' -> wf s' }.

#[global] Instance no_env_laws : @EnvLaws no_env.
Proof. split; [|done]. intros i s t _. constructor. Qed.

Section Equivalence.
Context `{EnvLaws}.

(** Every instruction respects the equivalence: no emitted code can observe
    what lies below the stack pointer. *)
#[global] Instance step_proper i : Proper ((≡) ==> (≡)) (step i).
Proof.
  intros s t Hst. pose proof Hst as (Hr & Hi & Hm). unfold step.
  destruct (code i), (op0 i); try (by constructor); try (by apply ext_step_proper).
  - rewrite Hr. by apply push_val_proper.
  - destruct (pop_val s) as [[v s']|] eqn:E.
    + destruct (pop_val_proper s t v s') as (t' & -> & Hst'); [done..|].
      constructor. by apply set_reg_proper.
    + rewrite (pop_val_proper_None s t) by done. constructor.
  - destruct (op1 i); try by constructor. rewrite Hr. constructor. by apply set_reg_proper.
  - destruct (op1 i); try by constructor. rewrite (address_proper _ _ _ _ Hst).
    destruct (address _ _ t) as [a|]; simpl; constructor. rewrite Hr.
    split; [|split]; simpl; [done..|]. intros x Hx. apply store64_ext. left. by apply Hm.
  - destruct (op1 i); try (by constructor); try (by apply ext_step_proper).
    rewrite (address_proper _ _ _ _ Hst).
    destruct (address _ _ t) as [a|] eqn:Ha; simpl; [|constructor].
    rewrite (load64_proper s t); [|done|].
    + destruct (load64 _ _); constructor. by apply set_reg_proper.
    + unfold address in Ha. rewrite (Hr RSP). case_decide; simplify_eq; lia.
  - destruct (op1 i); try by constructor. constructor. by apply set_reg_proper.
  - destruct (op1 i); try by constructor. rewrite !Hr. constructor. by apply set_reg_proper.
  - destruct (op1 i); try by constructor. rewrite !Hr. constructor. by apply set_reg_proper.
  - destruct (op1 i); try by constructor. rewrite !Hr. constructor. by apply set_reg_proper.
  - destruct (op1 i); try by constructor. rewrite !Hr. constructor. by apply set_reg_proper.
Qed.

#[global] Instance exec_proper l : Proper ((≡) ==> (≡)) (exec l).
Proof.
  induction l as [|i l IH]; intros s t Hst; simpl; [by constructor|].
  destruct (step_proper i s t Hst); [by apply IH|constructor].
Qed.

#[global] Instance ret_step_proper : Proper ((≡) ==> (≡)) ret_step.
Proof.
  intros s t Hst. unfold ret_step. destruct (pop_val s) as [[v s']|] eqn:E; simpl.
  - destruct (pop_val_proper s t v s') as (t' & -> & Hr & Hi & Hm); [done..|].
    constructor. by repeat split.
  - rewrite (pop_val_proper_None s t) by done. constructor.
Qed.

#[global] Instance run_proper l : Proper ((≡) ==> (≡)) (run l).
Proof.
  induction l as [|i l IH]; intros s t Hst; simpl; [constructor|].
  case_decide; [by apply ret_step_proper|].
  destruct (step_proper i s t Hst); [by apply IH|constructor].
Qed.

Lemma exec_app l1 l2 s : exec (l1 ++ l2) s = (s' ← exec l1 s; exec l2 s').
Proof.
  revert s. induction l1 as [|i l1 IH]; intros s; simpl; [done|].
  destruct (step i s); [apply IH|done].
Qed.

Lemma run_app l1 l2 s : i_ret ∉ l1 -> run (l1 ++ l2) s = (s' ← exec l1 s; run l2 s').
Proof.
  revert s. induction l1 as [|i l1 IH]; intros s Hl; simpl; [done|].
  apply not_elem_of_cons in Hl as [? ?]. rewrite decide_False by done.
  destruct (step i s); [by apply IH|done].
Qed.

End Equivalence.

Lemma read_bytes_range m a n bs :
  (∀ x b, m x = Some b -> 0 <= b < 256) -> read_bytes m a n = Some bs ->
  length bs = n /\ Forall (fun b => 0 <= b < 256) bs.
Proof.
  intros Hm. revert a bs. induction n as [|n IH]; intros a bs; simpl.
  - by intros [= <-].
  - destruct (m a) eqn:E; [|done]. destruct (read_bytes m (a + 1) n) eqn:E'; [|done].
    intros [= <-]. apply IH in E' as [<- ?]. split; [done|]. constructor; eauto.
Qed.

Lemma le_word_range bs :
  Forall (fun b => 0 <= b < 256) bs -> 0 <= le_word bs < 256 ^ Z.of_nat (length bs).
Proof.
  intros H. rewrite <- (le_bytes_le_word bs) at 1 2 by done.
  rewrite le_word_le_bytes. apply Z.mod_pos_bound. lia.
Qed.

Lemma load64_range s a v : wf s -> load64 (mem s) a = Some v -> 0 <= v < 2 ^ 64.
Proof.
  intros [_ Hm] (bs & Hrd & ->)%fmap_Some. apply read_bytes_range in Hrd as [Hl Hb]; [|done].
  apply le_word_range in Hb. by rewrite Hl in Hb.
Qed.

Lemma store64_range m a v x b :
  (∀ x b, m x = Some b -> 0 <= b < 256) -> store64 m a v x = Some b -> 0 <= b < 256.
Proof.
  intros Hm. unfold store64. pose proof (le_bytes_range 8 v) as Hb. revert Hb a.
  generalize (le_bytes 8 v). intros bs. induction 1; intros a; cbn [write_bytes]; [apply Hm|].
  case_decide; [by intros [= <-]|eauto].
Qed.

Lemma set_regs_wf s r v r' :
  wf s -> 0 <= v < 2 ^ 64 -> 0 <= set_regs (regs s) r v r' < 2 ^ 64.
Proof. intros [Hr _] ?. unfold set_regs. case_decide; [done|apply Hr]. Qed.

Lemma set_reg_wf r v s : wf s -> 0 <= v < 2 ^ 64 -> wf (set_reg r v s).
Proof.
  intros Hs Hv. split; simpl.
  - intros. by apply set_regs_wf.
  - intros x b. case_decide; [|apply (wf_mem s Hs)].
    unfold forget. case_decide; [done|apply (wf_mem s Hs)].
Qed.

Lemma push_val_wf v s s' : wf s -> push_val v s = Some s' -> wf s'.
Proof.
  intros Hs. pose proof (wf_regs s Hs RSP). unfold push_val. case_decide; [|done].
  intros [= <-]. split; simpl.
  - intros. apply set_regs_wf; [done|lia].
  - intros x b. apply store64_range, (wf_mem s Hs).
Qed.

Lemma pop_val_wf s v s' : wf s -> pop_val s = Some (v, s') -> wf s' /\ 0 <= v < 2 ^ 64.
Proof.
  intros Hs. pose proof (wf_regs s Hs RSP). unfold pop_val. case_decide; [|done].
  destruct (load64 _ _) eqn:E; [|done]. intros [= <- <-].
  split; [|by eapply load64_range]. split; simpl; [|apply (wf_mem s Hs)].
  intros. apply set_regs_wf; [done|lia].
Qed.

Section WellFormed.
Context `{EnvLaws}.

Lemma step_wf i s s' : wf s -> step i s = Some s' -> wf s'.
Proof.
  intros Hs. pose proof (wf_regs s Hs) as Hr. unfold step.
  destruct (code i), (op0 i); try done; try (by intros [= <-]); try (by apply ext_step_wf);
    try match goal with |- context [op1 i] => destruct (op1 i); try done; try (by apply ext_step_wf) end;
    try (intros [= <-]; apply set_reg_wf; auto using wrap64_range; done).
  - by apply push_val_wf.
  - destruct (pop_val s) as [[v s1]|] eqn:E; [|done]. intros [= <-].
    apply pop_val_wf in E as []; [|done]. by apply set_reg_wf.
  - destruct (address _ _ _); [|done]. intros [= <-]. split; simpl; [done|].
    intros x b. apply store64_range, (wf_mem s Hs).
  - destruct (address _ _ _); [|done]. simpl. destruct (load64 _ _) eqn:E; [|done].
    intros [= <-]. apply set_reg_wf; [done|]. by eapply load64_range.
Qed.

Lemma exec_wf l s s' : wf s -> exec l s = Some s' -> wf s'.
Proof.
  revert s. induction l as [|i l IH]; intros s Hs; simpl; [by intros [= <-]|].
  destruct (step i s) eqn:E; [|done]. apply IH. by eapply step_wf.
Qed.

Lemma ret_step_wf s s' : wf s -> ret_step s = Some s' -> wf s'.
Proof.
  intros Hs. unfold ret_step. destruct (pop_val s) as [[v s1]|] eqn:E; [|done]. intros [= <-].
  apply pop_val_wf in E as [[] ?]; [|done]. by split.
Qed.

Lemma run_wf l s s' : wf s -> run l s = Some s' -> wf s'.
Proof.
  revert s. induction l as [|i l IH]; intros s Hs; simpl; [done|]. case_decide; [by apply ret_step_wf|].
  destruct (step i s) eqn:E; [|done]. apply IH. by eapply step_wf.
Qed.

(** A run has returned; more code behind it is not executed. *)
Lemma run_more l k s s' : run l s = Some s' -> run (l ++ k) s = Some s'.
Proof.
  revert s. induction l as [|i l IH]; intros s; simpl; [done|]. case_decide; [done|].
  destruct (step i s); [by apply IH|done].
Qed.
End WellFormed.
#[export] Hint Resolve step_wf exec_wf set_reg_wf push_val_wf wrap64_range : paraos.

(** A concrete state: a stack at 4096 in zeroed memory. *)
Definition sample_state : state :=
  mkState (fun r => match r with RSP => 4096 | RBP => 5000 | RDI => 52 | RSI => 10 | _ => 7 end)
    0 (fun _ => Some 0).

Lemma sample_state_wf : wf sample_state.
Proof. split; [intros []; simpl; lia|]. intros x b [= <-]. lia. Qed.
