(* ===== verification/Assembler.v ===== *)
(** * The assembler interface

    [iced_x86::code_asm::CodeAssembler] is a third-party component: the
    compiler is written against the interface [Assembler], and its theorems use
    only [AssemblerLaws], the documented behaviour of that interface.  The
    instance [BufferAssembler] at the end shows that the laws can be met. *)
From S2P Require Import Prelude X86.

(** What 64-bit mode can encode: the 32-bit forms of push and pop exist in 16-
    and 32-bit code only. *)
Definition encodable (i : Instruction) : bool :=
  match code i with Push_r32 | Pop_r32 => false | _ => true end.

(** ** Operations

    [A] is the assembler's state and [E] is [IcedError].  All the emitting
    methods ([push], [mov], [dq], [zero_bytes], [add_instruction], ...) are
    [asm_add] of the instruction they build. *)
Class Assembler (A E : Type) := {
  asm_new : Z -> E + A;
  asm_instructions : A -> list Instruction;
  asm_add : A -> Instruction -> E + A;
  instr_with2_rr : Code -> Register -> Register -> E + Instruction;
  instr_with2_ri : Code -> Register -> Z -> E + Instruction;
  asm_take_instructions : A -> list Instruction * A;
  asm_create_label : A -> CodeLabel * A;
  asm_set_label : A -> CodeLabel -> E + A;
  (* assemble_options(0, RETURN_NEW_INSTRUCTION_OFFSETS)?.label_ip(label)? *)
  asm_label_ip : A -> CodeLabel -> E + Z;
  asm_assemble : A -> E + list Z;
  (* the number of bytes an instruction is encoded in *)
  instr_size : Instruction -> Z;
  (* the position a label was set at, whether a label waits for its
     instruction, and the identity of the next label *)
  asm_bound : A -> CodeLabel -> option nat;
  asm_pending : A -> bool;
  asm_next_label : A -> Z }.

(** The offset at which the instruction after [l] starts. *)
Definition code_size `{Assembler A E} (l : list Instruction) : Z :=
  foldr (fun i n => instr_size i + n) 0 l.

(** ** Documented behaviour *)
Class AssemblerLaws (A E : Type) `{Assembler A E} : Prop := {
  law_new : ∃ a, asm_new 64 = inr a /\ asm_instructions a = [] /\
    asm_pending a = false /\ (∀ l, asm_bound a l = None);
  law_add a i : ∃ a', asm_add a i = inr a' /\
    asm_instructions a' = asm_instructions a ++ [i] /\
    asm_pending a' = false /\ (∀ l, asm_bound a' l = asm_bound a l) /\
    asm_next_label a' = asm_next_label a;
  law_with2_mov d r : instr_with2_rr Mov_rm64_r64 d r = inr (i_mov d r);
  law_with2_sub r v : 0 <= v < 2 ^ 31 -> instr_with2_ri Sub_rm64_imm32 r v = inr (i_sub_imm r v);
  law_with2_add r v : 0 <= v < 2 ^ 31 -> instr_with2_ri Add_rm64_imm32 r v = inr (i_add_imm r v);
  law_take a : ∃ a', asm_take_instructions a = (asm_instructions a, a') /\
    asm_instructions a' = [] /\ asm_pending a' = false /\
    (∀ l, asm_bound a' l = asm_bound a l);
  law_create_label a : ∃ a', asm_create_label a = (mkLabel (asm_next_label a), a') /\
    asm_instructions a' = asm_instructions a /\ asm_pending a' = asm_pending a /\
    (∀ l, asm_bound a' l = asm_bound a l) /\ asm_next_label a' = asm_next_label a + 1;
  law_set_label a l : asm_pending a = false -> asm_bound a l = None ->
    ∃ a', asm_set_label a l = inr a' /\
    asm_instructions a' = asm_instructions a /\ asm_pending a' = true /\
    asm_bound a' l = Some (length (asm_instructions a)) /\
    (∀ l', l' <> l -> asm_bound a' l' = asm_bound a l') /\
    asm_next_label a' = asm_next_label a;
  law_label_ip a l n ip : asm_label_ip a l = inr ip -> asm_bound a l = Some n ->
    ip = code_size (take n (asm_instructions a));
  law_assemble a bs : asm_assemble a = inr bs ->
    Z.of_nat (length bs) = code_size (asm_instructions a);
  law_assemble_dq a bs n v : asm_assemble a = inr bs ->
    asm_instructions a !! n = Some (i_dq v) ->
    take 8 (drop (Z.to_nat (code_size (take n (asm_instructions a)))) bs) = le_bytes 8 v;
  law_assemble_err a i : i ∈ asm_instructions a -> encodable i = false ->
    ∃ e, asm_assemble a = inl e;
  law_size_nonneg i : 0 <= instr_size i;
  law_size_zero_bytes : instr_size i_zero_bytes = 0;
  law_size_dq v : instr_size (i_dq v) = 8 }.

(** ** A reference implementation *)
Module BufferAssembler.
Record buffer := mkBuffer {
  b_instrs : list Instruction; b_bound : list (CodeLabel * nat);
  b_pending : bool; b_next : Z }.

Inductive error := BadBitness | BadOperands | LabelReused | LabelNotSet | NotEncodable.

Definition lookup_label (l : CodeLabel) (m : list (CodeLabel * nat)) : option nat :=
  find_map (fun '(l', n) => if decide (l' = l) then Some n else None) m.

(** A toy encoding: quadwords as they are, one byte for the rest. *)
Definition encode (i : Instruction) : list Z :=
  match code i, op0 i with
  | DeclareQword, OpImmediate v => le_bytes 8 v
  | Zero_bytes, _ => []
  | _, _ => [144]
  end.
Definition size (i : Instruction) : Z := Z.of_nat (length (encode i)).
Definition sizes (l : list Instruction) : Z := foldr (fun i n => size i + n) 0 l.

#[global] Instance buffer_assembler : Assembler buffer error := {
  asm_new b := if decide (b ∈ [16; 32; 64]) then inr (mkBuffer [] [] false 1) else inl BadBitness;
  asm_instructions := b_instrs;
  asm_add a i := inr (mkBuffer (b_instrs a ++ [i]) (b_bound a) false (b_next a));
  instr_with2_rr c d r :=
    match c with Mov_rm64_r64 => inr (i_mov d r) | _ => inl BadOperands end;
  instr_with2_ri c r v :=
    if decide (0 <= v < 2 ^ 31) then
      match c with
      | Sub_rm64_imm32 => inr (i_sub_imm r v)
      | Add_rm64_imm32 => inr (i_add_imm r v)
      | _ => inl BadOperands
      end
    else inl BadOperands;
  asm_take_instructions a := (b_instrs a, mkBuffer [] (b_bound a) false (b_next a));
  asm_create_label a :=
    (mkLabel (b_next a), mkBuffer (b_instrs a) (b_bound a) (b_pending a) (b_next a + 1));
  asm_set_label a l :=
    if b_pending a then inl LabelReused
    else match lookup_label l (b_bound a) with
         | Some _ => inl LabelReused
         | None => inr (mkBuffer (b_instrs a) ((l, length (b_instrs a)) :: b_bound a) true (b_next a))
         end;
  asm_label_ip a l :=
    if negb (forallb encodable (b_instrs a)) then inl NotEncodable
    else match lookup_label l (b_bound a) with
         | Some n => if decide (n < length (b_instrs a))%nat
                     then inr (sizes (take n (b_instrs a))) else inl LabelNotSet
         | None => inl LabelNotSet
         end;
  asm_assemble a :=
    if forallb encodable (b_instrs a) then inr (concat (map encode (b_instrs a)))
    else inl NotEncodable;
  instr_size := size;
  asm_bound a l := lookup_label l (b_bound a);
  asm_pending := b_pending;
  asm_next_label := b_next }.

Lemma length_encode_all l : Z.of_nat (length (concat (map encode l))) = sizes l.
Proof.
  induction l as [|i l IH]; simpl; [done|].
  rewrite length_app, Nat2Z.inj_add, IH. reflexivity.
Qed.

Lemma encode_at l n v :
  l !! n = Some (i_dq v) ->
  take 8 (drop (Z.to_nat (sizes (take n l))) (concat (map encode l))) = le_bytes 8 v.
Proof.
  intros H. rewrite <- (take_drop_middle l n _ H) at 2.
  rewrite map_app, concat_app, <- length_encode_all, Nat2Z.id.
  rewrite drop_app_length. cbn [map concat]. rewrite take_app_le by done. done.
Qed.

Lemma lookup_label_cons l n m l' :
  lookup_label l' ((l, n) :: m) = if decide (l = l') then Some n else lookup_label l' m.
Proof. unfold lookup_label. simpl. by case_decide. Qed.

#[global] Instance buffer_laws : AssemblerLaws buffer error.
Proof.
  split; cbn -[lookup_label encodable]; intros; eauto 10.
  - by rewrite decide_True.
  - by rewrite decide_True.
  - rewrite H, H0. eexists. split; [done|]. cbn -[lookup_label].
    rewrite lookup_label_cons, decide_True by done. repeat split.
    intros l' Hl. by rewrite lookup_label_cons, decide_False.
  - rewrite H0 in H. repeat case_match; by simplify_eq.
  - case_match; simplify_eq. apply length_encode_all.
  - case_match; simplify_eq. by apply encode_at.
  - case_match; [|eauto]. exfalso.
    eapply forallb_forall in H1; [|by apply list_elem_of_In]. congruence.
  - unfold size. lia.
Qed.
End BufferAssembler.

(** ** Errors of the compiler and emission

    [Error] is the compiler's error type, over wasmparser's [BinaryReaderError]
    [B] and iced's [IcedError] [E]; [?] converts either into it. *)
Inductive Error (B E : Type) :=
  | WasmReaderError (e : B)
  | AssemblerError (e : E).
Arguments WasmReaderError {B E} e.
Arguments AssemblerError {B E} e.

Section Emission.
Context {A E B : Type} `{Assembler A E}.

(** [assembler.<method>(...)?] *)
Definition emit (i : Instruction) (a : A) : Res (Error B E) A :=
  map_err AssemblerError (of_sum (asm_add a i)).

Definition asm_call {X} (r : E + X) : Res (Error B E) X := map_err AssemblerError (of_sum r).

(** [a'] is [a] after the instructions [l] were added. *)
Record extends (a a' : A) (l : list Instruction) : Prop := {
  ext_instrs : asm_instructions a' = asm_instructions a ++ l;
  ext_bound lb : asm_bound a' lb = asm_bound a lb;
  ext_next : asm_next_label a' = asm_next_label a;
  ext_pending : asm_pending a = false -> asm_pending a' = false }.

Lemma extends_refl a : extends a a [].
Proof. split; auto. by rewrite app_nil_r. Qed.

Lemma extends_trans a1 a2 a3 l1 l2 :
  extends a1 a2 l1 -> extends a2 a3 l2 -> extends a1 a3 (l1 ++ l2).
Proof.
  intros [H1 ? ? ?] [H2 ? ? ?]. split; auto.
  - by rewrite H2, H1, app_assoc.
  - congruence.
  - congruence.
Qed.

Lemma extends_cons a1 a2 a3 i l :
  extends a1 a2 [i] -> extends a2 a3 l -> extends a1 a3 (i :: l).
Proof. apply (extends_trans a1 a2 a3 [i] l). Qed.

Context `{!AssemblerLaws A E}.

Lemma emit_spec i a : ∃ a', emit i a = Ok a' /\ extends a a' [i].
Proof.
  destruct (law_add a i) as (a' & Ha & ? & ? & ? & ?). exists a'.
  unfold emit. rewrite Ha. split; [done|]. by split.
Qed.

Lemma emit_extends i a a' : emit i a = Ok a' -> extends a a' [i].
Proof. destruct (emit_spec i a) as (a1 & -> & ?). by intros <-%Ok_inj. Qed.

(** A [for] loop each of whose iterations emits a known list of instructions. *)
Lemma for_each_emits {X} (body : X -> A -> Res (Error B E) A) (code : X -> list Instruction) l a :
  (∀ x a, x ∈ l -> ∃ a', body x a = Ok a' /\ extends a a' (code x)) ->
  ∃ a', for_each body l a = Ok a' /\ extends a a' (concat (map code l)).
Proof.
  revert a. induction l as [|x l IH]; intros a Hb; simpl.
  - exists a. split; [done|apply extends_refl].
  - destruct (Hb x a) as (a1 & -> & H1); [apply list_elem_of_here|].
    destruct (IH a1) as (a2 & Ha2 & H2).
    { intros. apply Hb. by apply list_elem_of_further. }
    exists a2. split; [done|]. by eapply extends_trans.
Qed.
End Emission.

(** Run the next [emit] of a goal [∃ a', (a ← emit i a; ...) = Ok a' /\ ...]. *)
Ltac emit_step :=
  match goal with
  | |- context [@emit ?A ?E ?B ?H ?i ?a] =>
      let a' := fresh "a" in let He := fresh "Hemit" in let Hx := fresh "Hext" in
      destruct (@emit_spec A E B H _ i a) as (a' & He & Hx); rewrite He;
      repeat rewrite res_bind_ok
  end.

(** Close [extends a a' code] from the steps' [extends] facts. *)
Ltac extends_tac :=
  first [ assumption | apply extends_refl
        | eapply extends_cons; [eassumption|extends_tac] ].
