(* ===== verification/Calls.v ===== *)
(** * The machine with calls

    [X86] leaves the effect of a call and of a load from an import slot to an
    environment.  Here that environment is a machine: code lies at addresses, the
    code of a module refers to addresses through its labels, a call pushes an
    opaque return address and runs the code at its target up to the return to
    that address.  The depth of calls is bounded by fuel. *)
From S2P Require Import Prelude X86.

(** The labels of a loaded module: the addresses its branch labels stand for and
    the values of its import slots. *)
Record loaded := mkLoaded {
  label_addr : CodeLabel -> option Z;
  slot_value : CodeLabel -> option Z }.

Section Machine.
(** [code_at a] is the code from address [a] on with the module it belongs to;
    [site i sp] is the return address the call [i] pushes. *)
Context (code_at : Z -> option (loaded * list Instruction)) (site : Instruction -> Z -> Z).

Definition return_address (i : Instruction) (s : state) : Z := wrap64 (site i (regs s RSP)).

(** Call the code at [a]: [run_callee] runs it. *)
Definition enter (run_callee : loaded -> list Instruction -> state -> option state)
    (i : Instruction) (a : Z) (s : state) : option state :=
  '(M, code) ← code_at a;
  s1 ← push_val (return_address i s) s;
  s2 ← run_callee M code s1;
  if decide (rip s2 = return_address i s) then Some (mkState (regs s2) (rip s) (mem s2)) else None.

Definition machine_step (run_callee : loaded -> list Instruction -> state -> option state) (M : loaded)
    (i : Instruction) (s : state) : option state :=
  match code i, op0 i, op1 i with
  | Call_rel32_64, OpNearBranch l, _ => a ← label_addr M l; enter run_callee i a s
  | Call_rm64, OpRegister r, _ => enter run_callee i (regs s r) s
  | Mov_r64_rm64, OpRegister d, OpMemoryLabel l => v ← slot_value M l; Some (set_reg d (wrap64 v) s)
  | _, _, _ => None
  end.

(** The environment of the code of [M] with [fuel] nested calls left. *)
Fixpoint machine (fuel : nat) (M : loaded) : Env := {|
  ext_step := machine_step
    (match fuel with
     | O => fun _ _ _ => None
     | S fuel => fun M code s => @run (machine fuel M) code s
     end) M |}.

(** ** The machine is an environment *)
Definition good (run_callee : loaded -> list Instruction -> state -> option state) : Prop :=
  (∀ M code, Proper ((≡) ==> (≡)) (run_callee M code)) /\
  (∀ M code s s', wf s -> run_callee M code s = Some s' -> wf s').

Lemma enter_proper run_callee i a : good run_callee -> Proper ((≡) ==> (≡)) (enter run_callee i a).
Proof.
  intros [Hp _] s t Hst. pose proof Hst as (Hr & Hi & _). unfold enter, return_address. rewrite <- Hr, <- Hi.
  destruct (code_at a) as [[M code]|]; [|constructor]. cbn [mbind option_bind].
  destruct (push_val_proper (wrap64 (site i (regs s RSP))) s t Hst) as [s1 t1 Hst1|]; [|constructor].
  cbn [mbind option_bind]. destruct (Hp M code s1 t1 Hst1) as [s2 t2 Hst2|]; [|constructor].
  cbn [mbind option_bind]. destruct Hst2 as (Hr2 & Hi2 & Hm2). rewrite <- Hi2. case_decide; [|constructor].
  constructor. by split_and!.
Qed.

Lemma enter_wf run_callee i a s s' : good run_callee -> wf s -> enter run_callee i a s = Some s' -> wf s'.
Proof.
  intros [_ Hg] Hs. unfold enter. destruct (code_at a) as [[M code]|]; [|done]. cbn [mbind option_bind].
  destruct (push_val _ s) as [s1|] eqn:E1; [|done]. cbn [mbind option_bind].
  destruct (run_callee M code s1) as [s2|] eqn:E2; [|done]. cbn [mbind option_bind]. case_decide; [|done].
  intros [= <-]. destruct (Hg M code s1 s2) as [Hr Hm]; [by eapply push_val_wf|done|]. by split.
Qed.

Lemma machine_step_laws run_callee M :
  good run_callee -> @EnvLaws {| ext_step := machine_step run_callee M |}.
Proof.
  intros Hg. split; simpl.
  - intros i s t Hst. unfold machine_step. destruct (code i); try constructor.
    + destruct (op0 i), (op1 i); try constructor. destruct (slot_value M l); simpl; constructor.
      by apply set_reg_proper.
    + destruct (op0 i); try constructor. rewrite <- (proj1 Hst r). by apply enter_proper.
    + destruct (op0 i); try constructor. destruct (label_addr M l); simpl; [|constructor]. by apply enter_proper.
  - intros i s s' Hs. unfold machine_step. destruct (code i); try done.
    + destruct (op0 i), (op1 i); try done. destruct (slot_value M l); simpl; [|done]. intros [= <-].
      apply set_reg_wf; [done|apply wrap64_range].
    + destruct (op0 i); try done. by apply enter_wf.
    + destruct (op0 i); try done. destruct (label_addr M l); simpl; [|done]. by apply enter_wf.
Qed.

#[global] Instance machine_laws fuel M : @EnvLaws (machine fuel M).
Proof.
  revert M. induction fuel as [|fuel IH]; intros M.
  - apply machine_step_laws. split; [|done]. intros ? ? s t _. constructor.
  - apply (machine_step_laws (fun M code s => @run (machine fuel M) code s)). split.
    + intros M' code s t Hst. exact (@run_proper _ (IH M') code s t Hst).
    + intros M' code s s'. exact (@run_wf _ (IH M') code s s').
Qed.

(** ** Its steps *)
Lemma machine_call fuel M l a s :
  label_addr M l = Some a ->
  @step (machine (S fuel) M) (i_call l) s = enter (fun M code s => @run (machine fuel M) code s) (i_call l) a s.
Proof. intros Ha. unfold step. simpl. unfold machine_step. simpl. by rewrite Ha. Qed.

Lemma machine_call_reg fuel M r s :
  @step (machine (S fuel) M) (i_call_reg r) s =
    enter (fun M code s => @run (machine fuel M) code s) (i_call_reg r) (regs s r) s.
Proof. done. Qed.

Lemma machine_load_label fuel M d l v s :
  slot_value M l = Some v -> @step (machine fuel M) (i_load_label d l) s = Some (set_reg d (wrap64 v) s).
Proof. intros Hv. unfold step. destruct fuel; simpl; unfold machine_step; simpl; by rewrite Hv. Qed.
End Machine.
