(* ===== verification/Optimizer.v ===== *)
(** * The peephole optimizer ([parawasm/src/x86_64/optimizer.rs])

    [optimize_loop] makes one pass over the instructions with a window of two
    and moves the label positions along; [optimize] repeats it until nothing
    changes.  The specification is in terms of [windows], the list of rewrites
    of a pass: [reduce] is the code it produces, [relocate] where an old
    position ends up, and [normalize] the fixed point. *)
From S2P Require Import Prelude X86 Assembler.

(** ** The code *)

(** [isize] addition. *)
Definition isize_arith `{Profile} {E} (x : Z) : Res E Z :=
  checked ((- 2 ^ 63 <=? x) && (x <? 2 ^ 63)) (usize_as_isize (isize_as_usize x)) x.

(** PUSH reg + POP reg *)
Definition is_push_pop (h0 h1 : Instruction) : bool :=
  bool_decide (code h0 = Push_r64) && bool_decide (code h1 = Pop_r64).

(** MOV reg1, reg2 + MOV reg2, reg1 *)
Definition is_mov_mov (h0 h1 : Instruction) : bool :=
  bool_decide (code h0 = Mov_rm64_r64)
  && bool_decide (code h1 = Mov_rm64_r64)
  && bool_decide (op0_kind h0 = KRegister)
  && bool_decide (op1_kind h0 = KRegister)
  && bool_decide (op0_kind h1 = KRegister)
  && bool_decide (op1_kind h1 = KRegister)
  && bool_decide (op0_register h0 = op1_register h1)
  && bool_decide (op0_register h1 = op1_register h0).

(** MOV reg, reg *)
Definition is_mov_self (h0 : Instruction) : bool :=
  bool_decide (code h0 = Mov_rm64_r64)
  && bool_decide (op0_kind h0 = KRegister)
  && bool_decide (op1_kind h0 = KRegister)
  && bool_decide (op0_register h0 = op1_register h0).

Section Code.
Context {A E B : Type} `{Assembler A E} `{Profile}.

Definition update_labels (labels : list (Z * Z * CodeLabel)) (head_idx count : Z)
    : Res (Error B E) (list (Z * Z * CodeLabel)) :=
  mapM (fun '(original_index, index, label) =>
    if head_idx <=? original_index then
      index' ← isize_arith (usize_as_isize index + count);
      Ok (original_index, isize_as_usize index', label)
    else Ok (original_index, index, label)) labels.

Fixpoint optimize_while (head : list Instruction) (head_idx : Z)
    (labels_ : list (Z * Z * CodeLabel)) (new_instructions : A)
    : Res (Error B E) (list (Z * Z * CodeLabel) * A) :=
  match head with
  | [] => Ok (labels_, new_instructions)
  | h0 :: t0 =>
      let one :=
        if is_mov_self h0 then
          labels_ ← update_labels labels_ (head_idx + 1) (-1);
          optimize_while t0 (head_idx + 1) labels_ new_instructions
        else
          new_instructions ← emit h0 new_instructions;
          optimize_while t0 (head_idx + 1) labels_ new_instructions in
      match t0 with
      | h1 :: t1 =>
          if is_push_pop h0 h1 then
            i ← asm_call (instr_with2_rr Mov_rm64_r64 (op0_register h1) (op0_register h0));
            new_instructions ← emit i new_instructions;
            labels_ ← update_labels labels_ (head_idx + 2) (-1);
            optimize_while t1 (head_idx + 2) labels_ new_instructions
          else if is_mov_mov h0 h1 then
            labels_ ← update_labels labels_ (head_idx + 2) (-2);
            optimize_while t1 (head_idx + 2) labels_ new_instructions
          else one
      | [] => one
      end
  end.

Definition optimize_loop (instructions : list Instruction) (labels : list (Z * CodeLabel))
    : Res (Error B E) (list Instruction * list (Z * CodeLabel)) :=
  let labels_ := map (fun '(index, label) => (index, index, label)) labels in
  new_instructions ← asm_call (asm_new 64);
  '(labels_, new_instructions) ← optimize_while instructions 0 labels_ new_instructions;
  let labels := map (fun '(_, index, label) => (index, label)) labels_ in
  Ok (fst (asm_take_instructions new_instructions), labels).

(** [None]: the fuel ran out before the loop returned. *)
Fixpoint optimize (fuel : nat) (current_instructions : list Instruction)
    (labels : list (Z * CodeLabel))
    : option (Res (Error B E) (list Instruction * list (Z * CodeLabel))) :=
  match fuel with
  | O => None
  | S fuel =>
      match optimize_loop current_instructions labels with
      | Ok (opt_instructions, labels) =>
          if decide (opt_instructions = current_instructions)
          then Some (Ok (current_instructions, labels))
          else optimize fuel opt_instructions labels
      | Err e => Some (Err e)
      | Panic p => Some (Panic p)
      end
  end.
End Code.

(** ** Specification *)

(** The windows of one pass, each with the instructions it consumes and those
    it produces. *)
Abbreviation window := (list Instruction * list Instruction)%type.

Definition window1 (h0 : Instruction) : window := ([h0], if is_mov_self h0 then [] else [h0]).

Definition window2 (h0 h1 : Instruction) : option window :=
  if is_push_pop h0 h1 then Some ([h0; h1], [i_mov (op0_register h1) (op0_register h0)])
  else if is_mov_mov h0 h1 then Some ([h0; h1], [])
  else None.

Fixpoint windows (l : list Instruction) : list window :=
  match l with
  | [] => []
  | h0 :: t0 =>
      match t0 with
      | h1 :: t1 =>
          match window2 h0 h1 with
          | Some w => w :: windows t1
          | None => window1 h0 :: windows t0
          end
      | [] => [window1 h0]
      end
  end.

Definition consumed (ws : list window) : list Instruction := concat (map fst ws).
Definition produced (ws : list window) : list Instruction := concat (map snd ws).

(** How many of the instructions before position [i] a pass removes. *)
Fixpoint removed (ws : list window) (i : Z) : Z :=
  match ws with
  | [] => 0
  | (c, p) :: ws =>
      let n := Z.of_nat (length c) in
      (if n <=? i then n - Z.of_nat (length p) else 0) + removed ws (i - n)
  end.

Definition reduce (l : list Instruction) : list Instruction := produced (windows l).
Definition relocate (l : list Instruction) (i : Z) : Z := i - removed (windows l) i.

(** The fixed point, reached after at most as many passes as there are
    instructions. *)
Fixpoint passes (n : nat) (l : list Instruction) : list Instruction :=
  match n with O => l | S n => passes n (reduce l) end.
Fixpoint relocations (n : nat) (l : list Instruction) (i : Z) : Z :=
  match n with O => i | S n => relocations n (reduce l) (relocate l i) end.
Definition normalize (l : list Instruction) : list Instruction := passes (length l) l.
Definition relocate_all (l : list Instruction) (i : Z) : Z := relocations (length l) l i.

(** No window applies anywhere. *)
Fixpoint redex_free (l : list Instruction) : bool :=
  match l with
  | [] => true
  | h0 :: t0 =>
      negb (is_mov_self h0)
      && match t0 with h1 :: _ => negb (is_push_pop h0 h1 || is_mov_mov h0 h1) | [] => true end
      && redex_free t0
  end.

(** Instructions no window touches. *)
Definition barrier (i : Instruction) : bool :=
  match code i with Push_r64 | Pop_r64 | Mov_rm64_r64 => false | _ => true end.
Definition ends_with_barrier (l : list Instruction) : bool :=
  match last l with Some i => barrier i | None => true end.

(** ** Lemmas on windows *)
Definition no_window2 (h0 : Instruction) (t : list Instruction) : Prop :=
  match t with h1 :: _ => window2 h0 h1 = None | [] => True end.

(** Induction along a pass. *)
Lemma windows_ind (P : list Instruction -> list window -> Prop) :
  P [] [] ->
  (∀ h0 h1 t w, window2 h0 h1 = Some w -> P t (windows t) -> P (h0 :: h1 :: t) (w :: windows t)) ->
  (∀ h0 t, no_window2 h0 t -> P t (windows t) -> P (h0 :: t) (window1 h0 :: windows t)) ->
  ∀ l, P l (windows l).
Proof.
  intros Hnil H2 H1 l. remember (length l) as k eqn:Hk. revert l Hk.
  induction k as [k IHk] using lt_wf_ind. intros [|h0 [|h1 t]] ->; [done| |].
  - apply H1; [done|]. by apply (IHk 0%nat); simpl; [lia|].
  - change (windows (h0 :: h1 :: t)) with
      (match window2 h0 h1 with Some w => w :: windows t | None => window1 h0 :: windows (h1 :: t) end).
    destruct (window2 h0 h1) as [w|] eqn:Hw.
    + apply H2; [done|]. eapply IHk; [|done]. simpl; lia.
    + apply H1; [done|]. eapply IHk; [|done]. simpl; lia.
Qed.

Lemma windows_no_window2 h0 t : no_window2 h0 t -> windows (h0 :: t) = window1 h0 :: windows t.
Proof. destruct t as [|h1 t]; [done|]. intros H. cbn [windows]. by rewrite H. Qed.

Lemma windows_window2 h0 h1 t w :
  window2 h0 h1 = Some w -> windows (h0 :: h1 :: t) = w :: windows t.
Proof. intros H. cbn [windows]. by rewrite H. Qed.

Lemma window2_cases h0 h1 c p :
  window2 h0 h1 = Some (c, p) -> c = [h0; h1] /\
  ((is_push_pop h0 h1 = true /\ p = [i_mov (op0_register h1) (op0_register h0)]) \/
   (is_push_pop h0 h1 = false /\ is_mov_mov h0 h1 = true /\ p = [])).
Proof. unfold window2. repeat case_match; intros; simplify_eq; auto. Qed.

Lemma consumed_windows l : consumed (windows l) = l.
Proof.
  apply (windows_ind (fun l ws => consumed ws = l)); [done| |].
  - intros h0 h1 t [c p] [-> _]%window2_cases IH. unfold consumed in *. simpl. by rewrite IH.
  - intros h0 t _ IH. unfold consumed in *. simpl. by rewrite IH.
Qed.

(** A window never produces more than it consumes, and as much only when it
    leaves a single instruction alone. *)
Lemma window_shrinks l :
  Forall (fun w => (length w.2 < length w.1)%nat \/ w.1 = w.2 /\ length w.1 = 1%nat) (windows l).
Proof.
  apply (windows_ind (fun _ ws => Forall _ ws)); [done| |].
  - intros h0 h1 t [c p] [-> Hp]%window2_cases ?. constructor; [|done]. left.
    destruct Hp as [[_ ->]|(_ & _ & ->)]; simpl; lia.
  - intros. constructor; [|done]. unfold window1. case_match; simpl; auto.
Qed.

Lemma produced_length ws :
  Forall (fun w : window => (length w.2 < length w.1)%nat \/ w.1 = w.2 /\ length w.1 = 1%nat) ws ->
  (length (produced ws) < length (consumed ws))%nat \/
  produced ws = consumed ws /\ Forall (fun w => w.1 = w.2 /\ length w.1 = 1%nat) ws.
Proof.
  unfold produced, consumed. induction 1 as [|[c p] ws Hw _ IH]; [auto|]; simpl in *.
  rewrite !length_app. destruct Hw as [Hw|[-> Hw]], IH as [IH|[IH ?]].
  - lia.
  - rewrite IH. lia.
  - lia.
  - right. rewrite IH. auto.
Qed.

Lemma reduce_shrinks l : (length (reduce l) < length l)%nat \/ reduce l = l.
Proof.
  unfold reduce. destruct (produced_length _ (window_shrinks l)) as [H|[H _]];
    rewrite consumed_windows in H; auto.
Qed.

Lemma redex_free_reduce l : redex_free l = true <-> reduce l = l.
Proof.
  split.
  - apply (windows_ind (fun l ws => redex_free l = true -> produced ws = l)); [done| |].
    + intros h0 h1 t [c p] [_ Hw]%window2_cases _ H. exfalso. cbn [redex_free] in H.
      destruct Hw as [[Hw _]|(_ & Hw & _)]; rewrite Hw, ?orb_true_r in H;
        by rewrite ?andb_false_r in H.
    + intros h0 t _ IH H. cbn [redex_free] in H. rewrite !andb_true_iff in H.
      destruct H as [[Hs _] Ht]. apply negb_true_iff in Hs.
      unfold produced, window1 in *. simpl. rewrite Hs. simpl. by rewrite IH.
  - intros Hr. destruct (produced_length _ (window_shrinks l)) as [H|[_ H]].
    + unfold reduce in Hr. rewrite Hr, consumed_windows in H. lia.
    + revert H. clear Hr. apply (windows_ind (fun l ws =>
        Forall (fun w => w.1 = w.2 /\ length w.1 = 1%nat) ws -> redex_free l = true)); [done| |].
      * intros h0 h1 t [c p] [-> _]%window2_cases _ [[_ Hc] _]%Forall_cons. done.
      * intros h0 t Hn IH [[Hw _] Ht]%Forall_cons. cbn [redex_free].
        unfold window1 in Hw. simpl in Hw. destruct (is_mov_self h0); [done|].
        rewrite IH by done. rewrite andb_true_r. simpl. destruct t as [|h1 t]; [done|].
        simpl in Hn. unfold window2 in Hn. by repeat case_match.
Qed.

(** ** One pass implements its specification *)
Section Pass.
Context {A E B : Type} `{Assembler A E} `{!AssemblerLaws A E} `{Profile}.

(** A label whose position still fits what lies ahead of [head_idx]. *)
Definition label_ok (head_idx : Z) (x : Z * Z * CodeLabel) : Prop :=
  let '(original_index, index, _) := x in
  0 <= index < 2 ^ 63 /\ original_index - head_idx <= index.

Lemma update_labels_ok labels head_idx n k :
  0 <= k <= n -> Forall (label_ok head_idx) labels ->
  @update_labels E B _ labels (head_idx + n) (- k) =
    Ok (map (fun '(o, i, l) => (o, if head_idx + n <=? o then i - k else i, l)) labels) /\
  Forall (label_ok (head_idx + n))
    (map (fun '(o, i, l) => (o, if head_idx + n <=? o then i - k else i, l)) labels).
Proof.
  intros Hk. unfold update_labels. induction 1 as [|[[o i] lb] labels [Hi Ho] _ [IH IHF]]; [done|].
  cbn [mapM map]. rewrite IH. split.
  - destruct (Z.leb_spec (head_idx + n) o); [|done].
    unfold isize_arith, usize_as_isize, checked. rewrite (proj2 (Z.ltb_lt i _)) by lia.
    rewrite (proj2 (Z.leb_le _ _)), (proj2 (Z.ltb_lt (i + - k) _)) by lia. simpl.
    unfold isize_as_usize. by rewrite Z.mod_small by lia.
  - constructor; [|done]. unfold label_ok. case_match; lia.
Qed.

(** The positions [ws] moves the labels to, starting at [head_idx]. *)
Definition move_labels (ws : list window) (head_idx : Z) (labels : list (Z * Z * CodeLabel)) :=
  map (fun '(o, i, l) => (o, i - removed ws (o - head_idx), l)) labels.

Lemma move_labels_cons c p ws head_idx labels :
  move_labels ((c, p) :: ws) head_idx labels =
  move_labels ws (head_idx + Z.of_nat (length c))
    (map (fun '(o, i, l) => (o, if head_idx + Z.of_nat (length c) <=? o
        then i - (Z.of_nat (length c) - Z.of_nat (length p)) else i, l)) labels).
Proof.
  unfold move_labels. rewrite map_map. apply map_ext. intros [[o i] lb]. f_equal. f_equal.
  cbn [removed]. replace (o - head_idx - Z.of_nat (length c))
    with (o - (head_idx + Z.of_nat (length c))) by lia.
  do 2 case_match; lia.
Qed.

Lemma optimize_while_spec head head_idx labels_ (a : A) :
  Forall (label_ok head_idx) labels_ ->
  ∃ a', @optimize_while A E B _ _ head head_idx labels_ a
          = Ok (move_labels (windows head) head_idx labels_, a')
        /\ extends a a' (reduce head).
Proof.
  revert head_idx labels_ a. unfold reduce.
  apply (windows_ind (fun head ws => ∀ head_idx labels_ (a : A), Forall (label_ok head_idx) labels_ ->
    ∃ a', @optimize_while A E B _ _ head head_idx labels_ a = Ok (move_labels ws head_idx labels_, a')
          /\ extends a a' (produced ws))).
  - intros h ls a _. exists a. split; [|apply extends_refl]. cbn. f_equal. f_equal.
    unfold move_labels. rewrite <- (map_id ls) at 1. apply map_ext. intros [[o i] lb].
    by rewrite Z.sub_0_r.
  - intros h0 h1 t [c p] [-> Hw]%window2_cases IH idx ls a Hls. rewrite move_labels_cons.
    cbn [optimize_while]. destruct Hw as [[-> ->]|(-> & -> & ->)].
    + destruct (update_labels_ok ls idx 2 1) as [Hu Hok]; [lia|done|].
      rewrite law_with2_mov. unfold asm_call. simpl of_sum. simpl map_err. rewrite res_bind_ok.
      emit_step. change (-1) with (- (1)). rewrite Hu, res_bind_ok.
      destruct (IH (idx + 2) _ a0 Hok) as (a' & -> & Hx). exists a'. split; [done|].
      by eapply extends_cons.
    + destruct (update_labels_ok ls idx 2 2) as [Hu Hok]; [lia|done|].
      change (-2) with (- (2)). rewrite Hu, res_bind_ok. destruct (IH (idx + 2) _ a Hok) as (a' & -> & Hx). by exists a'.
  - intros h0 t Hn IH idx ls a Hls. unfold window1. rewrite move_labels_cons.
    assert (Heq : @optimize_while A E B _ _ (h0 :: t) idx ls a =
      if is_mov_self h0 then ls ← update_labels ls (idx + 1) (-1); optimize_while t (idx + 1) ls a
      else a ← emit h0 a; optimize_while t (idx + 1) ls a).
    { cbn [optimize_while]. destruct t as [|h1 t]; [done|]. simpl in Hn. unfold window2 in Hn.
      destruct (is_push_pop h0 h1), (is_mov_mov h0 h1); done. }
    rewrite Heq. destruct (is_mov_self h0).
    + destruct (update_labels_ok ls idx 1 1) as [Hu Hok]; [lia|done|].
      change (-1) with (- (1)). rewrite Hu, res_bind_ok. destruct (IH (idx + 1) _ a Hok) as (a' & -> & Hx). by exists a'.
    + destruct (update_labels_ok ls idx 1 0) as [Hu Hok]; [lia|done|].
      emit_step. cbn [length Z.of_nat]. rewrite Z.sub_diag.
      assert (Hid : map (fun '(o, i, l) => (o, if idx + 1 <=? o then i - 0 else i, l)) ls = ls).
      { rewrite <- (map_id ls) at 2. apply map_ext. intros [[o i] lb]. case_match; by rewrite ?Z.sub_0_r. }
      change (Z.of_nat 1) with 1 in *. rewrite Hid in *.
      destruct (IH (idx + 1) ls a0 Hok) as (a' & -> & Hx). exists a'. split; [done|].
      by eapply extends_cons.
Qed.

Definition labels_ok (labels : list (Z * CodeLabel)) : Prop :=
  Forall (fun x => 0 <= x.1 < 2 ^ 63) labels.

Lemma optimize_loop_spec l labels :
  labels_ok labels ->
  @optimize_loop A E B _ _ l labels =
    Ok (reduce l, map (fun '(i, lb) => (relocate l i, lb)) labels).
Proof.
  intros Hl. unfold optimize_loop. destruct law_new as (a & -> & Ha & _).
  unfold asm_call. simpl of_sum. simpl map_err. rewrite res_bind_ok.
  destruct (optimize_while_spec l 0 (map (fun '(index, label) => (index, index, label)) labels) a)
    as (a' & -> & Hx).
  { apply Forall_map. eapply Forall_impl; [exact Hl|]. intros [i lb] Hi. simpl in *. lia. }
  rewrite res_bind_ok. destruct (law_take a') as (a'' & -> & _). f_equal. f_equal.
  - simpl. rewrite (ext_instrs _ _ _ Hx), Ha. done.
  - unfold move_labels. rewrite !map_map. apply map_ext. intros [i lb].
    unfold relocate. by rewrite Z.sub_0_r.
Qed.
End Pass.

Lemma removed_bound ws i :
  Forall (fun w : window => (length w.2 <= length w.1)%nat) ws ->
  0 <= removed ws i <= Z.max 0 i.
Proof.
  intros Hws. revert i. induction Hws as [|[c p] ws Hw _ IH]; intros i; cbn [removed]; [lia|].
  simpl in Hw. specialize (IH (i - Z.of_nat (length c))). case_match; lia.
Qed.

Lemma relocate_bound l i : 0 <= i -> 0 <= relocate l i <= i.
Proof.
  intros Hi. unfold relocate. enough (0 <= removed (windows l) i <= Z.max 0 i) by lia.
  apply removed_bound. eapply Forall_impl; [apply window_shrinks|].
  intros w [?|[-> ?]]; lia.
Qed.

Lemma relocate_fixed l i : reduce l = l -> relocate l i = i.
Proof.
  intros Hr. unfold relocate. destruct (produced_length _ (window_shrinks l)) as [H|[_ H]].
  - unfold reduce in Hr. rewrite Hr, consumed_windows in H. lia.
  - enough (removed (windows l) i = 0) by lia. revert i. induction H as [|[c p] ws [Hw _] _ IH];
      intros i; cbn [removed]; [done|]. simpl in Hw. subst p. rewrite IH. case_match; lia.
Qed.

(** ** The fixed point *)
Lemma passes_fixed n l : reduce l = l -> passes n l = l.
Proof. intros Hl. induction n; simpl; [done|]. by rewrite Hl. Qed.

Lemma relocations_fixed n l i : reduce l = l -> relocations n l i = i.
Proof. intros Hl. induction n; simpl; [done|]. by rewrite Hl, relocate_fixed. Qed.

Lemma passes_enough n m l :
  (length l <= n)%nat -> (length l <= m)%nat -> passes n l = passes m l.
Proof.
  revert m l. induction n as [|n IH]; intros m l Hn Hm; destruct (reduce_shrinks l) as [Hs|Hs];
    try (by rewrite !passes_fixed); try lia.
  destruct m as [|m]; [lia|]. simpl. apply IH; lia.
Qed.

Lemma relocations_enough n m l i :
  (length l <= n)%nat -> (length l <= m)%nat -> relocations n l i = relocations m l i.
Proof.
  revert m l i. induction n as [|n IH]; intros m l i Hn Hm; destruct (reduce_shrinks l) as [Hs|Hs];
    try (by rewrite !relocations_fixed); try lia.
  destruct m as [|m]; [lia|]. simpl. apply IH; lia.
Qed.

Lemma normalize_reduce l : normalize (reduce l) = normalize l.
Proof.
  unfold normalize. destruct (reduce_shrinks l) as [Hs| ->]; [|done].
  destruct l as [|i l]; [simpl in Hs; lia|]. cbn [length passes].
  apply passes_enough; simpl in Hs; lia.
Qed.

Lemma relocate_all_reduce l i : relocate_all (reduce l) (relocate l i) = relocate_all l i.
Proof.
  unfold relocate_all. destruct (reduce_shrinks l) as [Hs|Hs].
  - destruct l as [|h l]; [simpl in Hs; lia|]. cbn [length relocations].
    apply relocations_enough; simpl in Hs; lia.
  - by rewrite Hs, relocate_fixed.
Qed.

Lemma reduce_normalize l : reduce (normalize l) = normalize l.
Proof.
  remember (length l) as k eqn:Hk. revert l Hk. induction k as [k IH] using lt_wf_ind.
  intros l ->. destruct (reduce_shrinks l) as [Hs|Hs].
  - rewrite <- normalize_reduce. by eapply IH.
  - unfold normalize. by rewrite passes_fixed.
Qed.

(** ** Barriers split a pass *)
Lemma barrier_no_window2 b t : barrier b = true -> no_window2 b t.
Proof.
  destruct t as [|h t]; [done|]. unfold barrier, no_window2, window2, is_push_pop, is_mov_mov.
  by destruct (code b).
Qed.

Lemma barrier_not_second h b : barrier b = true -> window2 h b = None.
Proof.
  unfold barrier, window2, is_push_pop, is_mov_mov.
  destruct (code b); intros; simplify_eq; by rewrite ?andb_false_r.
Qed.

Lemma barrier_window1 b : barrier b = true -> window1 b = ([b], [b]).
Proof. unfold barrier, window1, is_mov_self. by destruct (code b). Qed.

Lemma windows_app_gen l1 l2 :
  (∀ h, last l1 = Some h -> no_window2 h l2) -> windows (l1 ++ l2) = windows l1 ++ windows l2.
Proof.
  apply (windows_ind (fun l1 ws => (∀ h, last l1 = Some h -> no_window2 h l2) ->
    windows (l1 ++ l2) = ws ++ windows l2)); [done| |].
  - intros h0 h1 t w Hw IH Hl. simpl app. rewrite (windows_window2 _ _ _ _ Hw).
    rewrite IH; [done|]. intros h Hh. apply Hl. by destruct t.
  - intros h0 t Hn IH Hl. simpl app. rewrite windows_no_window2.
    + rewrite IH; [done|]. intros h Hh. apply Hl. by destruct t.
    + destruct t; [|done]. by apply Hl.
Qed.

Lemma windows_app l1 l2 :
  ends_with_barrier l1 = true -> windows (l1 ++ l2) = windows l1 ++ windows l2.
Proof.
  intros Hb. apply windows_app_gen. intros h Hh. unfold ends_with_barrier in Hb.
  rewrite Hh in Hb. by apply barrier_no_window2.
Qed.

Lemma windows_snoc l b : barrier b = true -> windows (l ++ [b]) = windows l ++ [([b], [b])].
Proof.
  intros Hb. apply (windows_ind (fun l ws => windows (l ++ [b]) = ws ++ [([b], [b])])).
  - simpl. by rewrite barrier_window1.
  - intros h0 h1 t w Hw IH. simpl app. by rewrite (windows_window2 _ _ _ _ Hw), IH.
  - intros h0 t Hn IH. simpl app. rewrite windows_no_window2; [by rewrite IH|].
    destruct t; [|done]. by apply barrier_not_second.
Qed.

Lemma produced_app ws1 ws2 : produced (ws1 ++ ws2) = produced ws1 ++ produced ws2.
Proof. unfold produced. by rewrite map_app, concat_app. Qed.

Lemma reduce_app l1 l2 : ends_with_barrier l1 = true -> reduce (l1 ++ l2) = reduce l1 ++ reduce l2.
Proof. intros. unfold reduce. by rewrite windows_app, produced_app. Qed.

Lemma reduce_snoc l b : barrier b = true -> reduce (l ++ [b]) = reduce l ++ [b].
Proof. intros. unfold reduce. by rewrite windows_snoc, produced_app. Qed.

Lemma ends_with_barrier_snoc l b : ends_with_barrier (l ++ [b]) = barrier b.
Proof. unfold ends_with_barrier. by rewrite last_snoc. Qed.

Lemma ends_with_barrier_reduce l : ends_with_barrier l = true -> ends_with_barrier (reduce l) = true.
Proof.
  destruct l as [|b l _] using rev_ind; [done|]. rewrite ends_with_barrier_snoc. intros.
  by rewrite reduce_snoc, ends_with_barrier_snoc.
Qed.

Lemma removed_app ws1 ws2 j :
  0 <= j ->
  removed (ws1 ++ ws2) (Z.of_nat (length (consumed ws1)) + j) =
  Z.of_nat (length (consumed ws1)) - Z.of_nat (length (produced ws1)) + removed ws2 j.
Proof.
  intros Hj. induction ws1 as [|[c p] ws1 IH]; cbn [app removed].
  - simpl. f_equal; lia.
  - unfold consumed, produced in *. cbn [map concat fst snd]. rewrite !length_app, !Nat2Z.inj_add.
    rewrite (proj2 (Z.leb_le _ _)) by lia.
    replace (Z.of_nat (length c) + Z.of_nat (length (concat (map fst ws1))) + j - Z.of_nat (length c))
      with (Z.of_nat (length (concat (map fst ws1))) + j) by lia.
    rewrite IH. lia.
Qed.

Lemma relocate_app l1 l2 j :
  ends_with_barrier l1 = true -> 0 <= j ->
  relocate (l1 ++ l2) (Z.of_nat (length l1) + j) = Z.of_nat (length (reduce l1)) + relocate l2 j.
Proof.
  intros Hb Hj. unfold relocate, reduce. rewrite windows_app by done.
  pose proof (removed_app (windows l1) (windows l2) j Hj) as Hr.
  rewrite consumed_windows in Hr. lia.
Qed.

Lemma passes_app n l1 l2 :
  ends_with_barrier l1 = true -> passes n (l1 ++ l2) = passes n l1 ++ passes n l2.
Proof.
  revert l1 l2. induction n as [|n IH]; intros l1 l2 Hb; simpl; [done|].
  rewrite reduce_app, IH; auto using ends_with_barrier_reduce.
Qed.

Lemma normalize_app l1 l2 :
  ends_with_barrier l1 = true -> normalize (l1 ++ l2) = normalize l1 ++ normalize l2.
Proof.
  intros. unfold normalize. rewrite passes_app by done.
  f_equal; apply passes_enough; rewrite ?length_app; lia.
Qed.

Lemma normalize_snoc l b : barrier b = true -> normalize (l ++ [b]) = normalize l ++ [b].
Proof.
  intros Hb. unfold normalize. rewrite (passes_enough _ (length (l ++ [b])) l) by
    (rewrite ?length_app; lia).
  generalize (length (l ++ [b])). intros n. revert l.
  induction n; intros; simpl; [done|]. by rewrite reduce_snoc.
Qed.

Lemma relocate_all_app l1 l2 j :
  ends_with_barrier l1 = true -> 0 <= j ->
  relocate_all (l1 ++ l2) (Z.of_nat (length l1) + j)
    = Z.of_nat (length (normalize l1)) + relocate_all l2 j.
Proof.
  intros Hb Hj. unfold relocate_all, normalize.
  rewrite (passes_enough (length l1) (length (l1 ++ l2))) by (rewrite ?length_app; lia).
  rewrite (relocations_enough (length l2) (length (l1 ++ l2)) l2) by (rewrite ?length_app; lia).
  generalize (length (l1 ++ l2)). intros n. revert l1 l2 j Hb Hj.
  induction n as [|n IH]; intros l1 l2 j Hb Hj; simpl; [done|].
  rewrite reduce_app, relocate_app by done.
  apply IH; [by apply ends_with_barrier_reduce|]. by apply relocate_bound.
Qed.

Lemma relocate_all_0 l : relocate_all l 0 = 0.
Proof.
  unfold relocate_all. generalize (length l). intros n. revert l.
  induction n as [|n IH]; intros l; simpl; [done|].
  pose proof (relocate_bound l 0). replace (relocate l 0) with 0 by lia. apply IH.
Qed.

Lemma passes_length n l : (length (passes n l) <= length l)%nat.
Proof.
  revert l. induction n as [|n IH]; intros l; simpl; [lia|].
  specialize (IH (reduce l)). destruct (reduce_shrinks l) as [?|Hr]; [|rewrite Hr in *]; lia.
Qed.

Lemma relocate_all_bound l i : 0 <= i -> 0 <= relocate_all l i <= i.
Proof.
  unfold relocate_all. generalize (length l). intros n. revert l i.
  induction n as [|n IH]; intros l i Hi; simpl; [lia|].
  pose proof (relocate_bound l i Hi). specialize (IH (reduce l) (relocate l i)). lia.
Qed.

(** ** Properties of the optimizer *)
Section Properties.
Context {A E B : Type} `{Assembler A E} `{!AssemblerLaws A E} `{Profile}.

Lemma optimize_spec l labels fuel :
  labels_ok labels -> (length l < fuel)%nat ->
  @optimize A E B _ _ fuel l labels =
    Some (Ok (normalize l, map (fun '(i, lb) => (relocate_all l i, lb)) labels)).
Proof.
  revert l labels. induction fuel as [|fuel IH]; intros l labels Hl Hf; [lia|].
  cbn [optimize]. rewrite optimize_loop_spec by done. case_decide as Hr.
  - do 3 f_equal.
    + unfold normalize. by rewrite passes_fixed.
    + apply map_ext. intros [i lb]. unfold relocate_all.
      by rewrite relocations_fixed, relocate_fixed.
  - destruct (reduce_shrinks l); [|done]. rewrite IH; [|..|lia].
    + do 3 f_equal; [apply normalize_reduce|]. rewrite map_map. apply map_ext.
      intros [i lb]. by rewrite relocate_all_reduce.
    + apply Forall_map. eapply Forall_impl; [exact Hl|]. intros [i lb] Hi. simpl in *.
      pose proof (relocate_bound l i). lia.
Qed.

(** The code of a pass does not depend on the labels. *)
Lemma optimize_while_code head idx ls (a : A) ls' a' :
  @optimize_while A E B _ _ head idx ls a = Ok (ls', a') ->
  asm_instructions a' = asm_instructions a ++ reduce head.
Proof.
  revert idx ls a. unfold reduce. apply (windows_ind (fun head ws => ∀ idx ls (a : A),
    @optimize_while A E B _ _ head idx ls a = Ok (ls', a') ->
    asm_instructions a' = asm_instructions a ++ produced ws)).
  - intros idx ls a [= _ <-]. by rewrite app_nil_r.
  - intros h0 h1 t [c p] [-> Hw]%window2_cases IH idx ls a. cbn [optimize_while].
    destruct Hw as [[-> ->]|(-> & -> & ->)].
    + rewrite law_with2_mov. unfold asm_call. cbn [of_sum map_err]. rewrite res_bind_ok.
      emit_step. destruct (update_labels ls (idx + 2) (-1)); try done. rewrite res_bind_ok.
      intros ->%IH. rewrite (ext_instrs _ _ _ Hext), <- app_assoc. done.
    + destruct (update_labels ls (idx + 2) (-2)); try done. rewrite res_bind_ok. apply IH.
  - intros h0 t Hn IH idx ls a.
    assert (Heq : @optimize_while A E B _ _ (h0 :: t) idx ls a =
      if is_mov_self h0 then ls ← update_labels ls (idx + 1) (-1); optimize_while t (idx + 1) ls a
      else a ← emit h0 a; optimize_while t (idx + 1) ls a).
    { cbn [optimize_while]. destruct t as [|h1 t]; [done|]. simpl in Hn. unfold window2 in Hn.
      destruct (is_push_pop h0 h1), (is_mov_mov h0 h1); done. }
    rewrite Heq. unfold window1. destruct (is_mov_self h0).
    + destruct (update_labels ls (idx + 1) (-1)); try done. rewrite res_bind_ok. apply IH.
    + emit_step. intros ->%IH. rewrite (ext_instrs _ _ _ Hext), <- app_assoc. done.
Qed.

(** [optimize] returns whatever the labels, and more fuel does not matter. *)
Lemma optimize_enough_fuel l labels n m :
  (length l < n)%nat -> (length l < m)%nat ->
  @optimize A E B _ _ n l labels = @optimize A E B _ _ m l labels /\
  is_Some (@optimize A E B _ _ n l labels).
Proof.
  revert m l labels. induction n as [|n IH]; intros m l labels Hn Hm; [lia|].
  destruct m as [|m]; [lia|]. cbn [optimize].
  destruct (optimize_loop l labels) as [[l' labels']| |] eqn:Hl; [|by eauto..].
  case_decide as Heq; [by eauto|].
  assert (l' = reduce l) as ->.
  { unfold optimize_loop in Hl. destruct law_new as (a & Ha & Hai & _). rewrite Ha in Hl.
    unfold asm_call in Hl. cbn [of_sum map_err] in Hl. rewrite res_bind_ok in Hl.
    destruct (optimize_while _ _ _ _) as [[ls a']| |] eqn:Hw; [|done..]. rewrite res_bind_ok in Hl.
    apply optimize_while_code in Hw. destruct (law_take a') as (a'' & Ht & _).
    rewrite Ht in Hl. injection Hl as <- _. by rewrite Hw, Hai. }
  destruct (reduce_shrinks l); [|done]. apply IH; lia.
Qed.

Lemma optimize_mono fuel k l labels r :
  @optimize A E B _ _ fuel l labels = Some r -> @optimize A E B _ _ (fuel + k) l labels = Some r.
Proof.
  revert l labels. induction fuel as [|fuel IH]; intros l labels; [done|]. cbn [Nat.add optimize].
  destruct (optimize_loop l labels) as [[l' labels']| |]; [|done..]. case_decide; [done|apply IH].
Qed.

(** Whatever the fuel, a result is the specified one. *)
Lemma optimize_result l labels fuel r :
  labels_ok labels -> @optimize A E B _ _ fuel l labels = Some r ->
  r = Ok (normalize l, map (fun '(i, lb) => (relocate_all l i, lb)) labels).
Proof.
  intros Hl Hr. apply (optimize_mono _ (S (length l))) in Hr.
  rewrite optimize_spec in Hr by (done || lia). congruence.
Qed.

(** C7: [optimize] returns.  With fuel for one pass more than there are
    instructions it ends with [Ok], in either build profile; the code it returns
    is no longer than its input and has no window left that a further pass could
    rewrite, and the labels are those it was given, none of them moved forwards
    or below zero. *)
Theorem optimize_returns_normal_form l labels fuel :
  labels_ok labels -> (length l < fuel)%nat ->
  ∃ l' labels', @optimize A E B _ _ fuel l labels = Some (Ok (l', labels')) /\
    redex_free l' = true /\ (length l' <= length l)%nat /\
    Forall2 (fun x y => y.2 = x.2 /\ 0 <= y.1 <= x.1) labels labels'.
Proof.
  intros Hl Hf. rewrite optimize_spec by done. do 2 eexists. split; [done|]. repeat split.
  - apply redex_free_reduce, reduce_normalize.
  - apply passes_length.
  - apply Forall2_fmap_r. apply Forall_Forall2_diag. eapply Forall_impl; [exact Hl|].
    intros [i lb] Hi. simpl in *. split; [done|]. apply relocate_all_bound. lia.
Qed.

(** [optimize] is idempotent: run again on its own result, it returns the
    same code and the same labels. *)
Theorem optimize_idempotent l labels fuel l' labels' :
  labels_ok labels -> (length l < fuel)%nat ->
  @optimize A E B _ _ fuel l labels = Some (Ok (l', labels')) ->
  @optimize A E B _ _ fuel l' labels' = Some (Ok (l', labels')).
Proof.
  intros Hl Hf. rewrite optimize_spec by done. intros [= <- <-].
  rewrite optimize_spec.
  - unfold normalize at 1. rewrite passes_fixed by apply reduce_normalize. do 3 f_equal.
    rewrite map_map. apply map_ext. intros [i lb]. f_equal. unfold relocate_all at 1.
    by rewrite relocations_fixed by apply reduce_normalize.
  - apply Forall_map. eapply Forall_impl; [exact Hl|]. intros [i lb] Hi. simpl in *.
    pose proof (relocate_all_bound l i). lia.
  - pose proof (passes_length (length l) l). unfold normalize. lia.
Qed.

(** C15: labels keep pointing at their code.  When the code up to a label ends
    with an instruction no window touches, as every function does, optimizing
    the whole is optimizing the two parts, and the label ends up between the
    two results: it still marks the (optimized) code it was set for. *)
Theorem optimize_labels_follow_code l1 l2 labels k lb :
  labels_ok labels -> ends_with_barrier l1 = true ->
  labels !! k = Some (Z.of_nat (length l1), lb) ->
  ∃ o1 o2 labels',
    @optimize A E B _ _ (S (length l1)) l1 [] = Some (Ok (o1, [])) /\
    @optimize A E B _ _ (S (length l2)) l2 [] = Some (Ok (o2, [])) /\
    @optimize A E B _ _ (S (length (l1 ++ l2))) (l1 ++ l2) labels = Some (Ok (o1 ++ o2, labels')) /\
    labels' !! k = Some (Z.of_nat (length o1), lb).
Proof.
  intros Hl Hb Hk. exists (normalize l1), (normalize l2). eexists.
  rewrite !optimize_spec by (lia || done || constructor).
  rewrite normalize_app by done. do 3 (split; [done|]).
  apply list_lookup_fmap_Some. eexists. split; [|exact Hk]. cbn beta iota. f_equal.
  pose proof (relocate_all_app l1 l2 0 Hb) as Hr. rewrite relocate_all_0 in Hr.
  rewrite !Z.add_0_r in Hr. by rewrite Hr.
Qed.
End Properties.

(** ** Witnesses *)
Definition sample_labels : list (Z * CodeLabel) := [(0, mkLabel 1); (3, mkLabel 2)].
Definition sample_code : list Instruction :=
  [i_push RAX; i_pop RBX; i_ret; i_push RBP; i_mov RBP RSP; i_mov RSP RBP; i_pop RBP; i_ret].

Lemma optimize_returns_normal_form_witness :
  labels_ok sample_labels /\
  ∃ l' labels', @optimize _ _ unit BufferAssembler.buffer_assembler debug 9 sample_code sample_labels
      = Some (Ok (l', labels')) /\
    redex_free l' = true /\ (length l' <= length sample_code)%nat /\
    Forall2 (fun x y => y.2 = x.2 /\ 0 <= y.1 <= x.1) sample_labels labels'.
Proof.
  assert (H : labels_ok sample_labels) by (repeat constructor; simpl; lia).
  split; [exact H|]. apply optimize_returns_normal_form; [exact H|simpl; lia].
Defined.

Lemma optimize_idempotent_witness :
  let l' := [i_mov RBX RAX; i_ret; i_ret] in
  let labels' := [(0, mkLabel 1); (2, mkLabel 2)] in
  @optimize _ _ unit BufferAssembler.buffer_assembler debug 9 l' labels' = Some (Ok (l', labels')).
Proof.
  apply (optimize_idempotent sample_code sample_labels).
  - repeat constructor; simpl; lia.
  - simpl; lia.
  - vm_compute. reflexivity.
Defined.

Lemma optimize_labels_follow_code_witness :
  ∃ o1 o2 labels',
    @optimize _ _ unit BufferAssembler.buffer_assembler debug 4 (take 3 sample_code) []
      = Some (Ok (o1, [])) /\
    @optimize _ _ unit BufferAssembler.buffer_assembler debug 6 (drop 3 sample_code) []
      = Some (Ok (o2, [])) /\
    @optimize _ _ unit BufferAssembler.buffer_assembler debug 9 sample_code sample_labels
      = Some (Ok (o1 ++ o2, labels')) /\
    labels' !! 1%nat = Some (Z.of_nat (length o1), mkLabel 2).
Proof.
  apply (optimize_labels_follow_code (take 3 sample_code) (drop 3 sample_code) sample_labels).
  - repeat constructor; simpl; lia.
  - reflexivity.
  - reflexivity.
Defined.
