(* ===== verification/OptimizerSem.v ===== *)
(** * What the optimizer does to the meaning of the code

    A pass that uses only the push/pop and the [mov r, r] windows preserves the
    meaning of the code up to [≡].  The [mov a, b; mov b, a] window does not: it
    also drops the first copy. *)
From S2P Require Import Prelude X86 Assembler Optimizer.

(** The window of [mov a, b; mov b, a] with two different registers. *)
Definition is_swap (w : window) : bool :=
  match w with
  | ([h0; _], []) => negb (bool_decide (op0_register h0 = op1_register h0))
  | _ => false
  end.
Definition swap_free (l : list Instruction) : bool :=
  forallb (fun w => negb (is_swap w)) (windows l).
Fixpoint swap_free_passes (n : nat) (l : list Instruction) : bool :=
  match n with O => true | S n => swap_free l && swap_free_passes n (reduce l) end.
(** No pass of [optimize] on [l] uses that window. *)
Definition swap_free_all (l : list Instruction) : bool := swap_free_passes (length l) l.

Section Meaning.
Context `{EnvLaws}.

Lemma step_push_inv h s s' :
  code h = Push_r64 -> step h s = Some s' ->
  ∃ r, op0_register h = r /\ push_val (regs s r) s = Some s'.
Proof. unfold step, op0_register. intros ->. destruct (op0 h); naive_solver. Qed.

Lemma step_pop_inv h s s' :
  code h = Pop_r64 -> step h s = Some s' ->
  ∃ r v s1, op0_register h = r /\ pop_val s = Some (v, s1) /\ s' = set_reg r v s1.
Proof.
  unfold step, op0_register. intros ->. destruct (op0 h); try done. simpl.
  destruct (pop_val s) as [[v s1]|]; [|done]. intros [= <-]. eauto 10.
Qed.

(** PUSH r1; POP r2 acts as MOV r2, r1. *)
Lemma push_pop_sound s r1 r2 s1 v s2 :
  wf s -> push_val (regs s r1) s = Some s1 -> pop_val s1 = Some (v, s2) ->
  set_reg r2 v s2 ≡ set_reg r2 (regs s r1) s.
Proof.
  intros Hs. pose proof (wf_regs s Hs r1) as Hv. unfold push_val. case_decide; [|done].
  intros [= <-]. unfold pop_val. simpl. rewrite !set_regs_eq.
  destruct (decide (regs s RSP - 8 + 8 < 2 ^ 64)); [|done]. rewrite load_store_same, wrap64_small by done. simpl. intros [= <- <-].
  split; [|split]; simpl; [|done|].
  - intros r. unfold set_regs. repeat case_decide; subst; try done; lia.
  - unfold set_regs. intros x. repeat case_decide; try done; subst.
    + intros Hx. unfold forget. replace (regs s RSP - 8 + 8) with (regs s RSP) by lia.
      case_decide; [done|]. apply store64_other. lia.
    + intros Hx. apply store64_other. lia.
Qed.

Lemma set_reg_self r s : set_reg r (regs s r) s ≡ s.
Proof.
  split; [|split]; simpl; [|done|].
  - intros r'. unfold set_regs. case_decide; by subst.
  - intros x _. case_decide; [|done]. subst. unfold forget. by rewrite decide_False by lia.
Qed.

Lemma step_mov h s :
  code h = Mov_rm64_r64 -> op0_kind h = KRegister -> op1_kind h = KRegister ->
  is_Some (step h s) -> step h s = Some (set_reg (op0_register h) (regs s (op1_register h)) s).
Proof.
  unfold step, op0_kind, op1_kind, op0_register, op1_register. intros ->.
  destruct (op0 h), (op1 h); try done; by intros ? ? [].
Qed.

Lemma is_mov_self_spec h :
  is_mov_self h = true -> code h = Mov_rm64_r64 /\ op0_kind h = KRegister /\
  op1_kind h = KRegister /\ op0_register h = op1_register h.
Proof. unfold is_mov_self. rewrite !andb_true_iff, !bool_decide_eq_true. tauto. Qed.

(** One window, other than the swap, preserves meaning. *)
Definition window_sound (w : window) : Prop := ∀ s s',
  wf s -> is_swap w = false -> exec w.1 s = Some s' -> ∃ t, exec w.2 s = Some t /\ s' ≡ t.

(** [mov r, r; mov r, r] is a no-op. *)
Lemma mov_mov_same h0 h1 s s' :
  is_mov_mov h0 h1 = true -> negb (bool_decide (op0_register h0 = op1_register h0)) = false ->
  exec [h0; h1] s = Some s' -> ∃ t, exec [] s = Some t /\ s' ≡ t.
Proof.
  unfold is_mov_mov. rewrite !andb_true_iff, negb_false_iff, !bool_decide_eq_true.
  intros [[[[[[[? ?] ?] ?] ?] ?] H01] H10] Hsame. rewrite exec_cons.
  destruct (step h0 s) as [s1|] eqn:E0; [|done]. cbn [mbind option_bind]. rewrite exec_cons.
  destruct (step h1 s1) as [s2|] eqn:E1; [|done]. intros [= <-]. exists s. split; [done|].
  rewrite step_mov in E0, E1 by eauto. injection E0 as <-. injection E1 as <-.
  rewrite <- H01, H10, Hsame. etransitivity; [apply (set_reg_self (op1_register h0) (set_reg _ _ s))|].
  apply set_reg_self.
Qed.

Lemma window2_sound h0 h1 w : window2 h0 h1 = Some w -> window_sound w.
Proof.
  destruct w as [c p]. intros [-> [[Hw ->]|(_ & Hw & ->)]]%window2_cases s s' Hs Hsw;
    [|by apply (mov_mov_same h0 h1)].
  unfold is_push_pop in Hw. rewrite andb_true_iff, !bool_decide_eq_true in Hw.
  destruct Hw as [Hc0 Hc1]. simpl. destruct (step h0 s) as [s1|] eqn:E0; [|done]. simpl.
  destruct (step h1 s1) as [s2|] eqn:E1; [|done]. intros [= <-].
  apply step_push_inv in E0 as (r1 & -> & E0); [|done].
  apply step_pop_inv in E1 as (r2 & v & s3 & -> & E1 & ->); [|done].
  eexists. split; [done|]. by eapply push_pop_sound.
Qed.

Lemma window1_sound h : window_sound (window1 h).
Proof.
  intros s s' Hs _. unfold window1. destruct (is_mov_self h) eqn:Hm; simpl.
  - apply is_mov_self_spec in Hm as (? & ? & ? & Hr).
    destruct (step h s) as [s1|] eqn:E; [|done]. intros [= <-]. exists s. split; [done|].
    rewrite step_mov in E by eauto. injection E as <-. rewrite Hr. apply set_reg_self.
  - destruct (step h s) as [s1|]; [|done]. intros [= <-]. by exists s1.
Qed.

Lemma windows_sound l : Forall window_sound (windows l).
Proof.
  apply (windows_ind (fun _ ws => Forall _ ws)); [done| |].
  - intros. constructor; [by eapply window2_sound|done].
  - intros. constructor; [apply window1_sound|done].
Qed.

Lemma produced_sound ws s s' :
  Forall window_sound ws -> forallb (fun w => negb (is_swap w)) ws = true ->
  wf s -> exec (consumed ws) s = Some s' -> ∃ t, exec (produced ws) s = Some t /\ s' ≡ t.
Proof.
  intros Hws. revert s s'. induction Hws as [|w ws Hw _ IH]; intros s s'; simpl.
  - intros _ _ [= <-]. by exists s.
  - rewrite andb_true_iff, negb_true_iff. intros [Hsw Hfree] Hs Hexec.
    unfold consumed in Hexec. simpl in Hexec. rewrite exec_app in Hexec.
    destruct (exec w.1 s) as [s1|] eqn:E1; [|done]. simpl in Hexec.
    destruct (Hw s s1) as (t1 & Ht1 & Heq); [done..|].
    pose proof (exec_proper (concat (map fst ws)) s1 t1 Heq) as Hp. rewrite Hexec in Hp.
    inversion Hp as [? s2 Hs2 E2|]; subst.
    destruct (IH t1 s2) as (t & Ht & Hst); [done| |done|].
    + eapply exec_wf; [exact Hs|done].
    + exists t. unfold produced. simpl. rewrite exec_app, Ht1. split; [done|].
      by transitivity s2.
Qed.

Lemma reduce_sound l s s' :
  swap_free l = true -> wf s -> exec l s = Some s' ->
  ∃ t, exec (reduce l) s = Some t /\ s' ≡ t.
Proof.
  intros Hf Hs He. rewrite <- (consumed_windows l) in He.
  by eapply produced_sound; [apply windows_sound|..].
Qed.

Lemma normalize_sound l s s' :
  swap_free_all l = true -> wf s -> exec l s = Some s' ->
  ∃ t, exec (normalize l) s = Some t /\ s' ≡ t.
Proof.
  unfold swap_free_all, normalize. generalize (length l). intros n. revert l s'.
  induction n as [|n IH]; intros l s'; simpl; [by eauto|].
  intros [Hf Hn]%andb_true_iff Hs He. apply reduce_sound in He as (t1 & He & Ht1); [|done..].
  apply IH in He as (t2 & He & Ht2); [|done..]. exists t2. split; [done|]. by transitivity t1.
Qed.

Lemma not_ret_reduce l : i_ret ∉ l -> i_ret ∉ reduce l.
Proof.
  unfold reduce. apply (windows_ind (fun l ws => i_ret ∉ l -> i_ret ∉ produced ws)); [done| |].
  - intros h0 h1 t [c p] [_ Hw]%window2_cases IH [? [? ?]%not_elem_of_cons]%not_elem_of_cons.
    unfold produced. simpl. destruct Hw as [[_ ->]|(_ & _ & ->)]; simpl; [|auto].
    apply not_elem_of_cons. auto.
  - intros h0 t _ IH [? ?]%not_elem_of_cons. unfold produced. simpl.
    case_match; simpl; [auto|]. apply not_elem_of_cons. auto.
Qed.

Lemma not_ret_normalize l : i_ret ∉ l -> i_ret ∉ normalize l.
Proof.
  unfold normalize. generalize (length l). intros n. revert l.
  induction n; intros l; simpl; auto using not_ret_reduce.
Qed.

Lemma run_ret l s : i_ret ∉ l -> run (l ++ [i_ret]) s = (s' ← exec l s; ret_step s').
Proof. intros. rewrite run_app by done. by destruct (exec l s). Qed.

Lemma optimize_run {A E B : Type} `{!Assembler A E, !AssemblerLaws A E, !Profile}
    body labels fuel s s' :
  labels_ok labels -> (length body + 1 < fuel)%nat -> i_ret ∉ body ->
  swap_free_all body = true -> wf s -> run (body ++ [i_ret]) s = Some s' ->
  ∃ l' labels' t, @optimize A E B _ _ fuel (body ++ [i_ret]) labels = Some (Ok (l', labels')) /\
    run l' s = Some t /\ s' ≡ t.
Proof.
  intros Hl Hf Hret Hsw Hs Hrun.
  rewrite optimize_spec, normalize_snoc by (done || rewrite length_app; simpl; lia).
  rewrite run_ret in Hrun by done. destruct (exec body s) as [s1|] eqn:E1; [|done].
  apply normalize_sound in E1 as (t1 & Ht1 & Heq); [|done..]. simpl in Hrun.
  pose proof (ret_step_proper s1 t1 Heq) as Hp. rewrite Hrun in Hp.
  inversion Hp as [? t2 Ht2 E2|]; subst. do 3 eexists. split; [done|].
  rewrite run_ret by by apply not_ret_normalize. rewrite Ht1. simpl. eauto.
Qed.

(** C3: the optimizer preserves meaning.  For a function body without a return
    in the middle on which no pass uses the [mov a, b; mov b, a] window, running
    the optimized function from any well-formed state gives the registers, the
    return address and the memory above the stack pointer that the original
    gives, whatever the callees do. *)
Theorem optimize_preserves_run {A E B : Type} `{!Assembler A E, !AssemblerLaws A E, !Profile}
    body labels fuel s s' :
  labels_ok labels -> (length body + 1 < fuel)%nat -> i_ret ∉ body ->
  swap_free_all body = true -> wf s -> run (body ++ [i_ret]) s = Some s' ->
  ∃ l' labels' t, @optimize A E B _ _ fuel (body ++ [i_ret]) labels = Some (Ok (l', labels')) /\
    run l' s = Some t /\ s' ≡ t.
Proof. apply optimize_run. Qed.

(** C28: the [mov a, b; mov b, a] window loses the first copy.  The optimizer
    turns the pair into nothing, and that preserves the meaning exactly when the
    two registers hold the same value to begin with. *)
Theorem mov_mov_unsound {A E B : Type} `{!Assembler A E, !AssemblerLaws A E, !Profile}
    (a b : Register) s :
  a <> RSP -> b <> RSP ->
  @optimize A E B _ _ 2 [i_mov a b; i_mov b a] [] = Some (Ok ([], [])) /\
  (exec [i_mov a b; i_mov b a] s ≡ exec [] s <-> regs s a = regs s b).
Proof.
  intros Ha Hb. split.
  - assert (Hr : reduce [i_mov a b; i_mov b a] = []).
    { unfold reduce. simpl. unfold window2, is_mov_mov, op0_register, op1_register. simpl.
      by rewrite !bool_decide_eq_true_2. }
    cbn [optimize]. rewrite optimize_loop_spec, Hr by constructor. rewrite decide_False by done.
    by rewrite optimize_loop_spec by constructor.
  - simpl. split.
    + intros Heq. inversion Heq as [? ? (Hr & _)|]; subst. specialize (Hr a). simpl in Hr.
      unfold set_regs in Hr. repeat case_decide; subst; congruence.
    + intros Hab. constructor. split; [|split]; simpl.
      * intros r. unfold set_regs. repeat case_decide; subst; congruence.
      * done.
      * intros x _. by rewrite !decide_False.
Qed.

Lemma frame_identity s s' :
  wf s -> exec [i_push RBP; i_mov RBP RSP; i_mov RSP RBP; i_pop RBP] s = Some s' -> s' ≡ s.
Proof.
  intros Hs. pose proof (wf_regs s Hs RBP). autorewrite with x86. unfold push_val.
  destruct (decide (0 <= regs s RSP - 8)); [|done]. simpl. autorewrite with x86. simpl.
  unfold pop_val. simpl. regs_simpl.
  destruct (decide _); [|done]. rewrite load_forget_other by lia.
  rewrite load_store_same, wrap64_small by done. simpl. intros [= <-].
  split; [|split]; simpl; [|done|].
  - intros r. unfold set_regs. repeat case_decide; subst; try done; lia.
  - unfold set_regs. simpl. intros x Hx. rewrite forget_other by lia.
    apply store64_other. lia.
Qed.

(** The frame set-up and tear-down of a function with an empty body
    disappears altogether, and although that uses the unsound window the result
    is right: the callee's [ret] alone leaves the registers, the return address
    and the stack as the full frame code leaves them. *)
Theorem empty_frame_removed {A E B : Type} `{!Assembler A E, !AssemblerLaws A E, !Profile} s s' :
  let frame := [i_push RBP; i_mov RBP RSP; i_mov RSP RBP; i_pop RBP; i_ret] in
  wf s -> run frame s = Some s' ->
  @optimize A E B _ _ 6 frame [] = Some (Ok ([i_ret], [])) /\
  ∃ t, run [i_ret] s = Some t /\ s' ≡ t.
Proof.
  intros frame Hs Hrun. split.
  { unfold frame. by rewrite optimize_spec by (constructor || simpl; lia). }
  change frame with ([i_push RBP; i_mov RBP RSP; i_mov RSP RBP; i_pop RBP] ++ [i_ret]) in Hrun.
  rewrite run_ret in Hrun by not_in.
  destruct (exec _ s) as [s1|] eqn:E1; [|done]. simpl in Hrun.
  assert (Heq : s1 ≡ s) by by apply frame_identity.
  pose proof (ret_step_proper s1 s Heq) as Hp. rewrite Hrun in Hp.
  inversion Hp as [? t Ht E2|]; subst. exists t. split; [|done].
  change [i_ret] with ([] ++ [i_ret]). by rewrite run_ret by not_in.
Qed.
End Meaning.

(** ** Concrete instances *)
#[local] Existing Instance no_env.

(** The state a program ends in, when it ends in one. *)
Definition final (l : list Instruction) : state := default sample_state (run l sample_state).

Lemma optimize_preserves_run_witness :
  let body := [i_push RAX; i_pop RBX; i_mov RCX RCX; i_push RDI] in
  run (body ++ [i_ret]) sample_state = Some (final (body ++ [i_ret])) /\
  ∃ l' labels' t,
    @optimize _ _ unit BufferAssembler.buffer_assembler debug 9 (body ++ [i_ret]) [(4, mkLabel 1)]
      = Some (Ok (l', labels')) /\
    run l' sample_state = Some t /\ final (body ++ [i_ret]) ≡ t.
Proof.
  intros body. assert (Hr : run (body ++ [i_ret]) sample_state = Some (final (body ++ [i_ret])))
    by reflexivity.
  split; [exact Hr|]. apply (optimize_preserves_run body).
  - repeat constructor; simpl; lia.
  - simpl. lia.
  - unfold body. not_in.
  - vm_compute. reflexivity.
  - apply sample_state_wf.
  - exact Hr.
Defined.

Lemma mov_mov_unsound_witness :
  @optimize _ _ unit BufferAssembler.buffer_assembler debug 2 [i_mov RDI RSI; i_mov RSI RDI] []
    = Some (Ok ([], [])) /\
  (exec [i_mov RDI RSI; i_mov RSI RDI] sample_state ≡ exec [] sample_state <->
   regs sample_state RDI = regs sample_state RSI).
Proof. apply mov_mov_unsound; discriminate. Defined.

Lemma empty_frame_removed_witness :
  let frame := [i_push RBP; i_mov RBP RSP; i_mov RSP RBP; i_pop RBP; i_ret] in
  run frame sample_state = Some (final frame) /\
  @optimize _ _ unit BufferAssembler.buffer_assembler debug 6 frame [] = Some (Ok ([i_ret], [])) /\
  ∃ t, run [i_ret] sample_state = Some t /\ final frame ≡ t.
Proof.
  intros frame. assert (Hr : run frame sample_state = Some (final frame)) by reflexivity.
  split; [exact Hr|]. exact (empty_frame_removed sample_state (final frame) sample_state_wf Hr).
Defined.
