(* ===== verification/Wasm.v ===== *)
(** * WebAssembly as the compiler sees it

    The value types, function types and operators are those of [wasmparser], as
    [instructions.rs] and [mod.rs] match on them: every operator of the match is
    a constructor, with the fields the compiler reads.  [wasm_step] is the
    WebAssembly specification of the operators the compiler supports outside
    calls: a stack of 64-bit values and the function's locals. *)
From S2P Require Import Prelude.

Inductive ValType :=
  | I32 | I64 | F32 | F64 | V128
  | FuncRef | ExternRef | ExnRef | Func | EmptyBlockType.
#[global] Instance ValType_eq_dec : EqDecision ValType.
Proof. solve_decision. Defined.

Record FuncType := mkFuncType { params : list ValType; returns : list ValType }.

(** [EncodingSize for Type]: the bytes a value takes in a frame. *)
Definition encoding_size {E} (t : ValType) : Res E Z :=
  match t with
  | I32 => Ok 4
  | I64 => Ok 8
  | F32 => Ok 4
  | F64 => Ok 8
  | V128 => Ok 16
  | FuncRef => Panic Todo
  | ExternRef => Panic Todo
  | ExnRef => Panic Todo
  | Func => Panic Todo
  | EmptyBlockType => Panic Todo
  end.

(** [wasmparser::Operator], in the order of the compiler's match. *)
Module Operator.
Inductive t :=
  | I64Const (value : Z) | I64Add | I32Add | I64Sub | I32Sub | Call (function_index : Z)
  | Unreachable | Nop | Block | Loop | If | Else | Try | Catch | Throw | Rethrow | End | Br
  | BrIf | BrTable | Return | CallIndirect | ReturnCall | ReturnCallIndirect | Delegate
  | CatchAll | Drop | Select | TypedSelect | LocalGet (local_index : Z)
  | LocalSet (local_index : Z) | LocalTee | GlobalGet | GlobalSet | I32Load | I64Load | F32Load
  | F64Load | I32Load8S | I32Load8U | I32Load16S | I32Load16U | I64Load8S | I64Load8U
  | I64Load16S | I64Load16U | I64Load32S | I64Load32U | I32Store | I64Store | F32Store
  | F64Store | I32Store8 | I32Store16 | I64Store8 | I64Store16 | I64Store32 | MemorySize
  | MemoryGrow | I32Const | F32Const | F64Const | RefNull | RefIsNull | RefFunc | I32Eqz
  | I32Eq | I32Ne | I32LtS | I32LtU | I32GtS | I32GtU | I32LeS | I32LeU | I32GeS | I32GeU
  | I64Eqz | I64Eq | I64Ne | I64LtS | I64LtU | I64GtS | I64GtU | I64LeS | I64LeU | I64GeS
  | I64GeU | F32Eq | F32Ne | F32Lt | F32Gt | F32Le | F32Ge | F64Eq | F64Ne | F64Lt | F64Gt
  | F64Le | F64Ge | I32Clz | I32Ctz | I32Popcnt | I32Mul | I32DivS | I32DivU | I32RemS
  | I32RemU | I32And | I32Or | I32Xor | I32Shl | I32ShrS | I32ShrU | I32Rotl | I32Rotr | I64Clz
  | I64Ctz | I64Popcnt | I64Mul | I64DivS | I64DivU | I64RemS | I64RemU | I64And | I64Or
  | I64Xor | I64Shl | I64ShrS | I64ShrU | I64Rotl | I64Rotr | F32Abs | F32Neg | F32Ceil
  | F32Floor | F32Trunc | F32Nearest | F32Sqrt | F32Add | F32Sub | F32Mul | F32Div | F32Min
  | F32Max | F32Copysign | F64Abs | F64Neg | F64Ceil | F64Floor | F64Trunc | F64Nearest
  | F64Sqrt | F64Add | F64Sub | F64Mul | F64Div | F64Min | F64Max | F64Copysign | I32WrapI64
  | I32TruncF32S | I32TruncF32U | I32TruncF64S | I32TruncF64U | I64ExtendI32S | I64ExtendI32U
  | I64TruncF32S | I64TruncF32U | I64TruncF64S | I64TruncF64U | F32ConvertI32S | F32ConvertI32U
  | F32ConvertI64S | F32ConvertI64U | F32DemoteF64 | F64ConvertI32S | F64ConvertI32U
  | F64ConvertI64S | F64ConvertI64U | F64PromoteF32 | I32ReinterpretF32 | I64ReinterpretF64
  | F32ReinterpretI32 | F64ReinterpretI64 | I32Extend8S | I32Extend16S | I64Extend8S
  | I64Extend16S | I64Extend32S | I32TruncSatF32S | I32TruncSatF32U | I32TruncSatF64S
  | I32TruncSatF64U | I64TruncSatF32S | I64TruncSatF32U | I64TruncSatF64S | I64TruncSatF64U
  | MemoryInit | DataDrop | MemoryCopy | MemoryFill | TableInit | ElemDrop | TableCopy
  | TableFill | TableGet | TableSet | TableGrow | TableSize | MemoryAtomicNotify
  | MemoryAtomicWait32 | MemoryAtomicWait64 | AtomicFence | I32AtomicLoad | I64AtomicLoad
  | I32AtomicLoad8U | I32AtomicLoad16U | I64AtomicLoad8U | I64AtomicLoad16U | I64AtomicLoad32U
  | I32AtomicStore | I64AtomicStore | I32AtomicStore8 | I32AtomicStore16 | I64AtomicStore8
  | I64AtomicStore16 | I64AtomicStore32 | I32AtomicRmwAdd | I64AtomicRmwAdd | I32AtomicRmw8AddU
  | I32AtomicRmw16AddU | I64AtomicRmw8AddU | I64AtomicRmw16AddU | I64AtomicRmw32AddU
  | I32AtomicRmwSub | I64AtomicRmwSub | I32AtomicRmw8SubU | I32AtomicRmw16SubU
  | I64AtomicRmw8SubU | I64AtomicRmw16SubU | I64AtomicRmw32SubU | I32AtomicRmwAnd
  | I64AtomicRmwAnd | I32AtomicRmw8AndU | I32AtomicRmw16AndU | I64AtomicRmw8AndU
  | I64AtomicRmw16AndU | I64AtomicRmw32AndU | I32AtomicRmwOr | I64AtomicRmwOr
  | I32AtomicRmw8OrU | I32AtomicRmw16OrU | I64AtomicRmw8OrU | I64AtomicRmw16OrU
  | I64AtomicRmw32OrU | I32AtomicRmwXor | I64AtomicRmwXor | I32AtomicRmw8XorU
  | I32AtomicRmw16XorU | I64AtomicRmw8XorU | I64AtomicRmw16XorU | I64AtomicRmw32XorU
  | I32AtomicRmwXchg | I64AtomicRmwXchg | I32AtomicRmw8XchgU | I32AtomicRmw16XchgU
  | I64AtomicRmw8XchgU | I64AtomicRmw16XchgU | I64AtomicRmw32XchgU | I32AtomicRmwCmpxchg
  | I64AtomicRmwCmpxchg | I32AtomicRmw8CmpxchgU | I32AtomicRmw16CmpxchgU
  | I64AtomicRmw8CmpxchgU | I64AtomicRmw16CmpxchgU | I64AtomicRmw32CmpxchgU | V128Load
  | V128Load8x8S | V128Load8x8U | V128Load16x4S | V128Load16x4U | V128Load32x2S | V128Load32x2U
  | V128Load8Splat | V128Load16Splat | V128Load32Splat | V128Load64Splat | V128Load32Zero
  | V128Load64Zero | V128Store | V128Load8Lane | V128Load16Lane | V128Load32Lane
  | V128Load64Lane | V128Store8Lane | V128Store16Lane | V128Store32Lane | V128Store64Lane
  | V128Const | I8x16Shuffle | I8x16ExtractLaneS | I8x16ExtractLaneU | I8x16ReplaceLane
  | I16x8ExtractLaneS | I16x8ExtractLaneU | I16x8ReplaceLane | I32x4ExtractLane
  | I32x4ReplaceLane | I64x2ExtractLane | I64x2ReplaceLane | F32x4ExtractLane
  | F32x4ReplaceLane | F64x2ExtractLane | F64x2ReplaceLane | I8x16Swizzle | I8x16Splat
  | I16x8Splat | I32x4Splat | I64x2Splat | F32x4Splat | F64x2Splat | I8x16Eq | I8x16Ne
  | I8x16LtS | I8x16LtU | I8x16GtS | I8x16GtU | I8x16LeS | I8x16LeU | I8x16GeS | I8x16GeU
  | I16x8Eq | I16x8Ne | I16x8LtS | I16x8LtU | I16x8GtS | I16x8GtU | I16x8LeS | I16x8LeU
  | I16x8GeS | I16x8GeU | I32x4Eq | I32x4Ne | I32x4LtS | I32x4LtU | I32x4GtS | I32x4GtU
  | I32x4LeS | I32x4LeU | I32x4GeS | I32x4GeU | I64x2Eq | I64x2Ne | I64x2LtS | I64x2GtS
  | I64x2LeS | I64x2GeS | F32x4Eq | F32x4Ne | F32x4Lt | F32x4Gt | F32x4Le | F32x4Ge | F64x2Eq
  | F64x2Ne | F64x2Lt | F64x2Gt | F64x2Le | F64x2Ge | V128Not | V128And | V128AndNot | V128Or
  | V128Xor | V128Bitselect | V128AnyTrue | I8x16Abs | I8x16Neg | I8x16Popcnt | I8x16AllTrue
  | I8x16Bitmask | I8x16NarrowI16x8S | I8x16NarrowI16x8U | I8x16Shl | I8x16ShrS | I8x16ShrU
  | I8x16Add | I8x16AddSatS | I8x16AddSatU | I8x16Sub | I8x16SubSatS | I8x16SubSatU | I8x16MinS
  | I8x16MinU | I8x16MaxS | I8x16MaxU | I8x16RoundingAverageU | I16x8ExtAddPairwiseI8x16S
  | I16x8ExtAddPairwiseI8x16U | I16x8Abs | I16x8Neg | I16x8Q15MulrSatS | I16x8AllTrue
  | I16x8Bitmask | I16x8NarrowI32x4S | I16x8NarrowI32x4U | I16x8ExtendLowI8x16S
  | I16x8ExtendHighI8x16S | I16x8ExtendLowI8x16U | I16x8ExtendHighI8x16U | I16x8Shl | I16x8ShrS
  | I16x8ShrU | I16x8Add | I16x8AddSatS | I16x8AddSatU | I16x8Sub | I16x8SubSatS | I16x8SubSatU
  | I16x8Mul | I16x8MinS | I16x8MinU | I16x8MaxS | I16x8MaxU | I16x8RoundingAverageU
  | I16x8ExtMulLowI8x16S | I16x8ExtMulHighI8x16S | I16x8ExtMulLowI8x16U | I16x8ExtMulHighI8x16U
  | I32x4ExtAddPairwiseI16x8S | I32x4ExtAddPairwiseI16x8U | I32x4Abs | I32x4Neg | I32x4AllTrue
  | I32x4Bitmask | I32x4ExtendLowI16x8S | I32x4ExtendHighI16x8S | I32x4ExtendLowI16x8U
  | I32x4ExtendHighI16x8U | I32x4Shl | I32x4ShrS | I32x4ShrU | I32x4Add | I32x4Sub | I32x4Mul
  | I32x4MinS | I32x4MinU | I32x4MaxS | I32x4MaxU | I32x4DotI16x8S | I32x4ExtMulLowI16x8S
  | I32x4ExtMulHighI16x8S | I32x4ExtMulLowI16x8U | I32x4ExtMulHighI16x8U | I64x2Abs | I64x2Neg
  | I64x2AllTrue | I64x2Bitmask | I64x2ExtendLowI32x4S | I64x2ExtendHighI32x4S
  | I64x2ExtendLowI32x4U | I64x2ExtendHighI32x4U | I64x2Shl | I64x2ShrS | I64x2ShrU | I64x2Add
  | I64x2Sub | I64x2Mul | I64x2ExtMulLowI32x4S | I64x2ExtMulHighI32x4S | I64x2ExtMulLowI32x4U
  | I64x2ExtMulHighI32x4U | F32x4Ceil | F32x4Floor | F32x4Trunc | F32x4Nearest | F32x4Abs
  | F32x4Neg | F32x4Sqrt | F32x4Add | F32x4Sub | F32x4Mul | F32x4Div | F32x4Min | F32x4Max
  | F32x4PMin | F32x4PMax | F64x2Ceil | F64x2Floor | F64x2Trunc | F64x2Nearest | F64x2Abs
  | F64x2Neg | F64x2Sqrt | F64x2Add | F64x2Sub | F64x2Mul | F64x2Div | F64x2Min | F64x2Max
  | F64x2PMin | F64x2PMax | I32x4TruncSatF32x4S | I32x4TruncSatF32x4U | F32x4ConvertI32x4S
  | F32x4ConvertI32x4U | I32x4TruncSatF64x2SZero | I32x4TruncSatF64x2UZero
  | F64x2ConvertLowI32x4S | F64x2ConvertLowI32x4U | F32x4DemoteF64x2Zero | F64x2PromoteLowF32x4
  | I8x16RelaxedSwizzle | I32x4RelaxedTruncSatF32x4S | I32x4RelaxedTruncSatF32x4U
  | I32x4RelaxedTruncSatF64x2SZero | I32x4RelaxedTruncSatF64x2UZero | F32x4Fma | F32x4Fms
  | F64x2Fma | F64x2Fms | I8x16LaneSelect | I16x8LaneSelect | I32x4LaneSelect | I64x2LaneSelect
  | F32x4RelaxedMin | F32x4RelaxedMax | F64x2RelaxedMin | F64x2RelaxedMax.
End Operator.

(** ** The specification of straight-line code *)
Record wstate := mkW { wstack : list Z; wlocals : list Z }.

Definition wasm_step (op : Operator.t) (w : wstate) : option wstate :=
  match op, wstack w with
  | Operator.I64Const v, st => Some (mkW (wrap64 v :: st) (wlocals w))
  | Operator.I64Add, v2 :: v1 :: st => Some (mkW (wrap64 (v1 + v2) :: st) (wlocals w))
  | Operator.I64Sub, v2 :: v1 :: st => Some (mkW (wrap64 (v1 - v2) :: st) (wlocals w))
  | Operator.LocalGet i, st =>
      v ← wlocals w !! Z.to_nat i; Some (mkW (v :: st) (wlocals w))
  | Operator.LocalSet i, v :: st =>
      if decide (Z.to_nat i < length (wlocals w))%nat
      then Some (mkW st (<[Z.to_nat i := v]> (wlocals w))) else None
  | Operator.Nop, st => Some w
  | Operator.End, st => Some w
  | _, _ => None
  end.

Fixpoint wasm_exec (ops : list Operator.t) (w : wstate) : option wstate :=
  match ops with
  | [] => Some w
  | op :: ops => w' ← wasm_step op w; wasm_exec ops w'
  end.

(** The greatest height of the operand stack on the way. *)
Fixpoint wasm_height (ops : list Operator.t) (w : wstate) : nat :=
  match ops with
  | [] => length (wstack w)
  | op :: ops =>
      Nat.max (length (wstack w))
        (match wasm_step op w with Some w' => wasm_height ops w' | None => 0%nat end)
  end.
