(* ===== verification/Programs.v ===== *)
(** * WebAssembly programs with calls

    Function instances live at addresses; a body is a list of operators over a
    stack of 64-bit values, and [call] enters another instance.  [wcall] is the
    semantics in two dialects: [Standard] is the WebAssembly specification,
    [Compiled] is what the compiler makes of it, with the parameters of a callee
    in reverse order, the results of a call in reverse order, and the operands of
    [i64.sub] exchanged.  A typing of bodies rules out every failure but running
    out of call depth, in both dialects. *)
From S2P Require Import Prelude Wasm.

(** A function instance.  [f_height] bounds its operand stack; [f_callee] maps
    the function indices of its module to addresses. *)
Record finst := mkFunc {
  f_params : nat; f_results : nat; f_height : nat;
  f_body : list Operator.t; f_callee : Z -> option Z }.

Abbreviation store := (Z -> option finst).

Inductive dialect := Standard | Compiled.

Definition params_order (d : dialect) (args : list Z) : list Z :=
  match d with Standard => args | Compiled => reverse args end.
Definition results_order (d : dialect) (vs : list Z) : list Z :=
  match d with Standard => vs | Compiled => reverse vs end.
Definition sub_order (d : dialect) (v1 v2 : Z) : Z :=
  match d with Standard => v1 - v2 | Compiled => v2 - v1 end.

(** Why an execution has no result: an operator does not apply, or the call
    depth is used up. *)
Inductive trap := Stuck | Exhausted.

Section Semantics.
Context (d : dialect) (st : store).

Definition wstep (call : Z -> list Z -> Res trap (list Z)) (F : finst) (op : Operator.t) (w : wstate)
    : Res trap wstate :=
  match op with
  | Operator.Call i =>
      match f_callee F i ≫= fun a => pair a <$> st a with
      | Some (a, G) =>
          if decide (f_params G <= length (wstack w))%nat then
            vs ← call a (reverse (take (f_params G) (wstack w)));
            Ok (mkW (results_order d vs ++ drop (f_params G) (wstack w)) (wlocals w))
          else Err Stuck
      | None => Err Stuck
      end
  | Operator.I64Sub =>
      match wstack w with
      | v2 :: v1 :: vs => Ok (mkW (wrap64 (sub_order d v1 v2) :: vs) (wlocals w))
      | _ => Err Stuck
      end
  | _ => match wasm_step op w with Some w => Ok w | None => Err Stuck end
  end.

Fixpoint wrun (call : Z -> list Z -> Res trap (list Z)) (F : finst) (ops : list Operator.t) (w : wstate)
    : Res trap wstate :=
  match ops with
  | [] => Ok w
  | op :: ops =>
      w ← wstep call F op w;
      if decide (length (wstack w) <= f_height F)%nat then wrun call F ops w else Err Stuck
  end.

(** The results of calling the function at [a], top of the stack first. *)
Fixpoint wcall (depth : nat) (a : Z) (args : list Z) : Res trap (list Z) :=
  match depth with
  | O => Err Exhausted
  | S depth =>
      match st a with
      | Some F =>
          if decide (length args = f_params F) then
            w ← wrun (wcall depth) F (f_body F) (mkW [] (params_order d args));
            if decide (length (wstack w) = f_results F) then Ok (wstack w) else Err Stuck
          else Err Stuck
      | None => Err Stuck
      end
  end.
End Semantics.

(** ** Typing

    All values have type [i64], so the type of an operand stack is its height. *)
Definition signature (st : store) (F : finst) (i : Z) : option (nat * nat) :=
  G ← f_callee F i ≫= st; Some (f_params G, f_results G).

Definition check_op (sig : Z -> option (nat * nat)) (nlocals : nat) (op : Operator.t) (h : nat) : option nat :=
  match op with
  | Operator.I64Const _ => Some (S h)
  | Operator.I64Add | Operator.I64Sub => if decide (2 <= h)%nat then Some (h - 1)%nat else None
  | Operator.LocalGet i => if decide (Z.to_nat i < nlocals)%nat then Some (S h) else None
  | Operator.LocalSet i =>
      if decide (1 <= h /\ Z.to_nat i < nlocals)%nat then Some (h - 1)%nat else None
  | Operator.Nop | Operator.End => Some h
  | Operator.Call i =>
      '(n, m) ← sig i; if decide (n <= h)%nat then Some (h - n + m)%nat else None
  | _ => None
  end.

Fixpoint check_ops (sig : Z -> option (nat * nat)) (nlocals limit : nat) (ops : list Operator.t) (h : nat)
    : option nat :=
  match ops with
  | [] => Some h
  | op :: ops =>
      h ← check_op sig nlocals op h;
      if decide (h <= limit)%nat then check_ops sig nlocals limit ops h else None
  end.

Definition typed_function (st : store) (F : finst) : Prop :=
  check_ops (signature st F) (f_params F) (f_height F) (f_body F) 0 = Some (f_results F).
Definition typed_program (st : store) : Prop := ∀ a F, st a = Some F -> typed_function st F.

Section Typing.
Context (d : dialect) (st : store).
Implicit Types (F G : finst) (w : wstate).

(** A computation that gives a result satisfying [P] or runs out of depth. *)
Definition safe {B} (P : B -> Prop) (r : Res trap B) : Prop :=
  r = Err Exhausted \/ ∃ b, r = Ok b /\ P b.

Lemma safe_ok {B} (P : B -> Prop) b : P b -> safe P (Ok b).
Proof. intros. right. by exists b. Qed.

Lemma safe_bind {B C} (P : B -> Prop) (Q : C -> Prop) (r : Res trap B) (f : B -> Res trap C) :
  safe P r -> (∀ b, P b -> safe Q (f b)) -> safe Q (mbind f r).
Proof. intros [->|(b & -> & Hb)] Hf; [by left|]. rewrite res_bind_ok. by apply Hf. Qed.

Lemma length_params_order args : length (params_order d args) = length args.
Proof. destruct d; simpl; [done|]. apply length_reverse. Qed.

Lemma length_results_order vs : length (results_order d vs) = length vs.
Proof. destruct d; simpl; [done|]. apply length_reverse. Qed.

(** What the callees promise. *)
Definition calls_safe (call : Z -> list Z -> Res trap (list Z)) : Prop :=
  ∀ a G args, st a = Some G -> length args = f_params G ->
    safe (fun vs => length vs = f_results G) (call a args).

(** An operator that checks applies, and moves the height as it was checked. *)
Lemma wstep_safe call F op w h :
  calls_safe call -> check_op (signature st F) (length (wlocals w)) op (length (wstack w)) = Some h ->
  safe (fun w' => length (wstack w') = h /\ length (wlocals w') = length (wlocals w)) (wstep d st call F op w).
Proof.
  intros Hcalls Hc. destruct op; try done; simpl in Hc; unfold wstep, wasm_step.
  - injection Hc as <-. by apply safe_ok.
  - case_decide; [|done]. injection Hc as <-.
    destruct (wstack w) as [|v2 [|v1 vs]]; simpl in *; [lia..|]. by apply safe_ok.
  - case_decide; [|done]. injection Hc as <-.
    destruct (wstack w) as [|v2 [|v1 vs]]; simpl in *; [lia..|]. by apply safe_ok.
  - unfold signature in Hc. destruct (f_callee F function_index) as [a|]; [|done]. simpl in *.
    destruct (st a) as [G|] eqn:HG; [|done]. simpl in *. case_decide; [|done]. injection Hc as <-.
    eapply safe_bind; [apply (Hcalls a G); [done|]; rewrite length_reverse, length_take; lia|].
    intros vs Hvs. simpl in Hvs. apply safe_ok. simpl. rewrite length_app, length_results_order, length_drop. lia.
  - injection Hc as <-. by apply safe_ok.
  - injection Hc as <-. by apply safe_ok.
  - case_decide as Hl; [|done]. injection Hc as <-. apply lookup_lt_is_Some in Hl as [v Hv]. rewrite Hv.
    by apply safe_ok.
  - case_decide as Hl; [|done]. injection Hc as <-. destruct Hl. destruct (wstack w); simpl in *; [lia|].
    rewrite decide_True by done. apply safe_ok. simpl. rewrite length_insert. lia.
Qed.

Lemma wrun_safe call F ops w h :
  calls_safe call -> check_ops (signature st F) (length (wlocals w)) (f_height F) ops (length (wstack w)) = Some h ->
  safe (fun w' => length (wstack w') = h) (wrun d st call F ops w).
Proof.
  intros Hcalls. revert w. induction ops as [|op ops IH]; intros w Hc; cbn [check_ops wrun] in *.
  - injection Hc as <-. by apply safe_ok.
  - destruct (check_op _ _ op _) as [h1|] eqn:Ho; [|done]. cbn [mbind option_bind] in Hc.
    case_decide; [|done]. eapply safe_bind; [by apply wstep_safe|]. intros w1 [Hw1 Hl1].
    rewrite decide_True by lia. apply IH. by rewrite Hw1, Hl1.
Qed.

Lemma wcall_safe depth : typed_program st -> calls_safe (wcall d st depth).
Proof.
  intros Ht. induction depth as [|depth IH]; intros a F args HF Hl; [by left|]. simpl. rewrite HF, decide_True by done.
  eapply safe_bind; [eapply (wrun_safe _ F _ _ (f_results F)); [done|]|].
  - simpl. rewrite length_params_order, Hl. by eapply Ht.
  - intros w Hw. rewrite decide_True by done. by apply safe_ok.
Qed.
End Typing.

(** ** Fuel *)
Lemma wstep_mono d st call call' F op w w' :
  (∀ a args vs, call a args = Ok vs -> call' a args = Ok vs) ->
  wstep d st call F op w = Ok w' -> wstep d st call' F op w = Ok w'.
Proof.
  intros Hc. unfold wstep. destruct op; try done.
  destruct (_ ≫= _) as [[a G]|]; [|done]. case_decide; [|done].
  intros Hw. res_step Hw as vs E. by rewrite (Hc _ _ _ E).
Qed.

Lemma wrun_mono d st call call' F ops w w' :
  (∀ a args vs, call a args = Ok vs -> call' a args = Ok vs) ->
  wrun d st call F ops w = Ok w' -> wrun d st call' F ops w = Ok w'.
Proof.
  intros Hc. revert w. induction ops as [|op ops IH]; intros w; cbn [wrun]; [done|].
  intros Hw. res_step Hw as w1 E. rewrite (wstep_mono _ _ _ _ _ _ _ _ Hc E), res_bind_ok.
  case_decide; [|done]. by apply IH.
Qed.

(** More depth does not change a result. *)
Lemma wcall_mono d st depth depth' a args vs :
  (depth <= depth')%nat -> wcall d st depth a args = Ok vs -> wcall d st depth' a args = Ok vs.
Proof.
  revert depth' a args vs. induction depth as [|depth IH]; intros [|depth'] a args vs Hd; [done|done|lia|].
  simpl. destruct (st a) as [F|]; [|done]. case_decide; [|done]. intros Hw. res_step Hw as w E.
  erewrite wrun_mono; [|intros; eapply (IH depth'); [lia|done]|exact E]. by rewrite res_bind_ok.
Qed.

(** ** Where the dialects agree *)

(** No operand order to get wrong: at most one parameter, one result, and no
    subtraction. *)
Definition unordered (F : finst) : Prop :=
  (f_params F <= 1)%nat /\ (f_results F <= 1)%nat /\ (Operator.I64Sub ∉ f_body F).

Lemma reverse_short {A} (l : list A) : (length l <= 1)%nat -> reverse l = l.
Proof. destruct l as [|x [|]]; simpl; [done..|lia]. Qed.

Section Agreement.
Context (st : store) (Hst : ∀ a F, st a = Some F -> unordered F).

Definition agree (call call' : Z -> list Z -> Res trap (list Z)) : Prop :=
  ∀ a args, call a args = call' a args /\
    ∀ F vs, st a = Some F -> call a args = Ok vs -> (length vs <= 1)%nat.

Lemma wstep_agree call call' F op w :
  agree call call' -> op <> Operator.I64Sub -> wstep Compiled st call F op w = wstep Standard st call' F op w.
Proof.
  intros Hc Hop. unfold wstep. destruct op; try done.
  destruct (f_callee F function_index) as [a|]; [|done]. simpl. destruct (st a) as [G|] eqn:HG; [|done]. simpl.
  case_decide; [|done]. destruct (Hc a (reverse (take (f_params G) (wstack w)))) as [Heq Hlen]. rewrite <- Heq.
  destruct (call a _) as [vs| |] eqn:E; [|done..]. rewrite !res_bind_ok.
  by rewrite reverse_short by by eapply Hlen.
Qed.

Lemma wrun_agree call call' F ops w :
  agree call call' -> Operator.I64Sub ∉ ops -> wrun Compiled st call F ops w = wrun Standard st call' F ops w.
Proof.
  intros Hc. revert w. induction ops as [|op ops IH]; intros w; [done|].
  intros [Hop Hops]%not_elem_of_cons. cbn [wrun]. rewrite (wstep_agree call call') by auto.
  destruct (wstep Standard _ _ _ _ _) as [w1| |]; [|done..]. rewrite !res_bind_ok.
  case_decide; [|done]. by apply IH.
Qed.

Lemma wcall_agree depth : agree (wcall Compiled st depth) (wcall Standard st depth).
Proof.
  induction depth as [|depth IH]; intros a args; [done|]. simpl. destruct (st a) as [F|] eqn:HF; [|done].
  destruct (Hst a F HF) as (Hn & Hm & Hsub). case_decide as Hl; [|done].
  rewrite reverse_short by lia. rewrite (wrun_agree _ _ _ _ _ IH) by done. split; [done|].
  intros F' vs [= <-] Hw. res_step Hw as w E. case_decide; [|done]. apply Ok_inj in Hw as <-. lia.
Qed.
End Agreement.

(** ** Properties *)

(** Well-typed programs do not get stuck.  If every function of a program
    checks against the signatures of the functions it calls, then calling any of
    them with as many arguments as it has parameters either gives as many results
    as its type says or uses up the call depth; in both dialects. *)
Theorem typed_programs_run d st depth a F args :
  typed_program st -> st a = Some F -> length args = f_params F ->
  wcall d st depth a args = Err Exhausted \/
  ∃ vs, wcall d st depth a args = Ok vs /\ length vs = f_results F.
Proof. intros Ht HF Hl. exact (wcall_safe d st depth Ht a F args HF Hl). Qed.

(** Where the compiled dialect is WebAssembly.  In a program whose
    functions have at most one parameter and at most one result and do not
    subtract, every call has the same outcome in both dialects. *)
Theorem dialects_agree st depth a args :
  (∀ a F, st a = Some F -> unordered F) ->
  wcall Compiled st depth a args = wcall Standard st depth a args.
Proof. intros Hst. by apply wcall_agree. Qed.

(** ** A sample program: [main] calls [f 52 10], which subtracts. *)
Definition sample_callee (i : Z) : option Z := if decide (i = 0) then Some 64 else if decide (i = 1) then Some 128 else None.
Definition sample_sub : finst :=
  mkFunc 2 1 2 [Operator.LocalGet 0; Operator.LocalGet 1; Operator.I64Sub; Operator.End] sample_callee.
Definition sample_main : finst :=
  mkFunc 0 1 2 [Operator.I64Const 52; Operator.I64Const 10; Operator.Call 0; Operator.End] sample_callee.
Definition sample_store : store := fun a =>
  if decide (a = 64) then Some sample_sub else if decide (a = 128) then Some sample_main else None.

Lemma sample_store_typed : typed_program sample_store.
Proof.
  intros a F. unfold sample_store. case_decide; [by intros [= <-]|]. case_decide; [by intros [= <-]|done].
Qed.

(** The two reversals cancel, as in the test [passing_args_and_return_value]. *)
Example sample_main_dialects :
  wcall Standard sample_store 2 128 [] = Ok [42] /\ wcall Compiled sample_store 2 128 [] = Ok [42].
Proof. split; reflexivity. Qed.

Lemma typed_programs_run_witness :
  wcall Compiled sample_store 2 128 [] = Err Exhausted \/
  ∃ vs, wcall Compiled sample_store 2 128 [] = Ok vs /\ length vs = 1%nat.
Proof.
  apply (typed_programs_run Compiled sample_store 2 128 sample_main []);
    [exact sample_store_typed|reflexivity|reflexivity].
Defined.

(** [i64.const 20, call double] *)
Definition double_store : store := fun a =>
  if decide (a = 64) then Some (mkFunc 1 1 2 [Operator.LocalGet 0; Operator.LocalGet 0; Operator.I64Add; Operator.End] (fun _ => None))
  else if decide (a = 128) then Some (mkFunc 0 1 1 [Operator.I64Const 21; Operator.Call 0; Operator.End] (fun _ => Some 64))
  else None.

Lemma dialects_agree_witness :
  wcall Compiled double_store 2 128 [] = wcall Standard double_store 2 128 [].
Proof.
  apply (dialects_agree double_store). intros a F. unfold double_store.
  case_decide; [intros [= <-]; split_and!; simpl; [lia|lia|not_in]|].
  case_decide; [intros [= <-]; split_and!; simpl; [lia|lia|not_in]|done].
Defined.
