(* ===== verification/Instructions.v ===== *)
(** * Instruction selection ([parawasm/src/x86_64/instructions.rs])

    [handle_instruction] emits the x86-64 code of one WebAssembly operator.  The
    maps it is given are the compiler's tables: [got] the labels of the module's
    own functions, [ils] those of the import slots, [function_types] the type
    index of every function and [function_typedefs] the types; [locals] holds
    the frame offset of every local. *)
From S2P Require Import Prelude X86 Assembler Wasm.

(** The System V order of the integer argument registers. *)
Definition integer_registers : list Register := [RDI; RSI; RDX; RCX; R8; R9].
Definition return_registers : list Register := [RAX; RDX].

(** [function_types.get(i).and_then(|i| function_types.get(&i))
      .and_then(|t| function_typedefs.get(t))]: the look-up of a function's
    type, as it is written for a call and for a function body. *)
Definition lookup_function_type (function_types : gmap Z Z) (function_typedefs : gmap Z FuncType)
    (function_index : Z) : option FuncType :=
  i ← function_types !! function_index;
  t ← function_types !! i;
  function_typedefs !! t.

Section Code.
Context {A E B : Type} `{Assembler A E}.

(** One iteration over the callee's parameters: pop the argument on top of the
    operand stack into the last free register. *)
Definition pop_argument (param : ValType) (st : list Register * A)
    : Res (Error B E) (list Register * A) :=
  let '(integer_order, a) := st in
  match param with
  | I64 | I32 =>
      match pop_back integer_order with
      | Some (reg, integer_order) => a ← emit (i_pop reg) a; Ok (integer_order, a)
      | None => Panic Todo
      end
  | _ => Panic Todo
  end.

(** One iteration over the callee's results. *)
Definition push_result (ret : ValType) (st : list Register * A)
    : Res (Error B E) (list Register * A) :=
  let '(integer_order, a) := st in
  match ret with
  | I64 | I32 =>
      match pop_front integer_order with
      | Some (reg, integer_order) => a ← emit (i_push reg) a; Ok (integer_order, a)
      | None => Ok (integer_order, a)
      end
  | _ => Panic Todo
  end.

Definition handle_call (got ils : gmap Z CodeLabel) (function_typedefs : gmap Z FuncType)
    (function_types : gmap Z Z) (function_index : Z) (a : A) : Res (Error B E) A :=
  called_function_type ←
    of_option UnwrapNone (lookup_function_type function_types function_typedefs function_index);
  integer_order ← drain (length (params called_function_type)) integer_registers;
  '(_, a) ← for_each pop_argument (params called_function_type) (integer_order, a);
  a ← match got !! function_index with
      | None =>
          match ils !! function_index with
          | Some import_label => a ← emit (i_load_label R10 import_label) a; emit (i_call_reg R10) a
          | None => Ok a
          end
      | Some label => emit (i_call label) a
      end;
  '(_, a) ← for_each push_result (returns called_function_type) (return_registers, a);
  Ok a.

Definition handle_instruction (got ils : gmap Z CodeLabel) (function_typedefs : gmap Z FuncType)
    (function_types : gmap Z Z) (locals : list Z) (op : Operator.t) (a : A) : Res (Error B E) A :=
  match op with
  | Operator.I64Const value => a ← emit (i_mov_imm RAX value) a; emit (i_push RAX) a
  | Operator.I64Add =>
      a ← emit (i_pop RAX) a; a ← emit (i_pop RBX) a; a ← emit (i_add RAX RBX) a;
      emit (i_push RAX) a
  | Operator.I32Add =>
      a ← emit (i_pop32 EAX) a; a ← emit (i_pop32 EBX) a; a ← emit (i_add32 EAX EBX) a;
      emit (i_push32 EAX) a
  | Operator.I64Sub =>
      a ← emit (i_pop RAX) a; a ← emit (i_pop RBX) a; a ← emit (i_sub RAX RBX) a;
      emit (i_push RAX) a
  | Operator.I32Sub =>
      a ← emit (i_pop32 EAX) a; a ← emit (i_pop32 EBX) a; a ← emit (i_sub32 EAX EBX) a;
      emit (i_push32 EAX) a
  | Operator.Call function_index =>
      handle_call got ils function_typedefs function_types function_index a
  | Operator.Nop => emit i_nop a
  | Operator.End => Ok a
  | Operator.LocalGet local_index =>
      match locals !! Z.to_nat local_index with
      | Some offset => a ← emit (i_load RAX RBP (- offset)) a; emit (i_push RAX) a
      | None => Panic Todo
      end
  | Operator.LocalSet local_index =>
      match locals !! Z.to_nat local_index with
      | Some offset => a ← emit (i_pop RAX) a; emit (i_store RBP (- offset) RAX) a
      | None => Panic Todo
      end
  | _ => Panic Todo
  end.
End Code.

(** ** Specification: the code of each operator *)
Definition code_of (locals : list Z) (op : Operator.t) : option (list Instruction) :=
  match op with
  | Operator.I64Const v => Some [i_mov_imm RAX v; i_push RAX]
  | Operator.I64Add => Some [i_pop RAX; i_pop RBX; i_add RAX RBX; i_push RAX]
  | Operator.I64Sub => Some [i_pop RAX; i_pop RBX; i_sub RAX RBX; i_push RAX]
  | Operator.I32Add => Some [i_pop32 EAX; i_pop32 EBX; i_add32 EAX EBX; i_push32 EAX]
  | Operator.I32Sub => Some [i_pop32 EAX; i_pop32 EBX; i_sub32 EAX EBX; i_push32 EAX]
  | Operator.Nop => Some [i_nop]
  | Operator.End => Some []
  | Operator.LocalGet i =>
      off ← locals !! Z.to_nat i; Some [i_load RAX RBP (- off); i_push RAX]
  | Operator.LocalSet i =>
      off ← locals !! Z.to_nat i; Some [i_pop RAX; i_store RBP (- off) RAX]
  | _ => None
  end.

Definition is_int (t : ValType) : bool := match t with I64 | I32 => true | _ => false end.

(** The call sequence for a callee of type [ft]: argument [k] in register [k],
    the call, and the (at most two) results pushed. *)
Definition call_target (got ils : gmap Z CodeLabel) (f : Z) : list Instruction :=
  match got !! f, ils !! f with
  | Some l, _ => [i_call l]
  | None, Some l => [i_load_label R10 l; i_call_reg R10]
  | None, None => []
  end.
Definition call_code (got ils : gmap Z CodeLabel) (f : Z) (ft : FuncType) : list Instruction :=
  map i_pop (reverse (take (length (params ft)) integer_registers))
  ++ call_target got ils f
  ++ map i_push (take (length (returns ft)) return_registers).

(** The code of an operator, calls included. *)
Definition operator_code (got ils : gmap Z CodeLabel) (function_typedefs : gmap Z FuncType)
    (function_types : gmap Z Z) (locals : list Z) (op : Operator.t) : option (list Instruction) :=
  match op with
  | Operator.Call i =>
      ft ← lookup_function_type function_types function_typedefs i; Some (call_code got ils i ft)
  | _ => code_of locals op
  end.

Lemma argument_registers_ok n :
  NoDup (take n integer_registers) /\ (RSP ∉ take n integer_registers) /\
  (RBP ∉ take n integer_registers).
Proof.
  assert (Hin : ∀ r, r ∉ integer_registers -> r ∉ take n integer_registers).
  { intros r Hr Ht. apply Hr. apply elem_of_take in Ht as (i & Hi & _).
    by eapply list_elem_of_lookup_2. }
  split; [|split; apply Hin; unfold integer_registers; not_in].
  eapply sublist_NoDup; [|apply sublist_take]. unfold integer_registers.
  repeat (apply NoDup_cons; split; [not_in|]). apply NoDup_nil_2.
Qed.

Section Emits.
Context {A E B : Type} `{Assembler A E} `{!AssemblerLaws A E}.

Lemma pop_arguments_spec ps regs_ (a : A) :
  Forall (fun p => is_int p = true) ps -> length regs_ = length ps ->
  ∃ a', for_each (@pop_argument A E B _) ps (regs_, a) = Ok ([], a') /\
    extends a a' (map i_pop (reverse regs_)).
Proof.
  intros Hp. revert regs_ a. induction Hp as [|p ps Hp _ IH]; intros rs a Hlen.
  - destruct rs; [|done]. exists a. split; [done|]. apply extends_refl.
  - destruct rs as [|r rs _] using rev_ind; [done|].
    rewrite length_app in Hlen. simpl in Hlen.
    cbn [for_each]. assert (Hb : pop_argument p (rs ++ [r], a) =
      (a ← @emit A E B _ (i_pop r) a; Ok (rs, a))).
    { unfold pop_argument. rewrite pop_back_snoc. by destruct p. }
    rewrite Hb. emit_step. destruct (IH rs a0) as (a' & -> & Hx); [lia|].
    exists a'. split; [done|]. rewrite reverse_snoc. by eapply extends_cons.
Qed.

Lemma push_results_spec rts regs_ (a : A) :
  Forall (fun t => is_int t = true) rts ->
  ∃ rs a', for_each (@push_result A E B _) rts (regs_, a) = Ok (rs, a') /\
    extends a a' (map i_push (take (length rts) regs_)).
Proof.
  intros Hp. revert regs_ a. induction Hp as [|p ps Hp _ IH]; intros rs a.
  - exists rs, a. split; [done|]. apply extends_refl.
  - cbn [for_each]. destruct rs as [|r rs].
    + assert (Hb : push_result p ([], a) = @Ok (Error B E) _ ([], a)) by by destruct p.
      rewrite Hb, res_bind_ok. destruct (IH [] a) as (rs & a' & -> & Hx).
      exists rs, a'. split; [done|]. by rewrite take_nil in *.
    + assert (Hb : push_result p (r :: rs, a) = (a ← @emit A E B _ (i_push r) a; Ok (rs, a)))
        by by destruct p.
      rewrite Hb. emit_step. destruct (IH rs a0) as (rs' & a' & -> & Hx).
      exists rs', a'. split; [done|]. by eapply extends_cons.
Qed.

(** Every operator but a call emits its code, or is not supported. *)
Lemma handle_instruction_emits got ils tds fts locals op (a : A) :
  match code_of locals op with
  | Some c => ∃ a', @handle_instruction A E B _ got ils tds fts locals op a = Ok a' /\ extends a a' c
  | None => (∃ i, op = Operator.Call i) \/
            @handle_instruction A E B _ got ils tds fts locals op a = Panic Todo
  end.
Proof.
  destruct op; try (by right); simpl; try (by left; eauto);
    try (destruct (locals !! _); simpl; [|by right]);
    repeat emit_step; eexists; split; try done; extends_tac.
Qed.

Lemma handle_instructions_emit got ils tds fts locals ops (a : A) cs :
  mapM (code_of locals) ops = Some cs ->
  ∃ a', for_each (@handle_instruction A E B _ got ils tds fts locals) ops a = Ok a' /\
    extends a a' (concat cs).
Proof.
  revert a cs. induction ops as [|op ops IH]; intros a cs; cbn [mapM].
  - intros [= <-]. exists a. split; [done|apply extends_refl].
  - pose proof (handle_instruction_emits got ils tds fts locals op a) as Hop.
    destruct (code_of locals op) as [c|]; [|done]. destruct Hop as (a1 & Ha1 & Hx1). simpl.
    destruct (mapM _ ops) as [cs'|]; [|done]. intros [= <-].
    destruct (IH a1 cs') as (a2 & Ha2 & Hx2); [done|]. exists a2. split.
    + cbn [for_each]. by rewrite Ha1.
    + simpl. by eapply extends_trans.
Qed.

Lemma call_target_emits got ils i (a : A) :
  ∃ a', match got !! i with
      | None => match ils !! i with
                | Some l => a ← @emit A E B _ (i_load_label R10 l) a; emit (i_call_reg R10) a
                | None => Ok a
                end
      | Some l => emit (i_call l) a end = Ok a' /\ extends a a' (call_target got ils i).
Proof.
  unfold call_target. destruct (got !! i); [|destruct (ils !! i)]; repeat emit_step;
    eexists; split; try done; extends_tac.
Qed.

Lemma handle_call_emits got ils tds fts i ft (a : A) :
  lookup_function_type fts tds i = Some ft -> (length (params ft) <= 6)%nat ->
  Forall (fun t => is_int t = true) (params ft) -> Forall (fun t => is_int t = true) (returns ft) ->
  ∃ a', @handle_call A E B _ got ils tds fts i a = Ok a' /\ extends a a' (call_code got ils i ft).
Proof.
  intros Hft Hlen Hps Hrs. unfold handle_call, call_code. rewrite Hft. cbn [of_option].
  rewrite res_bind_ok. unfold drain. rewrite decide_True by done. rewrite res_bind_ok.
  destruct (pop_arguments_spec (params ft) (take (length (params ft)) integer_registers) a)
    as (a1 & -> & Hx1); [done|rewrite length_take; simpl; lia|]. rewrite res_bind_ok.
  destruct (call_target_emits got ils i a1) as (a2 & -> & Hx2).
  rewrite res_bind_ok.
  destruct (push_results_spec (returns ft) return_registers a2) as (rs & a3 & -> & Hx3); [done|].
  rewrite res_bind_ok. exists a3. split; [done|]. by repeat (eapply extends_trans; [done|]).
Qed.

(** A call that compiled has at most six integer parameters, and integer
    results. *)
Lemma pop_arguments_int ps st st' :
  for_each (@pop_argument A E B _) ps st = Ok st' -> Forall (fun p => is_int p = true) ps.
Proof.
  revert st. induction ps as [|p ps IH]; intros [rs a] Hs; [constructor|]. cbn [for_each] in Hs.
  res_step Hs as st1 E1. constructor; [by destruct p|by eapply IH].
Qed.

Lemma push_results_int ps st st' :
  for_each (@push_result A E B _) ps st = Ok st' -> Forall (fun p => is_int p = true) ps.
Proof.
  revert st. induction ps as [|p ps IH]; intros [rs a] Hs; [constructor|]. cbn [for_each] in Hs.
  res_step Hs as st1 E1. constructor; [by destruct p|by eapply IH].
Qed.

Lemma handle_call_inv got ils tds fts i (a a' : A) :
  @handle_call A E B _ got ils tds fts i a = Ok a' ->
  ∃ ft, lookup_function_type fts tds i = Some ft /\ (length (params ft) <= 6)%nat /\
    Forall (fun t => is_int t = true) (params ft) /\ Forall (fun t => is_int t = true) (returns ft).
Proof.
  unfold handle_call. destruct (lookup_function_type fts tds i) as [ft|]; [|done].
  cbn [of_option]. rewrite res_bind_ok. intros Hs. res_step Hs as rs E1. res_step Hs as [rs1 a1] E2.
  res_step Hs as a2 E3. res_step Hs as [rs2 a3] E4. exists ft. split; [done|]. split.
  - unfold drain in E1. by case_decide.
  - split; [by eapply pop_arguments_int|by eapply push_results_int].
Qed.

(** The code of an operator that compiled, calls included. *)
Lemma handle_instruction_code got ils tds fts locals op (a a' : A) :
  @handle_instruction A E B _ got ils tds fts locals op a = Ok a' ->
  ∃ c, operator_code got ils tds fts locals op = Some c /\ extends a a' c.
Proof.
  intros Hs. pose proof (handle_instruction_emits got ils tds fts locals op a) as He.
  unfold operator_code. destruct (code_of locals op) as [c|] eqn:Hc.
  - destruct He as (a1 & Ha1 & Hx). rewrite Hs in Ha1. apply Ok_inj in Ha1 as ->. exists c.
    by destruct op.
  - destruct He as [[i ->]|Hx]; [|by rewrite Hs in Hx].
    destruct (handle_call_inv _ _ _ _ _ _ _ Hs) as (ft & Hft & Hn & Hp & Hr).
    destruct (handle_call_emits got ils tds fts i ft a Hft Hn Hp Hr) as (a1 & Ha1 & Hx).
    cbn [handle_instruction] in Hs; rewrite Hs in Ha1. apply Ok_inj in Ha1 as ->. rewrite Hft. by eexists.
Qed.

(** C32: 32-bit arithmetic compiles to code that cannot be assembled.  The
    match accepts [i32.add] and [i32.sub] and emits 32-bit pushes and pops, which
    64-bit mode does not have: assembling the result is an error, whatever else
    the module contains. *)
Theorem i32_arithmetic_not_assemblable got ils tds fts locals op (a : A) :
  op = Operator.I32Add \/ op = Operator.I32Sub ->
  ∃ a' e, @handle_instruction A E B _ got ils tds fts locals op a = Ok a' /\
    asm_assemble a' = inl e.
Proof.
  intros Hop. pose proof (handle_instruction_emits got ils tds fts locals op a) as He.
  assert (∃ c, code_of locals op = Some (i_pop32 EAX :: c)) as [c Hc]
    by (destruct Hop as [-> | ->]; simpl; eauto).
  rewrite Hc in He. destruct He as (a' & Ha & Hx). exists a'.
  destruct (law_assemble_err a' (i_pop32 EAX)) as [e He]; [|done|by exists e].
  rewrite (ext_instrs _ _ _ Hx). apply elem_of_app. right. apply list_elem_of_here.
Qed.
End Emits.

Lemma i32_arithmetic_not_assemblable_witness :
  ∃ a' e, @handle_instruction _ _ unit BufferAssembler.buffer_assembler ∅ ∅ ∅ ∅ [] Operator.I32Add
      (BufferAssembler.mkBuffer [] [] false 1) = Ok a' /\
    @asm_assemble _ _ BufferAssembler.buffer_assembler a' = inl e.
Proof. apply i32_arithmetic_not_assemblable. left. reflexivity. Defined.
