(* ===== verification/Codegen.v ===== *)
(** * Correctness of instruction selection

    The code [handle_instruction] emits simulates the WebAssembly machine: the
    operand stack lives on the machine stack below the frame, local [i] in the
    frame slot at [rbp - offset i].  [represents] is the simulation relation. *)
From S2P Require Import Prelude X86 Assembler Wasm Instructions.

(** ** Representation of a WebAssembly state *)
Fixpoint stack_at (m : memory) (sp : Z) (vs : list Z) : Prop :=
  match vs with
  | [] => True
  | v :: vs => load64 m sp = Some v /\ stack_at m (sp + 8) vs
  end.

Record frame := mkFrame {
  fr_rbp : Z;            (* the frame pointer *)
  fr_base : Z;           (* the stack pointer when the operand stack is empty *)
  fr_offsets : list Z;   (* the offsets of the locals: slot i is [rbp - offset i] *)
  fr_mem : memory        (* the memory on entry *) }.

Definition slot (f : frame) (off : Z) : Z := fr_rbp f - off.

(** The slots lie between the operand stack and the end of the address space
    and do not overlap. *)
Record slots_ok (f : frame) : Prop := {
  slot_range i off : fr_offsets f !! i = Some off ->
    fr_base f <= slot f off /\ slot f off + 8 <= 2 ^ 64;
  slot_disjoint i j oi oj : fr_offsets f !! i = Some oi -> fr_offsets f !! j = Some oj -> i <> j ->
    oi + 8 <= oj \/ oj + 8 <= oi;
  base_range : 0 <= fr_base f < 2 ^ 64 }.

(** [x] belongs to no slot. *)
Definition outside (f : frame) (x : Z) : Prop :=
  ∀ i off, fr_offsets f !! i = Some off -> x < slot f off \/ slot f off + 8 <= x.

Record represents (f : frame) (w : wstate) (s : state) : Prop := {
  rep_wf : wf s;
  rep_rbp : regs s RBP = fr_rbp f;
  rep_rsp : regs s RSP = fr_base f - 8 * Z.of_nat (length (wstack w));
  rep_stack : stack_at (mem s) (regs s RSP) (wstack w);
  rep_length : length (wlocals w) = length (fr_offsets f);
  rep_locals i v off : wlocals w !! i = Some v -> fr_offsets f !! i = Some off ->
    load64 (mem s) (slot f off) = Some v;
  rep_frame x : fr_base f <= x -> outside f x -> mem s x = fr_mem f x }.

Lemma stack_at_ext m m' sp vs :
  (∀ x, sp <= x < sp + 8 * Z.of_nat (length vs) -> m x = m' x) ->
  stack_at m sp vs -> stack_at m' sp vs.
Proof.
  revert sp. induction vs as [|v vs IH]; intros sp Hx; simpl in *; [done|].
  intros [Hl Hs]. split.
  - rewrite <- Hl. symmetry. apply load64_ext. intros. apply Hx. lia.
  - apply IH; [|done]. intros. apply Hx. lia.
Qed.

Section Simulation.
Context `{EnvLaws}.
Context (f : frame) (Hf : slots_ok f).

(** Memory changes below the base leave slots and frame alone. *)
Lemma represents_below w w' s s' :
  represents f w s -> wf s' -> regs s' RBP = regs s RBP ->
  wlocals w' = wlocals w ->
  regs s' RSP = fr_base f - 8 * Z.of_nat (length (wstack w')) ->
  stack_at (mem s') (regs s' RSP) (wstack w') ->
  (∀ x, fr_base f <= x -> mem s' x = mem s x) -> represents f w' s'.
Proof.
  intros [? Hbp Hsp Hst Hlen Hloc Hfr] Hwf Hbp' Hwl Hsp' Hst' Hm. split; try done.
  - congruence.
  - congruence.
  - intros i v off Hv Ho. rewrite <- (Hloc i v off); [|congruence|done].
    apply load64_ext. intros x Hx. apply Hm.
    destruct (slot_range f Hf i off Ho). lia.
  - intros x Hx Ho. rewrite Hm by done. by apply Hfr.
Qed.

(** Values of a represented state are 64-bit. *)
Lemma represents_top w s v st :
  represents f w s -> wstack w = v :: st -> 0 <= v < 2 ^ 64.
Proof.
  intros Hr Hw. pose proof (rep_stack _ _ _ Hr) as Hst. rewrite Hw in Hst.
  eapply load64_range; [exact (rep_wf _ _ _ Hr)|apply Hst].
Qed.

Lemma sim_push w s v r :
  represents f w s -> regs s r = v -> 8 * Z.of_nat (S (length (wstack w))) <= fr_base f ->
  ∃ s', step (i_push r) s = Some s' /\ represents f (mkW (v :: wstack w) (wlocals w)) s' /\
    (∀ r', r' <> RSP -> regs s' r' = regs s r').
Proof.
  intros Hr <- Hroom. pose proof (rep_wf _ _ _ Hr) as Hwf. pose proof (rep_rsp _ _ _ Hr) as Hsp.
  rewrite step_push. destruct (push_val _ s) as [s'|] eqn:E;
    [|unfold push_val in E; case_decide; [done|lia]].
  exists s'. pose proof (push_val_wf _ _ _ Hwf E) as Hwf'.
  unfold push_val in E. case_decide; [|done]. injection E as <-. split; [done|]. split.
  - eapply represents_below; [exact Hr|exact Hwf'|..]; simpl; regs_simpl; try done.
    + lia.
    + split; [rewrite load_store_same; f_equal; apply wrap64_small, Hwf|].
      replace (regs s RSP - 8 + 8) with (regs s RSP) by lia.
      eapply stack_at_ext; [|apply (rep_stack _ _ _ Hr)]. intros x Hx. simpl.
      symmetry. apply store64_other. lia.
    + intros x Hx. apply store64_other. lia.
  - intros r' Hne. simpl. by regs_simpl.
Qed.

Lemma sim_pop w s v st r :
  represents f w s -> wstack w = v :: st -> r <> RSP -> r <> RBP ->
  ∃ s', step (i_pop r) s = Some s' /\ represents f (mkW st (wlocals w)) s' /\
    regs s' r = v /\ (∀ r', r' <> RSP -> r' <> r -> regs s' r' = regs s r').
Proof.
  intros Hr Hw Hr1 Hr2. pose proof (rep_wf _ _ _ Hr) as Hwf.
  pose proof (rep_rsp _ _ _ Hr) as Hsp. pose proof (rep_stack _ _ _ Hr) as Hst.
  pose proof (base_range f Hf). pose proof (represents_top w s v st Hr Hw).
  rewrite Hw in Hsp, Hst. simpl in Hsp, Hst. destruct Hst as [Hl Hst].
  assert (Hst1 : step (i_pop r) s = Some (set_reg r v
    (mkState (set_regs (regs s) RSP (regs s RSP + 8)) (rip s) (mem s)))).
  { rewrite step_pop. unfold pop_val. rewrite decide_True by lia. by rewrite Hl. }
  eexists. split; [exact Hst1|]. split.
  - eapply represents_below; [done|by eapply step_wf|..]; simpl; rewrite ?decide_False by done;
      regs_simpl; try done.
    + lia.
  - simpl. regs_simpl. split; [done|]. intros r' ? ?. by regs_simpl.
Qed.

(** Register writes other than to the stack and frame pointers. *)
Lemma sim_set_reg w s r v :
  represents f w s -> r <> RSP -> r <> RBP -> 0 <= v < 2 ^ 64 -> represents f w (set_reg r v s).
Proof.
  intros Hr ? ? Hv. eapply represents_below; [done|..]; simpl; rewrite ?decide_False by done;
    regs_simpl; try apply Hr; try done.
  apply set_reg_wf; [apply Hr|done].
Qed.

Lemma slot_address w s i off :
  represents f w s -> fr_offsets f !! i = Some off ->
  address RBP (- off) s = Some (slot f off).
Proof.
  intros Hr Ho. unfold address. rewrite (rep_rbp _ _ _ Hr).
  destruct (slot_range f Hf i off Ho). pose proof (base_range f Hf).
  fold (slot f off). unfold slot in *. rewrite wrap64_small by lia.
  rewrite decide_True; [by f_equal|]. rewrite (rep_rsp _ _ _ Hr). lia.
Qed.

Lemma sim_load w s i off v :
  represents f w s -> fr_offsets f !! i = Some off -> wlocals w !! i = Some v ->
  step (i_load RAX RBP (- off)) s = Some (set_reg RAX v s) /\ 0 <= v < 2 ^ 64.
Proof.
  intros Hr Ho Hv. rewrite step_load. rewrite (slot_address w s i off) by done. simpl.
  pose proof (rep_locals _ _ _ Hr i v off Hv Ho) as Hl. rewrite Hl.
  split; [done|]. eapply load64_range; [apply Hr|done].
Qed.

Lemma sim_store w s i off :
  represents f w s -> fr_offsets f !! i = Some off ->
  ∃ s', step (i_store RBP (- off) RAX) s = Some s' /\
    represents f (mkW (wstack w) (<[i := regs s RAX]> (wlocals w))) s'.
Proof.
  intros Hr Ho. pose proof (rep_wf _ _ _ Hr) as Hwf. destruct (slot_range f Hf i off Ho).
  assert (Hst : step (i_store RBP (- off) RAX) s =
    Some (mkState (regs s) (rip s) (store64 (mem s) (slot f off) (regs s RAX)))).
  { rewrite step_store. by rewrite (slot_address w s i off). }
  eexists. split; [exact Hst|]. split; simpl; try apply Hr.
  - by eapply step_wf.
  - eapply stack_at_ext; [|apply (rep_stack _ _ _ Hr)]. intros x Hx.
    symmetry. apply store64_other. rewrite (rep_rsp _ _ _ Hr) in Hx. lia.
  - rewrite length_insert. apply Hr.
  - intros j v oj Hv Hj. destruct (decide (i = j)) as [<-|Hne].
    + rewrite Ho in Hj. injection Hj as <-. apply list_lookup_insert_Some in Hv.
      destruct Hv as [(_ & <- & _)|[? _]]; [|done]. rewrite load_store_same.
      f_equal. apply wrap64_small, Hwf.
    + rewrite list_lookup_insert_ne in Hv by done. rewrite load_store_other; [by eapply Hr|].
      destruct (slot_disjoint f Hf i j off oj Ho Hj Hne); unfold slot; lia.
  - intros x Hx Hout. rewrite store64_other; [by apply Hr|]. destruct (Hout i off Ho); lia.
Qed.

(** ** One operator *)

(** The operators whose code follows the WebAssembly specification: those of
    [wasm_step] but [i64.sub]. *)
Definition simple (op : Operator.t) : bool :=
  match op with
  | Operator.I64Const _ | Operator.I64Add | Operator.LocalGet _ | Operator.LocalSet _
  | Operator.Nop | Operator.End => true
  | _ => false
  end.

(** The two pops and the push of a binary operator. *)
Lemma sim_binop w s v2 v1 st g (i : Instruction) :
  represents f w s -> wstack w = v2 :: v1 :: st -> 0 <= fr_base f ->
  (∀ s, step i s = Some (set_reg RAX (wrap64 (g (regs s RAX) (regs s RBX))) s)) ->
  8 * Z.of_nat (length (wstack w)) <= fr_base f ->
  ∃ s', exec [i_pop RAX; i_pop RBX; i; i_push RAX] s = Some s' /\
    represents f (mkW (wrap64 (g v2 v1) :: st) (wlocals w)) s'.
Proof.
  intros Hr Hw Hb Hi Hroom. rewrite Hw in Hroom. simpl in Hroom.
  destruct (sim_pop w s v2 (v1 :: st) RAX) as (s1 & E1 & R1 & V1 & K1); [done..|].
  destruct (sim_pop (mkW (v1 :: st) (wlocals w)) s1 v1 st RBX) as (s2 & E2 & R2 & V2 & K2); [done..|].
  pose proof (Hi s2) as E3. rewrite K2, V1, V2 in E3 by done.
  assert (R3 := sim_set_reg _ _ RAX (wrap64 (g v2 v1)) R2 ltac:(done) ltac:(done) (wrap64_range _)).
  destruct (sim_push _ _ (wrap64 (g v2 v1)) RAX R3) as (s4 & E4 & R4 & _);
    [simpl; by regs_simpl|simpl; lia|].
  exists s4. split; [|done].
  exec_by E1. exec_by E2. exec_by E3. by exec_by E4.
Qed.

Lemma sim_op op w s w' c :
  simple op = true -> represents f w s -> wasm_step op w = Some w' ->
  8 * Z.of_nat (Nat.max (length (wstack w)) (length (wstack w'))) <= fr_base f ->
  code_of (fr_offsets f) op = Some c ->
  ∃ s', exec c s = Some s' /\ represents f w' s'.
Proof.
  intros Hop Hr Hw Hroom Hc. pose proof (base_range f Hf).
  destruct op; try done; simpl in Hc; try injection Hc as <-.
  - simpl in Hw. injection Hw as <-. simpl in Hroom.
    assert (R1 := sim_set_reg _ _ RAX (wrap64 value) Hr ltac:(done) ltac:(done) (wrap64_range _)).
    destruct (sim_push _ _ (wrap64 value) RAX R1) as (s2 & E2 & R2 & _);
      [simpl; by regs_simpl|lia|]. exists s2.
    exec_by (step_mov_imm RAX value s). by exec_by E2.
  - unfold wasm_step in Hw. destruct (wstack w) as [|v2 [|v1 st]] eqn:Hst; try done.
    injection Hw as <-. rewrite (Z.add_comm v1 v2).
    eapply (sim_binop w s v2 v1 st Z.add); [done|done|lia|done|rewrite Hst; lia].
  - simpl in Hw. injection Hw as <-. exists s. by exec_by (step_nop s).
  - simpl in Hw. injection Hw as <-. by exists s.
  - destruct (fr_offsets f !! _) as [off|] eqn:Ho; [|done]. injection Hc as <-. simpl in Hw.
    destruct (wlocals w !! _) as [v|] eqn:Hv; [|done]. injection Hw as <-. simpl in Hroom.
    destruct (sim_load w s _ off v Hr Ho Hv) as [E1 Hrange].
    assert (R1 := sim_set_reg _ _ RAX v Hr ltac:(done) ltac:(done) Hrange).
    destruct (sim_push _ _ v RAX R1) as (s2 & E2 & R2 & _); [simpl; by regs_simpl|lia|].
    exists s2. exec_by E1. by exec_by E2.
  - destruct (fr_offsets f !! _) as [off|] eqn:Ho; [|done]. injection Hc as <-.
    unfold wasm_step in Hw. destruct (wstack w) as [|v st] eqn:Hst; [done|].
    case_decide; [|done]. injection Hw as <-.
    destruct (sim_pop w s v st RAX) as (s1 & E1 & R1 & V1 & _); [done..|].
    destruct (sim_store _ s1 _ off R1 Ho) as (s2 & E2 & R2). rewrite V1 in R2.
    exists s2. exec_by E1. by exec_by E2.
Qed.

Lemma sim_ops ops w s w' cs :
  Forall (fun op => simple op = true) ops -> represents f w s -> wasm_exec ops w = Some w' ->
  8 * Z.of_nat (wasm_height ops w) <= fr_base f -> mapM (code_of (fr_offsets f)) ops = Some cs ->
  ∃ s', exec (concat cs) s = Some s' /\ represents f w' s'.
Proof.
  intros Hops. revert w s cs. induction Hops as [|op ops Hop _ IH]; intros w s cs Hr Hw Hroom Hcs.
  - injection Hw as <-. injection Hcs as <-. by exists s.
  - cbn [wasm_exec] in Hw. cbn [wasm_height] in Hroom. cbn [mapM] in Hcs.
    destruct (wasm_step op w) as [w1|] eqn:Hw1; [|done]. cbn [mbind option_bind] in Hw.
    destruct (code_of _ op) as [c|] eqn:Hc; [|done]. cbn [mbind option_bind] in Hcs.
    destruct (mapM _ ops) as [cs'|] eqn:Hcs'; [|done]. injection Hcs as <-.
    assert (Hh : (length (wstack w1) <= wasm_height ops w1)%nat) by (destruct ops; simpl; lia).
    destruct (sim_op op w s w1 c) as (s1 & E1 & R1); [done..|lia|done|].
    destruct (IH w1 s1 cs') as (s2 & E2 & R2); [done..|lia|done|].
    exists s2. split; [|done]. cbn [concat]. by rewrite exec_app, E1.
Qed.

(** ** Arguments of a call *)
Lemma sim_pops rs args w s st :
  represents f w s -> wstack w = reverse args ++ st -> length args = length rs ->
  NoDup rs -> RSP ∉ rs -> RBP ∉ rs ->
  ∃ s', exec (map i_pop (reverse rs)) s = Some s' /\ represents f (mkW st (wlocals w)) s' /\
    Forall2 (fun r v => regs s' r = v) rs args /\
    (∀ r, r ∉ rs -> r <> RSP -> regs s' r = regs s r).
Proof.
  revert args w s. induction rs as [|r rs IH] using rev_ind; intros args w s Hr Hw Hlen Hnd Hsp Hbp.
  - destruct args; [|done]. simpl in Hw. exists s. rewrite <- Hw. by destruct w.
  - destruct args as [|v args _] using rev_ind; [rewrite length_app in Hlen; simpl in Hlen; lia|].
    rewrite !length_app in Hlen. simpl in Hlen. rewrite reverse_snoc in Hw. simpl in Hw.
    apply not_elem_of_app in Hsp as [Hsp Hsp1], Hbp as [Hbp Hbp1].
    apply NoDup_app in Hnd as (Hnd & Hd & _).
    assert (r ∉ rs) by (intros Hin; apply (Hd r Hin), list_elem_of_here).
    destruct (sim_pop w s v (reverse args ++ st) r) as (s1 & E1 & R1 & V1 & K1);
      [done|done|by intros ->; apply Hsp1, list_elem_of_here
      |by intros ->; apply Hbp1, list_elem_of_here|].
    destruct (IH args _ s1 R1) as (s2 & E2 & R2 & V2 & K2); [done|lia|done..|].
    exists s2. rewrite reverse_snoc. split; [cbn [map]; exec_by E1; exact E2|]. split; [done|]. split.
    + apply Forall2_app; [done|]. constructor; [|constructor]. rewrite K2; [done|done|].
      by intros ->; apply Hsp1, list_elem_of_here.
    + intros r' [? [? _]%not_elem_of_cons]%not_elem_of_app ?. rewrite K2, K1; auto.
Qed.

Lemma code_of_defined op w w' :
  simple op = true -> wasm_step op w = Some w' -> length (wlocals w) = length (fr_offsets f) ->
  (∃ c, code_of (fr_offsets f) op = Some c) /\ length (wlocals w') = length (fr_offsets f).
Proof.
  intros Hop Hw Hlen. unfold wasm_step in Hw.
  destruct op; try done; try (repeat case_match; simplify_eq; simpl; by eauto).
  - destruct (wlocals w !! _) as [v|] eqn:Hv; [|by destruct (wstack w)].
    assert (w' = mkW (v :: wstack w) (wlocals w)) as -> by by destruct (wstack w); injection Hw.
    apply lookup_lt_Some in Hv. rewrite Hlen in Hv. apply lookup_lt_is_Some in Hv as [off Ho].
    simpl. rewrite Ho. simpl. eauto.
  - destruct (wstack w); [done|]. case_decide as Hd; [|done]. injection Hw as <-.
    rewrite Hlen in Hd. apply lookup_lt_is_Some in Hd as [off Ho]. simpl. rewrite Ho.
    rewrite length_insert. simpl. eauto.
Qed.

Lemma codes_of_defined ops w w' :
  Forall (fun op => simple op = true) ops -> wasm_exec ops w = Some w' ->
  length (wlocals w) = length (fr_offsets f) -> ∃ cs, mapM (code_of (fr_offsets f)) ops = Some cs.
Proof.
  intros Hops. revert w. induction Hops as [|op ops Hop _ IH]; intros w Hw Hlen; cbn [mapM]; [eauto|].
  cbn [wasm_exec] in Hw. destruct (wasm_step op w) as [w1|] eqn:Hw1; [|done].
  destruct (code_of_defined op w w1) as [[c ->] Hlen1]; [done..|].
  destruct (IH w1) as [cs ->]; [done..|]. cbn [mbind option_bind]. eauto.
Qed.

(** ** Properties *)
Section Properties.
Context {A E B : Type} `{!Assembler A E, !AssemblerLaws A E}.
Context (got ils : gmap Z CodeLabel) (tds : gmap Z FuncType) (fts : gmap Z Z).

(** C12: instruction selection refines WebAssembly on the operators it compiles
    as specified.  For code of [i64.const], [i64.add], [local.get], [local.set],
    [nop] and [end] (of the straight-line operators only [i64.sub] is not among
    them: [i64_sub_operands_exchanged]) the compiler emits code, and wherever the WebAssembly machine executes the operators from a represented
    state the emitted code runs and ends in a state that represents the result,
    given stack room for the operand stack's greatest height. *)
Theorem codegen_simulates_wasm ops (a : A) w s w' :
  Forall (fun op => simple op = true) ops -> represents f w s -> wasm_exec ops w = Some w' ->
  8 * Z.of_nat (wasm_height ops w) <= fr_base f ->
  ∃ a' c s',
    for_each (@handle_instruction A E B _ got ils tds fts (fr_offsets f)) ops a = Ok a' /\
    asm_instructions a' = asm_instructions a ++ c /\
    exec c s = Some s' /\ represents f w' s'.
Proof.
  intros Hops Hr Hw Hroom.
  destruct (codes_of_defined ops w w') as [cs Hcs]; [done..|apply Hr|].
  destruct (handle_instructions_emit (B := B) got ils tds fts (fr_offsets f) ops a cs Hcs) as (a' & Ha & Hx).
  destruct (sim_ops ops w s w' cs) as (s' & He & Hr'); [done..|].
  exists a', (concat cs), s'. split; [exact Ha|]. split; [apply Hx|done].
Qed.

(** C29: [i64.sub] is compiled with its operands exchanged.  With [v2] on top of
    [v1] the emitted code leaves [v2 - v1] where WebAssembly asks for
    [v1 - v2]; the two agree only when the differences are equal modulo 2^64. *)
Theorem i64_sub_operands_exchanged (a : A) w s v2 v1 st :
  represents f w s -> wstack w = v2 :: v1 :: st -> 8 * Z.of_nat (length (wstack w)) <= fr_base f ->
  ∃ a' c s', let w' := mkW (wrap64 (v2 - v1) :: st) (wlocals w) in
    @handle_instruction A E B _ got ils tds fts (fr_offsets f) Operator.I64Sub a = Ok a' /\
    asm_instructions a' = asm_instructions a ++ c /\
    exec c s = Some s' /\ represents f w' s' /\
    (wasm_step Operator.I64Sub w = Some w' <-> wrap64 (v1 - v2) = wrap64 (v2 - v1)).
Proof.
  intros Hr Hw Hroom. pose proof (base_range f Hf).
  destruct (handle_instruction_emits (B := B) got ils tds fts (fr_offsets f) Operator.I64Sub a)
    as (a' & Ha & Hx).
  destruct (sim_binop w s v2 v1 st Z.sub (i_sub RAX RBX)) as (s' & He & Hr'); [done|done|lia|done..|].
  exists a', [i_pop RAX; i_pop RBX; i_sub RAX RBX; i_push RAX], s'.
  split; [exact Ha|]. split; [apply Hx|]. split; [exact He|]. split; [exact Hr'|]. split.
  - unfold wasm_step. rewrite Hw. by intros [= ?].
  - intros Heq. unfold wasm_step. by rewrite Hw, Heq.
Qed.

(** C21: a call passes argument [k] in the [k]-th System V register.  For a
    callee of at most six integer parameters the emitted sequence begins with
    code that removes the arguments from the operand stack, puts each in its
    register and leaves the rest of the state as it was. *)
Theorem call_passes_arguments (a : A) i ft w s args st :
  lookup_function_type fts tds i = Some ft -> (length (params ft) <= 6)%nat ->
  Forall (fun t => is_int t = true) (params ft) -> Forall (fun t => is_int t = true) (returns ft) ->
  represents f w s -> wstack w = reverse args ++ st -> length args = length (params ft) ->
  ∃ a' pops s',
    @handle_instruction A E B _ got ils tds fts (fr_offsets f) (Operator.Call i) a = Ok a' /\
    asm_instructions a' = asm_instructions a ++ pops ++ call_target got ils i
      ++ map i_push (take (length (returns ft)) return_registers) /\
    exec pops s = Some s' /\ represents f (mkW st (wlocals w)) s' /\
    Forall2 (fun r v => regs s' r = v) (take (length args) integer_registers) args.
Proof.
  intros Hft Hlen Hps Hrs Hr Hw Hargs.
  destruct (handle_call_emits (B := B) got ils tds fts i ft a) as (a' & Ha & Hx); [done..|].
  destruct (argument_registers_ok (length args)) as (Hnd & Hsp & Hbp).
  destruct (sim_pops (take (length args) integer_registers) args w s st) as (s' & He & Hr' & Hv & _);
    try done; [rewrite length_take; simpl; lia|].
  exists a'. eexists. exists s'. split; [exact Ha|]. split; [|done].
  rewrite (ext_instrs _ _ _ Hx). unfold call_code. by rewrite <- Hargs.
Qed.
End Properties.
End Simulation.

(** ** Concrete instances *)
#[local] Existing Instance no_env.

(** Two zero locals below [rbp] and the operand stack [3, 10], 3 on top. *)
Definition sample_frame : frame := mkFrame 5000 4112 [8; 16] (fun _ => Some 0).
Definition sample_stack : state :=
  mkState (regs sample_state) 0 (store64 (store64 (fun _ => Some 0) 4104 10) 4096 3).
Definition sample_wstate : wstate := mkW [3; 10] [0; 0].

Lemma sample_slots_ok : slots_ok sample_frame.
Proof.
  split; unfold slot; simpl; [| |lia].
  - intros [|[|i]] off; simpl; [intros [= <-]; lia..|done].
  - intros [|[|i]] [|[|j]] oi oj; simpl; intros; simplify_eq; lia.
Qed.

Lemma sample_represents : represents sample_frame sample_wstate sample_stack.
Proof.
  split; try done.
  - split; [apply sample_state_wf|]. intros x b. simpl. do 2 (apply store64_range; clear x b; intros x b).
    intros [= <-]. lia.
  - intros [|[|i]] v off; simpl; intros; simplify_eq; reflexivity.
  - intros x Hx _. simpl in *. by rewrite !store64_other by lia.
Qed.

Lemma codegen_simulates_wasm_witness :
  let ops := [Operator.LocalGet 0; Operator.I64Add; Operator.LocalSet 1; Operator.End] in
  ∃ a' c s',
    for_each (@handle_instruction _ _ unit BufferAssembler.buffer_assembler ∅ ∅ ∅ ∅ (fr_offsets sample_frame)) ops
      (BufferAssembler.mkBuffer [] [] false 1) = Ok a' /\
    asm_instructions a' = [] ++ c /\ exec c sample_stack = Some s' /\
    represents sample_frame (mkW [10] [0; 3]) s'.
Proof.
  intros ops.
  refine (codegen_simulates_wasm (B := unit) sample_frame sample_slots_ok ∅ ∅ ∅ ∅ ops
    (BufferAssembler.mkBuffer [] [] false 1) sample_wstate sample_stack (mkW [10] [0; 3]) _ _ _ _).
  - repeat constructor.
  - apply sample_represents.
  - reflexivity.
  - vm_compute. discriminate.
Defined.

Lemma i64_sub_operands_exchanged_witness :
  ∃ a' c s', let w' := mkW [wrap64 (3 - 10)] [0; 0] in
    @handle_instruction _ _ unit BufferAssembler.buffer_assembler ∅ ∅ ∅ ∅ (fr_offsets sample_frame) Operator.I64Sub
      (BufferAssembler.mkBuffer [] [] false 1) = Ok a' /\
    asm_instructions a' = [] ++ c /\ exec c sample_stack = Some s' /\
    represents sample_frame w' s' /\
    (wasm_step Operator.I64Sub sample_wstate = Some w' <-> wrap64 (10 - 3) = wrap64 (3 - 10)).
Proof.
  refine (i64_sub_operands_exchanged (B := unit) sample_frame sample_slots_ok ∅ ∅ ∅ ∅
    (BufferAssembler.mkBuffer [] [] false 1) sample_wstate sample_stack 3 10 [] _ _ _).
  - apply sample_represents.
  - reflexivity.
  - simpl. lia.
Defined.

Lemma call_passes_arguments_witness :
  let ft := mkFuncType [I64; I64] [I64] in
  ∃ a' pops s',
    @handle_instruction _ _ unit BufferAssembler.buffer_assembler {[0 := mkLabel 5]} ∅ {[0 := ft]}
      {[0 := 0]} (fr_offsets sample_frame) (Operator.Call 0) (BufferAssembler.mkBuffer [] [] false 1) = Ok a' /\
    asm_instructions a' = [] ++ pops ++ [i_call (mkLabel 5)] ++ [i_push RAX] /\
    exec pops sample_stack = Some s' /\ represents sample_frame (mkW [] [0; 0]) s' /\
    Forall2 (fun r v => regs s' r = v) [RDI; RSI] [10; 3].
Proof.
  intros ft.
  refine (call_passes_arguments (B := unit) sample_frame sample_slots_ok {[0 := mkLabel 5]} ∅ {[0 := ft]} {[0 := 0]}
    (BufferAssembler.mkBuffer [] [] false 1) 0 ft sample_wstate sample_stack [10; 3] [] _ _ _ _ _ _ _).
  - reflexivity.
  - simpl. lia.
  - repeat constructor.
  - repeat constructor.
  - apply sample_represents.
  - reflexivity.
  - reflexivity.
Defined.
