(* ===== verification/Function.v ===== *)
(** * One function body ([compile] in [parawasm/src/x86_64/mod.rs], the
      [CodeSectionEntry] payload)

    The frame of a function: saved [rbp], then the locals below it at the
    offsets [param_layout] and [local_layout] compute.  [compile_body] is the
    whole of the code-section handler from the operators reader to the [ret];
    wasmparser's function validator is the interface [FuncValidator]. *)
From S2P Require Import Prelude X86 Assembler Wasm Instructions.

(** ** wasmparser's interfaces *)

(** [FuncValidator]: [V] is its state, [B] is [BinaryReaderError]. *)
Class FuncValidator (V B : Type) := {
  fv_define_locals : V -> Z -> Z -> ValType -> B + V;
  fv_operand_stack_height : V -> Z;
  fv_op : V -> Z -> Operator.t -> B + V;
  fv_finish : V -> Z -> B + unit }.

(** [FunctionBody]: what its readers yield.  An iterator over a section is the
    list of its results. *)
Record FunctionBody (B : Type) := mkBody {
  get_operators_reader : B + list (B + (Operator.t * Z));
  get_locals_reader : B + list (B + (Z * ValType));
  current_position : Z }.
Arguments mkBody {B}.
Arguments get_operators_reader {B}.
Arguments get_locals_reader {B}.
Arguments current_position {B}.

Section Code.
Context {A E B V : Type} `{Assembler A E} `{FuncValidator V B} `{Profile}.

(** [?] on a wasmparser result. *)
Definition wasm {X} (r : B + X) : Res (Error B E) X := map_err WasmReaderError (of_sum r).

(** The slot of a parameter. *)
Definition param_layout (param : ValType) (st : list Z * Z) : Res (Error B E) (list Z * Z) :=
  let '(locals, locals_size) := st in
  sz ← encoding_size param;
  offset ← u32_arith (locals_size + sz);
  locals_size ← u32_arith (locals_size + sz);
  Ok (locals ++ [offset], locals_size).

(** The slots of a group of [count] declared locals. *)
Definition local_layout (count : Z) (ty : ValType) (st : list Z * Z)
    : Res (Error B E) (list Z * Z) :=
  let '(locals, locals_size) := st in
  sz ← encoding_size ty;
  locals ← for_each (fun i locals =>
    x ← u32_arith (sz * i); offset ← u32_arith (locals_size + x); Ok (locals ++ [offset]))
    (seqZ 0 count) locals;
  x ← u32_arith (sz * count);
  locals_size ← u32_arith (locals_size + x);
  Ok (locals, locals_size).

(** One iteration over the locals reader. *)
Definition declare_locals (offset : Z) (local : B + (Z * ValType)) (st : list Z * Z * V)
    : Res (Error B E) (list Z * Z * V) :=
  let '(locals, locals_size, func_validator) := st in
  '(count, ty) ← wasm local;
  '(locals, locals_size) ← local_layout count ty (locals, locals_size);
  func_validator ← wasm (fv_define_locals func_validator offset count ty);
  Ok (locals, locals_size, func_validator).

(** Allocate and deallocate the stack for the locals. *)
Definition alloc_locals (locals_size : Z) (a : A) : Res (Error B E) A :=
  if 0 <? locals_size then
    i ← asm_call (instr_with2_ri Sub_rm64_imm32 RSP locals_size); emit i a
  else Ok a.
Definition free_locals (locals_size : Z) (a : A) : Res (Error B E) A :=
  if 0 <? locals_size then
    i ← asm_call (instr_with2_ri Add_rm64_imm32 RSP locals_size); emit i a
  else Ok a.

(** One iteration over the parameters: store it from its register, or from the
    caller's frame once the registers are used up, into its slot.  The source
    reads [locals] unchecked: every parameter has an entry.  iced takes the width
    of the load into [r11] from the register, also for a [dword_ptr]. *)
Definition store_param (locals : list Z) (p : nat * ValType) (st : list Register * Z * A)
    : Res (Error B E) (list Register * Z * A) :=
  let '(integer_order, extra_args_offset, a) := st in
  let '(index, param) := p in
  i ← of_option OutOfRange (locals !! index);
  match param with
  | I64 | I32 =>
      match pop_back integer_order with
      | Some (reg, integer_order) =>
          a ← emit (i_store RBP (- i) reg) a; Ok (integer_order, extra_args_offset, a)
      | None =>
          a ← emit (i_load R11 RBP extra_args_offset) a;
          a ← emit (i_store RBP (- i) R11) a;
          sz ← encoding_size param;
          extra_args_offset ← u32_arith (extra_args_offset + sz);
          Ok (integer_order, extra_args_offset, a)
      end
  | _ => Panic Todo
  end.

(** One iteration over the operators. *)
Definition compile_op (got ils : gmap Z CodeLabel) (function_typedefs : gmap Z FuncType)
    (function_types : gmap Z Z) (locals : list Z) (op : B + (Operator.t * Z)) (st : Z * V * A)
    : Res (Error B E) (Z * V * A) :=
  let '(height, func_validator, a) := st in
  '(op, offset) ← wasm op;
  func_validator ← wasm (fv_op func_validator offset op);
  let height := Z.max height (fv_operand_stack_height func_validator) in
  a ← handle_instruction got ils function_typedefs function_types locals op a;
  Ok (height, func_validator, a).

(** One iteration over the results at the end of the body. *)
Definition pop_result (ret : ValType) (st : list Register * A)
    : Res (Error B E) (list Register * A) :=
  let '(integer_order, a) := st in
  match ret with
  | I64 | I32 =>
      match pop_front integer_order with
      | Some (reg, integer_order) => a ← emit (i_pop reg) a; Ok (integer_order, a)
      | None => Ok (integer_order, a)
      end
  | _ => Panic Todo
  end.

(** The body of a function; returns the operand stack's greatest height and the
    assembler. *)
Definition compile_body (got ils : gmap Z CodeLabel) (function_typedefs : gmap Z FuncType)
    (function_types : gmap Z Z) (function_type : FuncType) (cs : FunctionBody B)
    (func_validator : V) (a : A) : Res (Error B E) (Z * A) :=
  rd ← wasm (get_operators_reader cs);
  a ← emit (i_push RBP) a;
  a ← emit (i_mov RBP RSP) a;
  integer_order ← drain (length (params function_type)) integer_registers;
  '(locals, locals_size) ← for_each param_layout (params function_type) ([], 0);
  lr ← wasm (get_locals_reader cs);
  '(locals, locals_size, func_validator) ←
    for_each (declare_locals (current_position cs)) lr (locals, locals_size, func_validator);
  a ← alloc_locals locals_size a;
  '(_, _, a) ← for_each (store_param locals) (imap pair (params function_type)) (integer_order, 8, a);
  '(height, func_validator, a) ←
    for_each (compile_op got ils function_typedefs function_types locals) rd
      (fv_operand_stack_height func_validator, func_validator, a);
  _ ← wasm (fv_finish func_validator (current_position cs));
  '(_, a) ← for_each pop_result (returns function_type) (return_registers, a);
  a ← free_locals locals_size a;
  a ← emit (i_mov RSP RBP) a;
  a ← emit (i_pop RBP) a;
  a ← emit i_ret a;
  Ok (height, a).
End Code.

(** ** Frame layout *)

(** The offsets of 64-bit parameters: 8, 16, 24, ... *)
Definition param_offsets (n : nat) : list Z := map (fun k => 8 * (Z.of_nat k + 1)) (seq 0 n).

Lemma lookup_param_offsets n k off :
  param_offsets n !! k = Some off <-> off = 8 * (Z.of_nat k + 1) /\ (k < n)%nat.
Proof.
  unfold param_offsets. rewrite list_lookup_fmap_Some. split.
  - intros (j & -> & [-> ?]%lookup_seq). split; [f_equal|]; lia.
  - intros [-> ?]. exists k. split; [done|]. apply lookup_seq. lia.
Qed.

Lemma length_param_offsets n : length (param_offsets n) = n.
Proof. unfold param_offsets. by rewrite length_map, length_seq. Qed.

Lemma param_offsets_S n : param_offsets (S n) = param_offsets n ++ [8 * (Z.of_nat n + 1)].
Proof. unfold param_offsets. rewrite seq_S, map_app. done. Qed.

Section Layout.
Context {E B : Type} `{Profile}.

Lemma param_layout_I64 n :
  8 * Z.of_nat n <= u32_max ->
  for_each (@param_layout E B _) (replicate n I64) ([], 0)
    = Ok (param_offsets n, 8 * Z.of_nat n).
Proof.
  induction n as [|n IH]; intros Hn; [done|].
  rewrite replicate_S_end, for_each_app, IH by lia. rewrite res_bind_ok. cbn [for_each].
  unfold param_layout. cbn [encoding_size]. rewrite res_bind_ok.
  rewrite u32_arith_ok by lia. rewrite !res_bind_ok. rewrite param_offsets_S.
  replace (8 * Z.of_nat n + 8) with (8 * (Z.of_nat n + 1)) by lia.
  by replace (8 * Z.of_nat (S n)) with (8 * (Z.of_nat n + 1)) by lia.
Qed.
End Layout.

(** ** The code of a function whose parameters are 64-bit and whose only locals
       are its parameters *)
Definition store_code (offs : list Z) (rs : list Register) : list Instruction :=
  zip_with (fun off r => i_store RBP (- off) r) offs rs.
Definition alloc_code (size : Z) : list Instruction :=
  if 0 <? size then [i_sub_imm RSP size] else [].
Definition free_code (size : Z) : list Instruction :=
  if 0 <? size then [i_add_imm RSP size] else [].
Definition prologue_code (n : nat) : list Instruction :=
  [i_push RBP; i_mov RBP RSP] ++ alloc_code (8 * Z.of_nat n)
  ++ store_code (param_offsets n) (reverse (take n integer_registers)).
Definition epilogue_code (n m : nat) : list Instruction :=
  map i_pop (take m return_registers) ++ free_code (8 * Z.of_nat n) ++ [i_mov RSP RBP; i_pop RBP].
Definition function_code (n m : nat) (body : list Instruction) : list Instruction :=
  prologue_code n ++ body ++ epilogue_code n m ++ [i_ret].

(** The validator's verdict on a list of operators, and the greatest height it
    reports on the way. *)
Fixpoint fv_ops {V B} `{FuncValidator V B} (fv : V) (height : Z) (ops : list (Operator.t * Z))
    : B + (Z * V) :=
  match ops with
  | [] => inr (height, fv)
  | (op, offset) :: ops =>
      match fv_op fv offset op with
      | inl e => inl e
      | inr fv => fv_ops fv (Z.max height (fv_operand_stack_height fv)) ops
      end
  end.

Section Emits.
Context {A E B V : Type} `{Assembler A E} `{!AssemblerLaws A E} `{FuncValidator V B} `{Profile}.

Lemma store_params_spec locals ps k0 rs offs e (a : A) :
  Forall (fun p => is_int p = true) ps -> length rs = length ps -> length offs = length ps ->
  (∀ j off, offs !! j = Some off -> locals !! (k0 + j)%nat = Some off) ->
  ∃ a', for_each (@store_param A E B _ _ locals) (imap (fun j p => ((k0 + j)%nat, p)) ps) (rs, e, a)
      = Ok ([], e, a') /\ extends a a' (store_code offs (reverse rs)).
Proof.
  intros Hps. revert k0 rs offs a. induction Hps as [|p ps Hp _ IH]; intros k0 rs offs a Hrs Hoffs Hl.
  - destruct rs, offs; try done. exists a. split; [done|apply extends_refl].
  - destruct rs as [|r rs _] using rev_ind; [done|]. destruct offs as [|off offs]; [done|].
    rewrite length_app in Hrs. simpl in Hrs, Hoffs. cbn [imap]. cbn [for_each].
    pose proof (Hl 0%nat off eq_refl) as Hl0.
    assert (Hb : store_param locals ((k0 + 0)%nat, p) (rs ++ [r], e, a) =
      (a ← @emit A E B _ (i_store RBP (- off) r) a; Ok (rs, e, a))).
    { unfold store_param. rewrite Hl0. cbn [of_option]. rewrite res_bind_ok, pop_back_snoc.
      by destruct p. }
    rewrite Hb. emit_step.
    destruct (IH (S k0) rs offs a0) as (a' & Ha' & Hx); [lia|lia| |].
    { intros j o Hj. rewrite <- (Hl (S j) o); [f_equal; lia|done]. }
    exists a'. rewrite reverse_snoc. split; [|by eapply extends_cons].
    rewrite <- Ha'. f_equal. apply imap_ext. intros j x _. simpl. f_equal. lia.
Qed.

Lemma pop_results_spec rts rs (a : A) :
  Forall (fun t => is_int t = true) rts ->
  ∃ rs' a', for_each (@pop_result A E B _) rts (rs, a) = Ok (rs', a') /\
    extends a a' (map i_pop (take (length rts) rs)).
Proof.
  intros Hp. revert rs a. induction Hp as [|p ps Hp _ IH]; intros rs a.
  - exists rs, a. split; [done|]. apply extends_refl.
  - cbn [for_each]. destruct rs as [|r rs].
    + assert (Hb : pop_result p ([], a) = @Ok (Error B E) _ ([], a)) by by destruct p.
      rewrite Hb, res_bind_ok. destruct (IH [] a) as (rs & a' & -> & Hx).
      exists rs, a'. split; [done|]. by rewrite take_nil in *.
    + assert (Hb : pop_result p (r :: rs, a) = (a ← @emit A E B _ (i_pop r) a; Ok (rs, a)))
        by by destruct p.
      rewrite Hb. emit_step. destruct (IH rs a0) as (rs' & a' & -> & Hx).
      exists rs', a'. split; [done|]. by eapply extends_cons.
Qed.

Lemma alloc_locals_spec size (a : A) :
  0 <= size < 2 ^ 31 ->
  ∃ a', @alloc_locals A E B _ size a = Ok a' /\ extends a a' (alloc_code size).
Proof.
  intros Hs. unfold alloc_locals, alloc_code. case_match.
  - rewrite law_with2_sub by lia. unfold asm_call. cbn [of_sum map_err]. rewrite res_bind_ok.
    apply emit_spec.
  - exists a. split; [done|apply extends_refl].
Qed.

Lemma free_locals_spec size (a : A) :
  0 <= size < 2 ^ 31 ->
  ∃ a', @free_locals A E B _ size a = Ok a' /\ extends a a' (free_code size).
Proof.
  intros Hs. unfold free_locals, free_code. case_match.
  - rewrite law_with2_add by lia. unfold asm_call. cbn [of_sum map_err]. rewrite res_bind_ok.
    apply emit_spec.
  - exists a. split; [done|apply extends_refl].
Qed.

(** The operators loop emits the operators' code and tracks the height. *)
Lemma compile_ops_spec got ils tds fts locals ops fv h h' fv' cs (a : A) :
  fv_ops fv h ops = inr (h', fv') -> mapM (code_of locals) (map fst ops) = Some cs ->
  ∃ a', for_each (@compile_op A E B V _ _ got ils tds fts locals) (map inr ops) (h, fv, a)
      = Ok (h', fv', a') /\ extends a a' (concat cs).
Proof.
  revert fv h cs a. induction ops as [|[op off] ops IH]; intros fv h cs a Hv Hc; cbn [map mapM] in *.
  - injection Hv as <- <-. injection Hc as <-. exists a. split; [done|apply extends_refl].
  - cbn [fv_ops] in Hv. destruct (fv_op fv off op) as [|fv1] eqn:Hop; [done|].
    pose proof (handle_instruction_emits (B := B) got ils tds fts locals op a) as Hh.
    cbn [fst] in Hc. destruct (code_of locals op) as [c|]; [|done]. destruct Hh as (a1 & Ha1 & Hx1).
    cbn [mbind option_bind] in Hc. destruct (mapM _ _) as [cs'|] eqn:Hcs; [|done].
    injection Hc as <-. destruct (IH fv1 _ cs' a1 Hv eq_refl) as (a2 & Ha2 & Hx2).
    exists a2. split; [|cbn [concat]; by eapply extends_trans].
    cbn [for_each].
    assert (Hs : compile_op got ils tds fts locals (inr (op, off)) (h, fv, a) =
      @Ok (Error B E) _ (Z.max h (fv_operand_stack_height fv1), fv1, a1)).
    { unfold compile_op, wasm. cbn [of_sum map_err]. rewrite res_bind_ok, Hop.
      cbn [of_sum map_err]. rewrite res_bind_ok, Ha1. done. }
    by rewrite Hs.
Qed.

Lemma wasm_ok {X} (x : X) : @wasm E B X (inr x) = Ok x.
Proof. reflexivity. Qed.

(** A body that was compiled passed the validator. *)
Lemma compile_ops_validated got ils tds fts locals ops fv h h' fv' (a a' : A) :
  for_each (@compile_op A E B V _ _ got ils tds fts locals) (map inr ops) (h, fv, a) = Ok (h', fv', a') ->
  fv_ops fv h ops = inr (h', fv').
Proof.
  revert fv h a. induction ops as [|[op off] ops IH]; intros fv h a; cbn [map for_each fv_ops].
  - by intros [= <- <- <-].
  - intros Hl. res_step Hl as [[h1 fv1] a1] E1. unfold compile_op in E1. rewrite wasm_ok, res_bind_ok in E1.
    destruct (fv_op fv off op) as [|fv2]; [done|]. rewrite wasm_ok, res_bind_ok in E1.
    res_step E1 as a2 E2. injection E1 as <- <- <-. by eapply IH.
Qed.

Lemma compile_body_validated got ils tds fts ft ops pos fv h (a a' : A) :
  @compile_body A E B V _ _ _ got ils tds fts ft (mkBody (inr (map inr ops)) (inr []) pos) fv a = Ok (h, a') ->
  (length (params ft) <= 6)%nat /\
  ∃ fv', fv_ops fv (fv_operand_stack_height fv) ops = inr (h, fv') /\ fv_finish fv' pos = inr tt.
Proof.
  unfold compile_body. cbn [get_operators_reader get_locals_reader current_position].
  rewrite !wasm_ok, res_bind_ok. intros Hc. res_step Hc as a1 E1. res_step Hc as a2 E2.
  res_step Hc as order E3. res_step Hc as [locals size] E4. rewrite res_bind_ok in Hc.
  cbn [for_each] in Hc. rewrite res_bind_ok in Hc. res_step Hc as a3 E5. res_step Hc as [[? ?] a4] E6.
  res_step Hc as [[h' fv'] a5] E7. res_step Hc as [] E8. res_step Hc as [? a6] E9. res_step Hc as a7 E10.
  res_step Hc as a8 E11. res_step Hc as a9 E12. res_step Hc as a10 E13. injection Hc as <- <-. split.
  - unfold drain in E3. by case_decide.
  - exists fv'. split; [by eapply compile_ops_validated|].
    unfold wasm in E8. by destruct (fv_finish fv' pos) as [|[]].
Qed.

(** The whole body, for a function without declared locals. *)
Lemma compile_body_spec got ils tds fts n rts ops pos fv h' fv' cs (a : A) :
  (n <= 6)%nat -> Forall (fun t => is_int t = true) rts ->
  fv_ops fv (fv_operand_stack_height fv) ops = inr (h', fv') -> fv_finish fv' pos = inr tt ->
  mapM (code_of (param_offsets n)) (map fst ops) = Some cs ->
  ∃ a', @compile_body A E B V _ _ _ got ils tds fts (mkFuncType (replicate n I64) rts)
      (mkBody (inr (map inr ops)) (inr []) pos) fv a = Ok (h', a') /\
    extends a a' (function_code n (length rts) (concat cs)).
Proof.
  intros Hn Hrts Hv Hfin Hcs. unfold compile_body.
  cbn [get_operators_reader get_locals_reader current_position params returns].
  rewrite !wasm_ok, res_bind_ok. do 2 emit_step.
  rewrite length_replicate. unfold drain at 1. rewrite decide_True by done. rewrite res_bind_ok.
  rewrite param_layout_I64 by (unfold u32_max; lia). rewrite !res_bind_ok.
  cbn [for_each]. rewrite res_bind_ok.
  destruct (alloc_locals_spec (8 * Z.of_nat n) a1) as (a2 & -> & Hx2); [lia|]. rewrite res_bind_ok.
  destruct (store_params_spec (param_offsets n) (replicate n I64) 0 (take n integer_registers)
    (param_offsets n) 8 a2) as (a3 & Ha3 & Hx3).
  { by apply Forall_replicate. }
  { rewrite length_take, length_replicate. simpl. lia. }
  { by rewrite length_param_offsets, length_replicate. }
  { done. }
  change (imap (fun j p => ((0 + j)%nat, p)) (replicate n I64)) with (imap pair (replicate n I64)) in Ha3.
  rewrite Ha3, res_bind_ok.
  destruct (compile_ops_spec got ils tds fts (param_offsets n) ops fv _ h' fv' cs a3 Hv Hcs)
    as (a4 & -> & Hx4). rewrite res_bind_ok, Hfin, wasm_ok, res_bind_ok.
  destruct (pop_results_spec rts return_registers a4 Hrts) as (rs & a5 & -> & Hx5). rewrite res_bind_ok.
  destruct (free_locals_spec (8 * Z.of_nat n) a5) as (a6 & -> & Hx6); [lia|]. rewrite res_bind_ok.
  do 3 emit_step. eexists. split; [done|]. unfold function_code, prologue_code, epilogue_code.
  rewrite <- !app_assoc. cbn [app].
  do 2 (eapply extends_cons; [done|]). do 5 (eapply extends_trans; [done|]). extends_tac.
Qed.

(** The code of a body that compiled, calls included. *)
Lemma compile_ops_code got ils tds fts locals ops st h' fv' (a' : A) :
  for_each (@compile_op A E B V _ _ got ils tds fts locals) (map inr ops) st = Ok (h', fv', a') ->
  ∃ cs, mapM (operator_code got ils tds fts locals) (map fst ops) = Some cs /\ extends st.2 a' (concat cs).
Proof.
  revert st. induction ops as [|[op off] ops IH]; intros [[h fv] a]; cbn [map for_each mapM fst].
  - intros [= <- <- <-]. exists []. split; [done|apply extends_refl].
  - intros Hl. res_step Hl as [[h1 fv1] a1] E1. unfold compile_op in E1. rewrite wasm_ok, res_bind_ok in E1.
    res_step E1 as fv2 E2. res_step E1 as a2 E3. apply Ok_inj in E1 as [= <- <- <-].
    apply handle_instruction_code in E3 as (c & -> & Hx). destruct (IH _ Hl) as (cs & -> & Hx').
    exists (c :: cs). split; [done|]. cbn [concat]. by eapply extends_trans.
Qed.

Lemma pop_results_int rts st st' :
  for_each (@pop_result A E B _) rts st = Ok st' -> Forall (fun t => is_int t = true) rts.
Proof.
  revert st. induction rts as [|p ps IH]; intros [rs a] Hs; [constructor|]. cbn [for_each] in Hs.
  res_step Hs as st1 E1. constructor; [by destruct p|by eapply IH].
Qed.

Lemma compile_body_code got ils tds fts n rts ops pos fv h (a a' : A) :
  @compile_body A E B V _ _ _ got ils tds fts (mkFuncType (replicate n I64) rts)
    (mkBody (inr (map inr ops)) (inr []) pos) fv a = Ok (h, a') ->
  (n <= 6)%nat /\ ∃ cs, mapM (operator_code got ils tds fts (param_offsets n)) (map fst ops) = Some cs /\
    extends a a' (function_code n (length rts) (concat cs)).
Proof.
  unfold compile_body. cbn [get_operators_reader get_locals_reader current_position params returns].
  rewrite !wasm_ok, res_bind_ok. intros Hc. res_step Hc as a1 E1. res_step Hc as a2 E2.
  res_step Hc as order E3. rewrite length_replicate in E3. unfold drain in E3. case_decide as Hn; [|done].
  apply Ok_inj in E3 as <-. simpl in Hn. rewrite param_layout_I64, res_bind_ok in Hc by (unfold u32_max; lia).
  rewrite res_bind_ok in Hc. cbn [for_each] in Hc. rewrite res_bind_ok in Hc. res_step Hc as a3 E5.
  res_step Hc as [[? ?] a4] E6. res_step Hc as [[h' fv'] a5] E7. res_step Hc as [] E8.
  res_step Hc as [? a6] E9. res_step Hc as a7 E10. res_step Hc as a8 E11. res_step Hc as a9 E12.
  res_step Hc as a10 E13. injection Hc as <- <-. split; [done|].
  apply emit_extends in E1, E2, E11, E12, E13.
  destruct (alloc_locals_spec (8 * Z.of_nat n) a2) as (a3' & E5' & X5); [lia|].
  rewrite E5 in E5'. apply Ok_inj in E5' as <-.
  destruct (store_params_spec (param_offsets n) (replicate n I64) 0 (take n integer_registers)
    (param_offsets n) 8 a3) as (a4' & E6' & X6).
  { by apply Forall_replicate. }
  { rewrite length_take, length_replicate. simpl. lia. }
  { by rewrite length_param_offsets, length_replicate. }
  { done. }
  change (imap (fun j p => ((0 + j)%nat, p)) (replicate n I64)) with (imap pair (replicate n I64)) in E6'.
  rewrite E6 in E6'. apply Ok_inj in E6' as [= -> -> <-].
  destruct (compile_ops_code _ _ _ _ _ _ _ _ _ _ E7) as (cs & Hcs & X7). exists cs. split; [done|].
  destruct (pop_results_spec rts return_registers a5 (pop_results_int _ _ _ E9)) as (rs & a6' & E9' & X9).
  rewrite E9 in E9'. apply Ok_inj in E9' as [= -> <-].
  destruct (free_locals_spec (8 * Z.of_nat n) a6) as (a7' & E10' & X10); [lia|].
  rewrite E10 in E10'. apply Ok_inj in E10' as <-.
  unfold function_code, prologue_code, epilogue_code. rewrite <- !app_assoc. cbn [app].
  do 2 (eapply extends_cons; [done|]). do 5 (eapply extends_trans; [done|]). extends_tac.
Qed.
End Emits.

(** ** Declared locals *)
Section DeclaredLocals.
Context {A E B V : Type} `{FuncValidator V B} `{Profile}.

Lemma local_layout_I64 locals size count :
  0 <= size -> size + 8 * Z.of_nat count <= u32_max ->
  @local_layout E B _ (Z.of_nat count) I64 (locals, size) =
    Ok (locals ++ map (fun k => size + 8 * Z.of_nat k) (seq 0 count), size + 8 * Z.of_nat count).
Proof.
  intros Hs Hmax. unfold local_layout. cbn [encoding_size]. rewrite res_bind_ok.
  assert (Hfor : ∀ k, (k <= count)%nat ->
    for_each (fun i locals => x ← @u32_arith _ (Error B E) (8 * i);
        offset ← u32_arith (size + x); Ok (locals ++ [offset])) (seqZ 0 (Z.of_nat k)) locals
      = Ok (locals ++ map (fun k => size + 8 * Z.of_nat k) (seq 0 k))).
  { induction k as [|k IH]; intros Hk; [by rewrite app_nil_r|].
    rewrite seqZ_S, for_each_app, IH by lia. rewrite res_bind_ok. cbn [for_each].
    rewrite u32_arith_ok by lia. rewrite res_bind_ok. rewrite u32_arith_ok by lia.
    rewrite !res_bind_ok. rewrite seq_S, map_app, app_assoc. done. }
  rewrite Hfor by done. rewrite res_bind_ok.
  rewrite u32_arith_ok by lia. rewrite res_bind_ok. rewrite u32_arith_ok by lia. done.
Qed.

(** C30: the first declared local shares its slot.  After [n] 64-bit parameters
    and a group of 64-bit locals, local [n], the first declared one, has offset
    [8 n]: the slot of the last parameter if there is one, and the saved [rbp]
    itself (offset 0) if there is none. *)
Theorem declared_local_shares_slot n count pos (fv fv' : V) :
  (0 < count)%nat -> 8 * (Z.of_nat n + Z.of_nat count) <= u32_max ->
  fv_define_locals fv pos (Z.of_nat count) I64 = inr fv' ->
  ∃ locals size,
    ('(locals, locals_size) ← for_each (@param_layout E B _) (replicate n I64) ([], 0);
     for_each (@declare_locals E B V _ _ pos) [inr (Z.of_nat count, I64)] (locals, locals_size, fv))
      = Ok (locals, size, fv') /\
    length locals = (n + count)%nat /\ locals !! n = Some (8 * Z.of_nat n) /\
    ((0 < n)%nat -> locals !! (n - 1)%nat = locals !! n).
Proof.
  intros Hc Hmax Hfv. rewrite param_layout_I64 by lia. rewrite res_bind_ok. cbn [for_each].
  unfold declare_locals. cbn [wasm of_sum map_err]. rewrite res_bind_ok.
  rewrite local_layout_I64 by lia. rewrite res_bind_ok, Hfv. cbn [wasm of_sum map_err].
  rewrite !res_bind_ok. do 2 eexists. split; [done|].
  rewrite length_app, length_map, length_seq, length_param_offsets. split; [done|].
  assert (Hn : (param_offsets n ++ map (fun k => 8 * Z.of_nat n + 8 * Z.of_nat k) (seq 0 count)) !! n
    = Some (8 * Z.of_nat n)).
  { rewrite lookup_app_r by (rewrite length_param_offsets; lia).
    rewrite length_param_offsets, Nat.sub_diag. destruct count; [lia|]. simpl. f_equal. lia. }
  split; [done|]. intros Hn0. rewrite Hn, lookup_app_l by (rewrite length_param_offsets; lia).
  apply lookup_param_offsets. lia.
Qed.

(** C31: a function or a callee of more than six parameters makes the compiler
    panic: [drain(0..params.len())] runs past the six argument registers, before
    any parameter is looked at. *)
Theorem more_than_six_parameters_panic `{!Assembler A E, !AssemblerLaws A E}
    got ils tds fts ft cs rd (fv : V) (a : A) i :
  (6 < length (params ft))%nat -> get_operators_reader cs = inr rd ->
  lookup_function_type fts tds i = Some ft ->
  @compile_body A E B V _ _ _ got ils tds fts ft cs fv a = Panic OutOfRange /\
  @handle_instruction A E B _ got ils tds fts [] (Operator.Call i) a = Panic OutOfRange.
Proof.
  intros Hlen Hrd Hft.
  assert (Hd : ∀ X, @drain X _ (length (params ft)) integer_registers = Panic OutOfRange).
  { intros X. unfold drain. rewrite decide_False; [done|]. simpl. lia. }
  split.
  - unfold compile_body. rewrite Hrd. cbn [wasm of_sum map_err]. rewrite res_bind_ok.
    do 2 emit_step. by rewrite Hd.
  - cbn [handle_instruction]. unfold handle_call. rewrite Hft. cbn [of_option].
    by rewrite res_bind_ok, Hd.
Qed.
End DeclaredLocals.

(** ** A validator for the witnesses: it follows the height of the operand stack *)
Module HeightValidator.
Definition effect (op : Operator.t) : Z :=
  match op with
  | Operator.I64Const _ | Operator.LocalGet _ => 1
  | Operator.I64Add | Operator.I64Sub | Operator.LocalSet _ => -1
  | _ => 0
  end.
#[global] Instance height_validator : FuncValidator Z unit := {
  fv_define_locals h _ _ _ := inr h;
  fv_operand_stack_height h := h;
  fv_op h _ op := if 0 <=? h + effect op then inr (h + effect op) else inl tt;
  fv_finish h _ := inr tt }.
End HeightValidator.

(** What the compiler relies on in the validator: the height it reports is the
    height of the operand stack.  [fv_tracks v w] says that [v] has followed the
    operators up to the state [w]. *)
Class FuncValidatorLaws (V B : Type) `{FuncValidator V B} := {
  fv_tracks : V -> wstate -> Prop;
  fv_height_tracks v w : fv_tracks v w -> fv_operand_stack_height v = Z.of_nat (length (wstack w));
  fv_op_tracks v v' w w' off op : fv_tracks v w -> fv_op v off op = inr v' ->
    wasm_step op w = Some w' -> fv_tracks v' w' }.

Lemma wasm_step_effect op w w' :
  wasm_step op w = Some w' ->
  Z.of_nat (length (wstack w')) = Z.of_nat (length (wstack w)) + HeightValidator.effect op.
Proof.
  unfold wasm_step. destruct op; try done; simpl.
  all: try (intros [= <-]; simpl; lia).
  - destruct (wstack w) as [|? [|]]; try done. intros [= <-]. simpl. lia.
  - destruct (wstack w) as [|? [|]]; try done. intros [= <-]. simpl. lia.
  - destruct (wlocals w !! _); [|done]. intros [= <-]. simpl. lia.
  - destruct (wstack w); [done|]. case_decide; [|done]. intros [= <-]. simpl. lia.
Qed.

#[global] Instance height_validator_laws : FuncValidatorLaws Z unit.
Proof.
  refine {| fv_tracks h w := h = Z.of_nat (length (wstack w)) |}; [done|].
  intros v v' w w' off op -> Hop Hw%wasm_step_effect. simpl in Hop.
  case_match; [|done]. by injection Hop as <-.
Defined.

Lemma fv_ops_height {V B} `{FuncValidatorLaws V B} fv h ops h' fv' w w' :
  fv_ops fv h ops = inr (h', fv') -> fv_tracks fv w -> wasm_exec (map fst ops) w = Some w' ->
  Z.of_nat (length (wstack w)) <= h ->
  Z.of_nat (wasm_height (map fst ops) w) <= h'.
Proof.
  revert fv h w. induction ops as [|[op off] ops IH]; intros fv h w Hv Ht Hw Hh.
  - injection Hv as <- <-. done.
  - cbn [fv_ops] in Hv. destruct (fv_op fv off op) as [|fv1] eqn:Hop; [done|].
    cbn [map fst wasm_exec wasm_height] in *. destruct (wasm_step op w) as [w1|] eqn:Hw1; [|done].
    assert (Ht1 : fv_tracks fv1 w1) by by eapply fv_op_tracks.
    pose proof (fv_height_tracks _ _ Ht1) as Hh1.
    assert (Hmono : ∀ ops fv h h' fv', fv_ops fv h ops = inr (h', fv') -> h <= h').
    { clear. induction ops as [|[op off] ops IH]; intros fv h h' fv'; cbn [fv_ops].
      - by intros [= <- <-].
      - destruct (fv_op fv off op); [done|]. intros Hx%IH. lia. }
    pose proof (Hmono _ _ _ _ _ Hv). rewrite Nat2Z.inj_max.
    assert (Z.of_nat (wasm_height (map fst ops) w1) <= h') by (eapply IH; [done..|lia]). lia.
Qed.

(** ** Concrete instances *)
Lemma declared_local_shares_slot_witness :
  ∃ locals size,
    ('(locals, locals_size) ← for_each (@param_layout BufferAssembler.error unit debug)
        (replicate 2 I64) ([], 0);
     for_each (@declare_locals BufferAssembler.error unit Z _ debug 0) [inr (3, I64)]
       (locals, locals_size, 0)) = Ok (locals, size, 0) /\
    length locals = 5%nat /\ locals !! 2%nat = Some 16 /\
    ((0 < 2)%nat -> locals !! 1%nat = locals !! 2%nat).
Proof.
  apply (declared_local_shares_slot 2 3 0 0 0); [lia|vm_compute; discriminate|reflexivity].
Defined.

Lemma more_than_six_parameters_panic_witness :
  let ft := mkFuncType (replicate 7 I64) [] in
  let a := BufferAssembler.mkBuffer [] [] false 1 in
  @compile_body _ _ unit Z BufferAssembler.buffer_assembler _ debug ∅ ∅ {[0 := ft]} {[0 := 0]} ft
    (mkBody (inr []) (inr []) 0) 0 a = Panic OutOfRange /\
  @handle_instruction _ _ unit BufferAssembler.buffer_assembler ∅ ∅ {[0 := ft]} {[0 := 0]} []
    (Operator.Call 0) a = Panic OutOfRange.
Proof.
  intros ft a.
  apply (more_than_six_parameters_panic ∅ ∅ {[0 := ft]} {[0 := 0]} ft (mkBody (inr []) (inr []) 0) []).
  - simpl. lia.
  - reflexivity.
  - reflexivity.
Defined.
