(* ===== verification/FunctionSem.v ===== *)
(** * Correctness of compiled functions

    What a function the compiler produced does when it is called: the frame it
    sets up holds the parameters, its body simulates WebAssembly, and it returns
    to its caller with the result registers set and the stack and the frame
    pointer restored. *)
From S2P Require Import Prelude X86 Assembler Optimizer OptimizerSem Wasm Instructions Codegen.
From S2P Require Import Function.

(** Stores into disjoint slots. *)
Definition disjoint_offsets (offs : list Z) : Prop :=
  ∀ i j oi oj, offs !! i = Some oi -> offs !! j = Some oj -> i <> j -> oi + 8 <= oj \/ oj + 8 <= oi.

Lemma disjoint_offsets_cons off offs : disjoint_offsets (off :: offs) -> disjoint_offsets offs.
Proof. intros H i j oi oj Hi Hj Hne. apply (H (S i) (S j)); auto. Qed.

Section Frame.
Context `{EnvLaws}.

Lemma exec_stores offs rs s :
  length offs = length rs -> disjoint_offsets offs ->
  Forall (fun off => regs s RSP <= regs s RBP - off /\ regs s RBP - off + 8 <= 2 ^ 64) offs ->
  wf s ->
  ∃ s', exec (store_code offs rs) s = Some s' /\ wf s' /\ regs s' = regs s /\ rip s' = rip s /\
    (∀ k off r, offs !! k = Some off -> rs !! k = Some r ->
       load64 (mem s') (regs s RBP - off) = Some (regs s r)) /\
    (∀ x, (∀ off, off ∈ offs -> x < regs s RBP - off \/ regs s RBP - off + 8 <= x) ->
       mem s' x = mem s x).
Proof.
  intros Hlen Hd Hoffs. revert rs s Hlen Hoffs. induction offs as [|off offs IH];
    intros rs s Hlen Hoffs Hs; destruct rs as [|r rs]; try done.
  { exists s. by split_and!. }
  apply Forall_cons in Hoffs as [Hoff Hoffs]. simpl in Hlen.
  assert (Hst : step (i_store RBP (- off) r) s =
    Some (mkState (regs s) (rip s) (store64 (mem s) (regs s RBP - off) (regs s r)))).
  { pose proof (wf_regs s Hs RSP). rewrite step_store. unfold address.
    change (regs s RBP + - off) with (regs s RBP - off). rewrite wrap64_small by lia.
    by rewrite decide_True by lia. }
  pose proof (step_wf _ _ _ Hs Hst) as Hs1.
  destruct (IH (disjoint_offsets_cons _ _ Hd) rs (mkState (regs s) (rip s)
    (store64 (mem s) (regs s RBP - off) (regs s r)))) as (s' & He & Hwf & Hregs & Hrip & Hl & Hm);
    [lia|done..|].
  exists s'. cbn [store_code zip_with]. split; [exec_by Hst; exact He|].
  split; [done|]. split; [done|]. split; [done|]. simpl in *. split.
  - intros [|k] off' r' Ho Hr; simpl in *; [|by eapply Hl].
    injection Ho as <-. injection Hr as <-.
    rewrite (load64_ext _ (store64 (mem s) (regs s RBP - off) (regs s r))).
    + rewrite load_store_same. f_equal. apply wrap64_small, Hs.
    + intros x Hx. apply Hm. intros o' [k Hk]%list_elem_of_lookup.
      destruct (Hd 0%nat (S k) off o'); auto; lia.
  - intros x Hx. rewrite Hm.
    + apply store64_other. apply Hx, list_elem_of_here.
    + intros o' Ho'. apply Hx. by apply list_elem_of_further.
Qed.

Lemma param_offsets_disjoint n : disjoint_offsets (param_offsets n).
Proof. intros i j oi oj [-> _]%lookup_param_offsets [-> _]%lookup_param_offsets Hne. lia. Qed.

(** The frame of a function of [n] parameters entered with stack pointer [sp];
    [m] is the memory with [rbp] saved. *)
Definition entry_frame (n : nat) (s : state) : frame :=
  mkFrame (regs s RSP - 8) (regs s RSP - 8 - 8 * Z.of_nat n) (param_offsets n)
    (store64 (mem s) (regs s RSP - 8) (regs s RBP)).

(** The parameters as the callee sees them: parameter [k] of [n] is taken from
    register [n - 1 - k]. *)
Definition entry_params (n : nat) (s : state) : list Z :=
  map (regs s) (reverse (take n integer_registers)).

Lemma entry_frame_ok n s :
  wf s -> 8 + 8 * Z.of_nat n <= regs s RSP -> slots_ok (entry_frame n s).
Proof.
  intros Hs Hroom. pose proof (wf_regs s Hs RSP). split; simpl.
  - intros i off [-> ?]%lookup_param_offsets. unfold slot. simpl. lia.
  - apply param_offsets_disjoint.
  - lia.
Qed.

(** Above the operand stack and outside the slots is above the locals. *)
Lemma param_slots_cover n s x :
  fr_base (entry_frame n s) <= x -> outside (entry_frame n s) x -> regs s RSP - 8 <= x.
Proof.
  intros Hx Hout. destruct (decide (regs s RSP - 8 <= x)) as [|Hlt]; [done|exfalso].
  simpl in Hx. set (d := regs s RSP - 9 - x). set (k := d / 8).
  assert (Hk : 0 <= k < Z.of_nat n)
    by (unfold k, d; split; [apply Z.div_pos|apply Z.div_lt_upper_bound]; lia).
  pose proof (Z.div_mod d 8). pose proof (Z.mod_pos_bound d 8).
  destruct (Hout (Z.to_nat k) (8 * (Z.of_nat (Z.to_nat k) + 1))).
  - apply lookup_param_offsets. lia.
  - unfold slot in *. simpl in *. lia.
  - unfold slot in *. simpl in *. lia.
Qed.

Lemma exec_alloc n s :
  wf s -> 8 * Z.of_nat n <= regs s RSP ->
  ∃ s', exec (alloc_code (8 * Z.of_nat n)) s = Some s' /\ wf s' /\ rip s' = rip s /\
    regs s' RSP = regs s RSP - 8 * Z.of_nat n /\ (∀ r, r <> RSP -> regs s' r = regs s r) /\
    (∀ x, regs s RSP <= x -> mem s' x = mem s x).
Proof.
  intros Hs Hroom. unfold alloc_code. destruct (Z.ltb_spec 0 (8 * Z.of_nat n)).
  - pose proof (wf_regs s Hs RSP).
    exists (set_reg RSP (wrap64 (regs s RSP - 8 * Z.of_nat n)) s).
    rewrite wrap64_small by lia. split; [|split; [|split; [done|split; [|split]]]].
    + rewrite exec_cons, step_sub_imm. by rewrite wrap64_small by lia.
    + apply set_reg_wf; [done|lia].
    + simpl. by regs_simpl.
    + intros r Hr. simpl. by regs_simpl.
    + intros x Hx. simpl. apply forget_other. lia.
  - exists s. split_and!; try done. lia.
Qed.

Lemma prologue_sim n s :
  wf s -> (n <= 6)%nat -> 8 + 8 * Z.of_nat n <= regs s RSP -> regs s RSP + 8 < 2 ^ 64 ->
  ∃ s', exec (prologue_code n) s = Some s' /\ rip s' = rip s /\
    represents (entry_frame n s) (mkW [] (entry_params n s)) s'.
Proof.
  intros Hs Hn Hroom Hsp. unfold prologue_code. pose proof (wf_regs s Hs) as Hregs.
  assert (Hpush : exec [i_push RBP; i_mov RBP RSP] s = Some (set_reg RBP (regs s RSP - 8)
    (mkState (set_regs (regs s) RSP (regs s RSP - 8)) (rip s)
       (store64 (mem s) (regs s RSP - 8) (regs s RBP))))).
  { rewrite exec_cons, step_push. unfold push_val. rewrite decide_True by lia.
    cbn [mbind option_bind]. rewrite exec_cons, step_mov_reg. cbn [mbind option_bind exec].
    simpl. by regs_simpl. }
  assert (Hwf1 := exec_wf _ _ _ Hs Hpush). set (s1 := set_reg _ _ _) in *.
  destruct (exec_alloc n s1) as (s2 & E2 & Hwf2 & Hrip2 & Hsp2 & Hr2 & Hm2); [done| |].
  { unfold s1. simpl. regs_simpl. lia. }
  assert (Hbp2 : regs s2 RBP = regs s RSP - 8) by (rewrite Hr2 by done; unfold s1; simpl; by regs_simpl).
  assert (Hsp2' : regs s2 RSP = regs s RSP - 8 - 8 * Z.of_nat n)
    by (rewrite Hsp2; unfold s1; simpl; regs_simpl; lia).
  destruct (exec_stores (param_offsets n) (reverse (take n integer_registers)) s2)
    as (s3 & E3 & Hwf3 & Hregs3 & Hrip3 & Hl3 & Hm3).
  { rewrite length_param_offsets, length_reverse, length_take. simpl. lia. }
  { apply param_offsets_disjoint. }
  { apply Forall_lookup. intros i off [-> ?]%lookup_param_offsets. rewrite Hbp2, Hsp2'.
    pose proof (Hregs RSP). lia. }
  { done. }
  exists s3. split; [rewrite exec_app, Hpush; cbn [mbind option_bind]; by rewrite exec_app, E2|].
  split; [by rewrite Hrip3, Hrip2|].
  assert (Hargs : ∀ r, r ∈ take n integer_registers -> regs s2 r = regs s r).
  { intros r Hr. destruct (argument_registers_ok n) as (_ & Hnsp & Hnbp).
    assert (r <> RSP /\ r <> RBP) as [? ?] by (split; intros ->; done).
    rewrite Hr2 by done. unfold s1. simpl. by regs_simpl. }
  split; simpl; rewrite ?Hregs3.
  - done.
  - done.
  - rewrite Hsp2'. lia.
  - done.
  - unfold entry_params. rewrite length_map, length_reverse, length_take, length_param_offsets. simpl. lia.
  - intros i v off Hv Ho. unfold slot. simpl. rewrite <- Hbp2.
    apply list_lookup_fmap_Some in Hv as (r & -> & Hr). rewrite (Hl3 i off r Ho Hr). f_equal.
    apply Hargs. apply list_elem_of_lookup_2 in Hr. by rewrite elem_of_reverse in Hr.
  - intros x Hx Hout. rewrite Hm3.
    + rewrite Hm2; [done|]. unfold s1. simpl. regs_simpl. by apply (param_slots_cover n s x).
    + intros off [i Hi]%list_elem_of_lookup. rewrite Hbp2. apply (Hout i off Hi).
Qed.

(** ** Leaving a function *)
Lemma exec_free n s :
  wf s -> regs s RSP + 8 * Z.of_nat n < 2 ^ 64 ->
  ∃ s', exec (free_code (8 * Z.of_nat n)) s = Some s' /\ wf s' /\ rip s' = rip s /\
    regs s' RSP = regs s RSP + 8 * Z.of_nat n /\ (∀ r, r <> RSP -> regs s' r = regs s r) /\
    (∀ x, regs s RSP + 8 * Z.of_nat n <= x -> mem s' x = mem s x).
Proof.
  intros Hs Hroom. unfold free_code. pose proof (wf_regs s Hs RSP).
  destruct (Z.ltb_spec 0 (8 * Z.of_nat n)).
  - exists (set_reg RSP (wrap64 (regs s RSP + 8 * Z.of_nat n)) s).
    rewrite wrap64_small by lia. split_and!; try done.
    + rewrite exec_cons, step_add_imm. by rewrite wrap64_small by lia.
    + apply set_reg_wf; [done|lia].
    + intros r Hr. simpl. by regs_simpl.
    + intros x Hx. simpl. apply forget_other. lia.
  - exists s. split_and!; try done. lia.
Qed.

(** [mov rsp, rbp; pop rbp; ret] with the saved [rbp] and the return address in
    place. *)
Lemma leave_ret s bp ra :
  wf s -> regs s RSP = regs s RBP -> regs s RBP + 16 < 2 ^ 64 ->
  load64 (mem s) (regs s RBP) = Some bp -> load64 (mem s) (regs s RBP + 8) = Some ra ->
  ∃ s1 s2, exec [i_mov RSP RBP; i_pop RBP] s = Some s1 /\ ret_step s1 = Some s2 /\ rip s2 = ra /\
    regs s2 RSP = regs s RBP + 16 /\ regs s2 RBP = bp /\
    (∀ r, r <> RSP -> r <> RBP -> regs s2 r = regs s r) /\
    (∀ x, regs s RBP <= x -> mem s2 x = mem s x).
Proof.
  intros Hs Hsp Hroom Hbp Hra.
  assert (Hf : ∀ x, forget (regs s RBP) (regs s RSP) (mem s) x = mem s x)
    by (intros; apply forget_other; lia).
  assert (Hl : ∀ x, load64 (forget (regs s RBP) (regs s RSP) (mem s)) x = load64 (mem s) x)
    by (intros; by apply load64_ext).
  do 2 eexists. split_and!.
  - rewrite exec_cons, step_mov_reg. cbn [mbind option_bind].
    rewrite exec_cons, step_pop. unfold pop_val. simpl. regs_simpl. rewrite decide_True by lia.
    by rewrite Hl, Hbp.
  - unfold ret_step, pop_val. simpl. regs_simpl. rewrite decide_True by lia.
    by rewrite Hl, Hra.
  - done.
  - simpl. regs_simpl. lia.
  - simpl. by regs_simpl.
  - intros r ? ?. simpl. by regs_simpl.
  - intros x _. simpl. apply Hf.
Qed.

Lemma epilogue_sim n s0 vs locs s ra :
  wf s0 -> (length vs <= 2)%nat -> 8 + 8 * Z.of_nat n <= regs s0 RSP -> regs s0 RSP + 8 < 2 ^ 64 ->
  load64 (mem s0) (regs s0 RSP) = Some ra -> represents (entry_frame n s0) (mkW vs locs) s ->
  ∃ s1 s2, exec (epilogue_code n (length vs)) s = Some s1 /\ ret_step s1 = Some s2 /\
    rip s2 = ra /\ regs s2 RSP = regs s0 RSP + 8 /\ regs s2 RBP = regs s0 RBP /\
    Forall2 (fun r v => regs s2 r = v) (take (length vs) return_registers) vs /\
    (∀ x, regs s0 RSP <= x -> mem s2 x = mem s0 x).
Proof.
  intros Hs0 Hvs Hroom Htop Hra Hr. pose proof (entry_frame_ok n s0 Hs0 Hroom) as Hok.
  set (rs := take (length vs) return_registers).
  assert (Hrs : length rs = length vs) by (unfold rs; rewrite length_take; simpl; lia).
  assert (Hfacts : NoDup rs /\ (RSP ∉ rs) /\ (RBP ∉ rs)).
  { unfold rs, return_registers. destruct (length vs) as [|[|[|]]]; [..|lia]; simpl;
      split_and!; try not_in; repeat (apply NoDup_cons; split; [not_in|]); apply NoDup_nil_2. }
  destruct Hfacts as (Hnd & Hnsp & Hnbp).
  destruct (sim_pops (entry_frame n s0) Hok (reverse rs) (reverse vs) (mkW vs locs) s [])
    as (s1 & E1 & R1 & V1 & _); [done|by rewrite reverse_involutive, app_nil_r
    |by rewrite !length_reverse|by rewrite reverse_Permutation|by rewrite elem_of_reverse
    |by rewrite elem_of_reverse|].
  rewrite reverse_involutive in E1. apply Forall2_reverse in V1. rewrite !reverse_involutive in V1.
  destruct R1 as [Hwf1 Hbp1 Hsp1 _ _ _ Hm1]. simpl in Hbp1, Hsp1, Hm1.
  destruct (exec_free n s1 Hwf1) as (s2 & E2 & Hwf2 & Hrip2 & Hsp2 & Hr2 & Hm2); [lia|].
  assert (Hmem : ∀ x, regs s0 RSP - 8 <= x ->
    mem s2 x = store64 (mem s0) (regs s0 RSP - 8) (regs s0 RBP) x).
  { intros x Hx. rewrite Hm2 by lia. apply Hm1; [lia|].
    intros i off [-> ?]%lookup_param_offsets. unfold slot. simpl. lia. }
  assert (Hbp2 : regs s2 RBP = regs s0 RSP - 8) by by rewrite Hr2.
  destruct (leave_ret s2 (regs s0 RBP) ra) as (s3 & s4 & E3 & E4 & ? & Hsp4 & Hbp4 & Hr4 & Hm4).
  - done.
  - rewrite Hsp2, Hbp2. lia.
  - lia.
  - rewrite Hbp2. erewrite load64_ext by (intros; apply Hmem; lia).
    rewrite load_store_same. f_equal. apply wrap64_small, Hs0.
  - rewrite Hbp2. erewrite load64_ext by (intros; apply Hmem; lia).
    rewrite load_store_other by lia. rewrite <- Hra. f_equal. lia.
  - exists s3, s4. unfold epilogue_code. fold rs. split_and!; try done.
    + rewrite exec_app, E1. cbn [mbind option_bind]. by rewrite exec_app, E2.
    + rewrite Hsp4. lia.
    + eapply Forall2_impl_elem; [exact V1|]. intros r v Hin <-.
      rewrite Hr4, Hr2; try done; by intros ->.
    + intros x Hx. rewrite Hm4 by lia. rewrite Hmem by lia. apply store64_other. lia.
Qed.
End Frame.

(** ** The code contains no return but the last *)
Lemma not_ret_code_of locals op c : code_of locals op = Some c -> i_ret ∉ c.
Proof.
  destruct op; try done; simpl; try (intros [= <-]; not_in);
    destruct (locals !! _); simpl; try done; intros [= <-]; not_in.
Qed.

Lemma not_ret_codes_of locals ops cs : mapM (code_of locals) ops = Some cs -> i_ret ∉ concat cs.
Proof.
  revert cs. induction ops as [|op ops IH]; intros cs; cbn [mapM].
  - intros [= <-]. not_in.
  - destruct (code_of locals op) as [c|] eqn:Hc; [|done]. cbn [mbind option_bind].
    destruct (mapM _ ops) as [cs'|]; [|done]. intros [= <-]. cbn [concat].
    apply not_elem_of_app. split; [by eapply not_ret_code_of|by apply IH].
Qed.

Lemma not_ret_map (g : Register -> Instruction) rs : (∀ r, g r <> i_ret) -> i_ret ∉ map g rs.
Proof. intros Hg Hin. apply list_elem_of_fmap in Hin as (r & Hr & _). by apply (Hg r). Qed.

Lemma not_ret_prologue n : i_ret ∉ prologue_code n.
Proof.
  unfold prologue_code, alloc_code. rewrite !not_elem_of_app. split_and!; [not_in|case_match; not_in|].
  unfold store_code. intros Hin. apply list_elem_of_lookup in Hin as [k Hk].
  apply lookup_zip_with_Some in Hk as (? & ? & ? & _). done.
Qed.

Lemma not_ret_epilogue n m : i_ret ∉ epilogue_code n m.
Proof.
  unfold epilogue_code, free_code. rewrite !not_elem_of_app. split_and!; [by apply not_ret_map| |not_in].
  case_match; not_in.
Qed.

(** What a call of a compiled function does to the machine. *)
Record returns_with (s s' : state) (ra : Z) (vs : list Z) : Prop := {
  ret_rip : rip s' = ra;
  ret_rsp : regs s' RSP = regs s RSP + 8;
  ret_rbp : regs s' RBP = regs s RBP;
  ret_values : Forall2 (fun r v => regs s' r = v) (take (length vs) return_registers) vs;
  ret_mem x : regs s RSP + 8 <= x -> mem s' x = mem s x }.

Section Run.
Context `{EnvLaws}.

Lemma run_function n body cs s ra vs locs :
  wf s -> (n <= 6)%nat -> Forall (fun op => simple op = true) body ->
  mapM (code_of (param_offsets n)) body = Some cs ->
  load64 (mem s) (regs s RSP) = Some ra -> regs s RSP + 8 < 2 ^ 64 ->
  wasm_exec body (mkW [] (entry_params n s)) = Some (mkW vs locs) -> (length vs <= 2)%nat ->
  8 + 8 * Z.of_nat n + 8 * Z.of_nat (wasm_height body (mkW [] (entry_params n s))) <= regs s RSP ->
  ∃ s', run (function_code n (length vs) (concat cs)) s = Some s' /\ returns_with s s' ra vs.
Proof.
  intros Hs Hn Hbody Hcs Hra Htop Hw Hvs Hroom.
  destruct (prologue_sim n s) as (s1 & E1 & _ & R1); [done|done|lia|done|].
  assert (Hok : slots_ok (entry_frame n s)) by (apply entry_frame_ok; [done|lia]).
  destruct (sim_ops (entry_frame n s) Hok body (mkW [] (entry_params n s)) s1 (mkW vs locs) cs) as (s2 & E2 & R2);
    [done|done|done|simpl; lia|done|].
  destruct (epilogue_sim n s vs locs s2 ra) as (s3 & s4 & E3 & E4 & Hrest); [done|done|lia|done..|].
  exists s4. split; [|destruct Hrest as (? & ? & ? & ? & Hm); split; try done; intros; apply Hm; lia].
  unfold function_code. rewrite run_app by apply not_ret_prologue. rewrite E1. cbn [mbind option_bind].
  rewrite run_app by by eapply not_ret_codes_of. rewrite E2. cbn [mbind option_bind].
  rewrite run_ret by apply not_ret_epilogue. by rewrite E3.
Qed.

(** ** Properties *)
Context {A E B V : Type} `{!Assembler A E, !AssemblerLaws A E, !FuncValidator V B, !Profile}.
Context (got ils : gmap Z CodeLabel) (tds : gmap Z FuncType) (fts : gmap Z Z).

Lemma compile_and_run n rts ops pos fv h' fv' (a : A) s ra vs locs :
  (n <= 6)%nat -> Forall (fun t => is_int t = true) rts -> length vs = length rts ->
  (length vs <= 2)%nat -> Forall (fun op => simple op = true) (map fst ops) ->
  fv_ops fv (fv_operand_stack_height fv) ops = inr (h', fv') -> fv_finish fv' pos = inr tt ->
  wf s -> load64 (mem s) (regs s RSP) = Some ra -> regs s RSP + 8 < 2 ^ 64 ->
  wasm_exec (map fst ops) (mkW [] (entry_params n s)) = Some (mkW vs locs) ->
  8 + 8 * Z.of_nat n + 8 * Z.of_nat (wasm_height (map fst ops) (mkW [] (entry_params n s)))
    <= regs s RSP ->
  ∃ a' c s', @compile_body A E B V _ _ _ got ils tds fts (mkFuncType (replicate n I64) rts)
      (mkBody (inr (map inr ops)) (inr []) pos) fv a = Ok (h', a') /\
    asm_instructions a' = asm_instructions a ++ c /\
    run c s = Some s' /\ returns_with s s' ra vs.
Proof.
  intros Hn Hrts Hlen Hvs Hops Hv Hfin Hs Hra Htop Hw Hroom.
  assert (∃ cs, mapM (code_of (param_offsets n)) (map fst ops) = Some cs) as [cs Hcs].
  { apply (codes_of_defined (entry_frame n s) _ _ _ Hops Hw). simpl. unfold entry_params.
    rewrite length_map, length_reverse, length_take, length_param_offsets. simpl. lia. }
  destruct (compile_body_spec got ils tds fts n rts ops pos fv h' fv' cs a) as (a' & Ha & Hx); [done..|].
  destruct (run_function n (map fst ops) cs s ra vs locs) as (s' & Hrun & Hret); [done..|].
  exists a', (function_code n (length rts) (concat cs)), s'.
  split; [exact Ha|]. split; [apply Hx|]. rewrite <- Hlen. done.
Qed.

(** Compiled functions compute what WebAssembly says and return properly.
    For a function of at most six 64-bit parameters and at most two integer
    results, without declared locals, whose validated body is made of constants,
    additions and local accesses, the compiler emits code; calling it from any
    state with enough stack, it returns to its caller with the operand stack's
    values in [rax] and [rdx] (top first), the stack pointer past the return
    address, [rbp] restored and the caller's memory untouched.  Parameter [k] of
    [n] is read from argument register [n - 1 - k]. *)
Theorem compiled_function_correct n rts ops pos fv h' fv' (a : A) s ra vs locs :
  (n <= 6)%nat -> Forall (fun t => is_int t = true) rts -> length vs = length rts ->
  (length vs <= 2)%nat -> Forall (fun op => simple op = true) (map fst ops) ->
  fv_ops fv (fv_operand_stack_height fv) ops = inr (h', fv') -> fv_finish fv' pos = inr tt ->
  wf s -> load64 (mem s) (regs s RSP) = Some ra -> regs s RSP + 8 < 2 ^ 64 ->
  wasm_exec (map fst ops) (mkW [] (entry_params n s)) = Some (mkW vs locs) ->
  8 + 8 * Z.of_nat n + 8 * Z.of_nat (wasm_height (map fst ops) (mkW [] (entry_params n s)))
    <= regs s RSP ->
  ∃ a' c s', @compile_body A E B V _ _ _ got ils tds fts (mkFuncType (replicate n I64) rts)
      (mkBody (inr (map inr ops)) (inr []) pos) fv a = Ok (h', a') /\
    asm_instructions a' = asm_instructions a ++ c /\
    run c s = Some s' /\ returns_with s s' ra vs.
Proof. apply compile_and_run. Qed.

(** C27: a call and the function it calls disagree about the order of the
    parameters.  With the arguments in the System V registers, as a compiled
    call leaves them, the compiled callee that returns its local [k] returns
    argument [n - 1 - k]. *)
Theorem callee_sees_parameters_reversed n k args v pos fv h' fv' (a : A) s ra :
  let ops := [(Operator.LocalGet (Z.of_nat k), 0); (Operator.End, 1)] in
  (n <= 6)%nat -> length args = n ->
  Forall2 (fun r v => regs s r = v) (take n integer_registers) args ->
  args !! (n - 1 - k)%nat = Some v -> (k < n)%nat ->
  fv_ops fv (fv_operand_stack_height fv) ops = inr (h', fv') -> fv_finish fv' pos = inr tt ->
  wf s -> load64 (mem s) (regs s RSP) = Some ra -> regs s RSP + 8 < 2 ^ 64 ->
  16 + 8 * Z.of_nat n <= regs s RSP ->
  ∃ a' c s', @compile_body A E B V _ _ _ got ils tds fts (mkFuncType (replicate n I64) [I64])
      (mkBody (inr (map inr ops)) (inr []) pos) fv a = Ok (h', a') /\
    asm_instructions a' = asm_instructions a ++ c /\
    run c s = Some s' /\ regs s' RAX = v.
Proof.
  intros ops Hn Hlen Hargs Hv Hk Hval Hfin Hs Hra Htop Hroom.
  assert (Hp : entry_params n s = reverse args).
  { unfold entry_params. change (map (regs s)) with (fmap (M := list) (regs s)).
    rewrite fmap_reverse. f_equal. clear -Hargs.
    revert Hargs. generalize (take n integer_registers). intros rs. induction 1; [done|].
    simpl. by f_equal. }
  assert (Hvk : entry_params n s !! k = Some v).
  { rewrite Hp, reverse_lookup by lia. rewrite Hlen, <- Hv. f_equal. lia. }
  assert (Hw : wasm_exec (map fst ops) (mkW [] (entry_params n s)) = Some (mkW [v] (entry_params n s))).
  { simpl. rewrite Nat2Z.id, Hvk. done. }
  destruct (compile_and_run n [I64] ops pos fv h' fv' a s ra [v] (entry_params n s))
    as (a' & c & s' & Ha & Hc & Hrun & Hret); try done; [by repeat constructor|simpl; lia
    |by repeat constructor| |].
  { cbn [map fst ops wasm_height wasm_step wlocals]. rewrite Nat2Z.id, Hvk. simpl. lia. }
  exists a', c, s'. split_and!; try done.
  pose proof (ret_values _ _ _ _ Hret) as Hvals. simpl in Hvals. by apply Forall2_cons in Hvals as [? _].
Qed.
End Run.

(** ** Concrete instances *)
#[local] Existing Instance no_env.

(** [(func (param i64 i64) (result i64) local.get 0 local.get 1 i64.add)] *)
Definition sample_ops : list (Operator.t * Z) :=
  [(Operator.LocalGet 0, 0); (Operator.LocalGet 1, 2); (Operator.I64Add, 4); (Operator.End, 5)].

Lemma compiled_function_correct_witness :
  ∃ a' c s',
    @compile_body _ _ unit Z BufferAssembler.buffer_assembler _ debug ∅ ∅ ∅ ∅
      (mkFuncType (replicate 2 I64) [I64]) (mkBody (inr (map inr sample_ops)) (inr []) 6) 0
      (BufferAssembler.mkBuffer [] [] false 1) = Ok (2, a') /\
    asm_instructions a' = [] ++ c /\
    run c sample_state = Some s' /\ returns_with sample_state s' 0 [62].
Proof.
  refine (compiled_function_correct ∅ ∅ ∅ ∅ 2 [I64] sample_ops 6 0 2 1
    (BufferAssembler.mkBuffer [] [] false 1) sample_state 0 [62] [10; 52] _ _ _ _ _ _ _ _ _ _ _ _).
  - lia.
  - repeat constructor.
  - reflexivity.
  - simpl. lia.
  - repeat constructor.
  - reflexivity.
  - reflexivity.
  - apply sample_state_wf.
  - reflexivity.
  - simpl. lia.
  - reflexivity.
  - vm_compute. discriminate.
Defined.

Lemma callee_sees_parameters_reversed_witness :
  ∃ a' c s',
    @compile_body _ _ unit Z BufferAssembler.buffer_assembler _ debug ∅ ∅ ∅ ∅
      (mkFuncType (replicate 2 I64) [I64])
      (mkBody (inr (map inr [(Operator.LocalGet 0, 0); (Operator.End, 1)])) (inr []) 6) 0
      (BufferAssembler.mkBuffer [] [] false 1) = Ok (1, a') /\
    asm_instructions a' = [] ++ c /\
    run c sample_state = Some s' /\ regs s' RAX = 10.
Proof.
  refine (callee_sees_parameters_reversed ∅ ∅ ∅ ∅ 2 0 [52; 10] 10 6 0 1 1
    (BufferAssembler.mkBuffer [] [] false 1) sample_state 0 _ _ _ _ _ _ _ _ _ _ _).
  - lia.
  - reflexivity.
  - repeat constructor.
  - reflexivity.
  - lia.
  - reflexivity.
  - reflexivity.
  - apply sample_state_wf.
  - reflexivity.
  - simpl. lia.
  - simpl. lia.
Defined.
