(* ===== verification/FunctionOpt.v ===== *)
(** * Compiled functions after optimization

    The optimizer's unsound window never does harm in code the compiler emits
    for call-free functions: between the frame set-up and tear-down every
    register copy comes from [rax], so the window cannot apply there
    ([body_code]), and it joins set-up and tear-down only when nothing is left
    between them, where dropping both is right. *)
From S2P Require Import Prelude X86 Assembler Optimizer OptimizerSem Wasm Instructions Codegen.
From S2P Require Import Function FunctionSem.

(** ** Code between set-up and tear-down *)
Definition is_reg_mov (i : Instruction) : bool :=
  bool_decide (code i = Mov_rm64_r64) && bool_decide (op0_kind i = KRegister)
  && bool_decide (op1_kind i = KRegister).

(** Pushes and copies are from [rax]; the frame pointers are not written. *)
Definition body_instr (i : Instruction) : bool :=
  match code i with
  | Push_r64 => bool_decide (op0_register i = RAX)
  | Pop_r64 => bool_decide (op0_register i <> RBP) && bool_decide (op0_register i <> RSP)
  | _ => if is_reg_mov i
         then bool_decide (op1_register i = RAX) && bool_decide (op0_register i <> RBP)
              && bool_decide (op0_register i <> RSP)
         else true
  end.
Abbreviation body_code l := (Forall (fun i => body_instr i = true) l).

(** Instructions no window removes. *)
Definition firm (i : Instruction) : bool :=
  match code i with Push_r64 | Pop_r64 => false | _ => negb (is_reg_mov i) end.

Lemma is_mov_mov_regs h0 h1 : is_mov_mov h0 h1 = true ->
  is_reg_mov h0 = true /\ is_reg_mov h1 = true /\ code h0 = Mov_rm64_r64 /\ code h1 = Mov_rm64_r64 /\
  op0_register h0 = op1_register h1 /\ op0_register h1 = op1_register h0.
Proof.
  unfold is_mov_mov, is_reg_mov. rewrite !andb_true_iff, !bool_decide_eq_true. tauto.
Qed.

Lemma body_mov i : body_instr i = true -> is_reg_mov i = true ->
  op1_register i = RAX /\ op0_register i <> RBP /\ op0_register i <> RSP.
Proof.
  unfold body_instr. intros Hb Hm. rewrite Hm in Hb. unfold is_reg_mov in Hm.
  rewrite !andb_true_iff, !bool_decide_eq_true in Hm. destruct Hm as [[Hc _] _]. rewrite Hc in Hb.
  rewrite !andb_true_iff, !bool_decide_eq_true in Hb. tauto.
Qed.

Lemma window2_body h0 h1 c p :
  window2 h0 h1 = Some (c, p) -> body_instr h0 = true -> body_instr h1 = true ->
  body_code p /\ is_swap (c, p) = false /\ firm h0 = false /\ firm h1 = false.
Proof.
  intros [-> Hw]%window2_cases H0 H1. destruct Hw as [[Hw ->]|(_ & Hw & ->)].
  - unfold is_push_pop in Hw. rewrite andb_true_iff, !bool_decide_eq_true in Hw.
    destruct Hw as [Hc0 Hc1]. unfold body_instr in H0, H1. rewrite Hc0 in H0. rewrite Hc1 in H1.
    rewrite andb_true_iff, !bool_decide_eq_true in H1. rewrite bool_decide_eq_true in H0.
    split_and!; [|done|unfold firm; by rewrite Hc0|unfold firm; by rewrite Hc1].
    constructor; [|constructor]. unfold body_instr. simpl. unfold is_reg_mov. simpl.
    rewrite !bool_decide_eq_true_2; [done|..]; tauto.
  - apply is_mov_mov_regs in Hw as (Hm0 & Hm1 & Hc0 & Hc1 & H01 & H10).
    destruct (body_mov h0 H0 Hm0) as (Hr0 & _). destruct (body_mov h1 H1 Hm1) as (Hr1 & _).
    split_and!; [constructor| |unfold firm; by rewrite Hc0, Hm0|unfold firm; by rewrite Hc1, Hm1].
    simpl. by rewrite bool_decide_eq_true_2 by congruence.
Qed.

Lemma window1_firm h : firm h = true -> window1 h = ([h], [h]).
Proof.
  unfold firm, window1, is_mov_self, is_reg_mov. intros Hf. destruct (code h); try done.
  simpl in *. apply negb_true_iff in Hf. by rewrite Hf.
Qed.

(** A pass keeps body code body code, keeps its firm instructions and never uses
    the unsound window on it. *)
Lemma reduce_body l :
  body_code l -> body_code (reduce l) /\ swap_free l = true /\
    (existsb firm l = true -> existsb firm (reduce l) = true).
Proof.
  unfold reduce, swap_free. apply (windows_ind (fun l ws => body_code l ->
    body_code (produced ws) /\ forallb (fun w => negb (is_swap w)) ws = true /\
    (existsb firm l = true -> existsb firm (produced ws) = true))); [done| |].
  - intros h0 h1 t [c p] Hw IH [H0 [H1 Ht]%Forall_cons]%Forall_cons.
    destruct (IH Ht) as (IHb & IHs & IHf).
    destruct (window2_body h0 h1 c p Hw H0 H1) as (Hp & Hs & Hf0 & Hf1).
    unfold produced. cbn [map concat snd forallb existsb]. rewrite Hs, Hf0, Hf1. split_and!.
    + by apply Forall_app.
    + done.
    + intros Hf. rewrite existsb_app. apply orb_true_iff. right. by apply IHf.
  - intros h0 t _ IH [H0 Ht]%Forall_cons. destruct (IH Ht) as (IHb & IHs & IHf).
    unfold produced. cbn [map concat forallb existsb]. split_and!.
    + apply Forall_app. split; [|done]. unfold window1. case_match; simpl; by repeat constructor.
    + unfold window1. by case_match.
    + intros [Hf|Hf]%orb_true_iff; rewrite existsb_app; apply orb_true_iff; [left|right; by apply IHf].
      rewrite window1_firm by done. simpl. by rewrite Hf.
Qed.

(** ** Set-up and tear-down *)
Definition framed (mid : list Instruction) : list Instruction :=
  [i_push RBP; i_mov RBP RSP] ++ mid ++ [i_mov RSP RBP; i_pop RBP].

Lemma windows_framed mid :
  body_code mid -> mid <> [] ->
  windows (framed mid) =
    [([i_push RBP], [i_push RBP]); ([i_mov RBP RSP], [i_mov RBP RSP])] ++ windows mid
    ++ [([i_mov RSP RBP], [i_mov RSP RBP]); ([i_pop RBP], [i_pop RBP])].
Proof.
  intros Hb Hne. unfold framed. rewrite windows_app_gen; [|].
  - rewrite windows_app_gen; [done|]. intros h [l' Hl]%last_Some. rewrite Hl in Hb.
    apply Forall_app in Hb as [_ [Hh _]%Forall_cons]. unfold no_window2, window2.
    assert (is_push_pop h (i_mov RSP RBP) = false) as ->
      by (unfold is_push_pop; by rewrite andb_false_r).
    destruct (is_mov_mov h (i_mov RSP RBP)) eqn:Hm; [exfalso|done].
    apply is_mov_mov_regs in Hm as (Hm & _ & _ & _ & H01 & _).
    destruct (body_mov h Hh Hm) as (_ & ? & _). done.
  - intros h [= <-]. destruct mid as [|i mid]; [done|]. apply Forall_cons in Hb as [Hi _].
    simpl. unfold window2. change (is_push_pop (i_mov RBP RSP) i) with false. cbv iota.
    destruct (is_mov_mov _ i) eqn:Hm; [exfalso|done].
    apply is_mov_mov_regs in Hm as (_ & Hm & _ & _ & H01 & H10).
    destruct (body_mov i Hi Hm) as (Hr & _). rewrite Hr in H01. done.
Qed.

Lemma existsb_not_nil {X} (g : X -> bool) l : existsb g l = true -> l <> [].
Proof. by destruct l. Qed.

Lemma swap_free_framed mid :
  body_code mid -> existsb firm mid = true -> swap_free_all (framed mid) = true.
Proof.
  unfold swap_free_all. generalize (length (framed mid)). intros n. revert mid.
  induction n as [|n IH]; intros mid Hb Hf; simpl; [done|].
  pose proof (existsb_not_nil _ _ Hf) as Hne. destruct (reduce_body mid Hb) as (Hb' & Hs & Hf').
  assert (Hr : reduce (framed mid) = framed (reduce mid)).
  { unfold reduce. rewrite windows_framed by done. rewrite !produced_app. done. }
  rewrite Hr, IH by auto. rewrite andb_true_r. unfold swap_free.
  rewrite windows_framed by done. rewrite !forallb_app. unfold swap_free in Hs. by rewrite Hs.
Qed.

(** ** Compiled functions are framed body code *)
Definition middle (n m : nat) (body : list Instruction) : list Instruction :=
  (alloc_code (8 * Z.of_nat n) ++ store_code (param_offsets n) (reverse (take n integer_registers)))
  ++ body ++ (map i_pop (take m return_registers) ++ free_code (8 * Z.of_nat n)).

Lemma framed_middle n m body :
  framed (middle n m body) = prologue_code n ++ body ++ epilogue_code n m.
Proof. unfold prologue_code, epilogue_code, framed, middle. by rewrite <- !app_assoc. Qed.

Lemma function_code_framed n m body : function_code n m body = framed (middle n m body) ++ [i_ret].
Proof. unfold function_code. rewrite framed_middle. by rewrite <- !app_assoc. Qed.

Lemma not_ret_framed n m body : i_ret ∉ body -> i_ret ∉ framed (middle n m body).
Proof.
  intros Hb. rewrite framed_middle, !not_elem_of_app.
  auto using not_ret_prologue, not_ret_epilogue.
Qed.

Lemma body_code_of locals op c :
  simple op = true -> code_of locals op = Some c ->
  body_code c /\ (op = Operator.End \/ existsb firm c = true).
Proof.
  intros Hs Hc. destruct op; try done; simpl in Hc;
    try (destruct (locals !! _); simpl in Hc; [|done]); injection Hc as <-;
    (split; [repeat constructor|auto]).
Qed.

Lemma body_codes_of locals ops cs :
  Forall (fun op => simple op = true) ops -> mapM (code_of locals) ops = Some cs ->
  body_code (concat cs) /\
  (existsb firm (concat cs) = true \/ concat cs = [] /\ Forall (fun op => op = Operator.End) ops).
Proof.
  intros Hops. revert cs. induction Hops as [|op ops Hop _ IH]; intros cs; cbn [mapM].
  - intros [= <-]. split; [constructor|]. right. by split.
  - destruct (code_of locals op) as [c|] eqn:Hc; [|done]. cbn [mbind option_bind].
    destruct (mapM _ ops) as [cs'|]; [|done]. intros [= <-]. cbn [concat].
    destruct (IH cs' eq_refl) as [Hb Hf]. destruct (body_code_of locals op c Hop Hc) as [Hb0 Hf0].
    split; [by apply Forall_app|]. rewrite existsb_app. destruct Hf0 as [->|Hf0].
    + injection Hc as <-. destruct Hf as [Hf|[-> Hf]]; [left; done|right]. split; [done|].
      by constructor.
    + left. by rewrite Hf0.
Qed.

Lemma body_middle n m body : body_code body -> body_code (middle n m body).
Proof.
  intros Hb. unfold middle. rewrite !Forall_app. split_and!; try done.
  - unfold alloc_code. case_match; repeat constructor.
  - unfold store_code. apply Forall_lookup. intros i x (? & ? & -> & _)%lookup_zip_with_Some. done.
  - unfold return_registers. destruct m as [|[|[|m]]]; repeat constructor.
  - unfold free_code. case_match; repeat constructor.
Qed.

Lemma firm_middle n m body :
  existsb firm body = true \/ (0 < n)%nat -> existsb firm (middle n m body) = true.
Proof.
  intros Hf. unfold middle. rewrite !existsb_app. destruct Hf as [->|Hn].
  - by rewrite orb_true_r.
  - unfold alloc_code. rewrite (proj2 (Z.ltb_lt 0 _)) by lia. done.
Qed.

Lemma wasm_exec_ends ops w : Forall (fun op => op = Operator.End) ops -> wasm_exec ops w = Some w.
Proof. induction 1 as [|op ops -> _ IH]; simpl; [done|]. by destruct (wstack w). Qed.

Lemma returns_with_proper s s' t ra vs : s' ≡ t -> returns_with s s' ra vs -> returns_with s t ra vs.
Proof.
  intros (Hr & Hi & Hm) [? Hsp ? Hv Hmem]. split; rewrite <- ?Hr, <- ?Hi; try done.
  - eapply Forall2_impl; [exact Hv|]. intros r v <-. by rewrite Hr.
  - intros x Hx. rewrite <- Hm by lia. by apply Hmem.
Qed.

Lemma length_framed mid : length (framed mid) = (length mid + 4)%nat.
Proof. unfold framed. rewrite !length_app. simpl. lia. Qed.

Section Optimized.
Context `{EnvLaws}.
Context {A E B : Type} `{!Assembler A E, !AssemblerLaws A E, !Profile}.

(** Optimized framed code runs as the original. *)
Lemma run_optimized mid labels fuel s s' :
  labels_ok labels -> (length mid + 5 < fuel)%nat -> body_code mid -> i_ret ∉ framed mid ->
  existsb firm mid = true \/ mid = [] -> wf s -> run (framed mid ++ [i_ret]) s = Some s' ->
  ∃ l' labels' t, @optimize A E B _ _ fuel (framed mid ++ [i_ret]) labels = Some (Ok (l', labels')) /\
    run l' s = Some t /\ s' ≡ t.
Proof.
  intros Hl Hfuel Hb Hret Hfirm Hs Hrun.
  pose proof (length_framed mid) as Hlen.
  destruct Hfirm as [Hf| ->].
  - eapply optimize_run; try done; [lia|]. by apply swap_free_framed.
  - rewrite run_ret in Hrun by done. destruct (exec (framed []) s) as [s1|] eqn:E1; [|done].
    cbn [mbind option_bind] in Hrun. apply frame_identity in E1; [|done].
    pose proof (ret_step_proper s1 s E1) as Hp. rewrite Hrun in Hp.
    inversion Hp as [? t Ht E2|]; subst. eexists _, _, t. split.
    + apply optimize_spec; [done|]. simpl in *. lia.
    + split; [|done]. change (normalize (framed [] ++ [i_ret])) with ([] ++ [i_ret]).
      by rewrite run_ret by not_in.
Qed.

End Optimized.

Section Normalized.
Context `{EnvLaws}.

(** The same for [normalize], which is what the optimizer computes. *)
Lemma run_normalize mid s s' :
  body_code mid -> i_ret ∉ framed mid -> existsb firm mid = true \/ mid = [] -> wf s ->
  run (framed mid ++ [i_ret]) s = Some s' ->
  ∃ t, run (normalize (framed mid ++ [i_ret])) s = Some t /\ s' ≡ t.
Proof.
  intros Hb Hret Hf Hs Hrun.
  destruct (run_optimized (A := BufferAssembler.buffer) (B := unit) (H1 := debug) mid [] (length mid + 6) s s')
    as (l' & labels' & t & Hopt & Hrt & Heq); [constructor|lia|done..|].
  rewrite optimize_spec in Hopt by (constructor || (rewrite length_app, length_framed; simpl; lia)).
  injection Hopt as <- _. by exists t.
Qed.

(** The optimized code of a compiled function. *)
Lemma run_normalized n ops cs s ra vs locs :
  (n <= 6)%nat -> (length vs <= 2)%nat -> Forall (fun op => simple op = true) ops ->
  mapM (code_of (param_offsets n)) ops = Some cs ->
  wf s -> load64 (mem s) (regs s RSP) = Some ra -> regs s RSP + 8 < 2 ^ 64 ->
  wasm_exec ops (mkW [] (entry_params n s)) = Some (mkW vs locs) ->
  8 + 8 * Z.of_nat n + 8 * Z.of_nat (wasm_height ops (mkW [] (entry_params n s))) <= regs s RSP ->
  ∃ s', run (normalize (function_code n (length vs) (concat cs))) s = Some s' /\ returns_with s s' ra vs.
Proof.
  intros Hn Hvs Hops Hcs Hs Hra Htop Hw Hroom.
  destruct (run_function n ops cs s ra vs locs) as (s' & Hrun & Hret); [done..|].
  rewrite function_code_framed in *. destruct (body_codes_of _ _ _ Hops Hcs) as [Hb Hf].
  destruct (run_normalize (middle n (length vs) (concat cs)) s s') as (t & Ht & Heq);
    [by apply body_middle| | |done|done|].
  - apply not_ret_framed. by eapply not_ret_codes_of.
  - destruct Hf as [Hf|[Hnil Hends]]; [left; by apply firm_middle; left|].
    destruct n as [|n]; [right|left; apply firm_middle; right; lia].
    rewrite wasm_exec_ends in Hw by done. injection Hw as <- _. unfold middle. by rewrite Hnil.
  - exists t. split; [done|]. by eapply returns_with_proper.
Qed.
End Normalized.

Section Pipeline.
Context `{EnvLaws}.
Context {A E B V : Type} `{!Assembler A E, !AssemblerLaws A E, !FuncValidator V B, !Profile}.
Context (got ils : gmap Z CodeLabel) (tds : gmap Z FuncType) (fts : gmap Z Z).

(** The whole pipeline on one function.  Under the hypotheses under which a
    compiled function is correct, the optimizer returns, for any labels, code
    that behaves as the compiled function should: it returns to its caller with
    the results in [rax] and [rdx], [rsp] and [rbp] restored and the caller's
    memory untouched. *)
Theorem compiled_function_optimized n rts ops pos fv h' fv' (a : A) s ra vs locs labels fuel :
  (n <= 6)%nat -> Forall (fun t => is_int t = true) rts -> length vs = length rts ->
  (length vs <= 2)%nat -> Forall (fun op => simple op = true) (map fst ops) ->
  fv_ops fv (fv_operand_stack_height fv) ops = inr (h', fv') -> fv_finish fv' pos = inr tt ->
  wf s -> load64 (mem s) (regs s RSP) = Some ra -> regs s RSP + 8 < 2 ^ 64 ->
  wasm_exec (map fst ops) (mkW [] (entry_params n s)) = Some (mkW vs locs) ->
  8 + 8 * Z.of_nat n + 8 * Z.of_nat (wasm_height (map fst ops) (mkW [] (entry_params n s)))
    <= regs s RSP ->
  labels_ok labels ->
  ∃ a' c, @compile_body A E B V _ _ _ got ils tds fts (mkFuncType (replicate n I64) rts)
      (mkBody (inr (map inr ops)) (inr []) pos) fv a = Ok (h', a') /\
    asm_instructions a' = asm_instructions a ++ c /\
    ((length c < fuel)%nat -> ∃ l' labels' s',
       @optimize A E B _ _ fuel c labels = Some (Ok (l', labels')) /\
       run l' s = Some s' /\ returns_with s s' ra vs).
Proof.
  intros Hn Hrts Hlen Hvs Hops Hv Hfin Hs Hra Htop Hw Hroom Hlab.
  assert (∃ cs, mapM (code_of (param_offsets n)) (map fst ops) = Some cs) as [cs Hcs].
  { apply (codes_of_defined (entry_frame n s) _ _ _ Hops Hw). simpl. unfold entry_params.
    rewrite length_map, length_reverse, length_take, length_param_offsets. simpl. lia. }
  destruct (compile_body_spec got ils tds fts n rts ops pos fv h' fv' cs a) as (a' & Ha & Hx); [done..|].
  destruct (run_normalized n (map fst ops) cs s ra vs locs) as (s' & Hrun & Hret); [done..|].
  exists a', (function_code n (length rts) (concat cs)). split; [exact Ha|]. split; [apply Hx|].
  intros Hfuel. eexists _, _, s'. rewrite <- Hlen. split; [|done]. rewrite Hlen.
  by apply optimize_spec.
Qed.
End Pipeline.

(** ** A concrete instance *)
#[local] Existing Instance no_env.

Lemma compiled_function_optimized_witness :
  ∃ a' c,
    @compile_body _ _ unit Z BufferAssembler.buffer_assembler _ debug ∅ ∅ ∅ ∅
      (mkFuncType (replicate 2 I64) [I64]) (mkBody (inr (map inr sample_ops)) (inr []) 6) 0
      (BufferAssembler.mkBuffer [] [] false 1) = Ok (2, a') /\
    asm_instructions a' = [] ++ c /\
    ((length c < 30)%nat -> ∃ l' labels' s',
       @optimize _ _ unit BufferAssembler.buffer_assembler debug 30 c [(0, mkLabel 3)]
         = Some (Ok (l', labels')) /\
       run l' sample_state = Some s' /\ returns_with sample_state s' 0 [62]).
Proof.
  refine (compiled_function_optimized ∅ ∅ ∅ ∅ 2 [I64] sample_ops 6 0 2 1
    (BufferAssembler.mkBuffer [] [] false 1) sample_state 0 [62] [10; 52] [(0, mkLabel 3)] 30 _ _ _ _ _ _ _ _ _ _ _ _ _).
  - lia.
  - repeat constructor.
  - reflexivity.
  - simpl. lia.
  - repeat constructor.
  - reflexivity.
  - reflexivity.
  - apply sample_state_wf.
  - reflexivity.
  - simpl. lia.
  - reflexivity.
  - vm_compute. discriminate.
  - repeat constructor; simpl; lia.
Defined.
