(* ===== verification/CallsSem.v ===== *)
(** * Compiled programs simulate WebAssembly programs

    Functions that call each other, on the machine of [Calls]: the code of every
    operator, calls included, simulates the [Compiled] dialect of [Programs], and
    a function at an address behaves as [wcall] says, before and after
    optimization. *)
From S2P Require Import Prelude X86 Assembler Calls Optimizer OptimizerSem Wasm Programs Instructions Codegen.
From S2P Require Import Function FunctionSem FunctionOpt.

(** ** The code of every operator *)
Definition supported (op : Operator.t) : bool :=
  match op with Operator.I64Sub | Operator.Call _ => true | _ => simple op end.

(** The tables of a compilation, as the code of a body depends on them. *)
Record tables := mkTables {
  t_got : gmap Z CodeLabel; t_ils : gmap Z CodeLabel;
  t_typedefs : gmap Z FuncType; t_types : gmap Z Z }.

Definition op_code (T : tables) : list Z -> Operator.t -> option (list Instruction) :=
  operator_code (t_got T) (t_ils T) (t_typedefs T) (t_types T).

(** The address a call of function [i] reaches from the code of [M]. *)
Definition call_address (M : loaded) (T : tables) (i : Z) : option Z :=
  match t_got T !! i, t_ils T !! i with
  | Some l, _ => label_addr M l
  | None, Some l => slot_value M l
  | None, None => None
  end.

(** The tables of a module describe the functions that [F] calls; they have at
    most one result. *)
Record linked (st : store) (M : loaded) (T : tables) (F : finst) : Prop := {
  linked_call i : Operator.Call i ∈ f_body F ->
    ∃ a G ft, f_callee F i = Some a /\ st a = Some G /\ 0 <= a < 2 ^ 64 /\ call_address M T i = Some a /\
      lookup_function_type (t_types T) (t_typedefs T) i = Some ft /\
      length (params ft) = f_params G /\ length (returns ft) = f_results G /\ (f_results G <= 1)%nat }.

(** A module's function: its body is supported and linked, its code is [cs]. *)
Record compiled_function (st : store) (M : loaded) (T : tables) (F : finst) (cs : list (list Instruction)) : Prop := {
  cf_params : (f_params F <= 6)%nat;
  cf_results : (f_results F <= 2)%nat;
  cf_supported : Forall (fun op => supported op = true) (f_body F);
  cf_linked : linked st M T F;
  cf_code : mapM (op_code T (param_offsets (f_params F))) (f_body F) = Some cs }.

(** Bytes of stack for one call: return address, saved [rbp], slots, operands. *)
Definition frame_bytes (F : finst) : Z := 16 + 8 * Z.of_nat (f_params F) + 8 * Z.of_nat (f_height F).

(** ** Calls *)
Section Sim.
Context (code_at : Z -> option (loaded * list Instruction)) (site : Instruction -> Z -> Z).
Abbreviation run_at d M := (@run (machine code_at site d M)).
Abbreviation exec_at d M := (@exec (machine code_at site d M)).
Abbreviation step_at d M := (@step (machine code_at site d M)).
Context (st : store) (K : Z).

(** The code at [a], entered with arguments in registers and [need] bytes of
    stack, returns the results. *)
Definition runs_as (d : nat) (need : Z) (M : loaded) (code : list Instruction) (args vs : list Z) : Prop :=
  ∀ s ra, wf s -> load64 (mem s) (regs s RSP) = Some ra -> regs s RSP + 8 < 2 ^ 64 ->
    Forall2 (fun r v => regs s r = v) (take (length args) integer_registers) args -> need <= regs s RSP ->
    ∃ s', run_at d M code s = Some s' /\ returns_with s s' ra vs.

(** What the code may rely on when its calls may nest [d] deep. *)
Definition calls_run (d : nat) : Prop :=
  ∀ d' a G args vs, d = S d' -> st a = Some G -> wcall Compiled st d a args = Ok vs ->
    (length args <= 6)%nat /\ (length vs <= 2)%nat /\
    ∃ M code, code_at a = Some (M, code) /\ runs_as d' (K * Z.of_nat d) M code args vs.

Lemma enter_runs d M code i a args vs s :
  code_at a = Some (M, code) -> runs_as d (K * Z.of_nat (S d)) M code args vs ->
  wf s -> Forall2 (fun r v => regs s r = v) (take (length args) integer_registers) args ->
  0 <= K -> K * Z.of_nat (S d) + 8 <= regs s RSP ->
  ∃ s', enter code_at site (fun M code s => run_at d M code s) i a s = Some s' /\ wf s' /\
    regs s' RSP = regs s RSP /\ regs s' RBP = regs s RBP /\
    Forall2 (fun r v => regs s' r = v) (take (length vs) return_registers) vs /\
    (∀ x, regs s RSP <= x -> mem s' x = mem s x).
Proof.
  intros Hcode Hrun Hs Hargs HK Hroom. pose proof (wf_regs s Hs RSP). unfold enter. rewrite Hcode.
  set (ra := return_address site i s). cbn [mbind option_bind].
  destruct (push_val ra s) as [s1|] eqn:E1; [|unfold push_val in E1; case_decide; [done|lia]].
  pose proof (push_val_wf _ _ _ Hs E1) as Hs1. cbn [mbind option_bind].
  unfold push_val in E1. case_decide; [|done]. injection E1 as E1.
  assert (Hsp1 : regs s1 RSP = regs s RSP - 8) by (rewrite <- E1; simpl; by regs_simpl).
  assert (Hr1 : ∀ r, r <> RSP -> regs s1 r = regs s r) by (intros; rewrite <- E1; simpl; by regs_simpl).
  assert (Hm1 : mem s1 = store64 (mem s) (regs s RSP - 8) ra) by by rewrite <- E1.
  destruct (Hrun s1 ra) as (s2 & E2 & [Hrip Hsp Hbp Hvals Hmem]); [done| | | | |].
  - rewrite Hsp1, Hm1, load_store_same. f_equal. unfold ra, return_address. apply wrap64_idemp.
  - lia.
  - eapply Forall2_impl_elem; [exact Hargs|]. intros r v Hin <-. apply Hr1. intros ->.
    destruct (argument_registers_ok (length args)) as (_ & Hn & _). done.
  - lia.
  - pose proof (@run_wf _ (machine_laws code_at site d M) _ _ _ Hs1 E2) as [Hw2 Hm2].
    rewrite E2. cbn [mbind option_bind]. rewrite decide_True by done. eexists. split; [done|]. simpl.
    split_and!; [by split|rewrite Hsp; lia|by rewrite Hbp, Hr1|done|].
    intros x Hx. rewrite Hmem by lia. rewrite Hm1. apply store64_other. lia.
Qed.

(** Reaching the code: a branch to a label, or a load from an import slot and an
    indirect call. *)
Lemma call_target_runs d M T i a N code args vs s :
  call_address M T i = Some a -> 0 <= a < 2 ^ 64 ->
  code_at a = Some (N, code) -> runs_as d (K * Z.of_nat (S d)) N code args vs ->
  wf s -> Forall2 (fun r v => regs s r = v) (take (length args) integer_registers) args ->
  0 <= K -> K * Z.of_nat (S d) + 8 <= regs s RSP ->
  ∃ s', exec_at (S d) M (call_target (t_got T) (t_ils T) i) s = Some s' /\ wf s' /\
    regs s' RSP = regs s RSP /\ regs s' RBP = regs s RBP /\
    Forall2 (fun r v => regs s' r = v) (take (length vs) return_registers) vs /\
    (∀ x, regs s RSP <= x -> mem s' x = mem s x).
Proof.
  intros Ha Hrange Hcode Hrun Hs Hargs HK Hroom. unfold call_address in Ha. unfold call_target.
  destruct (t_got T !! i) as [l|].
  - destruct (enter_runs d N code (i_call l) a args vs s) as (s' & E & Hrest); [done..|]. exists s'.
    split; [|done]. rewrite exec_cons, (machine_call code_at site d M l a s Ha), E. done.
  - destruct (t_ils T !! i) as [l|]; [|done].
    assert (Hs1 : wf (set_reg R10 (wrap64 a) s)) by (apply set_reg_wf; [done|apply wrap64_range]).
    destruct (enter_runs d N code (i_call_reg R10) a args vs (set_reg R10 (wrap64 a) s)) as (s' & E & Hrest);
      [done|done|done| |done|done|].
    { eapply Forall2_impl_elem; [exact Hargs|]. intros r v Hin <-. simpl. apply set_regs_ne. intros ->.
      apply elem_of_take in Hin as (k & Hk & _). by do 6 (destruct k as [|k]; [done|]). }
    exists s'. split; [|done]. rewrite exec_cons, (machine_load_label code_at site (S d) M R10 l a s Ha).
    cbn [mbind option_bind]. rewrite exec_cons, machine_call_reg.
    assert (regs (set_reg R10 (wrap64 a) s) R10 = a) as -> by (simpl; regs_simpl; by apply wrap64_small).
    by rewrite E.
Qed.

(** Pushing the results: the first one ends up deepest. *)
Lemma sim_pushes d M (f : frame) rs vs w s :
  slots_ok f -> represents f w s -> Forall2 (fun r v => regs s r = v) rs vs -> RSP ∉ rs ->
  8 * Z.of_nat (length (wstack w) + length vs) <= fr_base f ->
  ∃ s', exec_at d M (map i_push rs) s = Some s' /\ represents f (mkW (reverse vs ++ wstack w) (wlocals w)) s'.
Proof.
  intros Hf Hr Hv. revert w s Hr Hv. revert vs. induction rs as [|r rs IH]; intros vs w s Hr Hv Hsp Hroom.
  - apply Forall2_nil_inv_l in Hv as ->. exists s. split; [done|]. by destruct w.
  - destruct vs as [|v vs]; [by inversion Hv|]. apply Forall2_cons in Hv as [Hv Hvs].
    apply not_elem_of_cons in Hsp as [Hne Hsp]. simpl in Hroom.
    destruct (sim_push (H := machine code_at site d M) f Hf w s v r Hr Hv) as (s1 & E1 & R1 & K1); [lia|].
    destruct (IH vs (mkW (v :: wstack w) (wlocals w)) s1 R1) as (s' & E' & R'); [|done|simpl; lia|].
    + eapply Forall2_impl_elem; [exact Hvs|]. intros r' v' Hin <-. apply K1. by intros ->.
    + exists s'. rewrite reverse_cons, <- app_assoc. split; [|done]. cbn [map]. by exec_by E1.
Qed.

(** A whole call. *)
Lemma sim_call d M T (f : frame) i G a ft args st' vs w s :
  slots_ok f -> represents f w s -> wstack w = reverse args ++ st' -> length args = length (params ft) ->
  st a = Some G -> calls_run d -> wcall Compiled st d a args = Ok vs -> length (returns ft) = length vs ->
  call_address M T i = Some a -> 0 <= a < 2 ^ 64 ->
  8 * Z.of_nat (length st' + length vs) <= fr_base f ->
  0 <= K -> K * Z.of_nat d + 8 + 8 * Z.of_nat (length st') <= fr_base f ->
  ∃ s', exec_at d M (call_code (t_got T) (t_ils T) i ft) s = Some s' /\
    represents f (mkW (reverse vs ++ st') (wlocals w)) s'.
Proof.
  intros Hf Hr Hw Hlen HG Hcalls Hcall Hret Ha Hrange Hroom HK Hdeep.
  destruct d as [|d]; [done|].
  destruct (Hcalls d a G args vs eq_refl HG Hcall) as (Hargs6 & Hvs2 & N & code & Hcode & Hrun).
  unfold call_code. destruct (argument_registers_ok (length (params ft))) as (Hnd & Hnsp & Hnbp).
  destruct (@sim_pops (machine code_at site (S d) M) (machine_laws _ _ _ _) f Hf
    (take (length (params ft)) integer_registers) args w s st')
    as (s1 & E1 & R1 & V1 & _); [done|done|rewrite length_take; simpl; lia|done..|].
  pose proof (rep_rsp _ _ _ R1) as Hsp1. simpl in Hsp1.
  destruct (call_target_runs d M T i a N code args vs s1) as (s2 & E2 & Hwf2 & Hsp2 & Hbp2 & V2 & Hm2);
    [done..|apply R1|by rewrite Hlen|done|lia|].
  assert (R2 : represents f (mkW st' (wlocals w)) s2).
  { eapply represents_below; [exact Hf|exact R1|done|done|done| | |].
    - by rewrite Hsp2.
    - rewrite Hsp2. eapply stack_at_ext; [|apply (rep_stack _ _ _ R1)].
      intros x Hx. symmetry. apply Hm2. lia.
    - intros x Hx. apply Hm2. lia. }
  destruct (sim_pushes (S d) M f (take (length vs) return_registers) vs _ s2 Hf R2) as (s3 & E3 & R3); [done| |done|].
  { intros Hin. apply elem_of_take in Hin as (k & Hk & _). by do 2 (destruct k as [|k]; [done|]). }
  exists s3. split; [|done]. rewrite exec_app, E1. cbn [mbind option_bind].
  rewrite exec_app, E2. cbn [mbind option_bind]. by rewrite Hret.
Qed.

(** ** Operators and bodies *)
Lemma sim_wstep d M T F (f : frame) op w s w' c :
  slots_ok f -> linked st M T F -> calls_run d -> 0 <= K -> supported op = true -> op ∈ f_body F ->
  wstep Compiled st (wcall Compiled st d) F op w = Ok w' -> op_code T (fr_offsets f) op = Some c ->
  represents f w s ->
  8 * Z.of_nat (Nat.max (length (wstack w)) (length (wstack w'))) + 8 + K * Z.of_nat d <= fr_base f ->
  ∃ s', exec_at d M c s = Some s' /\ represents f w' s'.
Proof.
  intros Hf Hlink Hcalls HK Hop Hin Hw Hc Hr Hroom.
  assert (HKd : 0 <= K * Z.of_nat d) by (apply Z.mul_nonneg_nonneg; lia).
  destruct (simple op) eqn:Hs.
  - assert (wasm_step op w = Some w' /\ code_of (fr_offsets f) op = Some c) as [Hw1 Hc1].
    { unfold wstep in Hw. destruct op; try done; (destruct (wasm_step _ w) eqn:E; [|done]);
        apply Ok_inj in Hw as <-; by split. }
    by apply (sim_op (H := machine code_at site d M) f Hf op w s w' c); [..|lia|].
  - destruct op; try done; clear Hs Hop.
    + simpl in Hw. injection Hc as <-. destruct (wstack w) as [|v2 [|v1 vs]] eqn:Hst; [done..|].
      apply Ok_inj in Hw as <-. simpl in Hroom.
      eapply (sim_binop (H := machine code_at site d M) f Hf w s v2 v1 vs Z.sub); [done|done|lia|done|].
      rewrite Hst. simpl. lia.
    + unfold wstep in Hw. destruct (f_callee F function_index) as [a|] eqn:Ha; [|done]. cbn [mbind option_bind] in Hw.
      destruct (st a) as [G|] eqn:HG; [|done]. simpl in Hw. case_decide as Hn; [|done].
      res_step Hw as vs Hcall. apply Ok_inj in Hw as <-. simpl in Hroom.
      destruct (linked_call _ _ _ _ Hlink _ Hin) as (a' & G' & ft & Ha' & HG' & Hrange & Haddr & Hft & Hpar & Hres & _).
      rewrite Ha in Ha'. injection Ha' as <-. rewrite HG in HG'. injection HG' as <-.
      simpl in Hc. rewrite Hft in Hc. injection Hc as <-.
      assert (length vs = f_results G) as Hvs.
      { destruct d; [done|]. simpl in Hcall. rewrite HG in Hcall. case_decide; [|done]. res_step Hcall as w1 E.
        case_decide; [|done]. by apply Ok_inj in Hcall as <-. }
      rewrite length_app, length_reverse in Hroom.
      eapply (sim_call d M T f _ G a ft (reverse (take (f_params G) (wstack w))) (drop (f_params G) (wstack w)));
        try done.
      * by rewrite reverse_involutive, take_drop.
      * rewrite length_reverse, length_take. lia.
      * congruence.
      * lia.
      * lia.
Qed.

Lemma sim_wrun d M T F (f : frame) ops w s w' cs :
  slots_ok f -> linked st M T F -> calls_run d -> 0 <= K ->
  Forall (fun op => supported op = true) ops -> ops ⊆ f_body F ->
  wrun Compiled st (wcall Compiled st d) F ops w = Ok w' -> mapM (op_code T (fr_offsets f)) ops = Some cs ->
  represents f w s -> (length (wstack w) <= f_height F)%nat ->
  8 * Z.of_nat (f_height F) + 8 + K * Z.of_nat d <= fr_base f ->
  ∃ s', exec_at d M (concat cs) s = Some s' /\ represents f w' s'.
Proof.
  intros Hf Hlink Hcalls HK Hops. revert w s cs. induction Hops as [|op ops Hop _ IH];
    intros w s cs Hsub Hw Hcs Hr Hh Hroom.
  - apply Ok_inj in Hw as <-. injection Hcs as <-. by exists s.
  - cbn [wrun] in Hw. res_step Hw as w1 Hw1. case_decide as Hh1; [|done]. cbn [mapM] in Hcs.
    destruct (op_code T _ op) as [c|] eqn:Hc; [|done]. cbn [mbind option_bind] in Hcs.
    destruct (mapM _ ops) as [cs'|] eqn:Hcs'; [|done]. injection Hcs as <-.
    destruct (sim_wstep d M T F f op w s w1 c) as (s1 & E1 & R1); [done..| |done|done|done|lia|].
    { apply Hsub, list_elem_of_here. }
    destruct (IH w1 s1 cs') as (s2 & E2 & R2); [|done..|].
    { intros x Hx. apply Hsub. by apply list_elem_of_further. }
    exists s2. split; [|done]. cbn [concat]. by rewrite exec_app, E1.
Qed.

Lemma not_ret_op_code T locals op c : op_code T locals op = Some c -> i_ret ∉ c.
Proof.
  destruct op; try apply not_ret_code_of. simpl.
  destruct (lookup_function_type _ _ _) as [ft|]; [|done]. intros [= <-].
  unfold call_code, call_target. rewrite !not_elem_of_app.
  split_and!; [by apply not_ret_map|repeat case_match; not_in|by apply not_ret_map].
Qed.

Lemma not_ret_op_codes T locals ops cs : mapM (op_code T locals) ops = Some cs -> i_ret ∉ concat cs.
Proof.
  revert cs. induction ops as [|op ops IH]; intros cs; cbn [mapM].
  - intros [= <-]. not_in.
  - destruct (op_code T locals op) as [c|] eqn:Hc; [|done]. cbn [mbind option_bind].
    destruct (mapM _ ops) as [cs'|]; [|done]. intros [= <-]. cbn [concat].
    apply not_elem_of_app. split; [by eapply not_ret_op_code|by apply IH].
Qed.

(** ** Functions *)
Lemma entry_params_args args s :
  Forall2 (fun r v => regs s r = v) (take (length args) integer_registers) args ->
  entry_params (length args) s = reverse args.
Proof.
  intros Ha. unfold entry_params. change (map (regs s)) with (fmap (M := list) (regs s)).
  rewrite fmap_reverse. f_equal. revert Ha. generalize (take (length args) integer_registers).
  intros rs. induction 1; [done|]. simpl. by f_equal.
Qed.

(** One function with calls [d] deep below it. *)
Lemma function_runs d M T F cs args w :
  compiled_function st M T F cs -> calls_run d -> 0 <= K -> length args = f_params F ->
  wrun Compiled st (wcall Compiled st d) F (f_body F) (mkW [] (reverse args)) = Ok w ->
  length (wstack w) = f_results F ->
  runs_as d (frame_bytes F + K * Z.of_nat d) M (function_code (f_params F) (f_results F) (concat cs)) args (wstack w).
Proof.
  intros [Hn Hm Hsup Hlink Hcs] Hcalls HK Hlen Hw Hres s ra Hs Hra Htop Hargs Hroom.
  assert (HKd : 0 <= K * Z.of_nat d) by (apply Z.mul_nonneg_nonneg; lia). unfold frame_bytes in Hroom.
  destruct (prologue_sim (H := machine code_at site d M) (f_params F) s) as (s1 & E1 & _ & R1); [done|done|lia|done|].
  assert (Hok : slots_ok (entry_frame (f_params F) s)) by (apply entry_frame_ok; [done|lia]).
  rewrite <- Hlen in R1 at 2. rewrite entry_params_args in R1 by done.
  destruct (sim_wrun d M T F (entry_frame (f_params F) s) (f_body F) (mkW [] (reverse args)) s1 w cs Hok Hlink Hcalls HK Hsup)
    as (s2 & E2 & R2); [done|done|done|done|simpl; lia|simpl; lia|].
  destruct w as [vs locs]. simpl in Hres. simpl wstack.
  destruct (epilogue_sim (H := machine code_at site d M) (f_params F) s vs locs s2 ra) as (s3 & s4 & E3 & E4 & Hrest);
    [done|lia|lia|done..|].
  exists s4. split; [|destruct Hrest as (? & ? & ? & ? & Hmem); split; try done; intros; apply Hmem; lia].
  unfold function_code. rewrite run_app by apply not_ret_prologue. rewrite E1. cbn [mbind option_bind].
  rewrite run_app by by eapply not_ret_op_codes. rewrite E2. cbn [mbind option_bind].
  rewrite run_ret by apply not_ret_epilogue. rewrite <- Hres. by rewrite E3.
Qed.

(** ** Functions after optimization *)
Lemma body_op_code M T F locals op c :
  linked st M T F -> op ∈ f_body F -> supported op = true -> op_code T locals op = Some c ->
  body_code c /\ (op = Operator.End \/ existsb firm c = true).
Proof.
  intros Hlink Hin Hop Hc. destruct (simple op) eqn:Hs.
  - apply (body_code_of locals op c Hs). destruct op; done.
  - destruct op; try done; simpl in Hc.
    + injection Hc as <-. split; [repeat constructor|by right].
    + destruct (linked_call _ _ _ _ Hlink _ Hin) as (a & G & ft & _ & _ & _ & Haddr & Hft & _ & Hres & Hone).
      rewrite Hft in Hc. injection Hc as <-. unfold call_code.
      assert (Ht : body_code (call_target (t_got T) (t_ils T) function_index) /\
        existsb firm (call_target (t_got T) (t_ils T) function_index) = true).
      { unfold call_address in Haddr. unfold call_target.
        destruct (t_got T !! _); [by repeat constructor|]. destruct (t_ils T !! _); [|done]. by repeat constructor. }
      split.
      * rewrite !Forall_app. split_and!; [|apply Ht|].
        -- apply Forall_forall. intros i (r & -> & Hr)%list_elem_of_fmap. rewrite elem_of_reverse in Hr.
           destruct (argument_registers_ok (length (params ft))) as (_ & Hsp & Hbp).
           unfold body_instr. simpl. change (op0_register (i_pop r)) with r.
           rewrite !bool_decide_eq_true_2; [done|by intros ->|by intros ->].
        -- destruct (returns ft) as [|? [|]]; simpl in *; [constructor|by repeat constructor|lia].
      * right. rewrite !existsb_app. by rewrite (proj2 Ht), orb_true_r.
Qed.

Lemma body_op_codes M T F locals ops cs :
  linked st M T F -> ops ⊆ f_body F -> Forall (fun op => supported op = true) ops ->
  mapM (op_code T locals) ops = Some cs ->
  body_code (concat cs) /\
  (existsb firm (concat cs) = true \/ concat cs = [] /\ Forall (fun op => op = Operator.End) ops).
Proof.
  intros Hlink Hsub Hops. revert Hsub cs. induction Hops as [|op ops Hop _ IH]; intros Hsub cs; cbn [mapM].
  - intros [= <-]. split; [constructor|]. right. by split.
  - destruct (op_code T locals op) as [c|] eqn:Hc; [|done]. cbn [mbind option_bind].
    destruct (mapM _ ops) as [cs'|]; [|done]. intros [= <-]. cbn [concat].
    destruct (IH ltac:(intros x Hx; apply Hsub; by apply list_elem_of_further) cs' eq_refl) as [Hb Hf].
    destruct (body_op_code M T F locals op c) as [Hb0 Hf0]; [done|apply Hsub, list_elem_of_here|done..|].
    split; [by apply Forall_app|]. rewrite existsb_app. destruct Hf0 as [->|Hf0].
    + injection Hc as <-. destruct Hf as [Hf|[-> Hf]]; [by left|right]. split; [done|]. by constructor.
    + left. by rewrite Hf0.
Qed.

Lemma wrun_ends call F ops w w' :
  Forall (fun op => op = Operator.End) ops -> wrun Compiled st call F ops w = Ok w' -> w' = w.
Proof.
  intros Hops. revert w. induction Hops as [|op ops -> _ IH]; intros w; cbn [wrun]; [by intros <-%Ok_inj|].
  assert (wstep Compiled st call F Operator.End w = Ok w) as -> by (unfold wstep; simpl; by destruct (wstack w)).
  rewrite res_bind_ok. case_decide; [|done]. apply IH.
Qed.

Lemma function_runs_optimized d M T F cs args w :
  compiled_function st M T F cs -> calls_run d -> 0 <= K -> length args = f_params F ->
  wrun Compiled st (wcall Compiled st d) F (f_body F) (mkW [] (reverse args)) = Ok w ->
  length (wstack w) = f_results F ->
  runs_as d (frame_bytes F + K * Z.of_nat d) M
    (normalize (function_code (f_params F) (f_results F) (concat cs))) args (wstack w).
Proof.
  intros Hc Hcalls HK Hlen Hw Hres s ra Hs Hra Htop Hargs Hroom.
  destruct (function_runs d M T F cs args w Hc Hcalls HK Hlen Hw Hres s ra) as (s' & Hrun & Hret); [done..|].
  destruct Hc as [Hn Hm Hsup Hlink Hcs]. rewrite function_code_framed in *.
  destruct (body_op_codes M T F _ _ _ Hlink ltac:(done) Hsup Hcs) as [Hb Hf].
  destruct (run_normalize (H := machine code_at site d M) (middle (f_params F) (f_results F) (concat cs)) s s')
    as (t & Ht & Heq); [by apply body_middle| | |done|done|].
  - apply not_ret_framed. by eapply not_ret_op_codes.
  - destruct Hf as [Hf|[Hnil Hends]]; [left; by apply firm_middle; left|].
    destruct (f_params F) as [|n]; [right|left; apply firm_middle; right; lia].
    apply wrun_ends in Hw; [|done]. rewrite Hw in Hres. simpl in Hres. unfold middle. by rewrite Hnil, <- Hres.
  - exists t. split; [done|]. by eapply returns_with_proper.
Qed.

(** ** Programs *)

(** Optimized code of the function [F] lies at [a]: a label's empty instruction,
    the function, and whatever follows it. *)
Definition implemented (a : Z) (F : finst) : Prop :=
  ∃ M T cs post, compiled_function st M T F cs /\ frame_bytes F <= K /\
    code_at a = Some (M, i_zero_bytes :: normalize (function_code (f_params F) (f_results F) (concat cs)) ++ post).

Lemma runs_as_more d need need' M code post args vs :
  need <= need' -> runs_as d need M code args vs -> runs_as d need' M (i_zero_bytes :: code ++ post) args vs.
Proof.
  intros Hle Hr s ra Hs Hra Htop Hargs Hroom.
  destruct (Hr s ra) as (s' & Hrun & Hret); [done..|lia|]. exists s'. split; [|done].
  cbn [run]. rewrite decide_False by done.
  assert (step_at d M i_zero_bytes s = Some s) as -> by done. cbn [mbind option_bind].
  by apply run_more.
Qed.

Lemma program_runs d :
  0 <= K -> (∀ a F, st a = Some F -> implemented a F) -> calls_run d.
Proof.
  intros HK Himp. induction d as [|d IH]; intros d' a F args vs Hd HF Hw; [done|]. injection Hd as <-.
  simpl in Hw. rewrite HF in Hw. case_decide as Hlen; [|done]. res_step Hw as w E.
  case_decide as Hres; [|done]. apply Ok_inj in Hw as <-.
  destruct (Himp a F HF) as (M & T & cs & post & Hc & Hbytes & Hcode).
  split; [rewrite Hlen; apply Hc|]. split; [rewrite Hres; apply Hc|].
  eexists M, _. split; [exact Hcode|]. eapply runs_as_more; [|by eapply function_runs_optimized].
  rewrite Nat2Z.inj_succ. lia.
Qed.
End Sim.

(** A state in which a function is entered: return address on the stack, arguments
    in registers, and [K] bytes of stack for each of [d] nested calls. *)
Record entered (s : state) (ra K : Z) (d : nat) (args : list Z) : Prop := {
  en_wf : wf s;
  en_return : load64 (mem s) (regs s RSP) = Some ra;
  en_top : regs s RSP + 8 < 2 ^ 64;
  en_args : Forall2 (fun r v => regs s r = v) (take (length args) integer_registers) args;
  en_room : K * Z.of_nat d <= regs s RSP }.

(** The code at [a] runs from [s] to its return with the results [vs]. *)
Definition call_returns (code_at : Z -> option (loaded * list Instruction)) (site : Instruction -> Z -> Z) (d : nat) (a : Z)
    (s : state) (ra : Z) (vs : list Z) : Prop :=
  ∃ M code s', code_at a = Some (M, code) /\
    @run (machine code_at site d M) code s = Some s' /\ returns_with s s' ra vs.

(** Calls of functions whose optimized code lies at their addresses: if a call has
    the results [vs] in the compiled dialect, with calls nesting at most [d] deep
    inside it, then entering the code at [a] runs to its return with them. *)
Lemma programs_simulate code_at site st K d a args vs s ra :
  0 <= K -> (∀ a F, st a = Some F -> implemented code_at st K a F) ->
  wcall Compiled st (S d) a args = Ok vs -> entered s ra K (S d) args ->
  call_returns code_at site d a s ra vs.
Proof.
  intros HK Himp Hw [Hs Hra Htop Hargs Hroom].
  destruct (st a) as [F|] eqn:HF; [|simpl in Hw; by rewrite HF in Hw].
  destruct (program_runs code_at site st K (S d) HK Himp d a F args vs) as (_ & _ & M & code & Hcode & Hrun); [done..|].
  destruct (Hrun s ra) as (s' & Hr & Hret); [done..|]. by exists M, code, s'.
Qed.
