(* ===== verification/ModuleApi.v ===== *)
(** * Compiled modules ([parawasm/src/x86_64/mod.rs], [Module] and [AssembledModule])

    The tables a compilation leaves behind, their queries, and [link_import],
    which patches the address of an imported function into the assembled code.
    A [BTreeMap] is a [gmap]; the byteorder crate is the interface [ByteOrder]. *)
From S2P Require Import Prelude.

(** [byteorder::LittleEndian]. *)
Class ByteOrder := { write_u64 : list Z -> Z -> list Z; read_u64 : list Z -> Z }.
Class ByteOrderLaws `{ByteOrder} : Prop := {
  law_write_u64 buf n : length buf = 8%nat -> write_u64 buf n = le_bytes 8 n;
  law_read_u64 n : 0 <= n < 2 ^ 64 -> read_u64 (le_bytes 8 n) = n }.

#[global] Instance little_endian : ByteOrder :=
  {| write_u64 buf n := le_bytes 8 n ++ drop 8 buf; read_u64 buf := le_word (take 8 buf) |}.
#[global] Instance little_endian_laws : ByteOrderLaws.
Proof.
  split.
  - intros buf n Hl. unfold write_u64, little_endian. by rewrite drop_ge, app_nil_r by lia.
  - intros n Hn. change (le_word (le_bytes 8 n) = n). rewrite le_word_le_bytes. by apply Z.mod_small.
Qed.

(** ** Modules

    [MT] is wasmparser's [MemoryType].  An import is the module's name, the
    field's name and the offset of its slot in the code. *)
Record CompiledModule (MT : Type) := mkModule {
  functions : gmap Z Z;
  function_bodies : gmap Z Z;
  function_stack_heights : gmap Z Z;
  exports : gmap string Z;
  imports : gmap Z (string * option string * Z);
  memories : list MT }.
Arguments mkModule {MT}.
Arguments functions {MT}.
Arguments function_bodies {MT}.
Arguments function_stack_heights {MT}.
Arguments exports {MT}.
Arguments imports {MT}.
Arguments memories {MT}.

Record AssembledModule (MT : Type) := mkAssembled {
  module : CompiledModule MT;
  assembled : list Z }.
Arguments mkAssembled {MT}.
Arguments module {MT}.
Arguments assembled {MT}.

(** [trait FunctionIdentifier]. *)
Class FunctionIdentifier (I : Type) : Type :=
  find_function : ∀ {MT}, I -> CompiledModule MT -> option Z.

#[global] Instance find_function_u32 : FunctionIdentifier Z := fun MT self module =>
  (fun _ => self) <$> function_bodies module !! self.

#[global] Instance find_function_str : FunctionIdentifier string := fun MT self module =>
  index ← exports module !! self; find_function index module.

Section Module.
Context {MT : Type}.

(** [Module::new] *)
Definition module_new : CompiledModule MT := mkModule ∅ ∅ ∅ ∅ ∅ [].

Definition function_entry_point {I : Type} `{FunctionIdentifier I} (self : CompiledModule MT) (identifier : I)
    : option Z :=
  idx ← find_function identifier self; function_bodies self !! idx.

Definition function_stack_height {I : Type} `{FunctionIdentifier I} (self : CompiledModule MT) (identifier : I)
    : option Z :=
  idx ← find_function identifier self; function_stack_heights self !! idx.

Definition memory_types (self : CompiledModule MT) : list MT := memories self.

(** [AssembledModule::binary] *)
Definition binary (self : AssembledModule MT) : list Z := assembled self.

(** Do the import's field name and the one asked for agree? *)
Definition names_equal (name name_ : option string) : bool :=
  match name, name_ with
  | None, None => false
  | None, Some _ => false
  | Some _, None => false
  | Some name, Some name_ => bool_decide (name = name_)
  end.

(** The slot of the import asked for. *)
Definition relocation (self : CompiledModule MT) (module_name : string) (name : option string)
    : option Z :=
  find_map (fun '(_, (module_, name_, offset)) =>
      if bool_decide (module_ = module_name) && names_equal name name_ then Some offset else None)
    (btree_iter (imports self)).

Definition link_import `{Profile, ByteOrder} {E} (self : AssembledModule MT) (module_name : string)
    (name : option string) (addr : Z) : Res E (AssembledModule MT) :=
  match relocation (module self) module_name name with
  | Some offset =>
      end_ ← u64_arith (offset + 8);
      if decide (offset <= end_ /\ end_ <= Z.of_nat (length (assembled self))) then
        let mem := take (Z.to_nat (end_ - offset)) (drop (Z.to_nat offset) (assembled self)) in
        Ok (mkAssembled (module self)
          (take (Z.to_nat offset) (assembled self) ++ write_u64 mem addr
           ++ drop (Z.to_nat end_) (assembled self)))
      else Panic OutOfRange
  | None => Ok self
  end.
End Module.

(** ** Slots *)

(** The quadword at [offset] of a piece of code. *)
Definition quad_at (bs : list Z) (offset : Z) : list Z := take 8 (drop (Z.to_nat offset) bs).

(** What a compilation promises about its imports: every slot lies in the code
    and no two overlap. *)
Record slots_wf {MT} (self : AssembledModule MT) : Prop := {
  slots_in_code i m f off : imports (module self) !! i = Some (m, f, off) ->
    0 <= off /\ off + 8 <= Z.of_nat (length (assembled self));
  slots_apart i j m f off m' f' off' : i <> j ->
    imports (module self) !! i = Some (m, f, off) -> imports (module self) !! j = Some (m', f', off') ->
    off + 8 <= off' \/ off' + 8 <= off;
  code_fits : Z.of_nat (length (assembled self)) <= u64_max }.

(** The import [i] is the one [link_import] finds: it has the name asked for and
    no import of a smaller index has. *)
Definition first_import {MT} (self : CompiledModule MT) (m name : string) (i off : Z) : Prop :=
  imports self !! i = Some (m, Some name, off) /\
  ∀ j off', j < i -> imports self !! j <> Some (m, Some name, off').

Section Linking.
Context {MT : Type} `{Profile} `{ByteOrderLaws}.

(** The bytes at [offset] replaced by [v]. *)
Definition patch (bs : list Z) (offset : Z) (v : list Z) : list Z :=
  take (Z.to_nat offset) bs ++ v ++ drop (Z.to_nat offset + length v) bs.

Lemma length_patch bs off v :
  0 <= off -> off + Z.of_nat (length v) <= Z.of_nat (length bs) -> length (patch bs off v) = length bs.
Proof.
  intros. unfold patch. rewrite !length_app, length_take, length_drop. lia.
Qed.

Lemma quad_at_patch bs off v :
  0 <= off -> off <= Z.of_nat (length bs) -> length v = 8%nat -> quad_at (patch bs off v) off = v.
Proof.
  intros Ho Hl Hv. unfold quad_at, patch.
  rewrite drop_app_length' by (rewrite length_take; lia). by apply take_app_length'.
Qed.

Lemma lookup_patch_other bs off v k :
  0 <= off -> off + Z.of_nat (length v) <= Z.of_nat (length bs) ->
  Z.of_nat k < off \/ off + Z.of_nat (length v) <= Z.of_nat k ->
  patch bs off v !! k = bs !! k.
Proof.
  intros Ho Hl [Hk|Hk]; unfold patch.
  - rewrite lookup_app_l by (rewrite length_take; lia). apply lookup_take_lt. lia.
  - rewrite lookup_app_r by (rewrite length_take; lia).
    rewrite lookup_app_r by (rewrite length_take; lia). rewrite lookup_drop, length_take. f_equal. lia.
Qed.

Lemma quad_at_lookup bs off k : (k < 8)%nat -> quad_at bs off !! k = bs !! (Z.to_nat off + k)%nat.
Proof. intros. unfold quad_at. by rewrite lookup_take_lt, lookup_drop. Qed.

Lemma quad_at_patch_other bs off v off' :
  0 <= off -> 0 <= off' -> off + Z.of_nat (length v) <= Z.of_nat (length bs) ->
  off + Z.of_nat (length v) <= off' \/ off' + 8 <= off ->
  quad_at (patch bs off v) off' = quad_at bs off'.
Proof.
  intros Ho Ho' Hl Hd. apply list_eq. intros k. destruct (decide (k < 8)%nat).
  - rewrite !quad_at_lookup by done. apply lookup_patch_other; lia.
  - unfold quad_at. by rewrite !lookup_take_ge by lia.
Qed.

(** ** Which import is found *)
Lemma names_equal_Some name f : names_equal (Some name) f = true <-> f = Some name.
Proof. destruct f; simpl; [rewrite bool_decide_eq_true|]; split; congruence. Qed.

Lemma relocation_None (self : CompiledModule MT) m : relocation self m None = None.
Proof.
  apply find_map_None, Forall_forall. intros [i [[m' f] off]] _. by destruct f; rewrite andb_false_r.
Qed.

Lemma relocation_first (self : CompiledModule MT) m name off :
  relocation self m (Some name) = Some off -> ∃ i, first_import self m name i off.
Proof.
  intros (l1 & [i [[m' f] o]] & l2 & Hl & Hf & Hl1)%find_map_Some.
  destruct (_ && _) eqn:Hm; [|done]. injection Hf as ->.
  apply andb_true_iff in Hm as [->%bool_decide_eq_true ->%names_equal_Some].
  exists i. split.
  - apply elem_of_btree_iter. rewrite Hl. apply elem_of_app. right. apply list_elem_of_here.
  - intros j off' Hj Hin%elem_of_btree_iter. pose proof (btree_iter_sorted (imports self)) as Hs.
    rewrite Hl in Hs, Hin. apply elem_of_app in Hin as [Hin|[[= -> _]|Hin]%elem_of_cons]; [|lia|].
    + rewrite Forall_forall in Hl1. specialize (Hl1 _ Hin). simpl in Hl1.
      rewrite !bool_decide_eq_true_2 in Hl1 by done. done.
    + apply StronglySorted_app_1_r in Hs. apply StronglySorted_inv in Hs as [_ Hs].
      rewrite Forall_forall in Hs. specialize (Hs _ Hin). unfold key_le in Hs. simpl in Hs. lia.
Qed.

Lemma relocation_Some (self : CompiledModule MT) m name i off :
  first_import self m name i off -> relocation self m (Some name) = Some off.
Proof.
  intros [Hi Hmin]. destruct (relocation self m (Some name)) as [off'|] eqn:Hr.
  - apply relocation_first in Hr as (i' & Hi' & Hmin').
    destruct (Z.lt_trichotomy i i') as [Hlt|[->|Hlt]].
    + by destruct (Hmin' i off Hlt).
    + congruence.
    + by destruct (Hmin i' off' Hlt).
  - apply find_map_None in Hr. rewrite Forall_forall in Hr.
    apply elem_of_btree_iter in Hi. specialize (Hr _ Hi). simpl in Hr.
    by rewrite !bool_decide_eq_true_2 in Hr.
Qed.

(** [link_import] as a patch of the slot it finds. *)
Lemma link_import_slot {E} (self : AssembledModule MT) m f addr :
  slots_wf self ->
  @link_import MT _ _ E self m f addr =
    Ok (match relocation (module self) m f with
        | Some off => mkAssembled (module self) (patch (assembled self) off (le_bytes 8 addr))
        | None => self
        end).
Proof.
  intros Hwf. unfold link_import. destruct (relocation _ m f) as [off|] eqn:Hr; [|done].
  destruct f as [name|]; [|by rewrite relocation_None in Hr].
  apply relocation_first in Hr as (i & Hi & _).
  destruct (slots_in_code _ Hwf _ _ _ _ Hi) as [Ho Hl]. pose proof (code_fits _ Hwf).
  rewrite u64_arith_ok by lia. rewrite res_bind_ok, decide_True by lia.
  rewrite law_write_u64 by (rewrite length_take, length_drop; lia).
  unfold patch. rewrite length_le_bytes.
  by replace (Z.to_nat (off + 8)) with (Z.to_nat off + 8)%nat by lia.
Qed.

Lemma slots_wf_patch (self : AssembledModule MT) i m f off v :
  slots_wf self -> imports (module self) !! i = Some (m, f, off) -> length v = 8%nat ->
  slots_wf (mkAssembled (module self) (patch (assembled self) off v)).
Proof.
  intros [Hin Hap Hfit] Hi Hv. destruct (Hin _ _ _ _ Hi).
  split; simpl; rewrite ?length_patch by lia; done.
Qed.

Lemma link_import_wf {E} (self self' : AssembledModule MT) m f addr :
  slots_wf self -> @link_import MT _ _ E self m f addr = Ok self' ->
  slots_wf self' /\ module self' = module self /\ length (assembled self') = length (assembled self).
Proof.
  intros Hwf. rewrite link_import_slot by done. intros <-%Ok_inj.
  destruct (relocation _ m f) as [off|] eqn:Hr; [|done].
  destruct f as [name|]; [|by rewrite relocation_None in Hr].
  apply relocation_first in Hr as (i & Hi & _). destruct (slots_in_code _ Hwf _ _ _ _ Hi).
  split; [by eapply slots_wf_patch|]. split; [done|]. apply length_patch; rewrite ?length_le_bytes; lia.
Qed.

(** Linking a list of imports, one call after the other. *)
Definition link_all {E} (links : list (string * option string * Z)) (self : AssembledModule MT)
    : Res E (AssembledModule MT) :=
  for_each (fun '(m, f, addr) self => link_import self m f addr) links self.

(** One link seen from the slot of import [i]: it is written when the link finds
    [i] and stays as it is otherwise. *)
Lemma link_import_at {E} (self self' : AssembledModule MT) i mi fi off m f addr :
  slots_wf self -> imports (module self) !! i = Some (mi, fi, off) ->
  @link_import MT _ _ E self m f addr = Ok self' ->
  (∃ name, f = Some name /\ first_import (module self) m name i off /\
     quad_at (assembled self') off = le_bytes 8 addr) \/
  ((∀ name, f = Some name -> ~ first_import (module self) m name i off) /\
     quad_at (assembled self') off = quad_at (assembled self) off).
Proof.
  intros Hwf Hi. rewrite link_import_slot by done. intros <-%Ok_inj.
  destruct (slots_in_code _ Hwf _ _ _ _ Hi).
  destruct f as [name|]; [|right; by rewrite relocation_None].
  destruct (relocation _ m _) as [off'|] eqn:Hr.
  - apply relocation_first in Hr as (j & Hj). destruct (slots_in_code _ Hwf _ _ _ _ (proj1 Hj)).
    destruct (decide (i = j)) as [->|Hne].
    + left. exists name. assert (off' = off) as -> by (destruct Hj; congruence).
      split_and!; [done..|]. apply quad_at_patch; [lia|lia|apply length_le_bytes].
    + right. split.
      * intros name' [= <-] Hi'. pose proof (relocation_Some _ _ _ _ _ Hi').
        pose proof (relocation_Some _ _ _ _ _ Hj). assert (off' = off) as -> by congruence.
        pose proof (slots_apart _ Hwf i j _ _ _ _ _ _ Hne Hi (proj1 Hj)). lia.
      * apply quad_at_patch_other; rewrite ?length_le_bytes; [lia..|].
        pose proof (slots_apart _ Hwf j i _ _ _ _ _ _ (not_eq_sym Hne) (proj1 Hj) Hi). lia.
  - right. split; [|done]. intros name' [= <-] Hi'. by rewrite (relocation_Some _ _ _ _ _ Hi') in Hr.
Qed.

Lemma first_import_inj (self : CompiledModule MT) m name m' name' i off :
  first_import self m name i off -> first_import self m' name' i off -> m' = m /\ name' = name.
Proof. intros [Hi _] [Hi' _]. rewrite Hi in Hi'. by injection Hi' as <- <-. Qed.

(** The address last given to the import [m.name], [acc] if none. *)
Definition last_address (links : list (string * option string * Z)) (m name : string)
    (acc : option Z) : option Z :=
  fold_left (fun acc '(m', f', addr) =>
    if decide ((m', f') = (m, Some name)) then Some addr else acc) links acc.

Lemma link_all_ok {E} links (self : AssembledModule MT) :
  slots_wf self -> ∃ self', @link_all E links self = Ok self'.
Proof.
  revert self. induction links as [|[[m f] addr] links IH]; intros self Hwf; [by exists self|].
  pose proof (link_import_slot (E := E) self m f addr Hwf) as Hl.
  destruct (link_import_wf _ _ _ _ _ Hwf Hl) as [Hwf' _].
  destruct (IH _ Hwf') as [self' Hself']. exists self'. unfold link_all. cbn [for_each].
  rewrite Hl. exact Hself'.
Qed.

Lemma link_all_at {E} links (self self' : AssembledModule MT) m name i off :
  slots_wf self -> first_import (module self) m name i off -> @link_all E links self = Ok self' ->
  ∀ acc, (∀ a, acc = Some a -> quad_at (assembled self) off = le_bytes 8 a) ->
  quad_at (assembled self') off =
    match last_address links m name acc with
    | Some a => le_bytes 8 a
    | None => quad_at (assembled self) off
    end.
Proof.
  revert self. induction links as [|[[m' f'] addr] links IH]; intros self Hwf Hi Hl acc Hacc.
  - apply Ok_inj in Hl as <-. simpl. destruct acc; [by apply Hacc|done].
  - unfold link_all in Hl. cbn [for_each] in Hl.
    destruct (link_import self m' f' addr) as [self1| |] eqn:Hstep; [|done..].
    destruct (link_import_wf _ _ _ _ _ Hwf Hstep) as (Hwf1 & Hm1 & _). rewrite res_bind_ok in Hl.
    assert (Hi1 : first_import (module self1) m name i off) by by rewrite Hm1.
    pose proof (IH self1 Hwf1 Hi1 Hl) as IH'. unfold last_address in *. cbn [fold_left].
    destruct (link_import_at _ _ _ _ _ _ _ _ _ Hwf (proj1 Hi) Hstep) as [(name' & -> & Hi' & Hq)|[Hno Hq]].
    + destruct (first_import_inj _ _ _ _ _ _ _ Hi Hi') as [-> ->]. rewrite decide_True by done.
      rewrite (IH' (Some addr)) by by intros ? [= <-].
      match goal with |- match ?x with _ => _ end = match ?x with _ => _ end => destruct x eqn:Hx end; [done|].
      exfalso. clear -Hx. revert addr Hx. induction links as [|[[? ?] ?] links IH]; intros addr Hx; [done|].
      simpl in Hx. case_decide; by eapply IH.
    + rewrite decide_False.
      * rewrite <- Hq. apply IH'. intros a Ha. rewrite Hq. by apply Hacc.
      * intros [= -> ->]. by apply (Hno name).
Qed.

(** ** Properties *)

(** Linking an import patches its slot and nothing else.  In a module with
    well-formed slots [link_import] never panics; if [i] is the smallest index
    imported under the given name, the eight bytes of its slot become the
    little-endian address, every other byte and all tables stay as they are, and
    the slots remain well-formed; if nothing is imported under the name, nothing
    changes. *)
Theorem link_import_patches {E} (self : AssembledModule MT) m name addr :
  slots_wf self ->
  ∃ self', @link_import MT _ _ E self m (Some name) addr = Ok self' /\
    slots_wf self' /\ module self' = module self /\
    length (assembled self') = length (assembled self) /\
    (∀ i off, first_import (module self) m name i off ->
       quad_at (assembled self') off = le_bytes 8 addr /\
       ∀ k, Z.of_nat k < off \/ off + 8 <= Z.of_nat k -> assembled self' !! k = assembled self !! k) /\
    ((∀ i off, imports (module self) !! i <> Some (m, Some name, off)) -> self' = self).
Proof.
  intros Hwf. pose proof (link_import_slot (E := E) self m (Some name) addr Hwf) as Hlink.
  eexists. split; [exact Hlink|]. destruct (link_import_wf _ _ _ _ _ Hwf Hlink) as (Hwf' & Hm & Hl).
  split; [done|]. split; [done|]. split; [done|]. split.
  - intros i off Hi. rewrite (relocation_Some _ _ _ _ _ Hi).
    destruct (slots_in_code _ Hwf _ _ _ _ (proj1 Hi)). split.
    + apply quad_at_patch; [lia|lia|apply length_le_bytes].
    + intros k Hk. apply lookup_patch_other; rewrite ?length_le_bytes; lia.
  - intros Hno. destruct (relocation _ m _) as [off|] eqn:Hr; [|done].
    apply relocation_first in Hr as (i & Hi & _). by apply Hno in Hi.
Qed.

(** C9: after any sequence of links, every import that [link_import] can find
    holds the address it was last given.  On well-formed slots the sequence never
    panics; the slot of the first import under a name reads the last address
    linked under that name, and what it held before when there was none, so links
    under different names can be made in any order. *)
Theorem link_all_last_address {E} links (self : AssembledModule MT) :
  slots_wf self ->
  ∃ self', @link_all E links self = Ok self' /\
    ∀ m name i off, first_import (module self) m name i off ->
      quad_at (assembled self') off =
        match last_address links m name None with
        | Some addr => le_bytes 8 addr
        | None => quad_at (assembled self) off
        end.
Proof.
  intros Hwf. destruct (link_all_ok (E := E) links self Hwf) as [self' Hl].
  exists self'. split; [done|]. intros m name i off Hi. by eapply link_all_at.
Qed.

(** A function imported twice is linked once.  Whatever is linked, an import
    that shares its name with an import of a smaller index, or that has no field
    name, keeps the contents of its slot. *)
Theorem shadowed_import_never_linked {E} links (self self' : AssembledModule MT) i m f off :
  slots_wf self -> imports (module self) !! i = Some (m, f, off) ->
  (f = None \/ ∃ j off', j < i /\ imports (module self) !! j = Some (m, f, off')) ->
  @link_all E links self = Ok self' ->
  quad_at (assembled self') off = quad_at (assembled self) off.
Proof.
  intros Hwf Hi Hsh Hl.
  apply (for_each_inv _ (fun s => slots_wf s /\ module s = module self /\
    quad_at (assembled s) off = quad_at (assembled self) off) _ self self') in Hl; [tauto| |done].
  intros [[m' f'] addr] s s' _ (Hwfs & Hm & Hq) Hs.
  destruct (link_import_wf _ _ _ _ _ Hwfs Hs) as (? & Hm' & _). rewrite Hm in Hm'.
  split; [done|]. split; [done|]. rewrite <- Hm in Hi.
  destruct (link_import_at _ _ _ _ _ _ _ _ _ Hwfs Hi Hs) as [(name & -> & [Hf Hmin] & _)|[_ Hs']];
    [|congruence].
  rewrite Hf in Hi. injection Hi as -> <-. destruct Hsh as [?|(j & off' & Hj & Hj')]; [done|].
  rewrite Hm in Hmin. by destruct (Hmin j off' Hj).
Qed.
End Linking.

(** ** Concrete instances *)

(** Two imports of [b.bar] in a code of 24 bytes. *)
Definition sample_module : AssembledModule unit :=
  mkAssembled (mkModule ∅ ∅ ∅ ∅ {[0 := ("b", Some "bar", 0); 1 := ("b", Some "bar", 8)]} [])
    (replicate 24 170).

Lemma sample_module_wf : slots_wf sample_module.
Proof.
  assert (Hlook : ∀ i m f off, imports (module sample_module) !! i = Some (m, f, off) ->
    i = 0 /\ off = 0 \/ i = 1 /\ off = 8).
  { intros i m f off Hi. change (imports _) with
      (<[0 := ("b", Some "bar", 0)]> ({[1 := ("b", Some "bar", 8)]} : gmap Z (string * option string * Z))) in Hi.
    rewrite lookup_insert_Some, lookup_singleton_Some in Hi.
    destruct Hi as [[<- [= <- <- <-]]|[_ [<- [= <- <- <-]]]]; auto. }
  split.
  - intros i m f off Hi%Hlook. simpl. lia.
  - intros i j m f off m' f' off' Hne Hi%Hlook Hj%Hlook. lia.
  - vm_compute. discriminate.
Qed.

Lemma link_import_patches_witness :
  ∃ self', @link_import unit debug _ unit sample_module "b" (Some "bar") 4096 = Ok self' /\
    slots_wf self' /\ module self' = module sample_module /\
    length (assembled self') = length (assembled sample_module) /\
    (∀ i off, first_import (module sample_module) "b" "bar" i off ->
       quad_at (assembled self') off = le_bytes 8 4096 /\
       ∀ k, Z.of_nat k < off \/ off + 8 <= Z.of_nat k ->
         assembled self' !! k = assembled sample_module !! k) /\
    ((∀ i off, imports (module sample_module) !! i <> Some ("b", Some "bar", off)) ->
       self' = sample_module).
Proof. apply link_import_patches, sample_module_wf. Defined.

Lemma link_all_last_address_witness :
  let links := [("b", Some "bar", 1); ("c", None, 2); ("b", Some "bar", 3)] in
  ∃ self', @link_all unit debug _ unit links sample_module = Ok self' /\
    ∀ m name i off, first_import (module sample_module) m name i off ->
      quad_at (assembled self') off =
        match last_address links m name None with
        | Some addr => le_bytes 8 addr
        | None => quad_at (assembled sample_module) off
        end.
Proof. intros links. apply link_all_last_address, sample_module_wf. Defined.

Lemma shadowed_import_never_linked_witness :
  let self' := mkAssembled (module sample_module) (le_bytes 8 4096 ++ replicate 16 170) in
  @link_all unit debug _ unit [("b", Some "bar", 4096)] sample_module = Ok self' /\
  quad_at (assembled self') 8 = quad_at (assembled sample_module) 8.
Proof.
  intros self'.
  assert (Hl : @link_all unit debug _ unit [("b", Some "bar", 4096)] sample_module = Ok self')
    by (vm_compute; reflexivity).
  split; [exact Hl|].
  apply (shadowed_import_never_linked (H := debug) (E := unit) [("b", Some "bar", 4096)] sample_module
    self' 1 "b" (Some "bar") 8 sample_module_wf).
  - reflexivity.
  - right. exists 0, 0. split; [lia|reflexivity].
  - exact Hl.
Defined.
