(* ===== verification/Compile.v ===== *)
(** * The compiler's driver ([compile] in [parawasm/src/x86_64/mod.rs])

    [compile] feeds the module to wasmparser, dispatches every payload to its
    handler, optimizes the collected code, binds the labels and assembles.
    wasmparser is a parameter: [Parser] yields payloads, [Validator] checks them
    (with [FuncValidator] for function bodies); a section is the list of what its
    reader yields. *)
From S2P Require Import Prelude X86 Assembler Optimizer Wasm Instructions.
From S2P Require Import Function ModuleApi.

(** ** wasmparser's data *)
Inductive TypeDef := TypeDefFunc (func_type : FuncType) | TypeDefOther.

Inductive ImportSectionEntryType := ImportFunction (function_type : Z) | ImportOther.
Record Import := mkImport {
  import_module : string; import_field : option string; import_ty : ImportSectionEntryType }.

Record Export := mkExport { export_field : string; export_index : Z }.

(** [R] stands for what the compiler only hands to the validator: byte ranges
    and the readers of sections it does not look into. *)
Module Payload.
Inductive t (B R MT : Type) :=
  | Version (num : Z) (range : R)
  | TypeSection (ts : list (B + TypeDef))
  | ImportSection (imps : list (B + Import))
  | FunctionSection (fs : list (B + Z))
  | MemorySection (r : list (B + MT))
  | ExportSection (es : list (B + Export))
  | CodeSectionStart (count : Z) (range : R)
  | CodeSectionEntry (cs : FunctionBody B)
  | AliasSection (a : R)
  | InstanceSection (i : R)
  | TableSection (ts : R)
  | TagSection (ts : R)
  | GlobalSection (g : R)
  | StartSection (func : Z) (range : R)
  | ElementSection (e : R)
  | DataCountSection (count : Z) (range : R)
  | DataSection (d : R)
  | CustomSection
  | ModuleSectionStart (count : Z) (range : R)
  | ModuleSectionEntry
  | UnknownSection (id : Z) (range : R)
  | End.
Arguments Version {B R MT}. Arguments TypeSection {B R MT}. Arguments ImportSection {B R MT}.
Arguments FunctionSection {B R MT}. Arguments MemorySection {B R MT}. Arguments ExportSection {B R MT}.
Arguments CodeSectionStart {B R MT}. Arguments CodeSectionEntry {B R MT}. Arguments AliasSection {B R MT}.
Arguments InstanceSection {B R MT}. Arguments TableSection {B R MT}. Arguments TagSection {B R MT}.
Arguments GlobalSection {B R MT}. Arguments StartSection {B R MT}. Arguments ElementSection {B R MT}.
Arguments DataCountSection {B R MT}. Arguments DataSection {B R MT}. Arguments CustomSection {B R MT}.
Arguments ModuleSectionStart {B R MT}. Arguments ModuleSectionEntry {B R MT}.
Arguments UnknownSection {B R MT}. Arguments End {B R MT}.
End Payload.

Inductive Chunk (X : Type) := NeedMoreData (hint : Z) | Parsed (payload : X) (consumed : nat).
Arguments NeedMoreData {X}.
Arguments Parsed {X}.

Record WasmFeatures := mkFeatures {
  mutable_global : bool; saturating_float_to_int : bool; sign_extension : bool;
  reference_types : bool; multi_value : bool; bulk_memory : bool; module_linking : bool;
  simd : bool; relaxed_simd : bool; threads : bool; tail_call : bool; deterministic_only : bool;
  multi_memory : bool; exceptions : bool; memory64 : bool; extended_const : bool }.

(** ** wasmparser's operations *)
Class Parser (P B R MT : Type) := {
  parser_new : Z -> P;
  parse : P -> list Z -> bool -> B + (Chunk (Payload.t B R MT) * P) }.

Class Validator (W V B R MT : Type) := {
  validator_new : WasmFeatures -> W;
  v_version : W -> Z -> R -> B + W;
  v_type_section : W -> list (B + TypeDef) -> B + W;
  v_import_section : W -> list (B + Import) -> B + W;
  v_function_section : W -> list (B + Z) -> B + W;
  v_memory_section : W -> list (B + MT) -> B + W;
  v_export_section : W -> list (B + Export) -> B + W;
  v_code_section_start : W -> Z -> R -> B + W;
  v_code_section_entry : W -> B + (V * W);
  v_alias_section : W -> R -> B + W;
  v_instance_section : W -> R -> B + W;
  v_table_section : W -> R -> B + W;
  v_tag_section : W -> R -> B + W;
  v_global_section : W -> R -> B + W;
  v_start_section : W -> Z -> R -> B + W;
  v_element_section : W -> R -> B + W;
  v_data_count_section : W -> Z -> R -> B + W;
  v_data_section : W -> R -> B + W;
  v_module_section_start : W -> Z -> R -> B + W;
  v_module_section_entry : W -> W;
  v_unknown_section : W -> Z -> R -> B + W;
  v_end : W -> B + W }.

(** ** The compiler's state *)
Record cstate (A MT : Type) := mkC {
  s_assembler : A;
  s_got : gmap Z CodeLabel;              (* labels of the module's own functions *)
  s_ils : gmap Z CodeLabel;              (* labels of the import slots *)
  s_module : CompiledModule MT;
  s_function_index : Z;
  s_function_body_index : Z;
  s_function_typedefs : gmap Z FuncType;
  s_function_type_index : Z;
  s_function_types : gmap Z Z;
  s_label_indices : list (Z * CodeLabel);   (* instruction index, label *)
  s_function_bodies : list (CodeLabel * Z)  (* label, function index *) }.
Arguments mkC {A MT}.
Arguments s_assembler {A MT}. Arguments s_got {A MT}. Arguments s_ils {A MT}.
Arguments s_module {A MT}. Arguments s_function_index {A MT}. Arguments s_function_body_index {A MT}.
Arguments s_function_typedefs {A MT}. Arguments s_function_type_index {A MT}.
Arguments s_function_types {A MT}. Arguments s_label_indices {A MT}. Arguments s_function_bodies {A MT}.

Section Driver.
Context {A E B V W P R MT : Type} `{Assembler A E} `{FuncValidator V B} `{Profile}.
Context `{!Parser P B R MT, !Validator W V B R MT}.

Definition features : WasmFeatures := {|
  mutable_global := true; saturating_float_to_int := true; sign_extension := true;
  reference_types := true; multi_value := true; bulk_memory := true; module_linking := true;
  simd := true; relaxed_simd := true; threads := true; tail_call := true;
  deterministic_only := true; multi_memory := true; exceptions := true; memory64 := true;
  extended_const := false |}.

Definition cstate_new (assembler : A) : cstate A MT :=
  mkC assembler ∅ ∅ module_new 0 0 ∅ 0 ∅ [] [].

(** The number of instructions so far, as an index. *)
Definition here (a : A) : Z := Z.of_nat (length (asm_instructions a)).

(** *** Handlers of single items *)

Definition memory_item (m : B + MT) (s : cstate A MT) : Res (Error B E) (cstate A MT) :=
  mem ← @wasm E B _ m;
  let md := s_module s in
  let md := mkModule (functions md) (function_bodies md) (function_stack_heights md) (exports md)
              (imports md) (memories md ++ [mem]) in
  Ok (mkC (s_assembler s) (s_got s) (s_ils s) md (s_function_index s) (s_function_body_index s)
        (s_function_typedefs s) (s_function_type_index s) (s_function_types s) (s_label_indices s)
        (s_function_bodies s)).

Definition type_item (t : B + TypeDef) (s : cstate A MT) : Res (Error B E) (cstate A MT) :=
  typedef ← @wasm E B _ t;
  match typedef with
  | TypeDefFunc func_type =>
      let function_typedefs := <[s_function_type_index s := func_type]> (s_function_typedefs s) in
      function_type_index ← u32_arith (s_function_type_index s + 1);
      Ok (mkC (s_assembler s) (s_got s) (s_ils s) (s_module s) (s_function_index s)
            (s_function_body_index s) function_typedefs function_type_index (s_function_types s)
            (s_label_indices s) (s_function_bodies s))
  | TypeDefOther => Ok s
  end.

(** The address every import slot holds until it is linked. *)
Definition unlinked : Z := 0xBADC0FFEE0DDF00D.

Definition import_item (i : B + Import) (s : cstate A MT) : Res (Error B E) (cstate A MT) :=
  import ← @wasm E B _ i;
  let '(current_label, a) := asm_create_label (s_assembler s) in
  a ← asm_call (asm_set_label a current_label);
  a ← emit i_zero_bytes a;
  offset ← asm_call (asm_label_ip a current_label);
  let reference := (import_module import, import_field import, offset) in
  match import_ty import with
  | ImportFunction function_type =>
      let md := s_module s in
      let md := mkModule (functions md) (function_bodies md) (function_stack_heights md)
                  (exports md) (<[s_function_index s := reference]> (imports md)) (memories md) in
      let '(label, a) := asm_create_label a in
      let label_indices := s_label_indices s ++ [(here a, label)] in
      a ← emit (i_dq unlinked) a;
      let ils := <[s_function_index s := label]> (s_ils s) in
      let function_types := <[s_function_index s := function_type]> (s_function_types s) in
      function_index ← u32_arith (s_function_index s + 1);
      function_body_index ← u32_arith (s_function_body_index s + 1);
      Ok (mkC a (s_got s) ils md function_index function_body_index (s_function_typedefs s)
            (s_function_type_index s) function_types label_indices (s_function_bodies s))
  | ImportOther =>
      Ok (mkC a (s_got s) (s_ils s) (s_module s) (s_function_index s) (s_function_body_index s)
            (s_function_typedefs s) (s_function_type_index s) (s_function_types s)
            (s_label_indices s) (s_function_bodies s))
  end.

Definition function_item (function_type : B + Z) (s : cstate A MT)
    : Res (Error B E) (cstate A MT) :=
  let '(label, a) := asm_create_label (s_assembler s) in
  let label_indices := s_label_indices s ++ [(here a, label)] in
  let offset := here a in
  a ← emit (i_dq 0) a;
  let md := s_module s in
  let md := mkModule (<[s_function_index s := offset]> (functions md)) (function_bodies md)
              (function_stack_heights md) (exports md) (imports md) (memories md) in
  let '(fun_label, a) := asm_create_label a in
  let got := <[s_function_index s := fun_label]> (s_got s) in
  function_type ← @wasm E B _ function_type;
  let function_types := <[s_function_index s := function_type]> (s_function_types s) in
  function_index ← u32_arith (s_function_index s + 1);
  Ok (mkC a got (s_ils s) md function_index (s_function_body_index s) (s_function_typedefs s)
        (s_function_type_index s) function_types label_indices (s_function_bodies s)).

Definition export_item (e : B + Export) (s : cstate A MT) : Res (Error B E) (cstate A MT) :=
  export ← @wasm E B _ e;
  let md := s_module s in
  let md := mkModule (functions md) (function_bodies md) (function_stack_heights md)
              (<[export_field export := export_index export]> (exports md)) (imports md)
              (memories md) in
  Ok (mkC (s_assembler s) (s_got s) (s_ils s) md (s_function_index s) (s_function_body_index s)
        (s_function_typedefs s) (s_function_type_index s) (s_function_types s) (s_label_indices s)
        (s_function_bodies s)).

Definition code_section_entry (func_validator : V) (cs : FunctionBody B) (s : cstate A MT)
    : Res (Error B E) (cstate A MT) :=
  let index := s_function_body_index s in
  function_type ← of_option UnwrapNone
    (lookup_function_type (s_function_types s) (s_function_typedefs s) index);
  fun_label ← of_option UnwrapNone (s_got s !! index);
  let function_bodies' := s_function_bodies s ++ [(fun_label, index)] in
  let label_indices := s_label_indices s ++ [(here (s_assembler s), fun_label)] in
  '(height, a) ← compile_body (s_got s) (s_ils s) (s_function_typedefs s) (s_function_types s)
                   function_type cs func_validator (s_assembler s);
  let md := s_module s in
  let md := mkModule (functions md) (function_bodies md)
              (<[index := height]> (function_stack_heights md)) (exports md) (imports md)
              (memories md) in
  function_body_index ← u32_arith (index + 1);
  Ok (mkC a (s_got s) (s_ils s) md (s_function_index s) function_body_index
        (s_function_typedefs s) (s_function_type_index s) (s_function_types s) label_indices
        function_bodies').

(** *** One payload *)
(** The payloads that only the validator looks at. *)
Definition validate_section (validator : W) (payload : Payload.t B R MT) : option (B + W) :=
  match payload with
  | Payload.Version num range => Some (v_version validator num range)
  | Payload.AliasSection a => Some (v_alias_section validator a)
  | Payload.InstanceSection i => Some (v_instance_section validator i)
  | Payload.TableSection t => Some (v_table_section validator t)
  | Payload.TagSection t => Some (v_tag_section validator t)
  | Payload.GlobalSection g => Some (v_global_section validator g)
  | Payload.StartSection func range => Some (v_start_section validator func range)
  | Payload.ElementSection e => Some (v_element_section validator e)
  | Payload.DataCountSection count range => Some (v_data_count_section validator count range)
  | Payload.DataSection d => Some (v_data_section validator d)
  | Payload.CustomSection => Some (inr validator)
  | Payload.CodeSectionStart count range => Some (v_code_section_start validator count range)
  | Payload.ModuleSectionStart count range => Some (v_module_section_start validator count range)
  | Payload.ModuleSectionEntry => Some (inr (v_module_section_entry validator))
  | Payload.UnknownSection id range => Some (v_unknown_section validator id range)
  | _ => None
  end.

Definition handle_payload (payload : Payload.t B R MT) (st : W * cstate A MT)
    : Res (Error B E) (W * cstate A MT) :=
  let '(validator, s) := st in
  let keep (r : B + W) := validator ← @wasm E B _ r; Ok (validator, s) in
  match payload with
  | Payload.End => keep (v_end validator)
  | Payload.MemorySection r =>
      validator ← @wasm E B _ (v_memory_section validator r);
      s ← for_each memory_item r s; Ok (validator, s)
  | Payload.TypeSection ts =>
      validator ← @wasm E B _ (v_type_section validator ts);
      s ← for_each type_item ts s; Ok (validator, s)
  | Payload.ImportSection imps =>
      validator ← @wasm E B _ (v_import_section validator imps);
      s ← for_each import_item imps s; Ok (validator, s)
  | Payload.FunctionSection fs =>
      validator ← @wasm E B _ (v_function_section validator fs);
      s ← for_each function_item fs s; Ok (validator, s)
  | Payload.ExportSection es =>
      validator ← @wasm E B _ (v_export_section validator es);
      s ← for_each export_item es s; Ok (validator, s)
  | Payload.CodeSectionEntry cs =>
      '(func_validator, validator) ← @wasm E B _ (v_code_section_entry validator);
      s ← code_section_entry func_validator cs s; Ok (validator, s)
  | _ => match validate_section validator payload with Some r => keep r | None => Ok (validator, s) end
  end.

(** The loop over the input: [None] when the fuel runs out.  [data] is what is
    left of the input; only a parsed payload updates [data] and [eof]. *)
Fixpoint compile_loop (fuel : nat) (parser : P) (data : list Z) (eof : bool) (st : W * cstate A MT)
    : option (Res (Error B E) (cstate A MT)) :=
  match fuel with
  | O => None
  | S fuel =>
      match parse parser data eof with
      | inl e => Some (Err (WasmReaderError e))
      | inr (NeedMoreData _, parser) => compile_loop fuel parser data eof st
      | inr (Parsed payload consumed, parser) =>
          match handle_payload payload st with
          | Err e => Some (Err e)
          | Panic p => Some (Panic p)
          | Ok st =>
              match payload with
              | Payload.End => Some (Ok (snd st))
              | _ =>
                  if decide (consumed <= length data)%nat then
                    let data := drop consumed data in
                    compile_loop fuel parser data (bool_decide (length data = 0%nat)) st
                  else Some (Panic OutOfRange)
              end
          end
      end
  end.

(** *** Binding the labels *)
Definition bind_label (label_indices : list (Z * CodeLabel)) (function_bodies' : list (CodeLabel * Z))
    (p : nat * Instruction) (st : A * CompiledModule MT) : Res (Error B E) (A * CompiledModule MT) :=
  let '(idx, instruction) := p in
  let '(a, md) := st in
  '(a, md) ←
    match List.find (fun '(i, _) => i =? Z.of_nat idx) label_indices with
    | Some (_, label) =>
        a ← asm_call (asm_set_label a label);
        a ← emit i_zero_bytes a;
        match List.find (fun '(label_, _) => bool_decide (label_ = label)) function_bodies' with
        | Some (_, index) =>
            ip ← asm_call (asm_label_ip a label);
            Ok (a, mkModule (functions md) (<[index := ip]> (function_bodies md))
                     (function_stack_heights md) (exports md) (imports md) (memories md))
        | None => Ok (a, md)
        end
    | None => Ok (a, md)
    end;
  a ← emit instruction a;
  Ok (a, md).

(** What follows the loop: optimize and bind the labels, *)
Definition bind_labels (fuel : nat) (s : cstate A MT) : option (Res (Error B E) (A * CompiledModule MT)) :=
  let '(instructions, a) := asm_take_instructions (s_assembler s) in
  match optimize (A := A) fuel instructions (s_label_indices s) with
  | None => None
  | Some r => Some (
      '(optimized, label_indices) ← r;
      a ← for_each emit optimized a;
      let '(instructions, a) := asm_take_instructions a in
      for_each (bind_label label_indices (s_function_bodies s)) (imap pair instructions) (a, s_module s))
  end.

(** [module.assembled(assembler.assemble(0)?)]. *)
Definition assembled_module (st : A * CompiledModule MT) : Res (Error B E) (AssembledModule MT) :=
  bytes ← asm_call (asm_assemble st.1); Ok (mkAssembled st.2 bytes).

Definition finish (fuel : nat) (s : cstate A MT) : option (Res (Error B E) (AssembledModule MT)) :=
  match bind_labels fuel s with
  | None => None
  | Some r => Some (st ← r; assembled_module st)
  end.

(** [fuel_loop] bounds the calls of the parser, [fuel_opt] the optimizer's
    passes. *)
Definition compile (fuel_loop fuel_opt : nat) (data : list Z)
    : option (Res (Error B E) (AssembledModule MT)) :=
  match @asm_call E B A (asm_new 64) with
  | Err e => Some (Err e)
  | Panic p => Some (Panic p)
  | Ok assembler =>
      match compile_loop fuel_loop (parser_new 0) data false (validator_new features, cstate_new assembler) with
      | None => None
      | Some (Err e) => Some (Err e)
      | Some (Panic p) => Some (Panic p)
      | Some (Ok s) => finish fuel_opt s
      end
  end.

(** ** What the parser yields

    [yields parser data eof ps parser' data' eof']: starting from [parser] on
    [data] the payloads [ps], none of them the end, come out one by one and leave
    [parser'] on [data']. *)
Definition is_end (payload : Payload.t B R MT) : bool :=
  match payload with Payload.End => true | _ => false end.

Inductive yields : P -> list Z -> bool -> list (Payload.t B R MT) -> P -> list Z -> bool -> Prop :=
  | yields_nil parser data eof : yields parser data eof [] parser data eof
  | yields_cons parser data eof payload consumed parser1 ps parser2 data2 eof2 :
      parse parser data eof = inr (Parsed payload consumed, parser1) ->
      is_end payload = false -> (consumed <= length data)%nat ->
      yields parser1 (drop consumed data) (bool_decide (length (drop consumed data) = 0%nat)) ps
        parser2 data2 eof2 ->
      yields parser data eof (payload :: ps) parser2 data2 eof2.

(** The input is the payloads [ps] and then the end. *)
Definition parses (data : list Z) (ps : list (Payload.t B R MT)) : Prop :=
  ∃ parser data' eof' consumed parser',
    yields (parser_new 0) data false ps parser data' eof' /\
    parse parser data' eof' = inr (Parsed Payload.End consumed, parser').

Lemma compile_loop_yields parser data eof ps parser' data' eof' fuel st :
  yields parser data eof ps parser' data' eof' ->
  compile_loop (length ps + fuel) parser data eof st =
    match for_each handle_payload ps st with
    | Ok st => compile_loop fuel parser' data' eof' st
    | Err e => Some (Err e)
    | Panic p => Some (Panic p)
    end.
Proof.
  intros Hy. revert st. induction Hy as [|parser data eof payload consumed parser1 ps parser2 data2 eof2
    Hp He Hc _ IH]; intros st; [done|].
  cbn [length Nat.add compile_loop for_each]. rewrite Hp.
  destruct (handle_payload payload st) as [st'| |]; [|done..]. rewrite res_bind_ok, <- IH.
  rewrite decide_True by done. by destruct payload.
Qed.

(** The loop is the composition of the handlers. *)
Lemma compile_loop_parses data ps fuel st :
  parses data ps -> (length ps < fuel)%nat ->
  compile_loop fuel (parser_new 0) data false st =
    Some ('(_, s) ← for_each handle_payload (ps ++ [Payload.End]) st; Ok s).
Proof.
  intros (parser & data' & eof' & consumed & parser' & Hy & Hend) Hf.
  replace fuel with (length ps + S (fuel - length ps - 1))%nat by lia.
  rewrite (compile_loop_yields _ _ _ _ _ _ _ _ _ Hy), for_each_app.
  destruct (for_each handle_payload ps st) as [st'| |]; [|done..]. rewrite res_bind_ok.
  cbn [compile_loop for_each]. rewrite Hend.
  destruct (handle_payload Payload.End st') as [[]| |]; done.
Qed.

(** More fuel does not change a result. *)
Lemma compile_loop_mono fuel k parser data eof st r :
  compile_loop fuel parser data eof st = Some r -> compile_loop (fuel + k) parser data eof st = Some r.
Proof.
  revert parser data eof st. induction fuel as [|fuel IH]; intros parser data eof st; [done|].
  cbn [Nat.add compile_loop]. destruct (parse parser data eof) as [|[[hint|payload c] p']]; [done|apply IH|].
  destruct (handle_payload payload st) as [st'| |]; [|done..].
  destruct payload; try done; case_decide; try done; apply IH.
Qed.

(** The state the payloads lead to. *)
Definition collects (ps : list (Payload.t B R MT)) (w : W) (s : cstate A MT) : Prop :=
  ∃ a, asm_new 64 = inr a /\
    for_each handle_payload ps (validator_new features, cstate_new a) = Ok (w, s).

Lemma collects_fun ps w s w' s' : collects ps w s -> collects ps w' s' -> w = w' /\ s = s'.
Proof.
  intros (a & Ha & Hp) (a' & Ha' & Hp'). rewrite Ha in Ha'. injection Ha' as <-.
  rewrite Hp in Hp'. by apply Ok_inj in Hp' as [= -> ->].
Qed.

(** [compile] in two steps. *)
Lemma compile_inv data ps fuel_loop fuel_opt m :
  parses data ps -> compile fuel_loop fuel_opt data = Some (Ok m) ->
  ∃ w s, collects (ps ++ [Payload.End]) w s /\ finish fuel_opt s = Some (Ok m).
Proof.
  intros Hps. unfold compile, asm_call, collects. destruct (asm_new 64) as [e|a]; [done|].
  cbn [of_sum map_err].
  destruct (compile_loop fuel_loop _ _ _ _) as [r|] eqn:Hl; [|done].
  apply (compile_loop_mono _ (S (length ps))) in Hl.
  rewrite (compile_loop_parses data ps) in Hl by (done || lia). injection Hl as <-.
  destruct (for_each handle_payload _ _) as [[w s]| |] eqn:Hf; [|done..]. rewrite res_bind_ok.
  intros Hm. exists w, s. split; [by exists a|done].
Qed.

(** The assembler that holds the finished module. *)
Lemma finish_inv fuel s m :
  finish fuel s = Some (Ok m) -> ∃ a, bind_labels fuel s = Some (Ok (a, module m)) /\ asm_assemble a = inr (assembled m).
Proof.
  unfold finish. destruct (bind_labels fuel s) as [r|]; [|done]. intros [= Hm]. res_step Hm as [a md] Hr. subst r.
  unfold assembled_module, asm_call in Hm. simpl in Hm. destruct (asm_assemble a) as [|bs] eqn:Hbs; [done|].
  cbn [of_sum map_err] in Hm. rewrite res_bind_ok in Hm. apply Ok_inj in Hm as <-. by exists a.
Qed.

(** C11: [compile] terminates on every input that parses to the end: from some
    fuel on it always returns, and returns the same result. *)
Theorem compile_terminates `{!AssemblerLaws A E} data ps :
  parses data ps ->
  ∃ n r, ∀ fuel_loop fuel_opt, (n <= fuel_loop)%nat -> (n <= fuel_opt)%nat ->
    compile fuel_loop fuel_opt data = Some r.
Proof.
  intros Hps. unfold compile.
  destruct (asm_call (asm_new 64)) as [a|e|p]; [|exists 0%nat; by eexists..].
  pose proof (fun fuel => compile_loop_parses data ps fuel (validator_new features, cstate_new a) Hps) as Hl.
  set (st := for_each handle_payload (ps ++ [Payload.End]) (validator_new features, cstate_new a)) in *.
  destruct ('(_, s) ← st; Ok s) as [s|e|p] eqn:Hst;
    [|exists (S (length ps)); eexists; intros ? ? ? ?; rewrite Hl by lia; reflexivity..].
  destruct (asm_take_instructions (s_assembler s)) as [l a'] eqn:Ht.
  destruct (optimize_enough_fuel (E := E) (B := B) l (s_label_indices s) (S (length l)) (S (length l)))
    as [_ [r Hr]]; [lia|lia|].
  exists (S (length ps + length l)).
  assert (∃ r', finish (S (length l)) s = Some r') as [r' Hr'].
  { unfold finish, bind_labels. rewrite Ht, Hr. eauto. }
  exists r'. intros fl fo Hfl Hfo. rewrite Hl by lia. rewrite <- Hr'. unfold finish, bind_labels. rewrite Ht.
  by destruct (optimize_enough_fuel (E := E) (B := B) l (s_label_indices s) fo (S (length l))) as [-> _];
    [lia|lia|].
Qed.

(** C33: [compile] never returns on an input that stops short.  When, after the
    payloads [ps] that were handled successfully, the parser asks for more data
    and does not move (as wasmparser does at the end of a truncated module, and
    on the empty input at once), the loop repeats the same call for ever: [eof]
    is updated only after a parsed payload. *)
Theorem truncated_input_diverges `{!AssemblerLaws A E} data ps parser data' eof' hint :
  yields (parser_new 0) data false ps parser data' eof' ->
  parse parser data' eof' = inr (NeedMoreData hint, parser) ->
  (∀ a, asm_instructions a = [] -> ∃ st,
     for_each handle_payload ps (validator_new features, cstate_new a) = Ok st) ->
  ∀ fuel_loop fuel_opt, compile fuel_loop fuel_opt data = None.
Proof.
  intros Hy Hmore Hok fl fo. unfold compile. destruct law_new as (a & -> & Hai & _).
  unfold asm_call. cbn [of_sum map_err]. destruct (Hok a Hai) as [st Hst].
  assert (Hstuck : ∀ fuel st, compile_loop fuel parser data' eof' st = None).
  { induction fuel as [|fuel IH]; intros st'; [done|]. cbn [compile_loop]. by rewrite Hmore. }
  destruct (compile_loop fl _ _ _ _) as [r|] eqn:Hl; [exfalso|done].
  apply (compile_loop_mono _ (length ps)) in Hl. rewrite Nat.add_comm in Hl.
  rewrite (compile_loop_yields _ _ _ _ _ _ _ _ _ Hy), Hst, Hstuck in Hl. done.
Qed.
End Driver.

(** ** A parser and a validator for the witnesses

    The parser consumes one byte per payload of a fixed list and asks for more
    data, without moving, when there is none and the end was not announced; the
    validator accepts everything and follows the operand stack's height. *)
Module ListParser.
Definition payload := Payload.t unit unit unit.

(** A byte of the input is the number of its module; each is one payload of it. *)
Definition list_parser (modules : list (list payload)) : Parser nat unit unit unit := {|
  parser_new _ := 0%nat;
  parse i data eof :=
    match data, eof with
    | [], false => inr (NeedMoreData 1, i)
    | _, _ => match (modules !!! Z.to_nat (hd 0 data)) !! i with
              | Some p => inr (Parsed p (Nat.min 1 (length data)), S i)
              | None => inl tt
              end
    end |}.

#[global] Instance accept_all : Validator unit Z unit unit unit := {|
  validator_new _ := tt;
  v_version w _ _ := inr w; v_type_section w _ := inr w; v_import_section w _ := inr w;
  v_function_section w _ := inr w; v_memory_section w _ := inr w; v_export_section w _ := inr w;
  v_code_section_start w _ _ := inr w; v_code_section_entry w := inr (0, w);
  v_alias_section w _ := inr w; v_instance_section w _ := inr w; v_table_section w _ := inr w;
  v_tag_section w _ := inr w; v_global_section w _ := inr w; v_start_section w _ _ := inr w;
  v_element_section w _ := inr w; v_data_count_section w _ _ := inr w; v_data_section w _ := inr w;
  v_module_section_start w _ _ := inr w; v_module_section_entry w := w;
  v_unknown_section w _ _ := inr w; v_end w := inr w |}.

(** A parser of modules with these payloads, and the input that is the [n]-th. *)
Definition parser_of (modules : list (list payload)) : Parser nat unit unit unit :=
  list_parser (map (fun ps => ps ++ [Payload.End]) modules).
Definition bytes_of (n : nat) (ps : list payload) : list Z := replicate (S (length ps)) (Z.of_nat n).

Section ParserOf.
Context (modules : list (list payload)) (n : nat) (ps : list payload).
Context (Hn : modules !! n = Some ps) (Hps : Forall (fun p => is_end p = false) ps).

Lemma parser_of_module l :
  map (fun ps => ps ++ [Payload.End]) modules !!! Z.to_nat (hd 0 (Z.of_nat n :: l)) = ps ++ [Payload.End].
Proof. simpl. rewrite Nat2Z.id. apply list_lookup_total_correct, list_lookup_fmap_Some. by exists ps. Qed.

Lemma parser_of_yields k :
  (k <= length ps)%nat ->
  @yields unit nat unit unit (parser_of modules) (length ps - k)%nat (replicate (S k) (Z.of_nat n)) false
    (drop (length ps - k) ps) (length ps) [Z.of_nat n] false.
Proof.
  induction k as [|k IH]; intros Hk.
  - rewrite Nat.sub_0_r, drop_all. constructor.
  - destruct (lookup_lt_is_Some_2 ps (length ps - S k)) as [p Hp]; [lia|]. rewrite (drop_S _ p _ Hp).
    replace (S (length ps - S k))%nat with (length ps - k)%nat by lia.
    apply (yields_cons _ _ _ p 1 (length ps - k)%nat).
    + cbn [replicate parse parser_of list_parser]. rewrite parser_of_module, (lookup_app_l_Some _ _ _ _ Hp). simpl.
      by replace (S (length ps - S k))%nat with (length ps - k)%nat by lia.
    + exact (Forall_lookup_1 _ _ _ _ Hps Hp).
    + simpl. lia.
    + cbn [drop]. rewrite bool_decide_eq_false_2 by done. apply IH. lia.
Qed.

Lemma parser_of_parses : @parses unit nat unit unit (parser_of modules) (bytes_of n ps) ps.
Proof.
  pose proof (parser_of_yields (length ps) (le_n _)) as Hy. rewrite Nat.sub_diag in Hy.
  exists (length ps), [Z.of_nat n], false, 1%nat, (S (length ps)). split; [exact Hy|].
  cbn [parse parser_of list_parser]. by rewrite parser_of_module, lookup_app_r, Nat.sub_diag.
Qed.
End ParserOf.

(** [(module (import "b" "bar" (func (result i64)))
       (func (export "foo") (result i64) call 0))] *)
Definition sample_payloads : list payload :=
  [Payload.Version 1 tt;
   Payload.TypeSection [inr (TypeDefFunc (mkFuncType [] [I64]))];
   Payload.ImportSection [inr (mkImport "b" (Some "bar") (ImportFunction 0))];
   Payload.FunctionSection [inr 0];
   Payload.ExportSection [inr (mkExport "foo" 1)];
   Payload.CodeSectionStart 1 tt;
   Payload.CodeSectionEntry (mkBody (inr (map inr [(Operator.Call 0, 0); (Operator.End, 2)])) (inr []) 3)].

#[global] Instance sample_parser : Parser nat unit unit unit := parser_of [sample_payloads].
Definition sample_bytes : list Z := bytes_of 0 sample_payloads.

Definition sample_compile (fuel_loop fuel_opt : nat) (data : list Z)
    : option (Res (Error unit BufferAssembler.error) (AssembledModule unit)) :=
  @compile _ _ unit Z unit nat unit unit BufferAssembler.buffer_assembler _ debug
    sample_parser accept_all fuel_loop fuel_opt data.

Lemma sample_parses : parses sample_bytes sample_payloads.
Proof. apply parser_of_parses; [done|by repeat constructor]. Qed.
End ListParser.

(** The sample compiles: the import slot, the function's slot and its code. *)
Example sample_compiles :
  ∃ bs, ListParser.sample_compile 9 20 ListParser.sample_bytes = Some (Ok (mkAssembled
    (mkModule {[1 := 2]} {[1 := 16]} {[1 := 0]} {["foo" := 1]} {[0 := ("b", Some "bar", 0)]} []) bs)).
Proof. eexists. vm_compute. reflexivity. Qed.

Lemma compile_terminates_witness :
  ∃ n r, ∀ fuel_loop fuel_opt, (n <= fuel_loop)%nat -> (n <= fuel_opt)%nat ->
    ListParser.sample_compile fuel_loop fuel_opt ListParser.sample_bytes = Some r.
Proof.
  exact (compile_terminates (A := BufferAssembler.buffer) (E := BufferAssembler.error) (H1 := debug)
    ListParser.sample_bytes ListParser.sample_payloads ListParser.sample_parses).
Defined.

(** The empty input: the parser asks for a byte and the loop asks it again. *)
Lemma truncated_input_diverges_witness :
  ListParser.sample_compile 1000 1000 [] = None.
Proof.
  refine (truncated_input_diverges (A := BufferAssembler.buffer) (E := BufferAssembler.error)
    (H1 := debug) [] [] 0%nat [] false 1 _ _ _ 1000%nat 1000%nat).
  - constructor.
  - reflexivity.
  - intros a _. eexists. reflexivity.
Defined.
