(* ===== verification/Layout.v ===== *)
(** * The layout of the collected code

    Invariants of [compile]'s loop: every handler only appends code; the code is
    a sequence of pieces that end with an instruction no window of the optimizer
    touches; labels are fresh, unbound and mark the beginnings of pieces in
    increasing order.  [Binding] uses them for what the finished module
    contains. *)
From S2P Require Import Prelude X86 Assembler Optimizer Wasm Instructions.
From S2P Require Import Function ModuleApi Compile.

(** ** Handlers only append *)
Section Grows.
Context {A E B V : Type} `{Assembler A E} `{!AssemblerLaws A E} `{FuncValidator V B} `{Profile}.

Definition grows (a a' : A) : Prop := ∃ c, extends a a' c.

#[global] Instance grows_refl : Reflexive grows.
Proof. intros a. exists []. apply extends_refl. Qed.
#[global] Instance grows_trans : Transitive grows.
Proof. intros a1 a2 a3 [c1 G1] [c2 G2]. exists (c1 ++ c2). by eapply extends_trans. Qed.

Lemma emit_grows i (a a' : A) : @emit A E B _ i a = Ok a' -> grows a a'.
Proof. intros. exists [i]. by eapply emit_extends. Qed.

(** A loop grows the assembler its state carries when its body does. *)
Lemma for_each_grows {X S} (asm : S -> A) (body : X -> S -> Res (Error B E) S) l s s' :
  (∀ x s s', x ∈ l -> body x s = Ok s' -> grows (asm s) (asm s')) ->
  for_each body l s = Ok s' -> grows (asm s) (asm s').
Proof.
  intros Hb Hl. eapply (for_each_inv body (fun t => grows (asm s) (asm t))); [|reflexivity|exact Hl].
  intros x t t' Hx Ht Hs. etrans; [exact Ht|]. by eapply Hb.
Qed.

Lemma pop_argument_grows p st st' :
  @pop_argument A E B _ p st = Ok st' -> grows st.2 st'.2.
Proof.
  destruct st as [rs a]. unfold pop_argument. destruct p; try done;
    (destruct (pop_back rs) as [[r rs']|]; [|done]; intros Hs; res_inv; simpl; by eapply emit_grows).
Qed.

Lemma push_result_grows p st st' :
  @push_result A E B _ p st = Ok st' -> grows st.2 st'.2.
Proof.
  destruct st as [rs a]. unfold push_result. destruct p; try done;
    (destruct (pop_front rs) as [[r rs']|]; intros Hs; res_inv; simpl; [by eapply emit_grows|done]).
Qed.

Lemma pop_result_grows p st st' :
  @pop_result A E B _ p st = Ok st' -> grows st.2 st'.2.
Proof.
  destruct st as [rs a]. unfold pop_result. destruct p; try done;
    (destruct (pop_front rs) as [[r rs']|]; intros Hs; res_inv; simpl; [by eapply emit_grows|done]).
Qed.

Lemma handle_call_grows got ils tds fts i (a a' : A) :
  @handle_call A E B _ got ils tds fts i a = Ok a' -> grows a a'.
Proof.
  unfold handle_call. intros Hs.
  destruct (of_option _ _) as [ft| |]; [|done..]. rewrite res_bind_ok in Hs.
  destruct (drain _ _) as [rs| |]; [|done..]. rewrite res_bind_ok in Hs.
  destruct (for_each pop_argument _ _) as [[rs1 a1]| |] eqn:G1; [|done..]. rewrite res_bind_ok in Hs.
  apply (for_each_grows snd) in G1; [|intros ? ? ? _; apply pop_argument_grows]. simpl in G1.
  match type of Hs with mbind _ ?m = _ => destruct m as [a2| |] eqn:G2 end; [|done..].
  rewrite res_bind_ok in Hs.
  destruct (for_each push_result _ _) as [[rs3 a3]| |] eqn:G3; [|done..].
  apply (for_each_grows snd) in G3; [|intros ? ? ? _; apply push_result_grows]. simpl in G3.
  apply Ok_inj in Hs as <-. etrans; [exact G1|]. etrans; [|exact G3]. clear G3.
  destruct (got !! i); [by eapply emit_grows|]. destruct (ils !! i).
  - destruct (emit (i_load_label R10 c) a1) as [a4| |] eqn:G4; [|done..]. rewrite res_bind_ok in G2.
    etrans; by eapply emit_grows.
  - by apply Ok_inj in G2 as <-.
Qed.

Lemma handle_instruction_grows got ils tds fts locals op (a a' : A) :
  @handle_instruction A E B _ got ils tds fts locals op a = Ok a' -> grows a a'.
Proof.
  intros Hs. pose proof (handle_instruction_emits (B := B) got ils tds fts locals op a) as He.
  destruct (code_of locals op) as [c|].
  - destruct He as (a1 & Ha1 & ?). rewrite Ha1 in Hs. apply Ok_inj in Hs as <-. by exists c.
  - destruct He as [[i ->]|He]; [by eapply handle_call_grows|congruence].
Qed.

Lemma alloc_locals_grows size (a a' : A) : @alloc_locals A E B _ size a = Ok a' -> grows a a'.
Proof.
  unfold alloc_locals. case_match; [|by intros <-%Ok_inj].
  destruct (asm_call _) as [i| |]; [|done..]. apply emit_grows.
Qed.

Lemma free_locals_grows size (a a' : A) : @free_locals A E B _ size a = Ok a' -> grows a a'.
Proof.
  unfold free_locals. case_match; [|by intros <-%Ok_inj].
  destruct (asm_call _) as [i| |]; [|done..]. apply emit_grows.
Qed.

Lemma store_param_grows locals p st st' :
  @store_param A E B _ _ locals p st = Ok st' -> grows st.2 st'.2.
Proof.
  destruct st as [[rs e] a], p as [i t]. unfold store_param. intros Hs.
  destruct (of_option _ _) as [off| |]; [|done..]. rewrite res_bind_ok in Hs.
  destruct t; try done; (destruct (pop_back rs) as [[r rs']|]; res_step Hs G1;
    [|res_step Hs G2; res_step Hs G3; res_step Hs G4]; apply Ok_inj in Hs as <-; simpl;
    [by eapply emit_grows|etrans; by eapply emit_grows]).
Qed.

Lemma compile_op_grows got ils tds fts locals op st st' :
  @compile_op A E B V _ _ got ils tds fts locals op st = Ok st' -> grows st.2 st'.2.
Proof.
  destruct st as [[h fv] a]. unfold compile_op. intros Hs.
  destruct (wasm op) as [[op' off]| |]; [|done..]. rewrite res_bind_ok in Hs.
  destruct (wasm _) as [fv'| |]; [|done..]. rewrite res_bind_ok in Hs.
  destruct (handle_instruction _ _ _ _ _ _ _) as [a'| |] eqn:Ha; [|done..].
  apply Ok_inj in Hs as <-. by eapply handle_instruction_grows.
Qed.

(** A compiled body ends with its return. *)
Lemma compile_body_extends got ils tds fts ft cs fv (a a' : A) h :
  @compile_body A E B V _ _ _ got ils tds fts ft cs fv a = Ok (h, a') ->
  ∃ c, extends a a' (c ++ [i_ret]).
Proof.
  unfold compile_body. intros Hs. res_step Hs as rd G0.
  res_step Hs as a1 G1. res_step Hs as a2 G2. res_step Hs as rs G11.
  res_step Hs as [locals size] G12. res_step Hs as lr G13. res_step Hs as [[locals' size'] fv1] G14.
  res_step Hs as a3 G3. res_step Hs as [[rs1 e1] a4] G4. res_step Hs as [[h1 fv2] a5] G5.
  res_step Hs as u G15. res_step Hs as [rs2 a6] G6. res_step Hs as a7 G7.
  res_step Hs as a8 G8. res_step Hs as a9 G9. res_step Hs as a10 G10.
  apply Ok_inj in Hs as [= _ <-].
  apply (for_each_grows snd) in G4; [|intros ? ? ? _; apply store_param_grows].
  apply (for_each_grows snd) in G5; [|intros ? ? ? _; apply compile_op_grows].
  apply (for_each_grows snd) in G6; [|intros ? ? ? _; apply pop_result_grows]. simpl in G4, G5, G6.
  apply emit_grows in G1, G2, G8, G9. apply alloc_locals_grows in G3. apply free_locals_grows in G7.
  assert (grows a a9) as [c Hc] by (repeat (etrans; [eassumption|]); reflexivity).
  exists c. eapply extends_trans; [exact Hc|]. by eapply emit_extends.
Qed.
End Grows.

(** ** Progress of the assembler *)
Section Advances.
Context {A E B : Type} `{Assembler A E} `{!AssemblerLaws A E}.

(** No label that was not handed out yet is bound. *)
Definition unbound (a : A) : Prop := ∀ l, asm_next_label a <= label_id l -> asm_bound a l = None.

(** A label that was handed out and not bound. *)
Definition fresh (a : A) (l : CodeLabel) : Prop :=
  label_id l < asm_next_label a /\ asm_bound a l = None.

(** From [a] to [a'] the code [c] was added and labels were handed out; old
    labels were not touched. *)
Record advances (a a' : A) (c : list Instruction) : Prop := {
  adv_instrs : asm_instructions a' = asm_instructions a ++ c;
  adv_next : asm_next_label a <= asm_next_label a';
  adv_bound l : label_id l < asm_next_label a -> asm_bound a' l = asm_bound a l;
  adv_unbound : unbound a -> unbound a';
  adv_pending : asm_pending a = false -> asm_pending a' = false }.

Lemma advances_refl a : advances a a [].
Proof. split; try done. by rewrite app_nil_r. Qed.

Lemma advances_trans a1 a2 a3 c1 c2 :
  advances a1 a2 c1 -> advances a2 a3 c2 -> advances a1 a3 (c1 ++ c2).
Proof.
  intros [I1 N1 B1 U1 P1] [I2 N2 B2 U2 P2]. split; [|lia| |auto|auto].
  - by rewrite I2, I1, app_assoc.
  - intros l Hl. rewrite B2 by lia. by apply B1.
Qed.

Lemma extends_advances a a' c : extends a a' c -> advances a a' c.
Proof.
  intros [Hi Hb Hn Hp]. split; [done|lia|auto| |done].
  intros Hu l Hl. rewrite Hb. apply Hu. lia.
Qed.

Lemma create_label_advances a l a' :
  asm_create_label a = (l, a') ->
  advances a a' [] /\ label_id l = asm_next_label a /\ asm_next_label a' = asm_next_label a + 1 /\
  (unbound a -> fresh a' l).
Proof.
  destruct (law_create_label a) as (a1 & -> & Hi & Hp & Hb & Hn). intros [= <- <-].
  split; [|split; [done|split; [done|]]].
  - split; [by rewrite app_nil_r|lia|auto| |congruence]. intros Hu l Hl. rewrite Hb. apply Hu. lia.
  - intros Hu. split; [simpl; lia|]. rewrite Hb. apply Hu. simpl. lia.
Qed.

(** Handing out a label and binding it right here. *)
Lemma bind_here_advances a l a1 a2 a3 :
  asm_create_label a = (l, a1) -> @asm_call E B _ (asm_set_label a1 l) = Ok a2 ->
  @emit A E B _ i_zero_bytes a2 = Ok a3 -> asm_pending a = false -> unbound a ->
  advances a a3 [i_zero_bytes] /\ asm_bound a3 l = Some (length (asm_instructions a)) /\
  asm_pending a3 = false.
Proof.
  intros (Ha & Hid & Hn1 & Hf)%create_label_advances Hs He Hp Hu. destruct (Hf Hu) as [_ Hb1].
  destruct (law_set_label a1 l (adv_pending _ _ _ Ha Hp) Hb1) as (a2' & Hs' & I2 & P2 & B2 & O2 & N2).
  rewrite Hs' in Hs. unfold asm_call in Hs. apply Ok_inj in Hs as ->.
  destruct (law_add a2 i_zero_bytes) as (a3' & He' & I3 & P3 & B3 & N3).
  unfold emit in He. rewrite He' in He. apply Ok_inj in He as ->.
  pose proof (adv_instrs _ _ _ Ha) as Hi. rewrite app_nil_r in Hi.
  split; [|split; [by rewrite B3, B2, Hi|done]]. split; [by rewrite I3, I2, Hi|lia| | |done].
  - intros l' Hl'. rewrite B3, O2; [by apply (adv_bound _ _ _ Ha)|]. intros ->. lia.
  - intros _ l' Hl'. rewrite B3, O2 by (intros ->; lia). apply (adv_unbound _ _ _ Ha Hu). lia.
Qed.

Lemma emit_advances i a a' : @emit A E B _ i a = Ok a' -> advances a a' [i] /\ asm_pending a' = false.
Proof.
  unfold emit. destruct (law_add a i) as (a1 & -> & I1 & P1 & B1 & N1). intros <-%Ok_inj.
  split; [|done]. split; [done|lia|auto| |done]. intros Hu l Hl. rewrite B1. apply Hu. lia.
Qed.

Lemma fresh_advances a a' c l : advances a a' c -> fresh a l -> fresh a' l.
Proof.
  intros Ha [Hl Hb]. pose proof (adv_next _ _ _ Ha). split; [lia|]. by rewrite (adv_bound _ _ _ Ha).
Qed.
End Advances.

(** ** Marks

    A mark is an instruction index with its label. *)
Definition cut (code : list Instruction) (i : Z) : Prop :=
  0 <= i <= Z.of_nat (length code) /\ ends_with_barrier (take (Z.to_nat i) code) = true.

Lemma cut_app code c i : cut code i -> cut (code ++ c) i.
Proof.
  intros [Hi Hb]. split; [rewrite length_app; lia|]. by rewrite take_app_le by lia.
Qed.

Lemma cut_end code : ends_with_barrier code = true -> cut code (Z.of_nat (length code)).
Proof. intros. split; [lia|]. by rewrite Nat2Z.id, firstn_all. Qed.

Lemma ends_with_barrier_app l1 l2 :
  ends_with_barrier l1 = true -> ends_with_barrier l2 = true -> ends_with_barrier (l1 ++ l2) = true.
Proof.
  destruct l2 as [|b l2 _] using rev_ind; [by rewrite app_nil_r|].
  by rewrite app_assoc, !ends_with_barrier_snoc.
Qed.

Section Marks.
Context {A E B : Type} `{Assembler A E} `{!AssemblerLaws A E}.

Definition mark_ok (a : A) (x : Z * CodeLabel) : Prop :=
  fresh a x.2 /\ x.1 < Z.of_nat (length (asm_instructions a)) /\ cut (asm_instructions a) x.1.

Lemma mark_ok_advances a a' c x : advances a a' c -> mark_ok a x -> mark_ok a' x.
Proof.
  intros Ha (Hf & Hx & Hc). pose proof (adv_instrs _ _ _ Ha) as Hi. split_and!.
  - by eapply fresh_advances.
  - rewrite Hi, length_app. lia.
  - rewrite Hi. by apply cut_app.
Qed.

(** A new mark at the end of the code. *)
Lemma mark_ok_here a a' c l :
  advances a a' c -> c <> [] -> ends_with_barrier (asm_instructions a) = true -> fresh a' l ->
  mark_ok a' (here a, l).
Proof.
  intros Ha Hc Hb Hf. unfold here. split; [done|]. rewrite (adv_instrs _ _ _ Ha). simpl. split.
  - rewrite length_app. destruct c; [done|]. simpl. lia.
  - by apply cut_app, cut_end.
Qed.

Record marks_wf (a : A) (marks : list (Z * CodeLabel)) : Prop := {
  marks_ok x : x ∈ marks -> mark_ok a x;
  marks_sorted : StronglySorted (fun x y => x.1 < y.1) marks;
  marks_nodup : NoDup (map snd marks) }.

Lemma marks_wf_advances a a' c marks : advances a a' c -> marks_wf a marks -> marks_wf a' marks.
Proof. intros Ha [Ho Hs Hn]. split; [|done..]. intros x Hx. by eapply mark_ok_advances, Ho. Qed.

Lemma marks_fresh a marks l : marks_wf a marks -> l ∈ map snd marks -> fresh a l.
Proof. intros [Ho _ _] ([i l'] & -> & Hx)%list_elem_of_fmap. by apply (Ho (i, l')). Qed.

Lemma marks_wf_snoc a a' c marks l :
  advances a a' c -> c <> [] -> ends_with_barrier (asm_instructions a) = true -> fresh a' l ->
  l ∉ map snd marks -> marks_wf a marks -> marks_wf a' (marks ++ [(here a, l)]).
Proof.
  intros Ha Hc Hb Hf Hl Hm. pose proof (marks_wf_advances _ _ _ _ Ha Hm) as [Ho Hs Hn]. split.
  - intros x [Hx|Hx%list_elem_of_singleton]%elem_of_app; [by apply Ho|subst]. by eapply mark_ok_here.
  - apply StronglySorted_app. split_and!; [|done|by repeat constructor].
    intros x y Hx ->%list_elem_of_singleton. by apply (marks_ok _ _ Hm x Hx).
  - rewrite map_app. apply NoDup_app. split_and!; [done| |apply NoDup_singleton].
    intros l' Hl' ->%list_elem_of_singleton. done.
Qed.
End Marks.

(** ** The invariant of the loop *)
Section Layout.
Context {A E B V W P R MT : Type} `{Assembler A E} `{!AssemblerLaws A E} `{FuncValidator V B} `{Profile}.
Context `{!Parser P B R MT, !Validator W V B R MT} (Hdebug : overflow_checks = true).

Abbreviation code_of_state s := (asm_instructions (s_assembler s)).

Record layout (s : cstate A MT) : Prop := {
  lay_unbound : unbound (s_assembler s);
  lay_pending : asm_pending (s_assembler s) = false;
  lay_cut : ends_with_barrier (code_of_state s) = true;
  lay_marks : marks_wf (s_assembler s) (s_label_indices s);
  (* a function's label is fresh; it marks code only once its body was compiled *)
  lay_got k l : s_got s !! k = Some l -> fresh (s_assembler s) l /\ k < s_function_index s /\
    (l ∈ map snd (s_label_indices s) -> k < s_function_body_index s);
  lay_got_inj j k l : s_got s !! j = Some l -> s_got s !! k = Some l -> j = k;
  lay_bodies l k : (l, k) ∈ s_function_bodies s -> s_got s !! k = Some l /\
    k < s_function_body_index s /\ l ∈ map snd (s_label_indices s);
  lay_bodies_nodup : NoDup (map snd (s_function_bodies s));
  lay_entries : function_bodies (s_module s) = ∅ }.

Lemma layout_new (a : A) :
  asm_new 64 = inr a -> layout (cstate_new a).
Proof.
  destruct law_new as (a1 & -> & Hi & Hp & Hb). intros [= <-].
  split; simpl; try done; [intros l _; apply Hb|by rewrite Hi|..].
  - split; [by intros x ?%not_elem_of_nil|constructor|apply NoDup_nil_2].
  - intros l k ?%not_elem_of_nil. done.
  - apply NoDup_nil_2.
Qed.

(** A label handed out after the state was reached is new. *)
Lemma new_label_not_marked s l :
  layout s -> label_id l = asm_next_label (s_assembler s) -> l ∉ map snd (s_label_indices s).
Proof.
  intros Hs Hl Hin. destruct (marks_fresh _ _ _ (lay_marks _ Hs) Hin). lia.
Qed.

(** What an import does: its slot starts where the code ended. *)
Lemma import_item_inv i s s' :
  layout s -> @import_item A E B MT _ _ i s = Ok s' ->
  ∃ import a1 off, i = inr import /\ advances (s_assembler s) a1 [i_zero_bytes] /\
    asm_pending a1 = false /\ off = code_size (code_of_state s) /\
    match import_ty import with
    | ImportFunction function_type =>
        ∃ label a2, advances a1 a2 [i_dq unlinked] /\ asm_pending a2 = false /\ fresh a2 label /\
          asm_next_label (s_assembler s) <= label_id label /\
          s' = mkC a2 (s_got s) (<[s_function_index s := label]> (s_ils s))
            (mkModule (functions (s_module s)) (function_bodies (s_module s))
               (function_stack_heights (s_module s)) (exports (s_module s))
               (<[s_function_index s := (import_module import, import_field import, off)]>
                  (imports (s_module s))) (memories (s_module s)))
            (s_function_index s + 1) (s_function_body_index s + 1) (s_function_typedefs s)
            (s_function_type_index s) (<[s_function_index s := function_type]> (s_function_types s))
            (s_label_indices s ++ [(here a1, label)]) (s_function_bodies s)
    | ImportOther =>
        s' = mkC a1 (s_got s) (s_ils s) (s_module s) (s_function_index s) (s_function_body_index s)
          (s_function_typedefs s) (s_function_type_index s) (s_function_types s)
          (s_label_indices s) (s_function_bodies s)
    end.
Proof.
  intros Hs Hi. unfold import_item in Hi. res_step Hi as import G0.
  destruct i as [|import']; [done|]. injection G0 as ->.
  destruct (asm_create_label (s_assembler s)) as [l0 a0] eqn:Hc0.
  res_step Hi as a1 G1. res_step Hi as a2 G2. res_step Hi as off G3.
  destruct (bind_here_advances (B := B) _ _ _ _ _ Hc0 G1 G2 (lay_pending _ Hs) (lay_unbound _ Hs))
    as (Ha & Hb & Hp).
  assert (Hoff : off = code_size (code_of_state s)).
  { unfold asm_call in G3. destruct (asm_label_ip a2 l0) as [|ip] eqn:Hip; [done|].
    injection G3 as <-. rewrite (law_label_ip _ _ _ _ Hip Hb), (adv_instrs _ _ _ Ha).
    by rewrite take_app_length. }
  exists import, a2, off. split_and!; try done.
  destruct (import_ty import) as [ft|]; [|by apply Ok_inj in Hi as <-].
  destruct (asm_create_label a2) as [l a3] eqn:Hc.
  res_step Hi as a4 G4. res_step Hi as fi G5. res_step Hi as fbi G6.
  apply u32_arith_exact in G5 as ->; [|done]. apply u32_arith_exact in G6 as ->; [|done].
  apply create_label_advances in Hc as (Ha3 & Hid & Hn & Hf).
  destruct (emit_advances (B := B) _ _ _ G4) as [Ha4 Hp4].
  exists l, a4. split_and!.
  - exact (advances_trans _ _ _ _ _ Ha3 Ha4).
  - done.
  - eapply fresh_advances; [exact Ha4|]. apply Hf, (adv_unbound _ _ _ Ha), (lay_unbound _ Hs).
  - rewrite Hid. apply (adv_next _ _ _ Ha).
  - apply Ok_inj in Hi as <-. unfold here. by rewrite (adv_instrs _ _ _ Ha3), app_nil_r.
Qed.

Lemma layout_import i s s' : layout s -> @import_item A E B MT _ _ i s = Ok s' -> layout s'.
Proof.
  intros Hs Hi. pose proof Hs as [Hu Hp Hc Hm Hg Hgi Hb Hbn He].
  destruct (import_item_inv _ _ _ Hs Hi) as (import & a1 & off & -> & Ha & Hp1 & _ & Hcase).
  assert (Hc1 : ends_with_barrier (asm_instructions a1) = true)
    by (rewrite (adv_instrs _ _ _ Ha); by apply ends_with_barrier_app).
  destruct (import_ty import) as [ft|].
  - destruct Hcase as (l & a2 & Ha2 & Hp2 & Hf & Hl & ->).
    pose proof (advances_trans _ _ _ _ _ Ha Ha2) as Ha'. split; simpl; try done.
    + by apply (adv_unbound _ _ _ Ha').
    + rewrite (adv_instrs _ _ _ Ha2). by apply ends_with_barrier_app.
    + apply (marks_wf_snoc _ _ _ _ _ Ha2); try done.
      * intros Hin. destruct (marks_fresh _ _ _ Hm Hin). lia.
      * by eapply marks_wf_advances.
    + intros k l' Hk. destruct (Hg k l' Hk) as (Hf' & Hk1 & Hk2). split_and!.
      * by eapply fresh_advances.
      * lia.
      * rewrite map_app. intros [Hin| ->%list_elem_of_singleton]%elem_of_app; [specialize (Hk2 Hin); lia|].
        destruct Hf'. simpl in *. lia.
    + intros l' k (? & ? & ?)%Hb. rewrite map_app. split_and!; [done|lia|]. apply elem_of_app. by left.
  - subst s'. split; simpl; try done.
    + by apply (adv_unbound _ _ _ Ha).
    + by eapply marks_wf_advances.
    + intros k l' Hk. destruct (Hg k l' Hk) as (Hf' & ?). split; [by eapply fresh_advances|done].
Qed.

(** What a function does: a slot, and a label for its code to come. *)
Lemma function_item_inv ft s s' :
  layout s -> @function_item A E B MT _ _ ft s = Ok s' ->
  ∃ function_type label fun_label a1, ft = inr function_type /\
    advances (s_assembler s) a1 [i_dq 0] /\ asm_pending a1 = false /\
    fresh a1 label /\ fresh a1 fun_label /\ label <> fun_label /\
    asm_next_label (s_assembler s) <= label_id label /\
    asm_next_label (s_assembler s) <= label_id fun_label /\
    s' = mkC a1 (<[s_function_index s := fun_label]> (s_got s)) (s_ils s)
      (mkModule (<[s_function_index s := here (s_assembler s)]> (functions (s_module s)))
         (function_bodies (s_module s)) (function_stack_heights (s_module s)) (exports (s_module s))
         (imports (s_module s)) (memories (s_module s)))
      (s_function_index s + 1) (s_function_body_index s) (s_function_typedefs s)
      (s_function_type_index s) (<[s_function_index s := function_type]> (s_function_types s))
      (s_label_indices s ++ [(here (s_assembler s), label)]) (s_function_bodies s).
Proof.
  intros Hs Hi. unfold function_item in Hi.
  destruct (asm_create_label (s_assembler s)) as [l0 a0] eqn:Hc0.
  res_step Hi as a1 G1. destruct (asm_create_label a1) as [l1 a2] eqn:Hc1.
  res_step Hi as t G2. res_step Hi as fi G3. apply u32_arith_exact in G3 as ->; [|done].
  destruct ft as [|ft]; [done|]. injection G2 as ->.
  apply create_label_advances in Hc0 as (Ha0 & Hid0 & Hn0 & Hf0).
  apply create_label_advances in Hc1 as (Ha2 & Hid1 & Hn1 & Hf1).
  destruct (emit_advances (B := B) _ _ _ G1) as [Ha1 Hp1].
  pose proof (adv_next _ _ _ Ha1). pose proof (adv_next _ _ _ Ha2).
  assert (Hh : here a0 = here (s_assembler s)).
  { unfold here. by rewrite (adv_instrs _ _ _ Ha0), app_nil_r. }
  assert (Hadv : advances (s_assembler s) a1 [i_dq 0]) by exact (advances_trans _ _ _ _ _ Ha0 Ha1).
  exists t, l0, l1, a2. split_and!; try done.
  - exact (advances_trans _ _ _ _ _ Hadv Ha2).
  - by apply (adv_pending _ _ _ Ha2).
  - eapply fresh_advances; [exact Ha2|]. eapply fresh_advances; [exact Ha1|].
    apply Hf0, (lay_unbound _ Hs).
  - apply Hf1, (adv_unbound _ _ _ Hadv), (lay_unbound _ Hs).
  - intros ->. lia.
  - lia.
  - lia.
  - apply Ok_inj in Hi as <-. by rewrite Hh.
Qed.

Lemma layout_function ft s s' : layout s -> @function_item A E B MT _ _ ft s = Ok s' -> layout s'.
Proof.
  intros Hs Hi. pose proof Hs as [Hu Hp Hc Hm Hg Hgi Hb Hbn He].
  destruct (function_item_inv _ _ _ Hs Hi)
    as (t & l & fl & a1 & -> & Ha & Hp1 & Hf & Hff & Hne & Hl & Hfl & ->).
  assert (Hnew : ∀ l', asm_next_label (s_assembler s) <= label_id l' -> l' ∉ map snd (s_label_indices s)).
  { intros l' Hl' Hin. destruct (marks_fresh _ _ _ Hm Hin). lia. }
  assert (Hgnew : ∀ k l', asm_next_label (s_assembler s) <= label_id l' -> s_got s !! k <> Some l').
  { intros k l' Hl' Hk. destruct (Hg k l' Hk) as ([? _] & _). lia. }
  split; simpl; try done.
  - by apply (adv_unbound _ _ _ Ha).
  - rewrite (adv_instrs _ _ _ Ha). by apply ends_with_barrier_app.
  - apply (marks_wf_snoc _ _ _ _ _ Ha); auto.
  - intros k l'. rewrite map_app, elem_of_app. simpl.
    intros [[<- <-]|[Hk Hk']]%lookup_insert_Some.
    + split; [done|]. split; [lia|]. intros [Hin| ->%list_elem_of_singleton]; [|done].
      by apply Hnew in Hin.
    + destruct (Hg k l' Hk') as (Hf' & Hk1 & Hk2). split; [by eapply fresh_advances|]. split; [lia|].
      intros [Hin| ->%list_elem_of_singleton]; [by apply Hk2|]. by apply Hgnew in Hk'.
  - intros j k l' [[<- <-]|[Hj Hj']]%lookup_insert_Some [[<- Heq]|[Hk Hk']]%lookup_insert_Some; try done.
    + by apply Hgnew in Hk'.
    + subst. by apply Hgnew in Hj'.
    + by eapply Hgi.
  - intros l' k (Hk & ? & ?)%Hb. rewrite map_app, elem_of_app. split; [|auto].
    rewrite lookup_insert_ne; [done|]. intros <-. destruct (Hg _ _ Hk). lia.
Qed.

(** What a function body does. *)
Lemma code_section_entry_inv fv cs s s' :
  @code_section_entry A E B V MT _ _ _ fv cs s = Ok s' ->
  ∃ ft fun_label h a1 c,
    lookup_function_type (s_function_types s) (s_function_typedefs s) (s_function_body_index s) = Some ft /\
    s_got s !! s_function_body_index s = Some fun_label /\
    @compile_body A E B V _ _ _ (s_got s) (s_ils s) (s_function_typedefs s) (s_function_types s) ft cs
      fv (s_assembler s) = Ok (h, a1) /\
    extends (s_assembler s) a1 (c ++ [i_ret]) /\
    s' = mkC a1 (s_got s) (s_ils s)
      (mkModule (functions (s_module s)) (function_bodies (s_module s))
         (<[s_function_body_index s := h]> (function_stack_heights (s_module s))) (exports (s_module s))
         (imports (s_module s)) (memories (s_module s)))
      (s_function_index s) (s_function_body_index s + 1) (s_function_typedefs s)
      (s_function_type_index s) (s_function_types s)
      (s_label_indices s ++ [(here (s_assembler s), fun_label)])
      (s_function_bodies s ++ [(fun_label, s_function_body_index s)]).
Proof.
  intros Hi. unfold code_section_entry in Hi.
  res_step Hi as ft G0. res_step Hi as fl G1. res_step Hi as [h a1] G2. res_step Hi as fbi G3.
  apply u32_arith_exact in G3 as ->; [|done]. apply Ok_inj in Hi as <-.
  destruct (compile_body_extends _ _ _ _ _ _ _ _ _ _ G2) as [c Hc].
  exists ft, fl, h, a1, c. split_and!; try done.
  - unfold of_option in G0. case_match; congruence.
  - unfold of_option in G1. case_match; congruence.
Qed.

Lemma layout_code fv cs s s' :
  layout s -> @code_section_entry A E B V MT _ _ _ fv cs s = Ok s' -> layout s'.
Proof.
  intros [Hu Hp Hc Hm Hg Hgi Hb Hbn He] Hi.
  destruct (code_section_entry_inv _ _ _ _ Hi) as (ft & fl & h & a1 & c & _ & Hfl & _ & Hx & ->).
  pose proof (extends_advances _ _ _ Hx) as Ha. destruct (Hg _ _ Hfl) as (Hf & Hlt & Hmk).
  assert (Hnot : fl ∉ map snd (s_label_indices s)) by (intros Hin; specialize (Hmk Hin); lia).
  split; simpl; try done.
  - by apply (adv_unbound _ _ _ Ha).
  - by apply (adv_pending _ _ _ Ha).
  - rewrite (adv_instrs _ _ _ Ha), app_assoc. by rewrite ends_with_barrier_snoc.
  - apply (marks_wf_snoc _ _ _ _ _ Ha); try done; [by destruct c|by eapply fresh_advances].
  - intros k l Hk. destruct (Hg k l Hk) as (Hf' & Hk1 & Hk2). split; [by eapply fresh_advances|].
    split; [done|]. rewrite map_app. intros [Hin| ->%list_elem_of_singleton]%elem_of_app.
    + specialize (Hk2 Hin). lia.
    + simpl in Hk. rewrite (Hgi _ _ _ Hk Hfl). lia.
  - intros l k. rewrite map_app. intros [Hin|[= -> ->]%list_elem_of_singleton]%elem_of_app.
    + destruct (Hb _ _ Hin) as (? & ? & ?). split_and!; [done|lia|]. apply elem_of_app. by left.
    + split_and!; [done|lia|]. apply elem_of_app. right. apply list_elem_of_here.
  - rewrite map_app. apply NoDup_app. split_and!; [done| |apply NoDup_singleton].
    intros k ([l k'] & Hk & Hin)%list_elem_of_fmap Hk'%list_elem_of_singleton.
    destruct (Hb _ _ Hin) as (_ & Hlt' & _). simpl in Hk, Hk'. subst. lia.
Qed.

(** The other items leave code, labels, indices and imports alone. *)
Record same_code (s s' : cstate A MT) : Prop := {
  same_assembler : s_assembler s' = s_assembler s;
  same_got : s_got s' = s_got s;
  same_ils : s_ils s' = s_ils s;
  same_imports : imports (s_module s') = imports (s_module s);
  same_functions : functions (s_module s') = functions (s_module s);
  same_types : s_function_types s' = s_function_types s;
  same_entries : function_bodies (s_module s') = function_bodies (s_module s);
  same_heights : function_stack_heights (s_module s') = function_stack_heights (s_module s);
  same_index : s_function_index s' = s_function_index s;
  same_body_index : s_function_body_index s' = s_function_body_index s;
  same_labels : s_label_indices s' = s_label_indices s;
  same_bodies : s_function_bodies s' = s_function_bodies s }.

Lemma memory_item_same m s s' : @memory_item A E B MT m s = Ok s' -> same_code s s'.
Proof. unfold memory_item. intros Hi. res_step Hi as x G0. apply Ok_inj in Hi as <-. by split. Qed.

Lemma export_item_same e s s' : @export_item A E B MT e s = Ok s' -> same_code s s'.
Proof. unfold export_item. intros Hi. res_step Hi as x G0. apply Ok_inj in Hi as <-. by split. Qed.

Lemma type_item_same t s s' : @type_item A E B MT _ t s = Ok s' -> same_code s s'.
Proof.
  unfold type_item. intros Hi. res_step Hi as x G0. destruct x; [res_step Hi as y G1|];
    apply Ok_inj in Hi as <-; by split.
Qed.

Lemma layout_same s s' : same_code s s' -> layout s -> layout s'.
Proof.
  intros [Ea Eg _ _ _ _ Ee _ Ei Eb El Ef] [Hu Hp Hc Hm Hg Hgi Hb Hbn He].
  split; rewrite ?Ea, ?El, ?Ef, ?Ee; try done.
  - intros k l. rewrite Eg, Ei, Eb. apply Hg.
  - intros j k l. rewrite Eg. apply Hgi.
  - intros l k. rewrite Eg, Eb. apply Hb.
Qed.

(** *** One rule for all the items

    A predicate kept by the four kinds of steps is kept by every payload. *)
Lemma handle_payload_ind (Q : cstate A MT -> Prop) payload w s w' s' :
  (∀ s s', same_code s s' -> Q s -> Q s') ->
  (∀ i s s', (∃ imps, payload = Payload.ImportSection imps) -> Q s ->
     @import_item A E B MT _ _ i s = Ok s' -> Q s') ->
  (∀ ft s s', Q s -> @function_item A E B MT _ _ ft s = Ok s' -> Q s') ->
  (∀ fv cs s s', payload = Payload.CodeSectionEntry cs -> Q s ->
     @code_section_entry A E B V MT _ _ _ fv cs s = Ok s' -> Q s') ->
  Q s -> @handle_payload A E B V W R MT _ _ _ _ payload (w, s) = Ok (w', s') -> Q s'.
Proof.
  intros Hsame Himp Hfun Hcode Hs Hp.
  destruct payload; cbn [handle_payload validate_section] in Hp;
    try (apply Ok_inj in Hp as [= _ <-]; exact Hs);
    try (res_step Hp as w1 G0; apply Ok_inj in Hp as [= _ <-]; exact Hs).
  - res_step Hp as w1 G0. res_step Hp as s1 G1. apply Ok_inj in Hp as [= _ <-].
    eapply (for_each_inv _ Q); [|exact Hs|exact G1]. intros x t t' _ Ht Hx.
    eapply Hsame; [by eapply type_item_same|done].
  - res_step Hp as w1 G0. res_step Hp as s1 G1. apply Ok_inj in Hp as [= _ <-].
    eapply (for_each_inv _ Q); [|exact Hs|exact G1]. intros x t t' _ Ht Hx.
    eapply Himp; [by eexists|done..].
  - res_step Hp as w1 G0. res_step Hp as s1 G1. apply Ok_inj in Hp as [= _ <-].
    eapply (for_each_inv _ Q); [|exact Hs|exact G1]. intros x t t' _ Ht Hx. by eapply Hfun.
  - res_step Hp as w1 G0. res_step Hp as s1 G1. apply Ok_inj in Hp as [= _ <-].
    eapply (for_each_inv _ Q); [|exact Hs|exact G1]. intros x t t' _ Ht Hx.
    eapply Hsame; [by eapply memory_item_same|done].
  - res_step Hp as w1 G0. res_step Hp as s1 G1. apply Ok_inj in Hp as [= _ <-].
    eapply (for_each_inv _ Q); [|exact Hs|exact G1]. intros x t t' _ Ht Hx.
    eapply Hsame; [by eapply export_item_same|done].
  - res_step Hp as [fv w1] G0. res_step Hp as s1 G1. apply Ok_inj in Hp as [= _ <-]. by eapply Hcode.
Qed.

Lemma layout_payload payload w s w' s' :
  layout s -> @handle_payload A E B V W R MT _ _ _ _ payload (w, s) = Ok (w', s') -> layout s'.
Proof.
  apply (handle_payload_ind layout).
  - apply layout_same.
  - intros i t t' _ Ht. by apply layout_import.
  - intros ft t t' Ht. by apply layout_function.
  - intros fv cs t t' _ Ht. by apply layout_code.
Qed.

Lemma layout_payloads ps w s w' s' :
  layout s -> for_each (@handle_payload A E B V W R MT _ _ _ _) ps (w, s) = Ok (w', s') -> layout s'.
Proof.
  intros Hs Hp. apply (for_each_inv _ (fun st => layout st.2) ps (w, s) (w', s')) in Hp; [done| |done].
  intros p [w1 s1] [w2 s2] _. apply layout_payload.
Qed.
End Layout.
