(* ===== verification/Tables.v ===== *)
(** * What the tables say about the collected code

    Two more invariants of [compile]'s loop: every import of the table has its
    slot in the code ([slots]), and the code of a compiled function stays where
    it was put, under its mark ([piece]). *)
From S2P Require Import Prelude X86 Assembler Optimizer Wasm Instructions.
From S2P Require Import Function ModuleApi Compile Layout.

Section Sizes.
Context {A E : Type} `{Assembler A E} `{!AssemblerLaws A E}.

Lemma code_size_app l1 l2 : code_size (l1 ++ l2) = code_size l1 + code_size l2.
Proof. unfold code_size. induction l1 as [|i l1 IH]; simpl; [done|]. rewrite IH. lia. Qed.

Lemma code_size_nonneg l : 0 <= code_size l.
Proof.
  unfold code_size. induction l as [|i l IH]; simpl; [done|]. pose proof (law_size_nonneg i). lia.
Qed.

Lemma code_size_zero_bytes l : code_size (l ++ [i_zero_bytes]) = code_size l.
Proof. rewrite code_size_app. unfold code_size at 2. simpl. rewrite law_size_zero_bytes. lia. Qed.

(** Of two positions with an instruction in between, the later one is at least
    that instruction further. *)
Lemma code_size_take_lt l i n m :
  (n < m)%nat -> l !! n = Some i -> code_size (take n l) + instr_size i <= code_size (take m l).
Proof.
  intros Hnm Hn. rewrite <- (take_drop_middle l n i Hn) at 2.
  rewrite take_app_ge by (rewrite length_take; lia). rewrite code_size_app.
  rewrite length_take, Nat.min_l by (apply lookup_lt_Some in Hn; lia).
  destruct (m - n)%nat as [|k] eqn:Hk; [lia|]. cbn [take].
  change (code_size (i :: ?x)) with (instr_size i + code_size x).
  pose proof (code_size_nonneg (take k (drop (S n) l))). lia.
Qed.
End Sizes.

Section Tables.
Context {A E B V W P R MT : Type} `{Assembler A E} `{!AssemblerLaws A E} `{FuncValidator V B} `{Profile}.
Context `{!Parser P B R MT, !Validator W V B R MT} (Hdebug : overflow_checks = true).

Abbreviation code_of_state s := (asm_instructions (s_assembler s)).

(** Only instructions the optimizer does not touch. *)
Definition flat (s : cstate A MT) : Prop := Forall (fun i => barrier i = true) (code_of_state s).

(** The slot of an import: a quadword at instruction [n], at byte [off], with
    nothing before it that the optimizer could change. *)
Definition slot_at (code : list Instruction) (n : nat) (off : Z) : Prop :=
  code !! n = Some (i_dq unlinked) /\ off = code_size (take n code) /\
  Forall (fun i => barrier i = true) (take n code).

Record slots (s : cstate A MT) : Prop := {
  slot_import i m f off : imports (s_module s) !! i = Some (m, f, off) ->
    ∃ l n, s_ils s !! i = Some l /\ (Z.of_nat n, l) ∈ s_label_indices s /\
      slot_at (code_of_state s) n off;
  slot_label i l : s_ils s !! i = Some l -> i < s_function_index s /\ l ∈ map snd (s_label_indices s);
  slot_inj i j l : s_ils s !! i = Some l -> s_ils s !! j = Some l -> i = j }.

Lemma slot_at_app code c n off : slot_at code n off -> slot_at (code ++ c) n off.
Proof.
  intros (Hn & -> & Hf). pose proof (lookup_lt_Some _ _ _ Hn). unfold slot_at.
  rewrite take_app_le by lia. split; [by apply lookup_app_l_Some|done].
Qed.

Lemma slots_new (a : A) : slots (cstate_new a).
Proof. split; simpl; intros *; rewrite lookup_empty; done. Qed.

(** Steps that leave the imports alone. *)
Lemma slots_grow s s' c marks :
  slots s -> imports (s_module s') = imports (s_module s) -> s_ils s' = s_ils s ->
  s_function_index s <= s_function_index s' -> code_of_state s' = code_of_state s ++ c ->
  s_label_indices s' = s_label_indices s ++ marks -> slots s'.
Proof.
  intros [Hi Hl Hj] Ei Es Hx Ec Em. split.
  - intros i m f off. rewrite Ei. intros (l & n & Hls & Hm & Hat)%Hi. exists l, n.
    rewrite Es, Em, Ec. split; [done|]. split; [apply elem_of_app; by left|by apply slot_at_app].
  - intros i l. rewrite Es, Em, map_app. intros [? ?]%Hl. split; [lia|]. apply elem_of_app. by left.
  - intros i j l. rewrite Es. apply Hj.
Qed.

Lemma slots_import i s s' :
  layout s -> slots s -> flat s -> @import_item A E B MT _ _ i s = Ok s' -> slots s' /\ flat s'.
Proof.
  intros Hs Hsl Hfl Hi.
  destruct (import_item_inv Hdebug _ _ _ Hs Hi) as (import & a1 & off & -> & Ha & _ & Hoff & Hcase).
  pose proof (adv_instrs _ _ _ Ha) as Hc1. destruct (import_ty import) as [ft|].
  - destruct Hcase as (l & a2 & Ha2 & _ & _ & Hl & ->). pose proof (adv_instrs _ _ _ Ha2) as Hc2.
    split; [|unfold flat; simpl; rewrite Hc2, Hc1; rewrite !Forall_app; by repeat constructor].
    destruct Hsl as [Hsi Hsl Hsj].
    assert (Hnew : l ∉ map snd (s_label_indices s)).
    { intros Hin. destruct (marks_fresh _ _ _ (lay_marks _ Hs) Hin). lia. }
    split; simpl.
    + intros i m f off' [[<- [= _ _ <-]]|[Hne Hk]]%lookup_insert_Some.
      * exists l, (length (asm_instructions a1)). rewrite lookup_insert_eq. split; [done|].
        split; [apply elem_of_app; right; apply list_elem_of_here|]. unfold slot_at. rewrite Hc2.
        rewrite lookup_app_r, Nat.sub_diag, take_app_length by done. split; [done|].
        rewrite Hc1, code_size_zero_bytes. split; [done|]. apply Forall_app. by repeat constructor.
      * destruct (Hsi _ _ _ _ Hk) as (l' & n & Hl' & Hm & Hat). exists l', n.
        rewrite lookup_insert_ne by done. split; [done|]. split; [apply elem_of_app; by left|].
        rewrite Hc2, Hc1. by apply slot_at_app, slot_at_app.
    + intros i l'. rewrite map_app, elem_of_app. intros [[<- <-]|[_ [? ?]%Hsl]]%lookup_insert_Some.
      * split; [lia|]. right. apply list_elem_of_here.
      * split; [lia|by left].
    + intros i j l' [[<- <-]|[Hj Hj']]%lookup_insert_Some [[<- Heq]|[Hk Hk']]%lookup_insert_Some; try done.
      * by apply Hsl in Hk' as [_ ?%Hnew].
      * subst. by apply Hsl in Hj' as [_ ?%Hnew].
      * by eapply Hsj.
  - subst s'. split; [|unfold flat; simpl; rewrite Hc1, Forall_app; by repeat constructor].
    apply (slots_grow s _ [i_zero_bytes] []); try done; by rewrite app_nil_r.
Qed.

Lemma slots_function ft s s' :
  layout s -> slots s -> @function_item A E B MT _ _ ft s = Ok s' ->
  slots s' /\ (flat s -> flat s').
Proof.
  intros Hs Hsl Hi.
  destruct (function_item_inv Hdebug _ _ _ Hs Hi)
    as (t & l & fl & a1 & -> & Ha & _ & _ & _ & _ & _ & _ & ->).
  pose proof (adv_instrs _ _ _ Ha) as Hc. split.
  - eapply (slots_grow s); try done; simpl; (lia || exact Hc).
  - unfold flat. simpl. rewrite Hc, Forall_app. by repeat constructor.
Qed.

Lemma slots_code fv cs s s' :
  slots s -> @code_section_entry A E B V MT _ _ _ fv cs s = Ok s' -> slots s'.
Proof.
  intros Hsl Hi.
  destruct (code_section_entry_inv Hdebug _ _ _ _ Hi) as (ft & fl & h & a1 & c & _ & _ & _ & Hx & ->).
  eapply (slots_grow s); try done; simpl. apply (ext_instrs _ _ _ Hx).
Qed.

Lemma slots_same s s' : same_code s s' -> slots s -> slots s'.
Proof.
  intros Hsame Hsl. eapply (slots_grow s s' [] []); try done; try apply Hsame; rewrite ?app_nil_r.
  - by rewrite (same_index _ _ Hsame).
  - by rewrite (same_assembler _ _ Hsame).
  - apply Hsame.
Qed.

Definition is_import (payload : Payload.t B R MT) : bool :=
  match payload with Payload.ImportSection _ => true | _ => false end.
Definition is_code (payload : Payload.t B R MT) : bool :=
  match payload with Payload.CodeSectionEntry _ => true | _ => false end.

(** The import section precedes the code section. *)
Definition imports_first (ps : list (Payload.t B R MT)) : Prop :=
  ∃ ps1 ps2, ps = ps1 ++ ps2 /\ forallb (fun p => negb (is_code p)) ps1 = true /\
    forallb (fun p => negb (is_import p)) ps2 = true.

Abbreviation handle := (@handle_payload A E B V W R MT _ _ _ _).

Lemma slots_before_code payload w s w' s' :
  is_code payload = false -> layout s /\ slots s /\ flat s -> handle payload (w, s) = Ok (w', s') ->
  layout s' /\ slots s' /\ flat s'.
Proof.
  intros Hp. apply (handle_payload_ind (fun s => layout s /\ slots s /\ flat s)).
  - intros t t' Hsame (Hl & Hs & Hf). split; [by eapply layout_same|]. split; [by eapply slots_same|].
    unfold flat. by rewrite (same_assembler _ _ Hsame).
  - intros i t t' _ (Hl & Hs & Hf) Hi. split; [by eapply layout_import|]. by eapply slots_import.
  - intros ft t t' (Hl & Hs & Hf) Hi. destruct (slots_function _ _ _ Hl Hs Hi).
    split; [by eapply layout_function|auto].
  - intros fv cs t t' ->. done.
Qed.

Lemma slots_after_imports payload w s w' s' :
  is_import payload = false -> layout s /\ slots s -> handle payload (w, s) = Ok (w', s') ->
  layout s' /\ slots s'.
Proof.
  intros Hp. apply (handle_payload_ind (fun s => layout s /\ slots s)).
  - intros t t' Hsame (Hl & Hs). split; [by eapply layout_same|by eapply slots_same].
  - intros i t t' [imps ->]. done.
  - intros ft t t' (Hl & Hs) Hi. destruct (slots_function _ _ _ Hl Hs Hi).
    split; [by eapply layout_function|done].
  - intros fv cs t t' _ (Hl & Hs) Hi. split; [by eapply layout_code|by eapply slots_code].
Qed.

Lemma slots_payloads ps w s w' s' :
  imports_first ps -> layout s -> slots s -> flat s ->
  for_each handle ps (w, s) = Ok (w', s') -> layout s' /\ slots s'.
Proof.
  intros (ps1 & ps2 & -> & Hps1 & Hps2) Hl Hs Hf. rewrite for_each_app. intros Hp.
  res_step Hp as [w1 s1] G1.
  apply (for_each_inv _ (fun st => layout st.2 /\ slots st.2 /\ flat st.2) ps1 (w, s) (w1, s1)) in G1;
    [| |done].
  - apply (for_each_inv _ (fun st => layout st.2 /\ slots st.2) ps2 (w1, s1) (w', s')) in Hp;
      [done| |simpl in *; tauto].
    intros p [w2 s2] [w3 s3] Hin. apply slots_after_imports.
    rewrite forallb_forall in Hps2. apply list_elem_of_In in Hin. specialize (Hps2 p Hin).
    by destruct (is_import p).
  - intros p [w2 s2] [w3 s3] Hin. apply slots_before_code.
    rewrite forallb_forall in Hps1. apply list_elem_of_In in Hin. specialize (Hps1 p Hin).
    by destruct (is_code p).
Qed.

(** ** The code of one function *)

(** The code [c] of function [k] follows [l1], under the mark [l]; no other mark
    lies inside it; [h] is recorded as its height. *)
Record piece (k : Z) (l : CodeLabel) (l1 c : list Instruction) (h : Z) (s : cstate A MT) : Prop := {
  piece_index : k < s_function_body_index s;
  piece_code : ∃ l2, code_of_state s = l1 ++ c ++ l2;
  piece_mark : (Z.of_nat (length l1), l) ∈ s_label_indices s;
  piece_body : (l, k) ∈ s_function_bodies s;
  piece_height : function_stack_heights (s_module s) !! k = Some h;
  piece_alone x : x ∈ s_label_indices s ->
    x.1 <= Z.of_nat (length l1) \/ Z.of_nat (length (l1 ++ c)) <= x.1 }.

Lemma piece_grow k l l1 c h s s' c' marks bodies :
  piece k l l1 c h s -> s_function_body_index s <= s_function_body_index s' ->
  code_of_state s' = code_of_state s ++ c' -> s_label_indices s' = s_label_indices s ++ marks ->
  (∀ x, x ∈ marks -> here (s_assembler s) <= x.1) ->
  s_function_bodies s' = s_function_bodies s ++ bodies ->
  function_stack_heights (s_module s') !! k = function_stack_heights (s_module s) !! k ->
  piece k l l1 c h s'.
Proof.
  intros [Hk (l2 & Hc) Hm Hb Hh Ha] Hx Ec Em Hmarks Eb Eh. split.
  - lia.
  - exists (l2 ++ c'). rewrite Ec, Hc. by rewrite <- !app_assoc.
  - rewrite Em. apply elem_of_app. by left.
  - rewrite Eb. apply elem_of_app. by left.
  - by rewrite Eh.
  - intros x. rewrite Em. intros [?|Hin%Hmarks]%elem_of_app; [by apply Ha|right].
    unfold here in Hin. rewrite Hc, app_assoc, length_app in Hin. lia.
Qed.

(** A body just compiled. *)
Lemma piece_new fv cs s s' :
  layout s -> @code_section_entry A E B V MT _ _ _ fv cs s = Ok s' ->
  ∃ ft l h a1 c,
    lookup_function_type (s_function_types s) (s_function_typedefs s) (s_function_body_index s) = Some ft /\
    @compile_body A E B V _ _ _ (s_got s) (s_ils s) (s_function_typedefs s) (s_function_types s) ft cs
      fv (s_assembler s) = Ok (h, a1) /\
    asm_instructions a1 = code_of_state s ++ c /\
    ends_with_barrier c = true /\ c <> [] /\
    piece (s_function_body_index s) l (code_of_state s) c h s'.
Proof.
  intros Hl Hi.
  destruct (code_section_entry_inv Hdebug _ _ _ _ Hi) as (ft & l & h & a1 & c & Hft & _ & Hcb & Hx & ->).
  pose proof (ext_instrs _ _ _ Hx) as Hc.
  exists ft, l, h, a1, (c ++ [i_ret]). split_and!; try done.
  - by rewrite ends_with_barrier_snoc.
  - by destruct c.
  - split; simpl.
    + lia.
    + exists []. by rewrite app_nil_r.
    + apply elem_of_app. right. apply list_elem_of_here.
    + apply elem_of_app. right. apply list_elem_of_here.
    + by rewrite lookup_insert_eq.
    + intros x [Hin| ->%list_elem_of_singleton]%elem_of_app; left; [|simpl; unfold here; lia].
      destruct (marks_ok _ _ (lay_marks _ Hl) x Hin) as (_ & ? & _). lia.
Qed.

Lemma piece_payload k l l1 c h payload w s w' s' :
  layout s /\ piece k l l1 c h s -> handle payload (w, s) = Ok (w', s') ->
  layout s' /\ piece k l l1 c h s'.
Proof.
  apply (handle_payload_ind (fun s => layout s /\ piece k l l1 c h s)).
  - intros t t' Hsame (Hl & Hp). split; [by eapply layout_same|]. destruct Hsame.
    apply (piece_grow _ _ _ _ _ t t' [] [] []); rewrite ?app_nil_r; try done; try congruence.
    + lia.
    + by intros x ?%not_elem_of_nil.
  - intros i t t' _ (Hl & Hp) Hi. split; [by eapply layout_import|].
    destruct (import_item_inv Hdebug _ _ _ Hl Hi) as (import & a1 & off & -> & Ha & _ & _ & Hcase).
    pose proof (adv_instrs _ _ _ Ha) as Hc1. destruct (import_ty import) as [ft|].
    + destruct Hcase as (lb & a2 & Ha2 & _ & _ & _ & ->).
      eapply (piece_grow _ _ _ _ _ t _ _ _ []); try done; simpl.
      * lia.
      * rewrite (adv_instrs _ _ _ Ha2), Hc1, <- app_assoc. done.
      * intros x ->%list_elem_of_singleton. unfold here. simpl. rewrite Hc1, length_app. lia.
      * by rewrite app_nil_r.
    + subst t'. apply (piece_grow _ _ _ _ _ t _ [i_zero_bytes] [] []); rewrite ?app_nil_r; try done.
      by intros x ?%not_elem_of_nil.
  - intros ft t t' (Hl & Hp) Hi. split; [by eapply layout_function|].
    destruct (function_item_inv Hdebug _ _ _ Hl Hi)
      as (ty & lb & fl & a1 & -> & Ha & _ & _ & _ & _ & _ & _ & ->).
    eapply (piece_grow _ _ _ _ _ t _ _ _ []); try done; simpl.
    + apply (adv_instrs _ _ _ Ha).
    + by intros x ->%list_elem_of_singleton.
    + by rewrite app_nil_r.
  - intros fv cs t t' _ (Hl & Hp) Hi. split; [by eapply layout_code|].
    destruct (code_section_entry_inv Hdebug _ _ _ _ Hi) as (ft & lb & h' & a1 & c' & _ & _ & _ & Hx & ->).
    pose proof (piece_index _ _ _ _ _ _ Hp).
    eapply (piece_grow _ _ _ _ _ t); try done; simpl.
    + lia.
    + apply (ext_instrs _ _ _ Hx).
    + by intros x ->%list_elem_of_singleton.
    + rewrite lookup_insert_ne by lia. done.
Qed.

Lemma piece_payloads k l l1 c h ps w s w' s' :
  layout s -> piece k l l1 c h s -> for_each handle ps (w, s) = Ok (w', s') ->
  layout s' /\ piece k l l1 c h s'.
Proof.
  intros Hl Hp Hps.
  apply (for_each_inv _ (fun st => layout st.2 /\ piece k l l1 c h st.2) ps (w, s) (w', s')) in Hps;
    [done| |done].
  intros p [w1 s1] [w2 s2] _. apply piece_payload.
Qed.

(** ** The function index space

    Imported and own functions share one index space without gaps; each has a
    type index, the imported ones a slot label, the own ones a code label. *)
Record index_space (s : cstate A MT) : Prop := {
  is_nonneg : 0 <= s_function_index s;
  is_types k : is_Some (s_function_types s !! k) <-> 0 <= k < s_function_index s;
  is_split k : is_Some (s_function_types s !! k) <->
    is_Some (imports (s_module s) !! k) \/ is_Some (functions (s_module s) !! k);
  is_disjoint k : is_Some (imports (s_module s) !! k) -> functions (s_module s) !! k = None;
  is_got k : is_Some (s_got s !! k) <-> is_Some (functions (s_module s) !! k);
  is_ils k : is_Some (s_ils s !! k) <-> is_Some (imports (s_module s) !! k) }.

Lemma index_space_new (a : A) : index_space (cstate_new a).
Proof. split; simpl; intros; rewrite ?lookup_empty, ?is_Some_alt; try lia; tauto. Qed.

Lemma insert_is_Some {X} (m : gmap Z X) i k x : is_Some (<[i := x]> m !! k) <-> k = i \/ is_Some (m !! k).
Proof.
  destruct (decide (k = i)) as [->|Hne].
  - rewrite lookup_insert_eq. split; [by left|by eexists].
  - rewrite lookup_insert_ne by done. split; [by right|by intros [|]].
Qed.

Lemma index_space_fresh s :
  index_space s ->
  imports (s_module s) !! s_function_index s = None /\ functions (s_module s) !! s_function_index s = None.
Proof.
  intros [Hn Ht Hs _ _ _].
  assert (Hno : ~ is_Some (s_function_types s !! s_function_index s)) by (rewrite Ht; lia).
  rewrite Hs in Hno. split; apply eq_None_not_Some; tauto.
Qed.

Lemma index_space_import i s s' :
  layout s -> index_space s -> @import_item A E B MT _ _ i s = Ok s' -> index_space s'.
Proof.
  intros Hl Hs Hi. destruct (index_space_fresh _ Hs) as [Hni Hnf]. destruct Hs as [Hn Ht Hsp Hd Hg Hil].
  destruct (import_item_inv Hdebug _ _ _ Hl Hi) as (import & a1 & off & -> & _ & _ & _ & Hcase).
  destruct (import_ty import) as [ft|]; [|by subst s'].
  destruct Hcase as (l & a2 & _ & _ & _ & _ & ->). split; simpl; try done.
  - lia.
  - intros k. rewrite insert_is_Some, Ht. lia.
  - intros k. rewrite !insert_is_Some, Hsp. tauto.
  - intros k. rewrite insert_is_Some. intros [->|Hk]; [done|by apply Hd].
  - intros k. by rewrite !insert_is_Some, Hil.
Qed.

Lemma index_space_function ft s s' :
  layout s -> index_space s -> @function_item A E B MT _ _ ft s = Ok s' -> index_space s'.
Proof.
  intros Hl Hs Hi. destruct (index_space_fresh _ Hs) as [Hni Hnf]. destruct Hs as [Hn Ht Hsp Hd Hg Hil].
  destruct (function_item_inv Hdebug _ _ _ Hl Hi)
    as (t & l & fl & a1 & -> & _ & _ & _ & _ & _ & _ & _ & ->). split; simpl; try done.
  - lia.
  - intros k. rewrite insert_is_Some, Ht. lia.
  - intros k. rewrite !insert_is_Some, Hsp. tauto.
  - intros k Hk. rewrite lookup_insert_ne; [by apply Hd|]. intros <-. rewrite Hni in Hk. by destruct Hk.
  - intros k. by rewrite !insert_is_Some, Hg.
Qed.

Lemma index_space_same s s' : same_code s s' -> index_space s -> index_space s'.
Proof.
  intros [_ Eg Ei Em Ef Et _ _ Ex _ _ _] [Hn Ht Hsp Hd Hg Hil].
  split; rewrite ?Ex; intros; rewrite ?Et, ?Em, ?Ef, ?Eg, ?Ei; auto. apply Hd. by rewrite <- Em.
Qed.

Lemma index_space_code fv cs s s' :
  @code_section_entry A E B V MT _ _ _ fv cs s = Ok s' -> index_space s -> index_space s'.
Proof.
  intros Hi [Hn Ht Hsp Hd Hg Hil].
  destruct (code_section_entry_inv Hdebug _ _ _ _ Hi) as (ft & lb & h' & a1 & c' & _ & _ & _ & _ & ->).
  by split.
Qed.

(** Labels that were handed out to functions stay theirs. *)
Record grown (s s' : cstate A MT) : Prop := {
  grown_got : s_got s ⊆ s_got s';
  grown_ils : s_ils s ⊆ s_ils s' }.

#[global] Instance grown_refl : Reflexive grown.
Proof. by split. Qed.
#[global] Instance grown_trans : Transitive grown.
Proof. intros s1 s2 s3 [G1 I1] [G2 I2]. split; by etrans. Qed.

Lemma grown_import i s s' :
  layout s -> index_space s -> @import_item A E B MT _ _ i s = Ok s' -> grown s s'.
Proof.
  intros Hl Hs Hi. destruct (index_space_fresh _ Hs) as [Hni _].
  destruct (import_item_inv Hdebug _ _ _ Hl Hi) as (import & a1 & off & -> & _ & _ & _ & Hcase).
  destruct (import_ty import) as [ft|]; [|by subst s'].
  destruct Hcase as (l & a2 & _ & _ & _ & _ & ->). split; [done|]. simpl. apply insert_subseteq.
  apply eq_None_not_Some. rewrite (is_ils _ Hs), Hni. by intros [].
Qed.

Lemma grown_function ft s s' :
  layout s -> index_space s -> @function_item A E B MT _ _ ft s = Ok s' -> grown s s'.
Proof.
  intros Hl Hs Hi. destruct (index_space_fresh _ Hs) as [_ Hnf].
  destruct (function_item_inv Hdebug _ _ _ Hl Hi)
    as (t & l & fl & a1 & -> & _ & _ & _ & _ & _ & _ & _ & ->). split; [|done]. simpl. apply insert_subseteq.
  apply eq_None_not_Some. rewrite (is_got _ Hs), Hnf. by intros [].
Qed.

Lemma index_space_payload s0 payload w s w' s' :
  layout s /\ index_space s /\ grown s0 s -> handle payload (w, s) = Ok (w', s') ->
  layout s' /\ index_space s' /\ grown s0 s'.
Proof.
  apply (handle_payload_ind (fun s => layout s /\ index_space s /\ grown s0 s)).
  - intros t t' Hsame (Hl & Hs & [Hg Hi]). split; [by eapply layout_same|].
    split; [by eapply index_space_same|]. destruct Hsame as [_ Eg Ei _ _ _ _ _ _ _ _ _].
    by split; rewrite ?Eg, ?Ei.
  - intros i t t' _ (Hl & Hs & Hg) Hi. split; [by eapply layout_import|].
    split; [by eapply index_space_import|]. etrans; [exact Hg|by eapply grown_import].
  - intros ft t t' (Hl & Hs & Hg) Hi. split; [by eapply layout_function|].
    split; [by eapply index_space_function|]. etrans; [exact Hg|by eapply grown_function].
  - intros fv cs t t' _ (Hl & Hs & Hg) Hi. split; [by eapply layout_code|].
    split; [by eapply index_space_code|]. etrans; [exact Hg|].
    destruct (code_section_entry_inv Hdebug _ _ _ _ Hi) as (ft & lb & h' & a1 & c' & _ & _ & _ & _ & ->).
    by split.
Qed.

Lemma index_space_payloads ps w s w' s' :
  layout s -> index_space s -> for_each handle ps (w, s) = Ok (w', s') -> index_space s' /\ grown s s'.
Proof.
  intros Hl Hs Hps.
  apply (for_each_inv _ (fun st => layout st.2 /\ index_space st.2 /\ grown s st.2) ps (w, s) (w', s')) in Hps;
    [apply Hps| |done].
  intros p [w1 s1] [w2 s2] _. apply index_space_payload.
Qed.
End Tables.
