(* ===== verification/Binding.v ===== *)
(** * Binding labels, and what the finished module contains

    After the loop the code is optimized, every mark gets its label bound in
    front of its instruction, function entry points are recorded, and the code
    is assembled.  The theorems at the end are about [compile] as a whole. *)
From S2P Require Import Prelude X86 Assembler Optimizer Wasm Instructions.
From S2P Require Import Function ModuleApi Compile Layout Tables.

(** ** Marks through the optimizer *)
Lemma ends_with_barrier_drop l n :
  ends_with_barrier l = true -> ends_with_barrier (drop n l) = true.
Proof.
  destruct l as [|b l _] using rev_ind; [by rewrite drop_nil|]. rewrite ends_with_barrier_snoc.
  intros Hb. destruct (decide (n <= length l)%nat).
  - rewrite drop_app_le by done. by rewrite ends_with_barrier_snoc.
  - rewrite drop_ge by (rewrite length_app; simpl; lia). done.
Qed.

Lemma normalize_not_nil l : ends_with_barrier l = true -> l <> [] -> normalize l <> [].
Proof.
  destruct l as [|b l _] using rev_ind; [done|]. rewrite ends_with_barrier_snoc. intros Hb _.
  rewrite normalize_snoc by done. by destruct (normalize l).
Qed.

Lemma normalize_flat l : Forall (fun i => barrier i = true) l -> normalize l = l.
Proof.
  induction l as [|b l IH] using rev_ind; [done|]. rewrite Forall_app, Forall_singleton.
  intros [Hl Hb]. by rewrite normalize_snoc, IH.
Qed.

Lemma cut_split code i :
  cut code i ->
  normalize code = normalize (take (Z.to_nat i) code) ++ normalize (drop (Z.to_nat i) code) /\
  relocate_all code i = Z.of_nat (length (normalize (take (Z.to_nat i) code))).
Proof.
  intros [Hi Hb]. rewrite <- (take_drop (Z.to_nat i) code) at 1 4. split; [by apply normalize_app|].
  replace i with (Z.of_nat (length (take (Z.to_nat i) code)) + 0) at 3
    by (rewrite length_take; lia).
  rewrite relocate_all_app, relocate_all_0 by (done || lia). lia.
Qed.

(** Between two cuts something is left after optimization. *)
Lemma relocate_cut_lt code i j :
  cut code i -> cut code j -> i < j -> relocate_all code i < relocate_all code j.
Proof.
  intros Hi Hj Hlt. destruct (cut_split _ _ Hi) as [_ ->], (cut_split _ _ Hj) as [_ ->].
  destruct Hi as [Hi Hbi], Hj as [Hj Hbj].
  rewrite <- (take_drop (Z.to_nat i) (take (Z.to_nat j) code)), take_take, Nat.min_l by lia.
  rewrite normalize_app, length_app by done.
  assert (normalize (drop (Z.to_nat i) (take (Z.to_nat j) code)) <> []) as Hne.
  { apply normalize_not_nil; [by apply ends_with_barrier_drop|].
    intros Hnil. apply (f_equal length) in Hnil. rewrite length_drop, length_take in Hnil.
    simpl in Hnil. lia. }
  destruct (normalize (drop _ (take _ code))); [done|]. simpl. lia.
Qed.

Lemma relocate_cut_end code i :
  cut code i -> i < Z.of_nat (length code) -> ends_with_barrier code = true ->
  relocate_all code i < Z.of_nat (length (normalize code)).
Proof.
  intros Hi Hlt Hb. pose proof (cut_end _ Hb) as He.
  pose proof (relocate_cut_lt _ _ _ Hi He Hlt) as Hr.
  destruct (cut_split _ _ He) as [_ Heq]. rewrite Heq, Nat2Z.id, firstn_all in Hr. done.
Qed.

Definition moved (code : list Instruction) (marks : list (Z * CodeLabel)) : list (Z * CodeLabel) :=
  map (fun '(i, l) => (relocate_all code i, l)) marks.

Lemma elem_of_moved code marks x :
  x ∈ moved code marks <-> ∃ i l, (i, l) ∈ marks /\ x = (relocate_all code i, l).
Proof.
  unfold moved. rewrite list_elem_of_fmap. split.
  - intros ([i l] & -> & ?). eauto.
  - intros (i & l & ? & ->). by exists (i, l).
Qed.

Lemma moved_labels code marks : map snd (moved code marks) = map snd marks.
Proof. unfold moved. rewrite map_map. apply map_ext. by intros []. Qed.

Lemma moved_sorted code marks :
  (∀ x, x ∈ marks -> cut code x.1) -> StronglySorted (fun x y => x.1 < y.1) marks ->
  StronglySorted (fun x y => x.1 < y.1) (moved code marks).
Proof.
  intros Hc. induction 1 as [|[i l] marks _ IH Hx]; [constructor|]. constructor.
  - apply IH. intros x Hin. apply Hc. by right.
  - apply Forall_forall. intros x (j & l' & Hin & ->)%elem_of_moved. simpl.
    rewrite Forall_forall in Hx. specialize (Hx _ Hin). simpl in Hx.
    apply relocate_cut_lt; [|by apply (Hc (j, l')); right|done]. apply (Hc (i, l)). by left.
Qed.

(** ** The code with its labels *)
Definition mark_at (marks : list (Z * CodeLabel)) (idx : nat) : option (Z * CodeLabel) :=
  List.find (fun '(i, _) => i =? Z.of_nat idx) marks.

Fixpoint bound_code (marks : list (Z * CodeLabel)) (idx : nat) (l : list Instruction)
    : list Instruction :=
  match l with
  | [] => []
  | i :: l =>
      (match mark_at marks idx with Some _ => [i_zero_bytes] | None => [] end)
      ++ i :: bound_code marks (S idx) l
  end.

Lemma bound_code_app marks idx l1 l2 :
  bound_code marks idx (l1 ++ l2) = bound_code marks idx l1 ++ bound_code marks (idx + length l1) l2.
Proof.
  revert idx. induction l1 as [|i l1 IH]; intros idx; simpl; [by rewrite Nat.add_0_r|].
  rewrite IH, <- app_assoc. simpl. by rewrite Nat.add_succ_r.
Qed.

Lemma mark_at_Some marks idx i l :
  mark_at marks idx = Some (i, l) -> (i, l) ∈ marks /\ i = Z.of_nat idx.
Proof.
  intros [Hin Heq%Z.eqb_eq]%find_some. split; [by apply list_elem_of_In|done].
Qed.

Lemma mark_at_None marks idx l : mark_at marks idx = None -> (Z.of_nat idx, l) ∉ marks.
Proof.
  intros Hn Hin%list_elem_of_In. pose proof (find_none _ _ Hn _ Hin) as Hx. simpl in Hx.
  by rewrite Z.eqb_refl in Hx.
Qed.

Lemma sorted_unique (marks : list (Z * CodeLabel)) i l l' :
  StronglySorted (fun x y => x.1 < y.1) marks -> (i, l) ∈ marks -> (i, l') ∈ marks -> l = l'.
Proof.
  induction 1 as [|x marks _ IH Hx]; [by intros ?%not_elem_of_nil|].
  rewrite Forall_forall in Hx.
  intros [<-|Hin]%elem_of_cons [Heq|Hin']%elem_of_cons.
  - congruence.
  - specialize (Hx _ Hin'). simpl in Hx. lia.
  - subst x. specialize (Hx _ Hin). simpl in Hx. lia.
  - by apply IH.
Qed.

Lemma labels_unique (marks : list (Z * CodeLabel)) i i' l :
  NoDup (map snd marks) -> (i, l) ∈ marks -> (i', l) ∈ marks -> i = i'.
Proof.
  induction marks as [|x marks IH]; [by intros _ ?%not_elem_of_nil|]. simpl.
  intros [Hx Hn]%NoDup_cons [<-|Hin]%elem_of_cons [Heq|Hin']%elem_of_cons.
  - congruence.
  - destruct Hx. apply list_elem_of_fmap. by exists (i', l).
  - subst x. destruct Hx. apply list_elem_of_fmap. by exists (i, l).
  - by apply IH.
Qed.

Section Sizes.
Context {A E : Type} `{Assembler A E} `{!AssemblerLaws A E}.

Lemma code_size_bound_code marks idx l : code_size (bound_code marks idx l) = code_size l.
Proof.
  revert idx. induction l as [|i l IH]; intros idx; [done|]. cbn [bound_code].
  rewrite code_size_app. change (code_size (i :: ?x)) with (instr_size i + code_size x). rewrite IH.
  destruct (mark_at marks idx); [|done].
  change (code_size [i_zero_bytes]) with (instr_size i_zero_bytes + 0). rewrite law_size_zero_bytes. lia.
Qed.

(** An instruction keeps its byte position. *)
Lemma bound_code_lookup marks l n i :
  l !! n = Some i ->
  ∃ n', bound_code marks 0 l !! n' = Some i /\
    code_size (take n' (bound_code marks 0 l)) = code_size (take n l).
Proof.
  intros Hn. rewrite <- (take_drop_middle l n i Hn). rewrite bound_code_app. cbn [bound_code].
  set (m := match mark_at _ _ with Some _ => _ | None => _ end).
  set (b := bound_code marks 0 (take n l)).
  set (rest := bound_code marks _ (drop (S n) l)).
  exists (length (b ++ m)). rewrite app_assoc. split.
  - by rewrite lookup_app_r, Nat.sub_diag by done.
  - rewrite take_app_length, code_size_app. unfold b. rewrite code_size_bound_code.
    rewrite take_app_le by (rewrite length_take; apply lookup_lt_Some in Hn; lia).
    rewrite take_take, Nat.min_id. enough (code_size m = 0) by lia.
    unfold m. destruct (mark_at marks _); [|done].
    change (code_size [i_zero_bytes]) with (instr_size i_zero_bytes + 0). rewrite law_size_zero_bytes. lia.
Qed.
End Sizes.

(** ** The binding loop *)
Section Bind.
Context {A E B MT : Type} `{Assembler A E} `{!AssemblerLaws A E}.
Context (marks : list (Z * CodeLabel)) (bodies : list (CodeLabel * Z)) (md0 : CompiledModule MT).
Context (code : list Instruction).
Context (Hsorted : StronglySorted (fun x y => x.1 < y.1) marks) (Hlabels : NoDup (map snd marks)).
Context (Hbodies : ∀ l k k', (l, k) ∈ bodies -> (l, k') ∈ bodies -> k = k').
Context (Hindices : ∀ l l' k, (l, k) ∈ bodies -> (l', k) ∈ bodies -> l = l').

(** The state after the first [j] instructions. *)
Record bound_upto (j : nat) (st : A * CompiledModule MT) : Prop := {
  bu_code : asm_instructions st.1 = bound_code marks 0 (take j code);
  bu_pending : asm_pending st.1 = false;
  bu_unbound i l : (i, l) ∈ marks -> Z.of_nat j <= i -> asm_bound st.1 l = None;
  bu_bound i l : (i, l) ∈ marks -> i < Z.of_nat j ->
    asm_bound st.1 l = Some (length (bound_code marks 0 (take (Z.to_nat i) code)));
  bu_entries i l k : (i, l) ∈ marks -> (l, k) ∈ bodies -> i < Z.of_nat j ->
    function_bodies st.2 !! k = Some (code_size (take (Z.to_nat i) code));
  bu_only k off : function_bodies st.2 !! k = Some off ->
    function_bodies md0 !! k = Some off \/ k ∈ map snd bodies;
  bu_same : functions st.2 = functions md0 /\
    function_stack_heights st.2 = function_stack_heights md0 /\ exports st.2 = exports md0 /\
    imports st.2 = imports md0 /\ memories st.2 = memories md0 }.

Lemma bound_code_S j instruction :
  code !! j = Some instruction ->
  bound_code marks 0 (take (S j) code) = bound_code marks 0 (take j code)
    ++ (match mark_at marks j with Some _ => [i_zero_bytes] | None => [] end) ++ [instruction].
Proof.
  intros Hj. rewrite (take_S_r _ _ _ Hj), bound_code_app. cbn [bound_code Nat.add].
  rewrite length_take, Nat.min_l by (apply lookup_lt_Some in Hj; lia). done.
Qed.

(** An instruction without a mark. *)
Lemma bound_upto_plain j instruction a a' md :
  bound_upto j (a, md) -> code !! j = Some instruction -> mark_at marks j = None ->
  extends a a' [instruction] -> bound_upto (S j) (a', md).
Proof.
  intros [Hc Hp Hu Hb' He Ho Hs] Hj Hm [Xc Xb _ Xp]. split; simpl in *; try done.
  - by rewrite (bound_code_S _ _ Hj), Hm, Xc, Hc.
  - auto.
  - intros i l Hin Hi. rewrite Xb. apply (Hu i l Hin). lia.
  - intros i l Hin Hi. rewrite Xb. apply (Hb' i l Hin).
    destruct (decide (i = Z.of_nat j)) as [->|]; [|lia]. by apply (mark_at_None _ _ l) in Hm.
  - intros i l k Hin Hb Hi. apply (He i l k Hin Hb).
    destruct (decide (i = Z.of_nat j)) as [->|]; [|lia]. by apply (mark_at_None _ _ l) in Hm.
Qed.

(** The entry points after label [l] was bound in front of instruction [j]. *)
Lemma bound_upto_marked j l instruction a a' md ebs :
  bound_upto j (a, md) -> code !! j = Some instruction -> mark_at marks j = Some (Z.of_nat j, l) ->
  asm_instructions a' = asm_instructions a ++ [i_zero_bytes; instruction] -> asm_pending a' = false ->
  (∀ l', l' <> l -> asm_bound a' l' = asm_bound a l') ->
  asm_bound a' l = Some (length (asm_instructions a)) ->
  (∀ k, (l, k) ∈ bodies -> ebs !! k = Some (code_size (take j code))) ->
  (∀ k, (l, k) ∉ bodies -> ebs !! k = function_bodies md !! k) ->
  bound_upto (S j) (a', mkModule (functions md) ebs (function_stack_heights md) (exports md)
                          (imports md) (memories md)).
Proof.
  intros [Hc Hp Hu Hb He Ho Hs] Hj Hm Ac Ap Ab Al Hebs Hother. simpl in *.
  assert (Hin : (Z.of_nat j, l) ∈ marks) by by apply mark_at_Some in Hm as [? _].
  split; simpl; try done.
  - rewrite (bound_code_S _ _ Hj), Hm, Ac, Hc. done.
  - intros i l' Hi Hij. rewrite Ab; [apply (Hu i l' Hi); lia|]. intros ->.
    pose proof (labels_unique _ _ _ _ Hlabels Hin Hi). lia.
  - intros i l' Hi Hij. destruct (decide (i = Z.of_nat j)) as [->|Hne].
    + rewrite (sorted_unique _ _ _ _ Hsorted Hi Hin), Al, Hc. by rewrite Nat2Z.id.
    + rewrite Ab; [apply (Hb i l' Hi); lia|]. intros ->. by pose proof (labels_unique _ _ _ _ Hlabels Hin Hi).
  - intros i l' k Hi Hk Hij. destruct (decide (i = Z.of_nat j)) as [->|Hne].
    + rewrite (sorted_unique _ _ _ _ Hsorted Hi Hin) in Hk. by rewrite (Hebs k Hk), Nat2Z.id.
    + rewrite Hother; [apply (He i l' k); [done..|lia]|]. intros Hk'.
      rewrite (Hindices _ _ _ Hk Hk') in Hi. pose proof (labels_unique _ _ _ _ Hlabels Hin Hi). lia.
  - intros k off Hk. destruct (decide ((l, k) ∈ bodies)) as [Hkb|Hkb].
    + right. apply list_elem_of_fmap. by exists (l, k).
    + rewrite Hother in Hk by done. by apply Ho.
Qed.

Lemma bind_label_step j instruction st st' :
  bound_upto j st -> code !! j = Some instruction ->
  @bind_label A E B MT _ marks bodies (j, instruction) st = Ok st' -> bound_upto (S j) st'.
Proof.
  destruct st as [a md]. intros Hst Hj Hb. unfold bind_label in Hb.
  change (List.find _ marks) with (mark_at marks j) in Hb.
  destruct (mark_at marks j) as [[i l]|] eqn:Hm.
  - destruct (mark_at_Some _ _ _ _ Hm) as [Hin ->].
    res_step Hb as [a3 md3] G0. res_step Hb as a4 G4. apply Ok_inj in Hb as <-.
    res_step G0 as a1 G1. res_step G0 as a2 G2.
    destruct (law_set_label a l (bu_pending _ _ Hst)) as (a1' & Hs1 & I1 & P1 & B1 & O1 & N1).
    { apply (bu_unbound _ _ Hst (Z.of_nat j)); [done|lia]. }
    rewrite Hs1 in G1. apply Ok_inj in G1 as ->.
    apply emit_extends in G2. apply emit_advances in G4 as G4'. destruct G4' as [_ P4].
    apply emit_extends in G4.
    assert (Hbound : asm_bound a2 l = Some (length (asm_instructions a)))
      by (by rewrite (ext_bound _ _ _ G2)).
    assert (Hcode : ∀ ip, asm_label_ip a2 l = inr ip -> ip = code_size (take j code)).
    { intros ip Hip. rewrite (law_label_ip _ _ _ _ Hip Hbound).
      rewrite (ext_instrs _ _ _ G2), I1, take_app_length.
      pose proof (bu_code _ _ Hst) as Hc. simpl in Hc. by rewrite Hc, code_size_bound_code. }
    assert (a3 = a2 /\ ∃ ebs, md3 = mkModule (functions md) ebs (function_stack_heights md) (exports md)
        (imports md) (memories md) /\
      (∀ k, (l, k) ∈ bodies -> ebs !! k = Some (code_size (take j code))) /\
      (∀ k, (l, k) ∉ bodies -> ebs !! k = function_bodies md !! k)) as (-> & ebs & -> & Hebs & Hother).
    { destruct (List.find _ bodies) as [[l' k]|] eqn:Hf.
      - apply find_some in Hf as [Hk ->%bool_decide_eq_true]. apply list_elem_of_In in Hk.
        res_step G0 as ip G5. apply Ok_inj in G0 as [= -> <-]. split; [done|].
        unfold asm_call in G5. destruct (asm_label_ip a3 l) as [|ip'] eqn:Hip; [done|].
        injection G5 as ->. eexists. split; [done|]. split.
        + intros k' Hk'. rewrite (Hbodies _ _ _ Hk' Hk), lookup_insert_eq. f_equal. by apply Hcode.
        + intros k' Hk'. rewrite lookup_insert_ne; [done|]. by intros <-.
      - apply Ok_inj in G0 as [= -> <-]. split; [done|]. exists (function_bodies md).
        split; [by destruct md|]. split; [|done]. intros k Hk%list_elem_of_In.
        pose proof (find_none _ _ Hf _ Hk) as Hx. simpl in Hx. by rewrite bool_decide_eq_true_2 in Hx. }
    eapply (bound_upto_marked j l instruction a); try done.
    + rewrite (ext_instrs _ _ _ G4), (ext_instrs _ _ _ G2), I1, <- app_assoc. done.
    + intros l' Hl'. rewrite (ext_bound _ _ _ G4), (ext_bound _ _ _ G2). by apply O1.
    + by rewrite (ext_bound _ _ _ G4).
  - rewrite res_bind_ok in Hb. res_step Hb as a1 G1. apply Ok_inj in Hb as <-.
    apply emit_extends in G1. by eapply bound_upto_plain.
Qed.

Lemma bind_labels_spec st st' :
  bound_upto 0 st -> for_each (@bind_label A E B MT _ marks bodies) (imap pair code) st = Ok st' ->
  bound_upto (length code) st'.
Proof.
  intros Hst Hb.
  assert (Hgen : ∀ rest j st, code = take j code ++ rest -> (j <= length code)%nat -> bound_upto j st ->
    for_each (@bind_label A E B MT _ marks bodies) (imap (fun i x => ((j + i)%nat, x)) rest) st = Ok st' ->
    bound_upto (length code) st').
  { clear st Hst Hb. induction rest as [|x rest IH]; intros j st Hc Hj Hst Hb.
    - cbn in Hb. apply Ok_inj in Hb as <-. rewrite app_nil_r in Hc.
      apply (f_equal length) in Hc. rewrite length_take in Hc.
      by replace (length code) with j by lia.
    - cbn [imap for_each] in Hb. res_step Hb as st1 G1.
      assert (Hx : code !! j = Some x).
      { rewrite Hc, lookup_app_r, length_take, Nat.min_l, Nat.sub_diag by (rewrite ?length_take; lia). done. }
      apply (IH (S j) st1).
      + rewrite (take_S_r _ _ _ Hx), <- app_assoc. exact Hc.
      + apply lookup_lt_Some in Hx. lia.
      + rewrite Nat.add_0_r in G1. by eapply bind_label_step.
      + rewrite <- Hb. f_equal. apply imap_ext. intros i y _. simpl. f_equal. lia. }
  by apply (Hgen code 0%nat st); [rewrite take_0|lia|..].
Qed.
End Bind.

(** ** The end of a compilation *)
Section Finish.
Context {A E B V W P R MT : Type} `{Assembler A E} `{!AssemblerLaws A E} `{FuncValidator V B} `{Profile}.
Context `{!Parser P B R MT, !Validator W V B R MT} (Hdebug : overflow_checks = true).

Abbreviation code_of_state s := (asm_instructions (s_assembler s)).

(** The optimized code and the marks in it. *)
Definition final_code (s : cstate A MT) : list Instruction := normalize (code_of_state s).
Definition final_marks (s : cstate A MT) : list (Z * CodeLabel) :=
  moved (code_of_state s) (s_label_indices s).

Lemma emit_all (l : list Instruction) (a a' : A) :
  for_each (@emit A E B _) l a = Ok a' -> extends a a' l.
Proof.
  revert a. induction l as [|i l IH]; intros a Hl; cbn [for_each] in Hl.
  - apply Ok_inj in Hl as <-. apply extends_refl.
  - res_step Hl as a1 G1. apply emit_extends in G1. eapply extends_cons; [done|]. by apply IH.
Qed.

(** The assembler [a] holds the code of the finished module [m]. *)
Record finished (s : cstate A MT) (m : AssembledModule MT) (a : A) : Prop := {
  fin_layout : layout s;
  fin_assemble : asm_assemble a = inr (assembled m);
  fin_code : asm_instructions a = bound_code (final_marks s) 0 (final_code s);
  fin_bound : bound_upto (final_marks s) (s_function_bodies s) (s_module s) (final_code s)
    (length (final_code s)) (a, module m) }.

Lemma bind_labels_finish fuel s m a :
  layout s -> here (s_assembler s) <= 2 ^ 63 ->
  @bind_labels A E B MT _ _ fuel s = Some (Ok (a, module m)) -> asm_assemble a = inr (assembled m) -> finished s m a.
Proof.
  intros Hs Hmem Hf Has. unfold bind_labels in Hf. destruct (law_take (s_assembler s)) as (a1 & Ht1 & I1 & P1 & B1).
  rewrite Ht1 in Hf. destruct (optimize _ _ _) as [r|] eqn:Ho; [|done].
  apply optimize_result in Ho as ->; [|].
  2:{ apply Forall_forall. intros x Hx. destruct (marks_ok _ _ (lay_marks _ Hs) x Hx) as (_ & Hlt & Hc & _).
      unfold here in Hmem. lia. }
  rewrite res_bind_ok in Hf. injection Hf as Hf.
  res_step Hf as a2 G2. apply emit_all in G2.
  destruct (law_take a2) as (a3 & Ht3 & I3 & P3 & B3). rewrite Ht3 in Hf.
  rewrite (ext_instrs _ _ _ G2), I1 in Hf. cbn [app] in Hf.
  assert (Hcut : ∀ x, x ∈ s_label_indices s -> cut (code_of_state s) x.1)
    by (intros x Hx; apply (marks_ok _ _ (lay_marks _ Hs) x Hx)).
  assert (Hst : bound_upto (final_marks s) (s_function_bodies s) (s_module s) (final_code s)
    (length (final_code s)) (a, module m)).
  { eapply bind_labels_spec; [..|exact Hf].
    - apply moved_sorted; [done|apply (lay_marks _ Hs)].
    - unfold final_marks. rewrite moved_labels. apply (lay_marks _ Hs).
    - intros l k k' (Hk & _)%(lay_bodies _ Hs) (Hk' & _)%(lay_bodies _ Hs). by eapply (lay_got_inj _ Hs).
    - intros l l' k (Hk & _)%(lay_bodies _ Hs) (Hk' & _)%(lay_bodies _ Hs). congruence.
    - split; simpl; try done.
      + intros i l (i' & l' & Hin & [= _ ->])%elem_of_moved _. rewrite B3, (ext_bound _ _ _ G2), B1.
        apply (marks_ok _ _ (lay_marks _ Hs) _ Hin).
      + intros i l (i' & l' & Hin & [= -> _])%elem_of_moved Hi.
        destruct (cut_split _ _ (Hcut _ Hin)) as [_ Hr]. simpl in Hr. lia.
      + intros i l k (i' & l' & Hin & [= -> _])%elem_of_moved _ Hi.
        destruct (cut_split _ _ (Hcut _ Hin)) as [_ Hr]. simpl in Hr. lia.
      + intros k off Hk. by left. }
  split; [done|done| |exact Hst]. pose proof (bu_code _ _ _ _ _ _ Hst) as Hc. simpl in Hc. by rewrite firstn_all in Hc.
Qed.

Lemma finish_spec fuel s m :
  layout s -> here (s_assembler s) <= 2 ^ 63 ->
  @finish A E B MT _ _ fuel s = Some (Ok m) -> ∃ a, finished s m a.
Proof. intros Hs Hmem (a & Hb & Has)%finish_inv. exists a. by eapply bind_labels_finish. Qed.

(** *** Import slots in the finished code *)
Lemma final_slot s n off :
  slot_at (code_of_state s) n off ->
  final_code s !! n = Some (i_dq unlinked) /\ off = code_size (take n (final_code s)).
Proof.
  intros (Hn & -> & Hf). unfold final_code. pose proof (lookup_lt_Some _ _ _ Hn) as Hlt.
  assert (Hc : normalize (code_of_state s) = (take n (code_of_state s) ++ [i_dq unlinked])
    ++ normalize (drop (S n) (code_of_state s))).
  { rewrite <- (take_drop_middle _ _ _ Hn) at 1. change (?x :: ?y) with ([x] ++ y). rewrite app_assoc.
    rewrite normalize_app by by rewrite ends_with_barrier_snoc.
    f_equal. apply normalize_flat, Forall_app. by repeat constructor. }
  rewrite Hc, <- app_assoc. assert (Hl : length (take n (code_of_state s)) = n) by (rewrite length_take; lia).
  split.
  - rewrite lookup_app_r by lia. by rewrite Hl, Nat.sub_diag.
  - rewrite take_app_le by lia. by rewrite take_take, Nat.min_id.
Qed.

Lemma finish_slots s m a :
  finished s m a -> slots s -> Z.of_nat (length (assembled m)) <= u64_max ->
  slots_wf m /\
  ∀ i mn f off, imports (module m) !! i = Some (mn, f, off) -> quad_at (assembled m) off = le_bytes 8 unlinked.
Proof.
  intros [Hs Has Hcode Hb] Hsl Hfits.
  pose proof (bu_same _ _ _ _ _ _ Hb) as (_ & _ & _ & Himp & _). simpl in Himp.
  pose proof (law_assemble _ _ Has) as Hlen. rewrite Hcode, code_size_bound_code in Hlen.
  assert (Hpos : ∀ i mn f off, imports (module m) !! i = Some (mn, f, off) -> ∃ l n,
    s_ils s !! i = Some l /\ (Z.of_nat n, l) ∈ s_label_indices s /\
    final_code s !! n = Some (i_dq unlinked) /\ off = code_size (take n (final_code s))).
  { intros i mn f off. rewrite Himp. intros (l & n & Hl & Hm & Hat)%(slot_import _ Hsl).
    apply final_slot in Hat as [Hn Hoff]. eauto 10. }
  split; [split|].
  - intros i mn f off (l & n & _ & _ & Hn & ->)%Hpos. split; [apply code_size_nonneg|].
    rewrite Hlen. pose proof (code_size_take_lt _ _ n (length (final_code s)) (lookup_lt_Some _ _ _ Hn) Hn) as Hlt.
    rewrite law_size_dq, firstn_all in Hlt. done.
  - intros i j mn f off mn' f' off' Hne (l & n & Hl & Hm & Hn & ->)%Hpos (l' & n' & Hl' & Hm' & Hn' & ->)%Hpos.
    assert (Hll : l <> l') by (intros ->; apply Hne; by eapply (slot_inj _ Hsl)).
    assert (n <> n') as Hnn.
    { intros ->. apply Hll. eapply sorted_unique; [apply (lay_marks _ Hs)|done..]. }
    destruct (decide (n < n')%nat) as [Hlt|].
    + left. pose proof (code_size_take_lt _ _ _ _ Hlt Hn) as Hx. by rewrite law_size_dq in Hx.
    + right. assert (n' < n)%nat as Hlt by lia.
      pose proof (code_size_take_lt _ _ _ _ Hlt Hn') as Hx. by rewrite law_size_dq in Hx.
  - done.
  - intros i mn f off (l & n & _ & _ & Hn & ->)%Hpos.
    destruct (bound_code_lookup (final_marks s) _ _ _ Hn) as (n' & Hn' & Hsz).
    rewrite <- Hcode in Hn', Hsz. unfold quad_at. rewrite <- Hsz. by apply (law_assemble_dq _ _ _ _ Has).
Qed.

(** *** Function code in the finished code *)

(** Without marks the code stays as it is. *)
Lemma bound_code_unmarked marks idx l :
  (∀ j, (idx <= j < idx + length l)%nat -> mark_at marks j = None) -> bound_code marks idx l = l.
Proof.
  revert idx. induction l as [|i l IH]; intros idx Hm; [done|]. cbn [bound_code length] in *.
  rewrite Hm by lia. simpl. f_equal. apply IH. intros j Hj. apply Hm. lia.
Qed.

Lemma finish_piece s m a k l l1 c h :
  finished s m a -> piece k l l1 c h s -> ends_with_barrier c = true -> c <> [] ->
  function_stack_heights (module m) !! k = Some h /\
  ∃ pre post, asm_instructions a = pre ++ i_zero_bytes :: normalize c ++ post /\
    asm_bound a l = Some (length pre) /\ function_bodies (module m) !! k = Some (code_size pre).
Proof.
  intros [Hs Has Hcode Hb] [Hk (l2 & Hc) Hm Hbody Hh Halone] Hcb Hcn.
  pose proof (bu_same _ _ _ _ _ _ Hb) as (_ & Hheights & _). simpl in Hheights.
  split; [by rewrite Hheights|].
  assert (Hcut : ∀ x, x ∈ s_label_indices s -> cut (code_of_state s) x.1)
    by (intros x Hx; apply (marks_ok _ _ (lay_marks _ Hs) x Hx)).
  pose proof (Hcut _ Hm) as Hcl1. simpl in Hcl1.
  assert (Htl1 : take (length l1) (code_of_state s) = l1) by by rewrite Hc, take_app_length.
  assert (Hb1 : ends_with_barrier l1 = true).
  { destruct Hcl1 as [_ Hx]. by rewrite Nat2Z.id, Htl1 in Hx. }
  assert (Hcl2 : cut (code_of_state s) (Z.of_nat (length (l1 ++ c)))).
  { rewrite Hc, app_assoc. apply cut_app, cut_end. by apply ends_with_barrier_app. }
  destruct (cut_split _ _ Hcl1) as [_ Hr1], (cut_split _ _ Hcl2) as [_ Hr2].
  rewrite Nat2Z.id in Hr1, Hr2. rewrite Htl1 in Hr1.
  assert (Htl2 : take (length (l1 ++ c)) (code_of_state s) = l1 ++ c)
    by (rewrite Hc, app_assoc; apply take_app_length).
  assert (Hlen : length (normalize (l1 ++ c)) = (length (normalize l1) + length (normalize c))%nat)
    by by rewrite normalize_app, length_app.
  rewrite Htl2, Hlen in Hr2.
  assert (HN : final_code s = normalize l1 ++ normalize c ++ normalize l2).
  { unfold final_code. rewrite Hc, !normalize_app by done. done. }
  assert (Hmarked : (Z.of_nat (length (normalize l1)), l) ∈ final_marks s).
  { apply elem_of_moved. exists (Z.of_nat (length l1)), l. by rewrite Hr1. }
  assert (Hfree : ∀ j, (length (normalize l1) < j < length (normalize l1) + length (normalize c))%nat ->
    mark_at (final_marks s) j = None).
  { intros j Hj. destruct (mark_at (final_marks s) j) as [[i' l']|] eqn:Hma; [exfalso|done].
    apply mark_at_Some in Hma as [(i & l'' & Hin & [= -> ->])%elem_of_moved Heq].
    pose proof (Hcut _ Hin) as Hci. simpl in Hci.
    destruct (Halone _ Hin) as [Hle|Hle]; simpl in Hle.
    - destruct (decide (i = Z.of_nat (length l1))) as [->|Hne]; [lia|].
      pose proof (relocate_cut_lt _ _ _ Hci Hcl1). lia.
    - destruct (decide (i = Z.of_nat (length (l1 ++ c)))) as [->|Hne]; [lia|].
      pose proof (relocate_cut_lt _ _ _ Hcl2 Hci). lia. }
  destruct (mark_at (final_marks s) (length (normalize l1))) as [[i' l']|] eqn:Hma;
    [|by destruct (mark_at_None _ _ l Hma)].
  destruct (normalize c) as [|x nc] eqn:Hnc; [by apply normalize_not_nil in Hcb|].
  assert (Hlt : Z.of_nat (length (normalize l1)) < Z.of_nat (length (final_code s)))
    by (rewrite HN, !length_app; simpl; lia).
  exists (bound_code (final_marks s) 0 (normalize l1)),
    (bound_code (final_marks s) (length (normalize l1) + length (x :: nc)) (normalize l2)). split_and!.
  - rewrite Hcode, HN, bound_code_app. simpl Nat.add. f_equal. rewrite bound_code_app.
    cbn [bound_code]. rewrite Hma. cbn [app]. do 2 f_equal.
    rewrite (bound_code_unmarked _ _ nc); [done|]. intros j Hj. apply Hfree. simpl. lia.
  - pose proof (bu_bound _ _ _ _ _ _ Hb _ _ Hmarked Hlt) as Hl. simpl in Hl.
    by rewrite Hl, Nat2Z.id, HN, take_app_length.
  - pose proof (bu_entries _ _ _ _ _ _ Hb _ _ _ Hmarked Hbody Hlt) as He. simpl in He.
    by rewrite He, code_size_bound_code, Nat2Z.id, HN, take_app_length.
Qed.

(** ** Properties of [compile] *)
Abbreviation handle := (@handle_payload A E B V W R MT _ _ _ _).

Lemma collects_layout ps w s : @collects A E B V W R MT _ _ _ _ ps w s -> layout s.
Proof.
  intros (a & Ha & Hp). eapply layout_payloads; [done|by apply layout_new|exact Hp].
Qed.

Lemma collects_slots ps w s :
  imports_first ps -> @collects A E B V W R MT _ _ _ _ (ps ++ [Payload.End]) w s -> slots s.
Proof.
  intros (ps1 & ps2 & -> & Hps1 & Hps2) (a & Ha & Hp).
  eapply (slots_payloads Hdebug ((ps1 ++ ps2) ++ [Payload.End])); [| | | |exact Hp].
  - exists ps1, (ps2 ++ [Payload.End]). rewrite app_assoc, forallb_app, Hps2. done.
  - by apply layout_new.
  - apply slots_new.
  - unfold flat. simpl. destruct law_new as (a' & Ha' & Hi & _). rewrite Ha in Ha'.
    injection Ha' as <-. rewrite Hi. constructor.
Qed.

Lemma collects_index_space ps w s : @collects A E B V W R MT _ _ _ _ ps w s -> index_space s.
Proof.
  intros (a & Ha & Hp).
  by apply (index_space_payloads Hdebug) in Hp as [? _]; [|by eapply layout_new|apply index_space_new].
Qed.

(** C8: the import slots of a compiled module.  If a module whose import section
    precedes its code section compiles, every import of its table has a slot of
    eight bytes inside the code, no two overlap, and every slot holds the
    placeholder 0xBADC0FFEE0DDF00D: what [link_import] relies on. *)
Theorem compiled_import_slots data ps fuel_loop fuel_opt m :
  @parses B P R MT _ data ps -> imports_first ps ->
  (∀ w s, @collects A E B V W R MT _ _ _ _ (ps ++ [Payload.End]) w s -> here (s_assembler s) <= 2 ^ 63) ->
  @compile A E B V W P R MT _ _ _ _ _ fuel_loop fuel_opt data = Some (Ok m) ->
  Z.of_nat (length (assembled m)) <= u64_max ->
  slots_wf m /\
  ∀ i mn f off, imports (module m) !! i = Some (mn, f, off) ->
    quad_at (assembled m) off = le_bytes 8 unlinked.
Proof.
  intros Hps Hfirst Hmem Hm Hfits. destruct (compile_inv _ _ _ _ _ Hps Hm) as (w & s & Hc & Hfin).
  destruct (finish_spec _ _ _ (collects_layout _ _ _ Hc) (Hmem _ _ Hc) Hfin) as (final & Hfinal).
  eapply finish_slots; [exact Hfinal|by eapply collects_slots|done].
Qed.

(** Some assembler holds the code of a module that compiled. *)
Lemma compile_finished data ps fuel_loop fuel_opt m :
  @parses B P R MT _ data ps ->
  (∀ w s, @collects A E B V W R MT _ _ _ _ (ps ++ [Payload.End]) w s -> here (s_assembler s) <= 2 ^ 63) ->
  @compile A E B V W P R MT _ _ _ _ _ fuel_loop fuel_opt data = Some (Ok m) ->
  ∃ w s final, @collects A E B V W R MT _ _ _ _ (ps ++ [Payload.End]) w s /\
    @bind_labels A E B MT _ _ fuel_opt s = Some (Ok (final, module m)) /\ asm_assemble final = inr (assembled m) /\
    finished s m final.
Proof.
  intros Hps Hmem Hm. destruct (compile_inv _ _ _ _ _ Hps Hm) as (w & s & Hc & (final & Hb & Has)%finish_inv).
  exists w, s, final. split_and!; try done. eapply bind_labels_finish; [by eapply collects_layout|by eapply Hmem|done..].
Qed.

(** What becomes of one entry of the code section: its code is compiled in state
    [s] and found in the assembler of the finished module, behind the label of
    the function. *)
Lemma compiled_at ps1 cs ps2 w3 s3 m final :
  @collects A E B V W R MT _ _ _ _ ((ps1 ++ Payload.CodeSectionEntry cs :: ps2) ++ [Payload.End]) w3 s3 ->
  finished s3 m final ->
  ∃ w s ft fv w1 l h a' c pre post,
    @collects A E B V W R MT _ _ _ _ ps1 w s /\ v_code_section_entry w = inr (fv, w1) /\
    lookup_function_type (s_function_types s) (s_function_typedefs s) (s_function_body_index s) = Some ft /\
    @compile_body A E B V _ _ _ (s_got s) (s_ils s) (s_function_typedefs s) (s_function_types s) ft cs
      fv (s_assembler s) = Ok (h, a') /\
    asm_instructions a' = asm_instructions (s_assembler s) ++ c /\
    grown s s3 /\ s_got s !! s_function_body_index s = Some l /\ asm_bound final l = Some (length pre) /\
    asm_instructions final = pre ++ i_zero_bytes :: normalize c ++ post /\
    function_stack_height (module m) (s_function_body_index s) = Some h /\
    function_entry_point (module m) (s_function_body_index s) = Some (code_size pre).
Proof.
  intros (a0 & Ha0 & Hp) Hfinal.
  change (ps1 ++ Payload.CodeSectionEntry cs :: ps2) with
    (ps1 ++ [Payload.CodeSectionEntry cs] ++ ps2) in Hp.
  rewrite <- !app_assoc in Hp. rewrite for_each_app in Hp.
  res_step Hp as [w s] G1. cbn [app for_each] in Hp. res_step Hp as [w2 s2] G2.
  assert (Hl : layout s) by (eapply layout_payloads; [done|by apply layout_new|exact G1]).
  cbn [handle_payload] in G2. res_step G2 as [fv w'] G3. res_step G2 as s1 G4.
  apply Ok_inj in G2 as [= -> ->].
  assert (Hx : index_space s) by (apply (collects_index_space ps1 w); by exists a0).
  destruct (piece_new Hdebug _ _ _ _ Hl G4) as (ft & l & h & a1 & c & Hft & Hcb & Hc' & Hcbar & Hcn & Hpc).
  destruct (code_section_entry_inv Hdebug _ _ _ _ G4) as (? & fl & ? & ? & ? & _ & Hfl & _ & _ & Heq).
  destruct (piece_payloads Hdebug _ _ _ _ _ _ _ _ _ _ (layout_code Hdebug _ _ _ _ Hl G4) Hpc Hp) as [Hl3 Hpc3].
  destruct (finish_piece _ _ _ _ _ _ _ _ Hfinal Hpc3 Hcbar Hcn) as (Hh & pre & post & Hcode & Hbd & Hentry).
  assert (fl = l) as ->.
  { pose proof (piece_body _ _ _ _ _ _ Hpc) as (Hgot & _)%(lay_bodies _ (layout_code Hdebug _ _ _ _ Hl G4)).
    rewrite Heq in Hgot. simpl in Hgot. congruence. }
  exists w, s, ft, fv, w2, l, h, a1, c, pre, post. split_and!; try done.
  - by exists a0.
  - destruct (v_code_section_entry w) as [|[fv0 w0]]; [done|]. by apply Ok_inj in G3 as [= -> ->].
  - apply (index_space_payloads Hdebug) in Hp as [_ Hg];
      [|exact (layout_code Hdebug _ _ _ _ Hl G4)|exact (index_space_code Hdebug _ _ _ _ G4 Hx)].
    etrans; [|exact Hg]. rewrite Heq. by split.
  - unfold function_stack_height, find_function, find_function_u32. by rewrite Hentry.
  - unfold function_entry_point, find_function, find_function_u32. by rewrite Hentry.
Qed.

Lemma compiled_piece data ps1 cs ps2 fuel_loop fuel_opt m :
  @parses B P R MT _ data (ps1 ++ Payload.CodeSectionEntry cs :: ps2) ->
  (∀ w s, @collects A E B V W R MT _ _ _ _ ((ps1 ++ Payload.CodeSectionEntry cs :: ps2) ++ [Payload.End]) w s ->
     here (s_assembler s) <= 2 ^ 63) ->
  @compile A E B V W P R MT _ _ _ _ _ fuel_loop fuel_opt data = Some (Ok m) ->
  ∃ w s ft fv w' h a' c final pre post,
    @collects A E B V W R MT _ _ _ _ ps1 w s /\ v_code_section_entry w = inr (fv, w') /\
    lookup_function_type (s_function_types s) (s_function_typedefs s) (s_function_body_index s) = Some ft /\
    @compile_body A E B V _ _ _ (s_got s) (s_ils s) (s_function_typedefs s) (s_function_types s) ft cs
      fv (s_assembler s) = Ok (h, a') /\
    asm_instructions a' = asm_instructions (s_assembler s) ++ c /\
    function_stack_height (module m) (s_function_body_index s) = Some h /\
    function_entry_point (module m) (s_function_body_index s) = Some (code_size pre) /\
    asm_assemble final = inr (assembled m) /\
    asm_instructions final = pre ++ i_zero_bytes :: normalize c ++ post.
Proof.
  intros Hps Hmem Hm. destruct (compile_finished _ _ _ _ _ Hps Hmem Hm) as (w3 & s3 & final & Hc3 & _ & _ & Hfin).
  destruct (compiled_at _ _ _ _ _ _ _ Hc3 Hfin)
    as (w & s & ft & fv & w1 & l & h & a' & c & pre & post & Hc & Hv & Hft & Hcb & Hca & _ & _ & _ & Hcode & Hh & He).
  exists w, s, ft, fv, w1, h, a', c, final, pre, post. split_and!; try done. apply Hfin.
Qed.

(** C6: where a compiled function is.  If a module compiles, then for every body
    of its code section [compile_body] succeeded on it with the tables collected
    so far, and the module records as entry point of that function the byte at
    which the optimized code of exactly this body starts, and as stack height the
    one [compile_body] returned. *)
Theorem compiled_entry_point data ps1 cs ps2 fuel_loop fuel_opt m :
  @parses B P R MT _ data (ps1 ++ Payload.CodeSectionEntry cs :: ps2) ->
  (∀ w s, @collects A E B V W R MT _ _ _ _ ((ps1 ++ Payload.CodeSectionEntry cs :: ps2) ++ [Payload.End]) w s ->
     here (s_assembler s) <= 2 ^ 63) ->
  @compile A E B V W P R MT _ _ _ _ _ fuel_loop fuel_opt data = Some (Ok m) ->
  ∃ w s ft fv w' h a' c final pre post,
    @collects A E B V W R MT _ _ _ _ ps1 w s /\ v_code_section_entry w = inr (fv, w') /\
    lookup_function_type (s_function_types s) (s_function_typedefs s) (s_function_body_index s) = Some ft /\
    @compile_body A E B V _ _ _ (s_got s) (s_ils s) (s_function_typedefs s) (s_function_types s) ft cs
      fv (s_assembler s) = Ok (h, a') /\
    asm_instructions a' = asm_instructions (s_assembler s) ++ c /\
    function_stack_height (module m) (s_function_body_index s) = Some h /\
    function_entry_point (module m) (s_function_body_index s) = Some (code_size pre) /\
    asm_assemble final = inr (assembled m) /\
    asm_instructions final = pre ++ i_zero_bytes :: normalize c ++ post.
Proof. apply compiled_piece. Qed.

(** C22: the function index space of a compiled module.  Imported functions and
    own functions share the indices [0 .. n-1] without gaps or overlaps, and only
    own functions have an entry point. *)
Theorem compiled_index_space data ps fuel_loop fuel_opt m :
  @parses B P R MT _ data ps ->
  (∀ w s, @collects A E B V W R MT _ _ _ _ (ps ++ [Payload.End]) w s -> here (s_assembler s) <= 2 ^ 63) ->
  @compile A E B V W P R MT _ _ _ _ _ fuel_loop fuel_opt data = Some (Ok m) ->
  (∃ n, 0 <= n /\ ∀ k, 0 <= k < n <->
     is_Some (imports (module m) !! k) \/ is_Some (functions (module m) !! k)) /\
  (∀ k, is_Some (imports (module m) !! k) -> functions (module m) !! k = None) /\
  (∀ k off, function_entry_point (module m) k = Some off -> is_Some (functions (module m) !! k)).
Proof.
  intros Hps Hmem Hm. destruct (compile_inv _ _ _ _ _ Hps Hm) as (w & s & Hc & Hfin).
  pose proof (collects_layout _ _ _ Hc) as Hl. pose proof (Hmem _ _ Hc) as Hfits.
  pose proof (collects_index_space _ _ _ Hc) as Hi.
  destruct (finish_spec _ _ _ Hl Hfits Hfin) as (final & [_ _ _ Hb]).
  destruct (bu_same _ _ _ _ _ _ Hb) as (Ef & _ & _ & Ei & _). simpl in Ef, Ei.
  rewrite Ef, Ei. destruct Hi as [Hn Ht Hsp Hd Hg Hil]. split_and!.
  - exists (s_function_index s). split; [done|]. intros k. by rewrite <- Ht.
  - done.
  - intros k off. unfold function_entry_point, find_function, find_function_u32. intros Hk.
    destruct (function_bodies (module m) !! k) as [off'|] eqn:Hk'; [|done].
    apply (bu_only _ _ _ _ _ _ Hb) in Hk' as [Hk'|([l k'] & -> & Hin)%list_elem_of_fmap].
    + by rewrite (lay_entries _ Hl), lookup_empty in Hk'.
    + apply Hg. destruct (lay_bodies _ Hl _ _ Hin) as (Hgot & _). simpl. by rewrite Hgot.
Qed.

(** C34: the type of a function body is looked up twice.  The type index of the
    function is used as a function index once more: the compiler takes the type
    of whatever function has that index, and panics when there is none, although
    the function's own type is known. *)
Theorem body_type_looked_up_twice fv cs (s : cstate A MT) t ft :
  s_function_types s !! s_function_body_index s = Some t -> s_function_typedefs s !! t = Some ft ->
  (s_function_types s !! t = None ->
     @code_section_entry A E B V MT _ _ _ fv cs s = Panic UnwrapNone) /\
  (∀ t', s_function_types s !! t = Some t' -> ∀ s',
     @code_section_entry A E B V MT _ _ _ fv cs s = Ok s' ->
     ∃ ft' h a', s_function_typedefs s !! t' = Some ft' /\
       @compile_body A E B V _ _ _ (s_got s) (s_ils s) (s_function_typedefs s) (s_function_types s) ft' cs
         fv (s_assembler s) = Ok (h, a') /\ s_assembler s' = a').
Proof.
  intros Ht Hft.
  assert (Hlook : lookup_function_type (s_function_types s) (s_function_typedefs s) (s_function_body_index s)
    = (t' ← s_function_types s !! t; s_function_typedefs s !! t')).
  { unfold lookup_function_type. by rewrite Ht. }
  split.
  - intros Hn. unfold code_section_entry. by rewrite Hlook, Hn.
  - intros t' Ht' s' Hs'.
    destruct (code_section_entry_inv Hdebug _ _ _ _ Hs') as (ft' & l & h & a' & c & Hl & _ & Hcb & _ & ->).
    rewrite Hlook, Ht' in Hl. by exists ft', h, a'.
Qed.
End Finish.

(** ** Concrete instances *)
Import ListParser.

(** [(module (func (type 1)) ...)] with two types and one function. *)
Definition sample_types : cstate BufferAssembler.buffer unit :=
  mkC (BufferAssembler.mkBuffer [i_dq 0] [] false 3) {[0 := mkLabel 2]} ∅ module_new 1 0
    {[0 := mkFuncType [] []; 1 := mkFuncType [I64] []]} 2 {[0 := 1]} [(0, mkLabel 1)] [].

Lemma body_type_looked_up_twice_witness :
  @code_section_entry _ _ unit Z unit BufferAssembler.buffer_assembler _ debug 0
    (mkBody (inr []) (inr []) 0) sample_types = Panic UnwrapNone.
Proof.
  apply (body_type_looked_up_twice (H1 := debug) eq_refl 0 (mkBody (inr []) (inr []) 0) sample_types
    1 (mkFuncType [I64] [])); reflexivity.
Defined.

Lemma sample_memory w s :
  @collects _ _ unit Z unit unit unit BufferAssembler.buffer_assembler _ debug accept_all
    (sample_payloads ++ [Payload.End]) w s -> here (s_assembler s) <= 2 ^ 63.
Proof.
  intros (a & Ha & Hp). injection Ha as <-. vm_compute in Hp. injection Hp as _ <-. vm_compute. discriminate.
Qed.

Definition sample_assembled : AssembledModule unit :=
  match sample_compile 9 20 sample_bytes with
  | Some (Ok m) => m
  | _ => mkAssembled module_new []
  end.

Lemma sample_assembled_eq :
  @compile _ _ unit Z unit nat unit unit BufferAssembler.buffer_assembler _ debug
    sample_parser accept_all 9 20 sample_bytes = Some (Ok sample_assembled).
Proof. vm_compute. reflexivity. Qed.

Lemma compiled_import_slots_witness :
  slots_wf sample_assembled /\
  ∀ i mn f off, imports (module sample_assembled) !! i = Some (mn, f, off) ->
    quad_at (assembled sample_assembled) off = le_bytes 8 unlinked.
Proof.
  refine (compiled_import_slots (H1 := debug) eq_refl sample_bytes sample_payloads 9 20 sample_assembled
    sample_parses _ sample_memory sample_assembled_eq _).
  - exists (take 6 sample_payloads), (drop 6 sample_payloads). split; [reflexivity|]. split; reflexivity.
  - vm_compute. discriminate.
Defined.

Lemma compiled_entry_point_witness :
  ∃ w s ft fv w' h a' c final pre post,
    @collects _ _ unit Z unit unit unit BufferAssembler.buffer_assembler _ debug accept_all
      (take 6 sample_payloads) w s /\ v_code_section_entry w = inr (fv, w') /\
    lookup_function_type (s_function_types s) (s_function_typedefs s) (s_function_body_index s) = Some ft /\
    @compile_body _ _ unit Z BufferAssembler.buffer_assembler _ debug (s_got s) (s_ils s)
      (s_function_typedefs s) (s_function_types s) ft
      (mkBody (inr (map inr [(Operator.Call 0, 0); (Operator.End, 2)])) (inr []) 3)
      fv (s_assembler s) = Ok (h, a') /\
    asm_instructions a' = asm_instructions (s_assembler s) ++ c /\
    function_stack_height (module sample_assembled) (s_function_body_index s) = Some h /\
    function_entry_point (module sample_assembled) (s_function_body_index s) = Some (code_size pre) /\
    asm_assemble final = inr (assembled sample_assembled) /\
    asm_instructions final = pre ++ i_zero_bytes :: normalize c ++ post.
Proof.
  exact (compiled_entry_point (H1 := debug) eq_refl sample_bytes (take 6 sample_payloads) _ [] 9 20
    sample_assembled sample_parses sample_memory sample_assembled_eq).
Defined.

Lemma compiled_index_space_witness :
  (∃ n, 0 <= n /\ ∀ k, 0 <= k < n <-> is_Some (imports (module sample_assembled) !! k) \/
     is_Some (functions (module sample_assembled) !! k)) /\
  (∀ k, is_Some (imports (module sample_assembled) !! k) ->
     functions (module sample_assembled) !! k = None) /\
  (∀ k off, function_entry_point (module sample_assembled) k = Some off ->
     is_Some (functions (module sample_assembled) !! k)).
Proof.
  exact (compiled_index_space (H1 := debug) eq_refl sample_bytes sample_payloads 9 20 sample_assembled
    sample_parses sample_memory sample_assembled_eq).
Defined.
