(* ===== verification/Disassembly.v ===== *)
(** * The listing of a compiled module ([AssembledModule::dump_asm], [parawasm/src/x86_64/mod.rs])

    The code from the first function on, one line per instruction, with its
    address, its text and its bytes, and a heading where a function starts.
    iced's decoder and formatter are the interface [Decoder]. *)
From Stdlib Require String.
From S2P Require Import Prelude Text ModuleApi.

(** [iced_x86::Decoder] on 64-bit code as an iterator, an instruction's fields,
    and [IntelFormatter] with the options [dump_asm] sets. *)
Class Decoder (I : Type) := {
  decode : list Z -> list I;
  ip : I -> Z;
  len : I -> Z;
  is_call : I -> bool;                (* mnemonic() == Mnemonic::Call *)
  memory_displacement64 : I -> Z;
  format : I -> list Z }.

(** [instrs] lie one behind the other from [pos] to [end_]. *)
Inductive laid_out {I} `{Decoder I} : Z -> list I -> Z -> Prop :=
  | laid_out_nil pos : laid_out pos [] pos
  | laid_out_cons pos instr instrs end_ :
      ip instr = pos -> 0 < len instr -> laid_out (pos + len instr) instrs end_ ->
      laid_out pos (instr :: instrs) end_.

(** The decoder yields the whole of its input. *)
Class DecoderLaws (I : Type) `{Decoder I} : Prop :=
  law_decode bs : laid_out 0 (decode bs) (Z.of_nat (length bs)).

(** [BTreeMap<String, u32>] iterates in the order of the names' bytes. *)
Definition name_le {V} (x y : string * V) : Prop := Is_true (String.leb x.1 y.1).
#[global] Instance name_le_dec {V} : RelDecision (@name_le V).
Proof. intros x y. unfold name_le. apply _. Defined.
Definition btree_iter_names {V} (m : gmap string V) : list (string * V) := merge_sort name_le (map_to_list m).

Section Dump.
Context {I MT : Type} `{Decoder I} `{Profile} {E : Type}.

(** [self.function_bodies.values().min().cloned().unwrap_or(0)] *)
Definition first_function (self : CompiledModule MT) : Z :=
  match map snd (btree_iter (function_bodies self)) with
  | [] => 0
  | v :: vs => foldr Z.min v vs
  end.

(** The first function that starts at an instruction, for the heading. *)
Fixpoint find_body (first ip_ : Z) (l : list (Z * Z)) : Res E (option Z) :=
  match l with
  | [] => Ok None
  | (index, v) :: l =>
      d ← u64_arith (v - first);
      if d =? ip_ then Ok (Some index) else find_body first ip_ l
  end.

Definition heading (self : CompiledModule MT) (index : Z) : list Z :=
  match find_map (fun '(name, v) => if v =? index then Some name else None) (btree_iter_names (exports self)) with
  | Some name => chars name ++ chars ":" ++ newline
  | None => decimal index ++ chars ":" ++ newline
  end.

(** [&binary[lo..hi]] *)
Definition slice (bs : list Z) (lo hi : Z) : Res E (list Z) :=
  if decide (lo <= hi /\ hi <= Z.of_nat (length bs))
  then Ok (take (Z.to_nat (hi - lo)) (drop (Z.to_nat lo) bs)) else Panic OutOfRange.

(** One iteration over the decoder. *)
Definition dump_instr (self : CompiledModule MT) (offset first : Z) (binary_ : list Z) (instr : I) (out : list Z)
    : Res E (list Z) :=
  found ← find_body first (ip instr) (btree_iter (function_bodies self));
  let out := out ++ match found with Some index => heading self index | None => [] end in
  address ← u64_arith (ip instr + offset);
  address ← u64_arith (address + first);
  let out := out ++ chars "  " ++ hex 16 address ++ chars " " ++ format instr in
  out ← (if is_call instr && (0 <? memory_displacement64 instr) then
           target ← u64_arith (offset + memory_displacement64 instr);
           target ← u64_arith (target + first);
           Ok (out ++ chars " // -> " ++ hex 16 target)
         else Ok out);
  instr_bytes ← slice binary_ (ip instr) (ip instr + len instr);
  Ok (out ++ chars " ( " ++ concat (map (fun b => hex 2 b ++ chars " ") instr_bytes) ++ chars ")" ++ newline).

(** What [dump_asm] prints. *)
Definition dump_asm (self : AssembledModule MT) (offset : Z) : Res E (list Z) :=
  let first := first_function (module self) in
  binary_ ← slice (binary self) first (Z.of_nat (length (binary self)));
  for_each (dump_instr (module self) offset first binary_) (decode binary_) [].
End Dump.

(** ** Specification of the listing *)
Section Listing.
Context {I MT : Type} `{DecoderLaws I} `{Profile} {E : Type}.
Implicit Types (md : CompiledModule MT).

(** The function with the least index among those that start at [pos] bytes
    after the first one. *)
Definition function_at md (first pos : Z) : option Z :=
  find_map (fun '(index, v) => if v - first =? pos then Some index else None) (btree_iter (function_bodies md)).

Definition line md (offset first : Z) (instr : I) (bs : list Z) : list Z :=
  match function_at md first (ip instr) with Some index => heading md index | None => [] end
  ++ chars "  " ++ hex 16 (offset + first + ip instr) ++ chars " " ++ format instr
  ++ (if is_call instr && (0 <? memory_displacement64 instr)
      then chars " // -> " ++ hex 16 (offset + memory_displacement64 instr + first) else [])
  ++ chars " ( " ++ concat (map (fun b => hex 2 b ++ chars " ") bs) ++ chars ")" ++ newline.

Lemma first_function_spec md :
  (∀ k v, function_bodies md !! k = Some v -> first_function md <= v) /\
  (first_function md = 0 \/ ∃ k, function_bodies md !! k = Some (first_function md)).
Proof.
  assert (Hmin : ∀ v vs, (∀ x, x ∈ v :: vs -> foldr Z.min v vs <= x) /\ foldr Z.min v vs ∈ v :: vs).
  { intros v vs. induction vs as [|y vs [Hle Hin]]; simpl.
    - split; [|apply list_elem_of_here]. intros x ->%list_elem_of_singleton. lia.
    - split.
      + intros x [->|[->|Hx]%elem_of_cons]%elem_of_cons; [|lia|].
        * specialize (Hle v (list_elem_of_here _ _)). lia.
        * specialize (Hle x (list_elem_of_further _ _ _ Hx)). lia.
      + destruct (Z.min_spec y (foldr Z.min v vs)) as [[_ ->]|[_ ->]]; [apply list_elem_of_further, list_elem_of_here|].
        apply elem_of_cons in Hin as [Hin|Hin]; [rewrite Hin; apply list_elem_of_here|].
        by do 2 apply list_elem_of_further. }
  assert (Hvals : ∀ v, v ∈ map snd (btree_iter (function_bodies md)) <-> ∃ k, function_bodies md !! k = Some v).
  { intros v. split.
    - intros ([k w] & -> & Hk%elem_of_btree_iter)%list_elem_of_fmap. by exists k.
    - intros [k Hk%elem_of_btree_iter]. apply list_elem_of_fmap. by exists (k, v). }
  unfold first_function. destruct (map snd _) as [|v vs] eqn:Hl.
  - split; [|by left]. intros k v Hk. assert (v ∈ @nil Z) as []%elem_of_nil. apply Hvals. eauto.
  - destruct (Hmin v vs) as [Hle Hin]. split.
    + intros k x Hk. apply Hle, Hvals. eauto.
    + right. by apply Hvals.
Qed.

Lemma find_body_spec first pos l :
  Forall (fun '(_, v) => first <= v <= u64_max) l -> 0 <= first ->
  @find_body _ E first pos l = Ok (find_map (fun '(index, v) => if v - first =? pos then Some index else None) l).
Proof.
  intros Hl Hf. induction Hl as [|[index v] l Hv _ IH]; [done|]. cbn [find_body find_map].
  rewrite u64_arith_ok by lia. rewrite res_bind_ok, IH. by case_match.
Qed.

Lemma laid_out_le pos instrs end_ : laid_out pos instrs end_ -> pos <= end_.
Proof. induction 1; lia. Qed.

Lemma dump_instrs_spec md offset first bs pos instrs out :
  laid_out pos instrs (Z.of_nat (length bs)) -> 0 <= pos -> 0 <= first -> 0 <= offset ->
  (∀ k v, function_bodies md !! k = Some v -> first <= v <= u64_max) ->
  offset + first + Z.of_nat (length bs) <= u64_max ->
  Forall (fun i => is_call i = true -> offset + memory_displacement64 i + first <= u64_max) instrs ->
  ∃ chunks, for_each (@dump_instr I MT _ _ E md offset first bs) instrs out
      = Ok (out ++ concat (map (fun '(i, c) => line md offset first i c) chunks)) /\
    map fst chunks = instrs /\ concat (map snd chunks) = drop (Z.to_nat pos) bs /\
    Forall (fun '(i, c) => Z.of_nat (length c) = len i) chunks.
Proof.
  intros Hlay. revert out. remember (Z.of_nat (length bs)) as end_ eqn:Hend.
  induction Hlay as [pos|pos instr instrs end_ Hip Hlen Hlay IH]; intros out Hpos Hf Ho Hb Hfit Hcalls.
  - exists []. split; [by rewrite app_nil_r|]. split; [done|]. split; [|constructor].
    rewrite drop_ge by lia. done.
  - pose proof (laid_out_le _ _ _ Hlay) as Hle. apply Forall_cons in Hcalls as [Hcall Hcalls].
    set (c := take (Z.to_nat (len instr)) (drop (Z.to_nat pos) bs)).
    assert (Hone : @dump_instr I MT _ _ E md offset first bs instr out = Ok (out ++ line md offset first instr c)).
    { unfold dump_instr. rewrite find_body_spec; [|apply Forall_forall; intros [k v] Hk%elem_of_btree_iter; by eapply Hb|done].
      rewrite res_bind_ok, Hip, (u64_arith_ok (pos + offset)) by lia. rewrite res_bind_ok.
      rewrite (u64_arith_ok (pos + offset + first)) by lia. rewrite res_bind_ok.
      unfold slice. rewrite decide_True by lia.
      replace (Z.to_nat (pos + len instr - pos)) with (Z.to_nat (len instr)) by lia. fold c.
      unfold line, function_at. rewrite Hip. replace (pos + offset + first) with (offset + first + pos) by lia.
      destruct (is_call instr); cbn [andb]; [destruct (Z.ltb_spec 0 (memory_displacement64 instr))|].
      - specialize (Hcall eq_refl). rewrite (u64_arith_ok (offset + _)) by lia. rewrite res_bind_ok, u64_arith_ok by lia.
        rewrite !res_bind_ok. by rewrite <- !app_assoc.
      - rewrite !res_bind_ok. by rewrite <- !app_assoc.
      - rewrite !res_bind_ok. by rewrite <- !app_assoc. }
    destruct (IH Hend (out ++ line md offset first instr c)) as (chunks & Hr & Hi & Hcat & Hlens); [lia|done..|].
    exists ((instr, c) :: chunks). cbn [for_each]. rewrite Hone, res_bind_ok, Hr. cbn [map concat fst snd].
    split; [by rewrite app_assoc|]. split; [by rewrite Hi|]. split.
    + rewrite Hcat. unfold c. replace (Z.to_nat (pos + len instr)) with (Z.to_nat pos + Z.to_nat (len instr))%nat by lia.
      rewrite <- drop_drop. apply take_drop.
    + constructor; [|done]. unfold c. rewrite length_take, length_drop. lia.
Qed.

(** C20: the listing shows the whole code.  For a module whose functions start
    inside its code, and addresses that fit 64 bits, [dump_asm] does not panic; it
    prints one line per decoded instruction, with its address, the target of a
    call and its bytes, and a heading where a function starts; the bytes of the
    lines together are the code from the first function on. *)
Theorem dump_asm_lists_code (self : AssembledModule MT) offset :
  let first := first_function (module self) in
  let code := drop (Z.to_nat first) (binary self) in
  (∀ k v, function_bodies (module self) !! k = Some v -> 0 <= v <= Z.of_nat (length (binary self))) ->
  0 <= offset -> offset + Z.of_nat (length (binary self)) <= u64_max ->
  Forall (fun i : I => is_call i = true -> offset + memory_displacement64 i + first <= u64_max) (decode code) ->
  ∃ chunks : list (I * list Z),
    @dump_asm I MT _ _ E self offset = Ok (concat (map (fun '(i, c) => line (module self) offset first i c) chunks)) /\
    map fst chunks = decode code /\ concat (map snd chunks) = code /\
    Forall (fun '(i, c) => Z.of_nat (length c) = len i) chunks.
Proof.
  intros first code Hb Ho Hfit Hcalls. destruct (first_function_spec (module self)) as [Hmin Hfirst].
  fold first in Hmin, Hfirst.
  assert (Hrange : 0 <= first <= Z.of_nat (length (binary self))).
  { destruct Hfirst as [->|[k Hk]]; [lia|by eapply Hb]. }
  unfold dump_asm, slice. fold first. rewrite decide_True by lia. rewrite res_bind_ok.
  rewrite take_ge by (rewrite length_drop; lia). fold code.
  assert (Hcode : Z.of_nat (length code) = Z.of_nat (length (binary self)) - first)
    by (unfold code; rewrite length_drop; lia).
  destruct (dump_instrs_spec (module self) offset first code 0 (decode code) []) as (chunks & Hr & Hi & Hcat & Hlens);
    [apply law_decode|lia..| |lia|done|].
  - intros k v Hk. specialize (Hmin k v Hk). specialize (Hb k v Hk). lia.
  - exists chunks. split_and!; done.
Qed.
End Listing.

(** ** A concrete instance: every byte is an instruction; 232 is a call, to the
    byte 3 after the first function *)
#[local] Instance byte_decoder : Decoder (Z * Z) := {
  decode bs := imap (fun k b => (Z.of_nat k, b)) bs;
  ip i := i.1; len i := 1; is_call i := i.2 =? 232; memory_displacement64 i := 3;
  format i := chars (if i.2 =? 232 then "CALL" else "NOP") }.

#[local] Instance byte_decoder_laws : DecoderLaws (Z * Z).
Proof.
  intros bs. unfold decode, byte_decoder.
  assert (Hgen : ∀ k, laid_out (Z.of_nat k) (imap (fun j b => (Z.of_nat (k + j)%nat, b)) bs) (Z.of_nat (k + length bs)%nat)).
  { induction bs as [|b bs IH]; intros k; [rewrite Nat.add_0_r; constructor|].
    cbn [imap]. apply laid_out_cons; [simpl; lia|simpl; lia|].
    specialize (IH (S k)). replace (Z.of_nat k + len (Z.of_nat (k + 0)%nat, b)) with (Z.of_nat (S k)) by (simpl; lia).
    simpl length. rewrite Nat.add_succ_r, <- Nat.add_succ_l. erewrite imap_ext; [exact IH|].
    intros j x _. simpl. do 2 f_equal. lia. }
  exact (Hgen 0%nat).
Qed.

Definition listed_module : AssembledModule unit :=
  mkAssembled (mkModule ∅ {[0 := 2; 1 := 4]} ∅ {["main" := 1]} ∅ []) [0; 0; 144; 232; 144; 144].

Example listed :
  @dump_asm (Z * Z) unit _ debug unit listed_module 4096 = Ok (
    chars "0:" ++ newline ++ chars "  0000000000001002 NOP ( 90 )" ++ newline
    ++ chars "  0000000000001003 CALL // -> 0000000000001005 ( E8 )" ++ newline
    ++ chars "main:" ++ newline ++ chars "  0000000000001004 NOP ( 90 )" ++ newline
    ++ chars "  0000000000001005 NOP ( 90 )" ++ newline).
Proof. vm_compute. reflexivity. Qed.

Lemma dump_asm_lists_code_witness :
  let first := first_function (module listed_module) in
  let code := drop (Z.to_nat first) (binary listed_module) in
  ∃ chunks : list ((Z * Z) * list Z),
    @dump_asm (Z * Z) unit _ debug unit listed_module 4096
      = Ok (concat (map (fun '(i, c) => line (module listed_module) 4096 first i c) chunks)) /\
    map fst chunks = decode code /\ concat (map snd chunks) = code /\
    Forall (fun '(i, c) => Z.of_nat (length c) = len i) chunks.
Proof.
  apply (dump_asm_lists_code (H1 := debug) (E := unit) listed_module 4096).
  - intros k v. change (function_bodies (module listed_module)) with (<[0 := 2]> {[1 := 4]} : gmap Z Z).
    rewrite lookup_insert_Some, lookup_singleton_Some. simpl. intros [[_ <-]|[_ [_ <-]]]; lia.
  - lia.
  - vm_compute. discriminate.
  - repeat constructor; intros _; vm_compute; discriminate.
Defined.
