(* ===== verification/EndToEnd.v ===== *)
(** * Compiled modules compute what WebAssembly says

    The theorems about single functions ([FunctionOpt]) and about whole
    compilations ([Binding]) put together: executing a compiled module from the
    entry point it records. *)
From S2P Require Import Prelude X86 Assembler Optimizer OptimizerSem Wasm Instructions Codegen.
From S2P Require Import Function FunctionSem FunctionOpt ModuleApi Compile Layout Tables Binding.

(** The validator of a function body starts with an empty operand stack. *)
Class CodeEntryLaws (V B W R MT : Type) `{FuncValidatorLaws V B, !Validator W V B R MT} : Prop :=
  law_code_section_entry (w : W) fv w' locs :
    v_code_section_entry w = inr (fv, w') -> fv_tracks fv (mkW [] locs).

Section EndToEnd.
Context {A E B V W P R MT : Type} `{Assembler A E} `{!AssemblerLaws A E} `{FuncValidatorLaws V B}.
Context `{!Parser P B R MT, !Validator W V B R MT} `{!CodeEntryLaws V B W R MT} `{Profile} `{EnvLaws}.
Context (Hdebug : overflow_checks = true).

(** C2: a function of a compiled module computes what WebAssembly says.  Take an
    entry of the code section without declared locals whose body consists of
    [i64.const], [i64.add], [local.get], [local.set], [nop] and [end].  If the
    module compiles, it records an entry
    point and a stack height [h] for the function, and executing the assembled
    instructions from that entry point on, from any state with room for the
    frame and [h] operands, returns to the caller with the results of the body in
    [rax] and [rdx], [rsp] and [rbp] restored and the caller's memory untouched.
    The parameters and results are those of the type the compiler looks up: [n]
    64-bit parameters, of which local [k] is read from argument register
    [n - 1 - k], and at most two integer results. *)
Theorem compiled_module_correct data ps1 ops pos ps2 fuel_loop fuel_opt m :
  Forall (fun op => simple op = true) (map fst ops) ->
  @parses B P R MT _ data (ps1 ++ Payload.CodeSectionEntry (mkBody (inr (map inr ops)) (inr []) pos) :: ps2) ->
  (∀ w st, @collects A E B V W R MT _ _ _ _
     ((ps1 ++ Payload.CodeSectionEntry (mkBody (inr (map inr ops)) (inr []) pos) :: ps2) ++ [Payload.End]) w st ->
     here (s_assembler st) <= 2 ^ 63) ->
  @compile A E B V W P R MT _ _ _ _ _ fuel_loop fuel_opt data = Some (Ok m) ->
  ∃ w st ft h final pre code,
    @collects A E B V W R MT _ _ _ _ ps1 w st /\
    lookup_function_type (s_function_types st) (s_function_typedefs st) (s_function_body_index st) = Some ft /\
    function_entry_point (module m) (s_function_body_index st) = Some (code_size pre) /\
    function_stack_height (module m) (s_function_body_index st) = Some h /\
    asm_instructions final = pre ++ code /\ asm_assemble final = inr (assembled m) /\
    ∀ n rts s ra vs locs, ft = mkFuncType (replicate n I64) rts ->
      Forall (fun t => is_int t = true) rts -> length vs = length rts -> (length vs <= 2)%nat ->
      wf s -> load64 (mem s) (regs s RSP) = Some ra -> regs s RSP + 8 < 2 ^ 64 ->
      wasm_exec (map fst ops) (mkW [] (entry_params n s)) = Some (mkW vs locs) ->
      8 + 8 * Z.of_nat n + 8 * h <= regs s RSP ->
      ∃ s', run code s = Some s' /\ returns_with s s' ra vs.
Proof.
  intros Hops Hps Hmem Hm.
  destruct (compiled_piece Hdebug data ps1 _ ps2 fuel_loop fuel_opt m Hps Hmem Hm)
    as (w & st & ft & fv & w' & h & a' & c & final & pre & post & Hc & Hfv & Hft & Hcb & Hca & Hh & He & Has & Hfin).
  exists w, st, ft, h, final, pre, (i_zero_bytes :: normalize c ++ post). split_and!; [done..|].
  intros n rts s ra vs locs -> Hrts Hlen Hvs Hs Hra Htop Hw Hroom.
  destruct (compile_body_validated _ _ _ _ _ _ _ _ _ _ _ Hcb) as (Hn & fv' & Hops' & Hfin').
  simpl in Hn. rewrite length_replicate in Hn.
  pose proof (law_code_section_entry w fv w' (entry_params n s) Hfv) as Htr.
  pose proof (fv_height_tracks _ _ Htr) as Hh0.
  pose proof (fv_ops_height _ _ _ _ _ _ _ Hops' Htr Hw ltac:(rewrite Hh0; simpl; lia)) as Hheight.
  assert (∃ cs, mapM (code_of (param_offsets n)) (map fst ops) = Some cs) as [cs Hcs].
  { apply (codes_of_defined (entry_frame n s) _ _ _ Hops Hw). simpl. unfold entry_params.
    rewrite length_map, length_reverse, length_take, length_param_offsets. simpl. lia. }
  destruct (compile_body_spec (s_got st) (s_ils st) (s_function_typedefs st) (s_function_types st)
    n rts ops pos fv h fv' cs (s_assembler st)) as (a1 & Ha1 & Hx); [done..|].
  rewrite Hcb in Ha1. apply Ok_inj in Ha1 as [= <-]. destruct Hx as [Hx _]. rewrite Hca in Hx.
  apply app_inv_head in Hx as ->. rewrite <- Hlen.
  destruct (run_normalized n (map fst ops) cs s ra vs locs) as (s' & Hrun & Hret); [done..|lia|].
  exists s'. split; [|done]. cbn [run]. rewrite decide_False by done. simpl.
  by apply run_more.
Qed.
End EndToEnd.

(** ** A concrete instance *)
Import ListParser.
#[local] Existing Instance no_env.

#[global] Instance accept_all_entry : CodeEntryLaws Z unit unit unit unit.
Proof. by intros w fv w' locs [= <- _]. Qed.

(** [(module (func (param i64 i64) (result i64) local.get 0 local.get 1 i64.add))] *)
Definition add_prefix : list payload :=
  [Payload.Version 1 tt;
   Payload.TypeSection [inr (TypeDefFunc (mkFuncType [I64; I64] [I64]))];
   Payload.FunctionSection [inr 0];
   Payload.CodeSectionStart 1 tt].
Definition add_payloads : list payload :=
  add_prefix ++ [Payload.CodeSectionEntry (mkBody (inr (map inr sample_ops)) (inr []) 6)].
Definition add_parser : Parser nat unit unit unit := parser_of [add_payloads].
Definition add_bytes : list Z := bytes_of 0 add_payloads.

Lemma add_parses : @parses unit nat unit unit add_parser add_bytes add_payloads.
Proof.
  apply parser_of_parses; [done|by repeat constructor].
Qed.

Lemma add_memory_bound w s :
  @collects _ _ unit Z unit unit unit BufferAssembler.buffer_assembler _ debug accept_all
    (add_payloads ++ [Payload.End]) w s -> here (s_assembler s) <= 2 ^ 63.
Proof.
  intros (a & Ha & Hp). injection Ha as <-. vm_compute in Hp. injection Hp as _ <-. vm_compute. discriminate.
Qed.

Definition add_module : AssembledModule unit :=
  match @compile _ _ unit Z unit nat unit unit BufferAssembler.buffer_assembler _ debug
    add_parser accept_all 9 30 add_bytes with
  | Some (Ok m) => m
  | _ => mkAssembled module_new []
  end.

Lemma add_module_eq :
  @compile _ _ unit Z unit nat unit unit BufferAssembler.buffer_assembler _ debug
    add_parser accept_all 9 30 add_bytes = Some (Ok add_module).
Proof. vm_compute. reflexivity. Qed.

Lemma compiled_module_correct_witness :
  ∃ final pre code s', function_entry_point (module add_module) 0 = Some (code_size pre) /\
    @asm_instructions BufferAssembler.buffer BufferAssembler.error _ final = pre ++ code /\
    asm_assemble final = inr (assembled add_module) /\
    run code sample_state = Some s' /\ returns_with sample_state s' 0 [62].
Proof.
  destruct (compiled_module_correct (Parser0 := add_parser) (H2 := debug) eq_refl add_bytes add_prefix sample_ops 6 [] 9 30 add_module
    ltac:(repeat constructor) add_parses add_memory_bound add_module_eq)
    as (w & st & ft & h & final & pre & code & (a & Ha & Hc) & Hft & He & Hh & Hfin & Has & Hrun).
  injection Ha as <-. vm_compute in Hc. injection Hc as <- <-. vm_compute in Hft. injection Hft as <-.
  assert (h = 2) as -> by (vm_compute in Hh; by injection Hh as <-).
  destruct (Hrun 2%nat [I64] sample_state 0 [62] [10; 52]) as (s' & Hr & Hret).
  - reflexivity.
  - repeat constructor.
  - reflexivity.
  - simpl. lia.
  - apply sample_state_wf.
  - reflexivity.
  - simpl. lia.
  - reflexivity.
  - vm_compute. discriminate.
  - exists final, pre, code, s'. split_and!; [exact He|exact Hfin|exact Has|exact Hr|exact Hret].
Defined.
