(* ===== verification/Loaded.v ===== *)
(** * Compiled modules in memory

    A module that was compiled, linked and put at a base address implements its
    functions: their optimized code lies at the entry points the module records,
    and every call in it reaches the function the module's tables name, an own
    function through its label or an import through its slot. *)
From S2P Require Import Prelude X86 Assembler Calls Optimizer OptimizerSem Wasm Programs Instructions Codegen.
From S2P Require Import Function FunctionSem FunctionOpt CallsSem ModuleApi Compile Layout Tables Binding.

Section Loaded.
Context {A E B V W P R MT : Type} `{Assembler A E} `{!AssemblerLaws A E} `{FuncValidator V B} `{Profile}.
Context `{!Parser P B R MT, !Validator W V B R MT} (Hdebug : overflow_checks = true).

Abbreviation code_of_state s := (asm_instructions (s_assembler s)).
Implicit Types (s : cstate A MT) (m : AssembledModule MT).

(** ** The image of a module *)

(** The address of function [i] of a module at [base]: an own function's entry
    point, or what the slot of an import holds. *)
Definition function_address (base : Z) (m : AssembledModule MT) (i : Z) : option Z :=
  match function_entry_point (module m) i with
  | Some entry => Some (base + entry)
  | None => '(_, _, off) ← imports (module m) !! i; Some (le_word (quad_at (assembled m) off))
  end.

(** The labels of the code in [final] once its bytes [bs] are at [base]. *)
Definition image (base : Z) (final : A) (bs : list Z) : loaded := {|
  label_addr l := (fun n => base + code_size (take n (asm_instructions final))) <$> asm_bound final l;
  slot_value l := (fun n => le_word (quad_at bs (code_size (take n (asm_instructions final)))))
    <$> asm_bound final l |}.

(** The code of the module's own functions can be fetched. *)
Definition installed (code_at : Z -> option (loaded * list Instruction)) (base : Z) (final : A)
    (bs : list Z) (got : gmap Z CodeLabel) : Prop :=
  ∀ k l n, got !! k = Some l -> asm_bound final l = Some n ->
    code_at (base + code_size (take n (asm_instructions final)))
      = Some (image base final bs, drop n (asm_instructions final)).

(** The function of a module with type [ft], greatest stack height [h] and body
    [ops]. *)
Definition module_function (base : Z) (m : AssembledModule MT) (ft : FuncType) (h : Z)
    (ops : list Operator.t) : finst :=
  mkFunc (length (params ft)) (length (returns ft)) (Z.to_nat h) ops (function_address base m).

(** ** Addresses of labels *)

(** A mark's label is bound where the code behind the mark went. *)
Lemma marked_address s m final i l :
  finished s m final -> (i, l) ∈ s_label_indices s ->
  ∃ n, asm_bound final l = Some n /\
    code_size (take n (asm_instructions final))
      = code_size (take (Z.to_nat (relocate_all (code_of_state s) i)) (final_code s)) /\
    relocate_all (code_of_state s) i < Z.of_nat (length (final_code s)).
Proof.
  intros [Hl _ Hcode Hb] Hin. destruct (marks_ok _ _ (lay_marks _ Hl) _ Hin) as (_ & Hlt & Hcut). simpl in Hlt, Hcut.
  pose proof (relocate_cut_end _ _ Hcut Hlt (lay_cut _ Hl)) as Hend. fold (final_code s) in Hend.
  assert (Hm : (relocate_all (code_of_state s) i, l) ∈ final_marks s) by (apply elem_of_moved; by exists i, l).
  eexists. split; [exact (bu_bound _ _ _ _ _ _ Hb _ _ Hm Hend)|]. split; [|done].
  rewrite Hcode. set (r := Z.to_nat _).
  rewrite <- (take_drop r (final_code s)) at 2. rewrite bound_code_app, take_app_length.
  apply code_size_bound_code.
Qed.

(** Only own functions have entry points. *)
Lemma entry_of_own s m final k e :
  finished s m final -> function_entry_point (module m) k = Some e ->
  ∃ l, s_got s !! k = Some l /\ (l, k) ∈ s_function_bodies s /\ l ∈ map snd (s_label_indices s) /\
    function_bodies (module m) !! k = Some e.
Proof.
  intros [Hl _ _ Hb] He.
  assert (Hk : function_bodies (module m) !! k = Some e).
  { unfold function_entry_point, find_function, find_function_u32 in He.
    destruct (function_bodies (module m) !! k) eqn:Hk; [|done]. simpl in He. congruence. }
  destruct (bu_only _ _ _ _ _ _ Hb k e Hk) as [Hnew|([l k'] & -> & Hin)%list_elem_of_fmap].
  { by rewrite (lay_entries _ Hl), lookup_empty in Hnew. }
  destruct (lay_bodies _ Hl _ _ Hin) as (Hgot & _ & Hm). by exists l.
Qed.

(** An own function's label is at the entry point of the function. *)
Lemma own_address s m final k l e :
  finished s m final -> s_got s !! k = Some l -> function_entry_point (module m) k = Some e ->
  ∃ n, asm_bound final l = Some n /\ code_size (take n (asm_instructions final)) = e.
Proof.
  intros Hfin Hgot He.
  destruct (entry_of_own _ _ _ _ _ Hfin He) as (l' & Hgot' & Hin & ([i l2] & Heq & Hmark)%list_elem_of_fmap & Hk).
  simpl in Heq. subst l2. rewrite Hgot in Hgot'. injection Hgot' as <-.
  destruct (marked_address _ _ _ _ _ Hfin Hmark) as (n & Hn & Hsz & Hlt). exists n. split; [done|].
  assert (Hm : (relocate_all (code_of_state s) i, l) ∈ final_marks s) by (apply elem_of_moved; by exists i, l).
  pose proof (bu_entries _ _ _ _ _ _ (fin_bound _ _ _ Hfin) _ _ _ Hm Hin Hlt) as He'. simpl in He'.
  rewrite Hk in He'. by injection He' as ->.
Qed.

(** An import's label is at its slot. *)
Lemma import_address s m final k l mn f off :
  finished s m final -> slots s -> s_ils s !! k = Some l -> imports (module m) !! k = Some (mn, f, off) ->
  ∃ n, asm_bound final l = Some n /\ code_size (take n (asm_instructions final)) = off.
Proof.
  intros Hfin Hsl Hl Hi. pose proof (bu_same _ _ _ _ _ _ (fin_bound _ _ _ Hfin)) as (_ & _ & _ & Himp & _).
  simpl in Himp. rewrite Himp in Hi. destruct (slot_import _ Hsl _ _ _ _ Hi) as (l' & i & Hl' & Hmark & Hat).
  rewrite Hl in Hl'. injection Hl' as <-. destruct (marked_address _ _ _ _ _ Hfin Hmark) as (n & Hn & Hsz & _).
  exists n. split; [done|]. rewrite Hsz. destruct (final_slot _ _ _ Hat) as [_ ->]. do 2 f_equal.
  destruct (marks_ok _ _ (lay_marks _ (fin_layout _ _ _ Hfin)) _ Hmark) as (_ & _ & Hcut).
  simpl in Hcut. destruct (cut_split _ _ Hcut) as [_ ->]. destruct Hat as (Hlk & _ & Hflat).
  rewrite !Nat2Z.id, normalize_flat by done. rewrite length_take. apply lookup_lt_Some in Hlk. lia.
Qed.

(** A call in the code compiled at [s] reaches the function the finished module
    gives its index to. *)
Lemma call_reaches s s3 m m' final base i a ft :
  index_space s -> index_space s3 -> grown s s3 -> finished s3 m final -> slots s3 ->
  lookup_function_type (s_function_types s) (s_function_typedefs s) i = Some ft ->
  module m' = module m -> function_address base m' i = Some a ->
  call_address (image base final (assembled m'))
    (mkTables (s_got s) (s_ils s) (s_function_typedefs s) (s_function_types s)) i = Some a.
Proof.
  intros Hx Hx3 [Hgot Hils] Hfin Hsl Hft Hm Ha. unfold function_address in Ha. rewrite Hm in Ha.
  pose proof (bu_same _ _ _ _ _ _ (fin_bound _ _ _ Hfin)) as (Hfun & _ & _ & Himp & _). simpl in Hfun, Himp.
  unfold call_address. cbn [t_got t_ils]. destruct (s_got s !! i) as [l|] eqn:Hl.
  - eapply lookup_weaken in Hl; [|exact Hgot].
    destruct (function_entry_point (module m) i) as [e|] eqn:He.
    + destruct (own_address _ _ _ _ _ _ Hfin Hl He) as (n & Hn & Hsz).
      simpl. rewrite Hn. simpl. by rewrite Hsz.
    + exfalso. destruct (imports (module m) !! i) as [[[? ?] off]|] eqn:Hi; [|done].
      assert (Hs : is_Some (functions (s_module s3) !! i)) by (apply (is_got _ Hx3); by eexists).
      rewrite (is_disjoint _ Hx3 i) in Hs; [by destruct Hs|]. rewrite <- Himp, Hi. by eexists.
  - destruct (s_ils s !! i) as [l|] eqn:Hl'.
    + eapply lookup_weaken in Hl'; [|exact Hils].
      assert (Hi : is_Some (imports (s_module s3) !! i)) by (apply (is_ils _ Hx3); by eexists).
      destruct (function_entry_point (module m) i) as [e|] eqn:He.
      * exfalso. destruct (entry_of_own _ _ _ _ _ Hfin He) as (l' & Hg & _).
        assert (Hs : is_Some (functions (s_module s3) !! i)) by (apply (is_got _ Hx3); by eexists).
        rewrite (is_disjoint _ Hx3 i Hi) in Hs. by destruct Hs.
      * destruct (imports (module m) !! i) as [[[mn f] off]|] eqn:Hi'; [|done]. cbn [mbind option_bind] in Ha.
        destruct (import_address _ _ _ _ _ _ _ _ Hfin Hsl Hl' Hi') as (n & Hn & Hsz).
        simpl. rewrite Hn. simpl. by rewrite Hsz.
    + exfalso. assert (Ht : is_Some (s_function_types s !! i)).
      { unfold lookup_function_type in Hft. destruct (s_function_types s !! i); [by eexists|done]. }
      apply (is_split _ Hx) in Ht as [Ht%(is_ils _ Hx)|Ht%(is_got _ Hx)].
      * rewrite Hl' in Ht. by destruct Ht.
      * rewrite Hl in Ht. by destruct Ht.
Qed.

(** ** Modules in memory *)

(** The module with the payloads [ps] was compiled, linked to [m] and installed
    at [base]; [s] is what its payloads collected, [final] the assembler with the
    labels that the compilation ended with. *)
Record module_at code_at (base : Z) (ps : list (Payload.t B R MT)) (m : AssembledModule MT) s : Prop := {
  ma_imports : imports_first ps;
  ma_fits : here (s_assembler s) <= 2 ^ 63;
  ma_compiled : ∃ data fuel_loop fuel_opt m0 w final,
    @parses B P R MT _ data ps /\
    @compile A E B V W P R MT _ _ _ _ _ fuel_loop fuel_opt data = Some (Ok m0) /\
    @collects A E B V W R MT _ _ _ _ (ps ++ [Payload.End]) w s /\
    @bind_labels A E B MT _ _ fuel_opt s = Some (Ok (final, module m0)) /\
    asm_assemble final = inr (assembled m0) /\
    module m = module m0 /\ installed code_at base final (assembled m) (s_got s) }.

(** The body [ops] behind the payloads [ps1] of such a module, compiled in state
    [s0] for the type [ft], can be run with [K] bytes of stack: the functions it
    calls have the arities the compiler looked up, and at most one result. *)
Record runnable (st : store) (K base : Z) (m : AssembledModule MT) s0 (ft : FuncType) (h : Z)
    (ops : list Operator.t) : Prop := {
  rn_type : lookup_function_type (s_function_types s0) (s_function_typedefs s0) (s_function_body_index s0) = Some ft;
  rn_height : function_stack_height (module m) (s_function_body_index s0) = Some h;
  rn_supported : Forall (fun op => supported op = true) ops;
  rn_params : Forall (eq I64) (params ft);
  rn_returns : (length (returns ft) <= 2)%nat;
  rn_room : frame_bytes (module_function base m ft h ops) <= K;
  rn_calls i ft' : Operator.Call i ∈ ops ->
    lookup_function_type (s_function_types s0) (s_function_typedefs s0) i = Some ft' ->
    ∃ a G, function_address base m i = Some a /\ 0 <= a < 2 ^ 64 /\ st a = Some G /\
      length (params ft') = f_params G /\ length (returns ft') = f_results G /\ (f_results G <= 1)%nat }.

(** [F] is a function of such a module and its entry point is at [a]. *)
Definition module_entry code_at (st : store) (K a : Z) (F : finst) : Prop :=
  ∃ base ps1 ops pos ps2 m s w s0 ft h entry,
    module_at code_at base (ps1 ++ Payload.CodeSectionEntry (mkBody (inr (map inr ops)) (inr []) pos) :: ps2) m s /\
    @collects A E B V W R MT _ _ _ _ ps1 w s0 /\ runnable st K base m s0 ft h (map fst ops) /\
    function_entry_point (module m) (s_function_body_index s0) = Some entry /\
    a = base + entry /\ F = module_function base m ft h (map fst ops).

(** The code at the entry point of a function of a compiled module implements it. *)
Lemma module_entry_implemented code_at st K a F :
  module_entry code_at st K a F -> implemented code_at st K a F.
Proof.
  intros (base & ps1 & ops & pos & ps2 & m & s3 & w' & s0 & ft & h & entry &
    [Hfirst Hfits (data & fl & fo & m0 & w3 & final & _ & _ & Hc3 & Hbl & Has & Hm & Hinst)] & Hc0 & Hrn & Hentry & -> & ->).
  pose proof (bind_labels_finish _ _ _ _ (collects_layout Hdebug _ _ _ Hc3) Hfits Hbl Has) as Hfin.
  destruct (compiled_at Hdebug _ _ _ _ _ _ _ Hc3 Hfin)
    as (w & s & ft1 & fv & w1 & l & h1 & a' & c & pre & post & Hc & Hv & Hft & Hcb & Hca & Hg & Hgot & Hbd & Hcode & Hh & He).
  destruct (collects_fun _ _ _ _ _ Hc Hc0) as [<- <-]. destruct Hrn as [Hft' Hh' Hops Hps64 Hrts HK Hcalls].
  rewrite Hft in Hft'. injection Hft' as <-. rewrite Hm, Hh in Hh'. injection Hh' as <-.
  rewrite Hm, He in Hentry. injection Hentry as <-.
  destruct ft1 as [ps rts]. simpl in Hps64, Hrts.
  assert (∃ n, ps = replicate n I64) as [n ->].
  { exists (length ps). symmetry. by apply replicate_as_Forall. }
  apply compile_body_code in Hcb as (Hn & cs & Hcs & Hx). rewrite (ext_instrs _ _ _ Hx) in Hca.
  apply app_inv_head in Hca as <-.
  pose proof (Hinst _ _ _ (lookup_weaken _ _ _ _ Hgot (grown_got _ _ Hg)) Hbd) as Hat.
  rewrite Hcode, take_app_length, drop_app_length in Hat.
  exists (image base final (assembled m)), (mkTables (s_got s) (s_ils s) (s_function_typedefs s) (s_function_types s)),
    cs, post. simpl. rewrite length_replicate. split_and!; [|done|done].
  split; simpl; rewrite ?length_replicate; try done.
  split. simpl. intros i Hin.
  assert (∃ ft', lookup_function_type (s_function_types s) (s_function_typedefs s) i = Some ft') as [ft' Hft'].
  { apply mapM_Some_1 in Hcs. apply list_elem_of_lookup_1 in Hin as [k Hk].
    destruct (Forall2_lookup_l _ _ _ _ _ Hcs Hk) as (c & _ & Hc'). unfold operator_code in Hc'.
    destruct (lookup_function_type _ _ i) as [ft'|]; [by exists ft'|done]. }
  destruct (Hcalls i ft' Hin Hft') as (a & G & Ha & Hrange & HG & Hpar & Hres & Hone).
  exists a, G, ft'. split_and!; try done; try lia.
  eapply call_reaches; try done; [by eapply collects_index_space..|by eapply collects_slots].
Qed.

(** What compiling and installing give. *)
Lemma module_at_compiled data ps fuel_loop fuel_opt m0 :
  @parses B P R MT _ data ps -> imports_first ps ->
  (∀ w s, @collects A E B V W R MT _ _ _ _ (ps ++ [Payload.End]) w s -> here (s_assembler s) <= 2 ^ 63) ->
  @compile A E B V W P R MT _ _ _ _ _ fuel_loop fuel_opt data = Some (Ok m0) ->
  ∃ s final, asm_assemble final = inr (assembled m0) /\ finished s m0 final /\
    (∃ w, @collects A E B V W R MT _ _ _ _ (ps ++ [Payload.End]) w s) /\
    ∀ m code_at base, module m = module m0 -> installed code_at base final (assembled m) (s_got s) ->
      module_at code_at base ps m s.
Proof.
  intros Hps Hfirst Hmem Hm. destruct (compile_finished Hdebug _ _ _ _ _ Hps Hmem Hm) as (w & s & final & Hc & Hbl & Has & Hfin).
  exists s, final. split_and!; [done|done|by exists w|]. intros m code_at base Hmod Hinst.
  split; [done|by eapply Hmem|]. by exists data, fuel_loop, fuel_opt, m0, w, final.
Qed.

(** A module with a single own function. *)
Lemma installed_single code_at s m0 final base bs k l e :
  finished s m0 final -> s_got s = {[k := l]} -> function_entry_point (module m0) k = Some e ->
  code_at (base + e) = (n ← asm_bound final l; Some (image base final bs, drop n (asm_instructions final))) ->
  installed code_at base final bs (s_got s).
Proof.
  intros Hfin Hgot He Hcode k' l' n Hk Hn. pose proof Hk as Hk'. rewrite Hgot in Hk'.
  apply lookup_singleton_Some in Hk' as [<- <-].
  destruct (own_address _ _ _ _ _ _ Hfin Hk He) as (n' & Hn' & Hsz). rewrite Hn in Hn'. injection Hn' as <-.
  rewrite Hsz, Hcode, Hn. done.
Qed.

(** ** Properties *)

(** C10: after linking, calls of an import reach the address given.  In a module
    with well-formed slots, [link_import] of the first import of a name makes the
    function index of this import stand for the address it was given, wherever
    the module is, and leaves the addresses of all other functions as they were. *)
Theorem linked_function_address {Err} `{ByteOrderLaws} base m m' mn name addr i off :
  slots_wf m -> first_import (module m) mn name i off -> function_entry_point (module m) i = None ->
  0 <= addr < 2 ^ 64 -> @link_import MT _ _ Err m mn (Some name) addr = Ok m' ->
  function_address base m' i = Some addr /\
  ∀ j, j <> i -> function_address base m' j = function_address base m j.
Proof.
  intros Hwf Hi He Haddr Hl. destruct (link_import_wf _ _ _ _ _ Hwf Hl) as (_ & Hm & _).
  unfold function_address. rewrite !Hm, He. split.
  - destruct (link_import_at _ _ _ _ _ _ _ _ _ Hwf (proj1 Hi) Hl) as [(n & [= <-] & _ & Hq)|[Hno _]].
    + rewrite (proj1 Hi). cbn [mbind option_bind]. rewrite Hq, le_word_le_bytes. f_equal. by apply Z.mod_small.
    + by destruct (Hno name eq_refl).
  - intros j Hj. destruct (function_entry_point (module m) j); [done|].
    destruct (imports (module m) !! j) as [[[mn' f'] off']|] eqn:Hj'; [|done]. cbn [mbind option_bind].
    destruct (link_import_at _ _ _ _ _ _ _ _ _ Hwf Hj' Hl) as [(n & [= <-] & Hfj & _)|[_ Hq]]; [|by rewrite Hq].
    exfalso. apply Hj. destruct Hi as [Hi Hmin], Hfj as [Hfj Hminj].
    destruct (Z.lt_trichotomy i j) as [Hlt|[Heq|Hlt]]; [by destruct (Hminj _ off Hlt)|done|].
    by destruct (Hmin _ off' Hlt).
Qed.

(** The modules in memory, linked any which way, simulate WebAssembly: if all
    functions of a program are functions of compiled modules, a call that has the
    results [vs] in the compiled dialect of WebAssembly, with calls nesting at most
    [d] deep inside it, runs to its return with these results. *)
Lemma modules_run code_at site st K d a args vs t ra :
  0 <= K -> (∀ a F, st a = Some F -> module_entry code_at st K a F) ->
  wcall Compiled st (S d) a args = Ok vs -> entered t ra K (S d) args ->
  call_returns code_at site d a t ra vs.
Proof.
  intros HK Hst. apply programs_simulate; [done|]. intros a' F HF. by apply module_entry_implemented, Hst.
Qed.

(** C1: calls across compiled modules.  Let every function of a program be a
    function of some compiled module, linked and installed anywhere, with a body
    of supported operators, calls of own functions and of imports included.  If a
    call of the function at [a] has the results [vs] in the compiled dialect of
    WebAssembly, with calls nesting at most [d] deep inside it, then entering the
    optimized code at [a] with the arguments in the System V registers and [K]
    bytes of stack for every call runs to the return, with [vs] in the return
    registers, [rsp] and [rbp] restored and the caller's memory untouched. *)
Theorem compiled_modules_run code_at site st K d a args vs t ra :
  0 <= K -> (∀ a F, st a = Some F -> module_entry code_at st K a F) ->
  wcall Compiled st (S d) a args = Ok vs -> entered t ra K (S d) args ->
  call_returns code_at site d a t ra vs.
Proof. apply modules_run. Qed.

(** C4: well-typed modules run.  If moreover every function checks against the
    signatures of the functions it calls, then a call with as many arguments as
    the function has parameters either nests deeper than [d] or runs to its
    return, with as many results as its type says. *)
Theorem compiled_modules_typed code_at site st K d a F args t ra :
  0 <= K -> (∀ a F, st a = Some F -> module_entry code_at st K a F) -> typed_program st ->
  st a = Some F -> length args = f_params F -> entered t ra K (S d) args ->
  wcall Compiled st (S d) a args = Err Exhausted \/
  ∃ vs, length vs = f_results F /\ call_returns code_at site d a t ra vs.
Proof.
  intros HK Hst Ht HF Hl Hs.
  destruct (typed_programs_run Compiled st (S d) a F args Ht HF Hl) as [He|(vs & Hw & Hvs)]; [by left|right].
  exists vs. split; [done|]. by eapply modules_run.
Qed.

(** C5: where compiled modules are WebAssembly.  If moreover no function has an
    operand order to get wrong, that is more than one parameter, more than one
    result or a subtraction, the results are those of the WebAssembly
    specification. *)
Theorem compiled_modules_standard code_at site st K d a args vs t ra :
  0 <= K -> (∀ a F, st a = Some F -> module_entry code_at st K a F) ->
  (∀ a F, st a = Some F -> unordered F) ->
  wcall Standard st (S d) a args = Ok vs -> entered t ra K (S d) args ->
  call_returns code_at site d a t ra vs.
Proof. intros HK Hst Hu. rewrite <- (dialects_agree st (S d) a args Hu). by apply modules_run. Qed.
End Loaded.

(** ** A concrete instance *)
Import ListParser.

(** [(module (func (export "double") (param i64) (result i64)
       local.get 0 local.get 0 i64.add))] *)
Definition lib_body : list (Operator.t * Z) :=
  [(Operator.LocalGet 0, 0); (Operator.LocalGet 0, 2); (Operator.I64Add, 4); (Operator.End, 5)].
Definition lib_type : FuncType := mkFuncType [I64] [I64].
Definition lib_prefix : list payload :=
  [Payload.Version 1 tt;
   Payload.TypeSection [inr (TypeDefFunc lib_type)];
   Payload.FunctionSection [inr 0];
   Payload.CodeSectionStart 1 tt].

(** [(module (import "lib" "double" (func $double (param i64) (result i64)))
       (func (result i64) i64.const 21 call $double))] *)
Definition app_body : list (Operator.t * Z) :=
  [(Operator.I64Const 21, 0); (Operator.Call 0, 2); (Operator.End, 4)].
Definition app_type : FuncType := mkFuncType [] [I64].
Definition app_prefix : list payload :=
  [Payload.Version 1 tt;
   Payload.TypeSection [inr (TypeDefFunc lib_type); inr (TypeDefFunc app_type)];
   Payload.ImportSection [inr (mkImport "lib" (Some "double") (ImportFunction 0))];
   Payload.FunctionSection [inr 1];
   Payload.CodeSectionStart 1 tt].

Definition with_body (prefix : list payload) (ops : list (Operator.t * Z)) : list payload :=
  prefix ++ [Payload.CodeSectionEntry (mkBody (inr (map inr ops)) (inr []) 7)].
Definition lib_payloads : list payload := with_body lib_prefix lib_body.
Definition app_payloads : list payload := with_body app_prefix app_body.

Definition two_parser : Parser nat unit unit unit := parser_of [lib_payloads; app_payloads].
Abbreviation compile_debug :=
  (@compile _ _ unit Z unit nat unit unit BufferAssembler.buffer_assembler _ debug two_parser accept_all 9 60).
Definition compiled (n : nat) (ps : list payload) : AssembledModule unit :=
  match compile_debug (bytes_of n ps) with Some (Ok m) => m | _ => mkAssembled module_new [] end.
Definition lib_module : AssembledModule unit := compiled 0 lib_payloads.
Definition app_module : AssembledModule unit := compiled 1 app_payloads.

(** The library is at 4096; the application at 8192, linked to it. *)
Example lib_address : function_address 4096 lib_module 0 = Some 4104.
Proof. vm_compute. reflexivity. Qed.
Definition app_linked : AssembledModule unit :=
  match @link_import unit debug little_endian unit app_module "lib" (Some "double") 4104 with Ok m => m | _ => app_module end.
Example app_addresses :
  function_address 8192 app_linked 0 = Some 4104 /\ function_address 8192 app_linked 1 = Some 8208 /\
  module app_linked = module app_module.
Proof. split_and!; vm_compute; reflexivity. Qed.
(** The program of both functions, and a code memory with both modules. *)
Definition lib_function : finst := module_function 4096 lib_module lib_type 2 (map fst lib_body).
Definition app_function : finst := module_function 8192 app_linked app_type 1 (map fst app_body).
Definition pair_store : store := fun a =>
  if decide (a = 4104) then Some lib_function else if decide (a = 8208) then Some app_function else None.

Definition pair_code_at (lib app : BufferAssembler.buffer) (a : Z) : option (loaded * list Instruction) :=
  let from base final bs l := n ← asm_bound final l; Some (image base final bs, drop n (asm_instructions final)) in
  if decide (a = 4104) then from 4096 lib (assembled lib_module) (mkLabel 2)
  else if decide (a = 8208) then from 8192 app (assembled app_linked) (mkLabel 4) else None.

Definition collected (ps : list payload) : unit * cstate BufferAssembler.buffer unit :=
  match for_each
    (@handle_payload _ _ unit Z unit unit unit BufferAssembler.buffer_assembler _ debug accept_all) ps
    (tt, cstate_new (BufferAssembler.mkBuffer [] [] false 1)) with
  | Ok st => st
  | _ => (tt, cstate_new (BufferAssembler.mkBuffer [] [] false 1))
  end.

Lemma collected_eq ps w s :
  @collects _ _ unit Z unit unit unit BufferAssembler.buffer_assembler _ debug accept_all ps w s ->
  collected ps = (w, s).
Proof. intros (a & Ha & Hp). injection Ha as <-. unfold collected. cbn [validator_new accept_all] in Hp. by rewrite Hp. Qed.

Abbreviation module_at_debug :=
  (@module_at _ _ unit Z unit nat unit unit BufferAssembler.buffer_assembler _ debug two_parser accept_all).
Abbreviation module_entry_debug :=
  (@module_entry _ _ unit Z unit nat unit unit BufferAssembler.buffer_assembler _ debug two_parser accept_all).

Lemma sample_module_at n ps m base k l e :
  let s := (collected (ps ++ [Payload.End])).2 in
  [lib_payloads; app_payloads] !! n = Some ps ->
  Forall (fun p => is_end p = false) ps -> imports_first ps -> here (s_assembler s) <= 2 ^ 63 ->
  compile_debug (bytes_of n ps) = Some (Ok (compiled n ps)) ->
  s_got s = {[k := l]} -> module m = module (compiled n ps) -> function_entry_point (module m) k = Some e ->
  ∃ final, ∀ code_at,
    code_at (base + e) = (i ← asm_bound final l; Some (image base final (assembled m), drop i (asm_instructions final))) ->
    module_at_debug code_at base ps m s.
Proof.
  intros s Hn Hps Hfirst Hmem Hm Hgot Hmod He.
  destruct (module_at_compiled (Parser0 := two_parser) (H1 := debug) eq_refl (bytes_of n ps) ps 9 60 (compiled n ps))
    as (s' & final & _ & Hfin & (w & Hc) & Hat); [by apply parser_of_parses|done| |exact Hm|].
  - intros w s' Hc%collected_eq. subst s. by rewrite Hc in Hmem.
  - assert (s' = s) as -> by (subst s; by rewrite (collected_eq _ _ _ Hc)). exists final. intros code_at Hcode.
    apply Hat; [done|]. eapply installed_single; [exact Hfin|exact Hgot|by rewrite <- Hmod|exact Hcode].
Qed.

(** The function a sample consists of can be called. *)
Lemma sample_entry code_at prefix ops m base ft h e s :
  module_at_debug code_at base (with_body prefix ops) m s ->
  @collects _ _ unit Z unit unit unit BufferAssembler.buffer_assembler _ debug accept_all prefix tt (collected prefix).2 ->
  runnable pair_store 64 base m (collected prefix).2 ft h (map fst ops) ->
  function_entry_point (module m) (s_function_body_index (collected prefix).2) = Some e ->
  module_entry_debug code_at pair_store 64 (base + e) (module_function base m ft h (map fst ops)).
Proof.
  intros Hat Hc Hrn He. by exists base, prefix, ops, 7, [], m, s, tt, (collected prefix).2, ft, h, e.
Qed.

Lemma pair_entries :
  ∃ lib app, ∀ a F, pair_store a = Some F -> module_entry_debug (pair_code_at lib app) pair_store 64 a F.
Proof.
  destruct (sample_module_at 0 lib_payloads lib_module 4096 0 (mkLabel 2) 8) as [lib Hlib];
    [reflexivity|by repeat constructor|exists [], lib_payloads; split_and!; reflexivity|vm_compute; discriminate|
     vm_compute; reflexivity|vm_compute; reflexivity|reflexivity|vm_compute; reflexivity|].
  destruct (sample_module_at 1 app_payloads app_linked 8192 1 (mkLabel 4) 16) as [app Happ];
    [reflexivity|by repeat constructor|exists (take 3 app_payloads), (drop 3 app_payloads); split_and!; reflexivity|vm_compute; discriminate|
     vm_compute; reflexivity|vm_compute; reflexivity|apply app_addresses|vm_compute; reflexivity|].
  exists lib, app. intros a F HF. unfold pair_store in HF. case_decide as Ha; [|case_decide as Ha'; [|done]];
    injection HF as <-; subst a.
  - eapply (sample_entry _ lib_prefix lib_body lib_module 4096 lib_type 2 8); [apply Hlib; reflexivity| | |].
    + eexists. split; [reflexivity|]. vm_compute. reflexivity.
    + split; [reflexivity|reflexivity|by repeat constructor|by repeat constructor|simpl; lia|discriminate|].
      intros i ft' Hin%list_elem_of_In. simpl in Hin. by destruct_or? Hin.
    + vm_compute. reflexivity.
  - eapply (sample_entry _ app_prefix app_body app_linked 8192 app_type 1 16); [apply Happ; reflexivity| | |].
    + eexists. split; [reflexivity|]. vm_compute. reflexivity.
    + split; [reflexivity|vm_compute; reflexivity|by repeat constructor|by repeat constructor|simpl; lia|discriminate|].
      intros i ft' Hin%list_elem_of_In Hft. simpl in Hin. destruct_or? Hin; try discriminate Hin. injection Hin as <-.
      vm_compute in Hft. injection Hft as <-. exists 4104, lib_function.
      split_and!; [vm_compute; reflexivity|lia|lia|reflexivity..|simpl; lia].
    + vm_compute. reflexivity.
Qed.
Lemma pair_entered : entered sample_state 0 64 2 [].
Proof. split; [apply sample_state_wf|reflexivity|reflexivity|constructor|vm_compute; discriminate]. Qed.

Lemma pair_typed : typed_program pair_store.
Proof.
  intros a F. unfold pair_store. case_decide; [|case_decide; [|done]]; intros [= <-]; vm_compute; reflexivity.
Qed.

Lemma pair_unordered a F : pair_store a = Some F -> unordered F.
Proof.
  unfold pair_store. case_decide; [|case_decide; [|done]]; intros [= <-]; (split_and!; [simpl; lia..|not_in]).
Qed.

(** The application doubles 21 with the library's function. *)
Abbreviation app_returns lib app vs :=
  (call_returns (pair_code_at lib app) (fun _ _ => 77) 1 8208 sample_state 0 vs).

Lemma compiled_modules_run_witness : ∃ lib app, app_returns lib app [42].
Proof.
  destruct pair_entries as (lib & app & Hentries). exists lib, app.
  apply (compiled_modules_run (Parser0 := two_parser) (H1 := debug) eq_refl (pair_code_at lib app)
    (fun _ _ => 77) pair_store 64 1 8208 [] [42] sample_state 0); [lia|exact Hentries|vm_compute; reflexivity|exact pair_entered].
Defined.

Lemma compiled_modules_typed_witness :
  ∃ lib app, wcall Compiled pair_store 2 8208 [] = Err Exhausted \/
    ∃ vs, length vs = 1%nat /\ app_returns lib app vs.
Proof.
  destruct pair_entries as (lib & app & Hentries). exists lib, app.
  apply (compiled_modules_typed (Parser0 := two_parser) (H1 := debug) eq_refl (pair_code_at lib app)
    (fun _ _ => 77) pair_store 64 1 8208 app_function [] sample_state 0);
    [lia|exact Hentries|exact pair_typed|reflexivity|reflexivity|exact pair_entered].
Defined.

Lemma compiled_modules_standard_witness : ∃ lib app, app_returns lib app [42].
Proof.
  destruct pair_entries as (lib & app & Hentries). exists lib, app.
  apply (compiled_modules_standard (Parser0 := two_parser) (H1 := debug) eq_refl (pair_code_at lib app)
    (fun _ _ => 77) pair_store 64 1 8208 [] [42] sample_state 0);
    [lia|exact Hentries|exact pair_unordered|vm_compute; reflexivity|exact pair_entered].
Defined.

(** The first import of [b.bar] in [ModuleApi]'s sample. *)
Lemma linked_function_address_witness :
  let m' := mkAssembled (module sample_module) (le_bytes 8 4096 ++ replicate 16 170) in
  function_address 0 m' 0 = Some 4096 /\
  ∀ j, j <> 0 -> function_address 0 m' j = function_address 0 sample_module j.
Proof.
  intros m'. apply (linked_function_address (H1 := debug) (Err := unit) 0 sample_module m' "b" "bar" 4096 0 0).
  - exact sample_module_wf.
  - split; [reflexivity|]. intros j off' Hj Hjs. change (imports (module sample_module)) with
      (<[0 := ("b", Some "bar", 0)]> ({[1 := ("b", Some "bar", 8)]} : gmap Z (string * option string * Z))) in Hjs.
    rewrite lookup_insert_Some, lookup_singleton_Some in Hjs. destruct Hjs as [[<- _]|[_ [<- _]]]; lia.
  - reflexivity.
  - lia.
  - vm_compute. reflexivity.
Defined.
