(* ===== verification/Operators.v ===== *)
(** * The operators without code ([parawasm/src/x86_64/instructions.rs])

    Of the operators [handle_instruction] matches on, ten have code; the arms of
    the others are [todo!()].  The groups follow the match; the theorems say that
    they are all the operators on which the compiler panics, and that a module
    that compiled contains none of them. *)
From S2P Require Import Prelude X86 Assembler Optimizer Wasm Instructions.
From S2P Require Import Function ModuleApi Compile Layout Tables Binding.

Module Arms.
Import Operator.

(** Control: blocks, branches, exceptions, indirect calls. *)
Definition control_todo (op : Operator.t) : bool :=
  match op with
  | Unreachable | Block | Loop | If | Else | Try | Catch | Throw | Rethrow | Br | BrIf | BrTable
  | Return | CallIndirect | ReturnCall | ReturnCallIndirect | Delegate | CatchAll | Drop | Select
  | TypedSelect => true
  | _ => false
  end.

(** Globals, memory accesses, constants but [i64.const], references. *)
Definition memory_todo (op : Operator.t) : bool :=
  match op with
  | LocalTee | GlobalGet | GlobalSet | I32Load | I64Load | F32Load | F64Load | I32Load8S | I32Load8U
  | I32Load16S | I32Load16U | I64Load8S | I64Load8U | I64Load16S | I64Load16U | I64Load32S | I64Load32U
  | I32Store | I64Store | F32Store | F64Store | I32Store8 | I32Store16 | I64Store8 | I64Store16
  | I64Store32 | MemorySize | MemoryGrow | I32Const | F32Const | F64Const | RefNull | RefIsNull
  | RefFunc => true
  | _ => false
  end.

(** Comparisons. *)
Definition comparison_todo (op : Operator.t) : bool :=
  match op with
  | I32Eqz | I32Eq | I32Ne | I32LtS | I32LtU | I32GtS | I32GtU | I32LeS | I32LeU | I32GeS | I32GeU
  | I64Eqz | I64Eq | I64Ne | I64LtS | I64LtU | I64GtS | I64GtU | I64LeS | I64LeU | I64GeS | I64GeU
  | F32Eq | F32Ne | F32Lt | F32Gt | F32Le | F32Ge | F64Eq | F64Ne | F64Lt | F64Gt | F64Le | F64Ge => true
  | _ => false
  end.

(** Arithmetic but the additions and subtractions of integers. *)
Definition arithmetic_todo (op : Operator.t) : bool :=
  match op with
  | I32Clz | I32Ctz | I32Popcnt | I32Mul | I32DivS | I32DivU | I32RemS | I32RemU | I32And | I32Or
  | I32Xor | I32Shl | I32ShrS | I32ShrU | I32Rotl | I32Rotr | I64Clz | I64Ctz | I64Popcnt | I64Mul
  | I64DivS | I64DivU | I64RemS | I64RemU | I64And | I64Or | I64Xor | I64Shl | I64ShrS | I64ShrU
  | I64Rotl | I64Rotr | F32Abs | F32Neg | F32Ceil | F32Floor | F32Trunc | F32Nearest | F32Sqrt | F32Add
  | F32Sub | F32Mul | F32Div | F32Min | F32Max | F32Copysign | F64Abs | F64Neg | F64Ceil | F64Floor
  | F64Trunc | F64Nearest | F64Sqrt | F64Add | F64Sub | F64Mul | F64Div | F64Min | F64Max | F64Copysign => true
  | _ => false
  end.

(** Conversions between the number types. *)
Definition conversion_todo (op : Operator.t) : bool :=
  match op with
  | I32WrapI64 | I32TruncF32S | I32TruncF32U | I32TruncF64S | I32TruncF64U | I64ExtendI32S
  | I64ExtendI32U | I64TruncF32S | I64TruncF32U | I64TruncF64S | I64TruncF64U | F32ConvertI32S
  | F32ConvertI32U | F32ConvertI64S | F32ConvertI64U | F32DemoteF64 | F64ConvertI32S | F64ConvertI32U
  | F64ConvertI64S | F64ConvertI64U | F64PromoteF32 | I32ReinterpretF32 | I64ReinterpretF64
  | F32ReinterpretI32 | F64ReinterpretI64 | I32Extend8S | I32Extend16S | I64Extend8S | I64Extend16S
  | I64Extend32S | I32TruncSatF32S | I32TruncSatF32U | I32TruncSatF64S | I32TruncSatF64U
  | I64TruncSatF32S | I64TruncSatF32U | I64TruncSatF64S | I64TruncSatF64U => true
  | _ => false
  end.

(** Bulk memory and tables. *)
Definition bulk_todo (op : Operator.t) : bool :=
  match op with
  | MemoryInit | DataDrop | MemoryCopy | MemoryFill | TableInit | ElemDrop | TableCopy | TableFill
  | TableGet | TableSet | TableGrow | TableSize => true
  | _ => false
  end.

(** Atomic accesses. *)
Definition atomic_todo (op : Operator.t) : bool :=
  match op with
  | MemoryAtomicNotify | MemoryAtomicWait32 | MemoryAtomicWait64 | AtomicFence | I32AtomicLoad
  | I64AtomicLoad | I32AtomicLoad8U | I32AtomicLoad16U | I64AtomicLoad8U | I64AtomicLoad16U
  | I64AtomicLoad32U | I32AtomicStore | I64AtomicStore | I32AtomicStore8 | I32AtomicStore16
  | I64AtomicStore8 | I64AtomicStore16 | I64AtomicStore32 | I32AtomicRmwAdd | I64AtomicRmwAdd
  | I32AtomicRmw8AddU | I32AtomicRmw16AddU | I64AtomicRmw8AddU | I64AtomicRmw16AddU | I64AtomicRmw32AddU
  | I32AtomicRmwSub | I64AtomicRmwSub | I32AtomicRmw8SubU | I32AtomicRmw16SubU | I64AtomicRmw8SubU
  | I64AtomicRmw16SubU | I64AtomicRmw32SubU | I32AtomicRmwAnd | I64AtomicRmwAnd | I32AtomicRmw8AndU
  | I32AtomicRmw16AndU | I64AtomicRmw8AndU | I64AtomicRmw16AndU | I64AtomicRmw32AndU | I32AtomicRmwOr
  | I64AtomicRmwOr | I32AtomicRmw8OrU | I32AtomicRmw16OrU | I64AtomicRmw8OrU | I64AtomicRmw16OrU
  | I64AtomicRmw32OrU | I32AtomicRmwXor | I64AtomicRmwXor | I32AtomicRmw8XorU | I32AtomicRmw16XorU
  | I64AtomicRmw8XorU | I64AtomicRmw16XorU | I64AtomicRmw32XorU | I32AtomicRmwXchg | I64AtomicRmwXchg
  | I32AtomicRmw8XchgU | I32AtomicRmw16XchgU | I64AtomicRmw8XchgU | I64AtomicRmw16XchgU
  | I64AtomicRmw32XchgU | I32AtomicRmwCmpxchg | I64AtomicRmwCmpxchg | I32AtomicRmw8CmpxchgU
  | I32AtomicRmw16CmpxchgU | I64AtomicRmw8CmpxchgU | I64AtomicRmw16CmpxchgU | I64AtomicRmw32CmpxchgU => true
  | _ => false
  end.

(** Vectors: memory, constants and lanes. *)
Definition vector_memory_todo (op : Operator.t) : bool :=
  match op with
  | V128Load | V128Load8x8S | V128Load8x8U | V128Load16x4S | V128Load16x4U | V128Load32x2S
  | V128Load32x2U | V128Load8Splat | V128Load16Splat | V128Load32Splat | V128Load64Splat
  | V128Load32Zero | V128Load64Zero | V128Store | V128Load8Lane | V128Load16Lane | V128Load32Lane
  | V128Load64Lane | V128Store8Lane | V128Store16Lane | V128Store32Lane | V128Store64Lane | V128Const
  | I8x16Shuffle | I8x16ExtractLaneS | I8x16ExtractLaneU | I8x16ReplaceLane | I16x8ExtractLaneS
  | I16x8ExtractLaneU | I16x8ReplaceLane | I32x4ExtractLane | I32x4ReplaceLane | I64x2ExtractLane
  | I64x2ReplaceLane | F32x4ExtractLane | F32x4ReplaceLane | F64x2ExtractLane | F64x2ReplaceLane => true
  | _ => false
  end.

(** Vectors: splats, comparisons and bitwise operations. *)
Definition vector_logic_todo (op : Operator.t) : bool :=
  match op with
  | I8x16Swizzle | I8x16Splat | I16x8Splat | I32x4Splat | I64x2Splat | F32x4Splat | F64x2Splat | I8x16Eq
  | I8x16Ne | I8x16LtS | I8x16LtU | I8x16GtS | I8x16GtU | I8x16LeS | I8x16LeU | I8x16GeS | I8x16GeU
  | I16x8Eq | I16x8Ne | I16x8LtS | I16x8LtU | I16x8GtS | I16x8GtU | I16x8LeS | I16x8LeU | I16x8GeS
  | I16x8GeU | I32x4Eq | I32x4Ne | I32x4LtS | I32x4LtU | I32x4GtS | I32x4GtU | I32x4LeS | I32x4LeU
  | I32x4GeS | I32x4GeU | I64x2Eq | I64x2Ne | I64x2LtS | I64x2GtS | I64x2LeS | I64x2GeS | F32x4Eq
  | F32x4Ne | F32x4Lt | F32x4Gt | F32x4Le | F32x4Ge | F64x2Eq | F64x2Ne | F64x2Lt | F64x2Gt | F64x2Le
  | F64x2Ge | V128Not | V128And | V128AndNot | V128Or | V128Xor | V128Bitselect | V128AnyTrue => true
  | _ => false
  end.

(** Vectors: integer arithmetic. *)
Definition vector_integer_todo (op : Operator.t) : bool :=
  match op with
  | I8x16Abs | I8x16Neg | I8x16Popcnt | I8x16AllTrue | I8x16Bitmask | I8x16NarrowI16x8S
  | I8x16NarrowI16x8U | I8x16Shl | I8x16ShrS | I8x16ShrU | I8x16Add | I8x16AddSatS | I8x16AddSatU
  | I8x16Sub | I8x16SubSatS | I8x16SubSatU | I8x16MinS | I8x16MinU | I8x16MaxS | I8x16MaxU
  | I8x16RoundingAverageU | I16x8ExtAddPairwiseI8x16S | I16x8ExtAddPairwiseI8x16U | I16x8Abs | I16x8Neg
  | I16x8Q15MulrSatS | I16x8AllTrue | I16x8Bitmask | I16x8NarrowI32x4S | I16x8NarrowI32x4U
  | I16x8ExtendLowI8x16S | I16x8ExtendHighI8x16S | I16x8ExtendLowI8x16U | I16x8ExtendHighI8x16U
  | I16x8Shl | I16x8ShrS | I16x8ShrU | I16x8Add | I16x8AddSatS | I16x8AddSatU | I16x8Sub | I16x8SubSatS
  | I16x8SubSatU | I16x8Mul | I16x8MinS | I16x8MinU | I16x8MaxS | I16x8MaxU | I16x8RoundingAverageU
  | I16x8ExtMulLowI8x16S | I16x8ExtMulHighI8x16S | I16x8ExtMulLowI8x16U | I16x8ExtMulHighI8x16U
  | I32x4ExtAddPairwiseI16x8S | I32x4ExtAddPairwiseI16x8U | I32x4Abs | I32x4Neg | I32x4AllTrue
  | I32x4Bitmask | I32x4ExtendLowI16x8S | I32x4ExtendHighI16x8S | I32x4ExtendLowI16x8U
  | I32x4ExtendHighI16x8U | I32x4Shl | I32x4ShrS | I32x4ShrU | I32x4Add | I32x4Sub | I32x4Mul
  | I32x4MinS | I32x4MinU | I32x4MaxS | I32x4MaxU | I32x4DotI16x8S | I32x4ExtMulLowI16x8S
  | I32x4ExtMulHighI16x8S | I32x4ExtMulLowI16x8U | I32x4ExtMulHighI16x8U | I64x2Abs | I64x2Neg
  | I64x2AllTrue | I64x2Bitmask | I64x2ExtendLowI32x4S | I64x2ExtendHighI32x4S | I64x2ExtendLowI32x4U
  | I64x2ExtendHighI32x4U | I64x2Shl | I64x2ShrS | I64x2ShrU | I64x2Add | I64x2Sub | I64x2Mul
  | I64x2ExtMulLowI32x4S | I64x2ExtMulHighI32x4S | I64x2ExtMulLowI32x4U | I64x2ExtMulHighI32x4U => true
  | _ => false
  end.

(** Vectors: floating point, conversions and relaxed operations. *)
Definition vector_float_todo (op : Operator.t) : bool :=
  match op with
  | F32x4Ceil | F32x4Floor | F32x4Trunc | F32x4Nearest | F32x4Abs | F32x4Neg | F32x4Sqrt | F32x4Add
  | F32x4Sub | F32x4Mul | F32x4Div | F32x4Min | F32x4Max | F32x4PMin | F32x4PMax | F64x2Ceil
  | F64x2Floor | F64x2Trunc | F64x2Nearest | F64x2Abs | F64x2Neg | F64x2Sqrt | F64x2Add | F64x2Sub
  | F64x2Mul | F64x2Div | F64x2Min | F64x2Max | F64x2PMin | F64x2PMax | I32x4TruncSatF32x4S
  | I32x4TruncSatF32x4U | F32x4ConvertI32x4S | F32x4ConvertI32x4U | I32x4TruncSatF64x2SZero
  | I32x4TruncSatF64x2UZero | F64x2ConvertLowI32x4S | F64x2ConvertLowI32x4U | F32x4DemoteF64x2Zero
  | F64x2PromoteLowF32x4 | I8x16RelaxedSwizzle | I32x4RelaxedTruncSatF32x4S | I32x4RelaxedTruncSatF32x4U
  | I32x4RelaxedTruncSatF64x2SZero | I32x4RelaxedTruncSatF64x2UZero | F32x4Fma | F32x4Fms | F64x2Fma
  | F64x2Fms | I8x16LaneSelect | I16x8LaneSelect | I32x4LaneSelect | I64x2LaneSelect | F32x4RelaxedMin
  | F32x4RelaxedMax | F64x2RelaxedMin | F64x2RelaxedMax => true
  | _ => false
  end.

Definition unimplemented (op : Operator.t) : bool :=
  control_todo op || memory_todo op || comparison_todo op || arithmetic_todo op || conversion_todo op
  || bulk_todo op || atomic_todo op || vector_memory_todo op || vector_logic_todo op
  || vector_integer_todo op || vector_float_todo op.
End Arms.
Import Arms.

(** The local an operator accesses has no slot. *)
Definition no_slot (locals : list Z) (op : Operator.t) : Prop :=
  match op with
  | Operator.LocalGet i | Operator.LocalSet i => locals !! Z.to_nat i = None
  | _ => False
  end.

(** A call whose callee has a parameter or a result that is not an integer. *)
Definition not_integers (function_typedefs : gmap Z FuncType) (function_types : gmap Z Z)
    (op : Operator.t) : Prop :=
  match op with
  | Operator.Call i => ∃ ft, lookup_function_type function_types function_typedefs i = Some ft /\
      (length (params ft) <= 6)%nat /\ ~ Forall (fun t => is_int t = true) (params ft ++ returns ft)
  | _ => False
  end.

Section Panics.
Context {A E B : Type} `{Assembler A E} `{!AssemblerLaws A E}.

Lemma pop_arguments_todo ps rs (a : A) :
  (length ps <= length rs)%nat -> ~ Forall (fun p => is_int p = true) ps ->
  for_each (@pop_argument A E B _) ps (rs, a) = Panic Todo.
Proof.
  revert rs a. induction ps as [|p ps IH]; intros rs a Hlen Hn; [by destruct Hn|]. cbn [for_each].
  destruct (is_int p) eqn:Hp.
  - destruct rs as [|r rs _] using rev_ind; [simpl in Hlen; lia|].
    assert (Hb : pop_argument p (rs ++ [r], a) = (a ← @emit A E B _ (i_pop r) a; Ok (rs, a))).
    { unfold pop_argument. rewrite pop_back_snoc. by destruct p. }
    rewrite Hb. emit_step. apply IH.
    + rewrite length_app in Hlen. simpl in Hlen. lia.
    + intros Hps. apply Hn. by constructor.
  - by destruct p.
Qed.

Lemma push_results_todo ps rs (a : A) :
  ~ Forall (fun p => is_int p = true) ps -> for_each (@push_result A E B _) ps (rs, a) = Panic Todo.
Proof.
  revert rs a. induction ps as [|p ps IH]; intros rs a Hn; [by destruct Hn|]. cbn [for_each].
  destruct (is_int p) eqn:Hp.
  - assert (Hps : ~ Forall (fun p => is_int p = true) ps) by (intros Hps; apply Hn; by constructor).
    destruct rs as [|r rs].
    + assert (Hb : push_result p ([], a) = @Ok (Error B E) _ ([], a)) by by destruct p.
      rewrite Hb, res_bind_ok. by apply IH.
    + assert (Hb : push_result p (r :: rs, a) = (a ← @emit A E B _ (i_push r) a; Ok (rs, a))) by by destruct p.
      rewrite Hb. emit_step. by apply IH.
  - by destruct p.
Qed.

Lemma handle_call_todo got ils tds fts i (a : A) :
  @handle_call A E B _ got ils tds fts i a = Panic Todo <-> not_integers tds fts (Operator.Call i).
Proof.
  simpl. destruct (lookup_function_type fts tds i) as [ft|] eqn:Hft.
  2:{ unfold handle_call. rewrite Hft. split; [done|]. by intros (? & ? & _). }
  destruct (decide (length (params ft) <= 6)%nat) as [Hlen|Hlen].
  2:{ unfold handle_call, drain. rewrite Hft. cbn [of_option]. rewrite res_bind_ok, decide_False by done.
      split; [done|]. intros (ft' & [= <-] & ? & _). done. }
  destruct (decide (Forall (fun t => is_int t = true) (params ft ++ returns ft))) as [Hint|Hint].
  { split; [|intros (ft' & [= <-] & _ & Hn); by destruct Hn]. apply Forall_app in Hint as [Hps Hrs].
    by destruct (handle_call_emits (B := B) got ils tds fts i ft a Hft Hlen Hps Hrs) as (a' & -> & _). }
  split; [intros _; by exists ft|]. intros _. unfold handle_call, drain. rewrite Hft. cbn [of_option].
  rewrite res_bind_ok, decide_True, res_bind_ok by done.
  assert (Hl : length (take (length (params ft)) integer_registers) = length (params ft))
    by (rewrite length_take; simpl; lia).
  destruct (decide (Forall (fun t => is_int t = true) (params ft))) as [Hps|Hps].
  - destruct (pop_arguments_spec (B := B) _ (take (length (params ft)) integer_registers) a Hps Hl)
      as (a1 & -> & _).
    rewrite res_bind_ok. destruct (call_target_emits (B := B) got ils i a1) as (a2 & -> & _). rewrite res_bind_ok.
    rewrite push_results_todo; [done|]. intros Hrs. apply Hint. by apply Forall_app.
  - rewrite pop_arguments_todo; [done|lia|done].
Qed.

Lemma handle_instruction_panics got ils tds fts locals op (a : A) :
  @handle_instruction A E B _ got ils tds fts locals op a = Panic Todo <->
  unimplemented op = true \/ no_slot locals op \/ not_integers tds fts op.
Proof.
  pose proof (handle_instruction_emits (B := B) got ils tds fts locals op a) as He.
  destruct op; try (simpl; split; [by left|reflexivity]);
    try (destruct He as (a' & -> & _); split; [done|by intros [|[]]]).
  - rewrite <- (handle_call_todo got ils). simpl. split; [by right; right|by intros [|[]]].
  - simpl in *. destruct (locals !! _); [destruct He as (a' & -> & _)|]; split; try done; [|by right; left].
    by intros [|[]].
  - simpl in *. destruct (locals !! _); [destruct He as (a' & -> & _)|]; split; try done; [|by right; left].
    by intros [|[]].
Qed.

(** C18: the operators the compiler does not implement.  [handle_instruction]
    stops at a [todo!()] exactly for the operators of the groups above, for an
    access to a local without a slot, and for a call of a function of at most six
    parameters with a parameter or a result that is no integer. *)
Theorem handle_instruction_todo got ils tds fts locals op (a : A) :
  @handle_instruction A E B _ got ils tds fts locals op a = Panic Todo <->
  unimplemented op = true \/ no_slot locals op \/ not_integers tds fts op.
Proof. apply handle_instruction_panics. Qed.
End Panics.

Section Bodies.
Context {A E B V W P R MT : Type} `{Assembler A E} `{!AssemblerLaws A E} `{FuncValidator V B} `{Profile}.
Context `{!Parser P B R MT, !Validator W V B R MT}.

(** What an operators reader yields: an operator that is implemented. *)
Definition implemented_item (r : B + (Operator.t * Z)) : Prop :=
  ∃ op offset, r = inr (op, offset) /\ unimplemented op = false.

Lemma compile_ops_implemented got ils tds fts locals rd st st' :
  for_each (@compile_op A E B V _ _ got ils tds fts locals) rd st = Ok st' -> Forall implemented_item rd.
Proof.
  revert st. induction rd as [|r rd IH]; intros [[h fv] a] Hl; [constructor|]. cbn [for_each] in Hl.
  res_step Hl as st1 E1. constructor; [|by eapply IH]. clear Hl IH.
  unfold compile_op in E1. destruct r as [|[op off]]; [done|]. exists op, off. split; [done|].
  rewrite wasm_ok, res_bind_ok in E1. res_step E1 as fv' E2. res_step E1 as a' E3.
  destruct (unimplemented op) eqn:Hop; [|done].
  assert (Hp : @handle_instruction A E B _ got ils tds fts locals op a = Panic Todo)
    by (by apply handle_instruction_panics; left).
  by rewrite Hp in E3.
Qed.

Lemma compile_body_implemented got ils tds fts ft cs fv (a : A) r :
  @compile_body A E B V _ _ _ got ils tds fts ft cs fv a = Ok r ->
  ∃ rd, get_operators_reader cs = inr rd /\ Forall implemented_item rd.
Proof.
  unfold compile_body. intros Hs. res_step Hs as rd G0.
  res_step Hs as a1 G1. res_step Hs as a2 G2. res_step Hs as rs G11.
  res_step Hs as [locals size] G12. res_step Hs as lr G13. res_step Hs as [[locals' size'] fv1] G14.
  res_step Hs as a3 G3. res_step Hs as [[rs1 e1] a4] G4. res_step Hs as [[h1 fv2] a5] G5.
  exists rd. split; [|by eapply compile_ops_implemented].
  destruct (get_operators_reader cs); [done|]. by apply Ok_inj in G0 as ->.
Qed.

(** C19: a module that compiled contains only implemented operators.  Whatever
    bodies its code section has, their operators were all read without an error
    and none of them is in the groups above: a compiled module never leaves out
    an operator. *)
Theorem compiled_operators_implemented data ps1 cs ps2 fuel_loop fuel_opt m :
  @parses B P R MT _ data (ps1 ++ Payload.CodeSectionEntry cs :: ps2) ->
  @compile A E B V W P R MT _ _ _ _ _ fuel_loop fuel_opt data = Some (Ok m) ->
  ∃ rd, get_operators_reader cs = inr rd /\ Forall implemented_item rd.
Proof.
  intros Hps Hm. destruct (compile_inv _ _ _ _ _ Hps Hm) as (w3 & s3 & (a0 & _ & Hp) & _).
  change (ps1 ++ Payload.CodeSectionEntry cs :: ps2) with (ps1 ++ [Payload.CodeSectionEntry cs] ++ ps2) in Hp.
  rewrite <- !app_assoc in Hp. rewrite for_each_app in Hp.
  res_step Hp as [w s] G1. cbn [app for_each] in Hp. res_step Hp as [w2 s2] G2.
  cbn [handle_payload] in G2. res_step G2 as [fv w'] G3. res_step G2 as s1 G4.
  unfold code_section_entry in G4. res_step G4 as ft G5. res_step G4 as fl G6. res_step G4 as r G7.
  by eapply compile_body_implemented.
Qed.
End Bodies.

Import ListParser.

(** [return], on the buffer assembler. *)
Lemma handle_instruction_todo_witness :
  let a := BufferAssembler.mkBuffer [] [] false 0 in
  @handle_instruction _ _ unit BufferAssembler.buffer_assembler ∅ ∅ ∅ ∅ [] Operator.Return a = Panic Todo <->
  unimplemented Operator.Return = true \/ no_slot [] Operator.Return \/ not_integers ∅ ∅ Operator.Return.
Proof. intros a. exact (handle_instruction_todo (B := unit) ∅ ∅ ∅ ∅ [] Operator.Return a). Defined.

(** The sample module of [Binding]. *)
Lemma compiled_operators_implemented_witness :
  ∃ rd, @get_operators_reader unit (mkBody (inr (map inr [(Operator.Call 0, 0); (Operator.End, 2)])) (inr []) 3)
    = inr rd /\ Forall implemented_item rd.
Proof.
  exact (compiled_operators_implemented (H1 := debug) sample_bytes (take 6 sample_payloads) _ [] 9 20
    sample_assembled sample_parses sample_assembled_eq).
Defined.
