(* ===== verification/Boot.v ===== *)
(** * The boot loader's tables ([paraos/src/bootboot.rs]) and the heap ([paraos/src/main.rs])

    The BOOTBOOT structure with its memory map, the queries on it, and the part
    of the bootstrap closure of [_start] that hands the free memory to the
    allocator.  The allocator is the interface [Heap]. *)
From S2P Require Import Prelude.

(** ** Structures *)
Record X86_64 := mkX86_64 {
  acpi_ptr : Z; smbi_ptr : Z; efi_ptr : Z; mp_ptr : Z;
  x_unused0 : Z; x_unused1 : Z; x_unused2 : Z; x_unused3 : Z }.
Record Aarch64 := mkAarch64 {
  a_acpi_ptr : Z; mmio_ptr : Z; a_efi_ptr : Z;
  a_unused0 : Z; a_unused1 : Z; a_unused2 : Z; a_unused3 : Z; a_unused4 : Z }.

(** [union Arch]: eight words, read as either structure. *)
Record Arch := mkArch { w0 : Z; w1 : Z; w2 : Z; w3 : Z; w4 : Z; w5 : Z; w6 : Z; w7 : Z }.
Definition arch_x86_64 (u : Arch) : X86_64 :=
  mkX86_64 (w0 u) (w1 u) (w2 u) (w3 u) (w4 u) (w5 u) (w6 u) (w7 u).
Definition arch_aarch64 (u : Arch) : Aarch64 :=
  mkAarch64 (w0 u) (w1 u) (w2 u) (w3 u) (w4 u) (w5 u) (w6 u) (w7 u).

Record MemoryMapping := mkMapping { _ptr : Z; _size : Z }.

Definition addr (self : MemoryMapping) : Z := _ptr self.
Definition size (self : MemoryMapping) : Z := Z.land (_size self) 0xFFFFFFFFFFFFFFF0.
Definition is_free (self : MemoryMapping) : bool := Z.land (_size self) 0xf =? 1.

Record Bootboot := mkBootboot {
  magic : list Z; b_size : Z; protocol : Z; framebuffer_type : Z; numcores : Z; bspid : Z;
  timezone : Z; datetime : list Z; initrd_ptr : Z; initrd_size : Z; fb_ptr : Z; fb_size : Z;
  fb_width : Z; fb_height : Z; fb_scanline : Z; arch : Arch; mmap : list MemoryMapping }.

(** The number of elements of the array [mmap]. *)
Definition mmap_len : Z := (0xfff - 0x80) / 16.

(** The structure as the loader provides it. *)
Record bootboot_wf (b : Bootboot) : Prop := {
  wf_size : 0 <= b_size b <= u32_max;
  wf_mmap : Z.of_nat (length (mmap b)) = mmap_len }.

Section Queries.
Context `{Profile} {E : Type}.

Definition memory_mappings (self : Bootboot) : Res E (list MemoryMapping) :=
  n ← u32_arith (b_size self - 128);
  if decide (n / 16 <= Z.of_nat (length (mmap self)))
  then Ok (take (Z.to_nat (n / 16)) (mmap self)) else Panic OutOfRange.
End Queries.

(** ** Handing memory to the allocator

    [buddy_system_allocator::LockedHeap]: [add_to_heap] may panic. *)
Class Heap (H : Type) := {
  add_to_heap : H -> Z -> Z -> panic + H;
  stats_total_bytes : H -> Z }.

Section Init.
Context `{Profile} {E HS : Type} `{!Heap HS}.

Definition panicking {X} (r : panic + X) : Res E X :=
  match r with inl p => Panic p | inr x => Ok x end.

(** The body of the loop. *)
Definition add_entry (entry : MemoryMapping) (heap : HS) : Res E HS :=
  if is_free entry && negb (addr entry =? 0x0) then
    end_ ← u64_arith (addr entry + size entry);
    panicking (add_to_heap heap (addr entry) end_)
  else Ok heap.

Definition init_heap (bootboot : Bootboot) (heap : HS) : Res E HS :=
  entries ← memory_mappings bootboot;
  entries ← (if decide (1 <= length entries)%nat then Ok (drop 1 entries) else Panic OutOfRange);
  for_each add_entry entries heap.

(** The number in the line [Free memory: {}MB]. *)
Definition free_memory_mb (heap : HS) : Z := stats_total_bytes heap / (1024 * 1024).
End Init.

(** ** Decoding an entry *)
Lemma land_high x : 0 <= x < 2 ^ 64 -> Z.land x 0xFFFFFFFFFFFFFFF0 = 16 * (x / 16).
Proof.
  intros Hx. change 0xFFFFFFFFFFFFFFF0 with (Z.shiftl (Z.ones 60) 4).
  replace (16 * (x / 16)) with (Z.shiftl (Z.shiftr x 4) 4)
    by (rewrite Z.shiftl_mul_pow2, Z.shiftr_div_pow2 by lia; change (2 ^ 4) with 16; lia).
  apply Z.bits_inj'. intros n Hn. rewrite Z.land_spec. destruct (Z.ltb_spec n 4).
  - rewrite !Z.shiftl_spec_low by lia. apply andb_false_r.
  - rewrite !Z.shiftl_spec, Z.shiftr_spec, Z.sub_add by lia.
    destruct (Z.ltb_spec (n - 4) 60).
    + rewrite Z.ones_spec_low by lia. apply andb_true_r.
    + rewrite Z.ones_spec_high by lia. rewrite andb_false_r. symmetry.
      destruct (decide (x = 0)) as [->|]; [apply Z.bits_0|].
      apply Z.bits_above_log2; [lia|]. apply Z.log2_lt_pow2; [lia|].
      apply Z.lt_le_trans with (2 ^ 64); [lia|]. apply Z.pow_le_mono_r; lia.
Qed.

Lemma land_low x : Z.land x 0xf = x `mod` 16.
Proof. change 0xf with (Z.ones 4). by rewrite Z.land_ones by lia. Qed.

(** The size field of a memory map entry packs a size and a kind.  For a
    size that is a multiple of 16 and a kind below 16, an entry built from them
    has that size, is free exactly when the kind is 1, and every entry is built
    that way. *)
Theorem mapping_decodes p sz kind :
  0 <= sz < 2 ^ 64 -> sz `mod` 16 = 0 -> 0 <= kind < 16 ->
  size (mkMapping p (sz + kind)) = sz /\
  (is_free (mkMapping p (sz + kind)) = true <-> kind = 1) /\
  ∀ m, 0 <= _size m < 2 ^ 64 -> ∃ sz' kind', 0 <= kind' < 16 /\ sz' `mod` 16 = 0 /\
    m = mkMapping (addr m) (sz' + kind') /\ size m = sz' /\ (is_free m = true <-> kind' = 1).
Proof.
  intros Hs Hm Hk. apply Z.mod_divide in Hm as [q ->]; [|lia].
  unfold size, is_free. cbn [_size]. rewrite land_low, Z.eqb_eq, land_high by lia.
  split_and!; [div_lia|div_lia|]. intros m Hsz. exists (16 * (_size m / 16)), (_size m `mod` 16).
  rewrite land_low, land_high, Z.eqb_eq by lia. split_and!; try done; try div_lia.
  - rewrite <- Z_div_mod_eq_full. by destruct m.
Qed.

Section Properties.
Context `{Profile} {E : Type}.

(** C24: when [memory_mappings] panics.  On a structure of the loader, in every
    build profile, it returns the first [(size - 128) / 16] entries when the size
    is at least 128 and below 4096, and panics otherwise: for a size below the
    header's, and for a structure that fills its page of 4096 bytes, whose last
    entry the array does not have. *)
Theorem memory_mappings_total (b : Bootboot) :
  bootboot_wf b ->
  (128 <= b_size b < 4096 ->
     @memory_mappings _ E b = Ok (take (Z.to_nat ((b_size b - 128) / 16)) (mmap b))) /\
  (b_size b < 128 \/ 4096 <= b_size b -> ∃ p, @memory_mappings _ E b = Panic p) /\
  (@memory_mappings _ E b = Panic OutOfRange <-> 4096 <= b_size b \/ b_size b < 128 /\ overflow_checks = false).
Proof.
  intros [Hs Hl]. unfold memory_mappings. rewrite Hl. unfold mmap_len. change ((0xfff - 0x80) / 16) with 247.
  unfold u32_max in Hs. unfold u32_arith, checked, u32_ok.
  destruct (Z.leb_spec 0 (b_size b - 128)); cbn [andb].
  - rewrite (proj2 (Z.leb_le _ _)) by (unfold u32_max; lia). rewrite res_bind_ok. split_and!.
    + intros Hr. rewrite decide_True by div_lia. done.
    + intros [?|?]; [lia|]. rewrite decide_False by div_lia. eauto.
    + split; [|intros [?|[? _]]; [|lia]; by rewrite decide_False by div_lia].
      case_decide; [done|]. intros _. left. div_lia.
  - split_and!; [lia| |].
    + intros _. destruct overflow_checks; [by eexists|]. rewrite res_bind_ok.
      rewrite decide_False; [by eexists|]. unfold wrap32. div_lia.
    + destruct overflow_checks.
      * split; [done|]. intros [?|[_ ?]]; [lia|done].
      * rewrite res_bind_ok, decide_False by (unfold wrap32; div_lia). split; [|done].
        intros _. right. split; [lia|done].
Qed.

Context {HS : Type} `{!Heap HS}.

(** The regions a list of entries contributes. *)
Definition region_of (m : MemoryMapping) : option (Z * Z) :=
  if is_free m && negb (addr m =? 0) then Some (addr m, addr m + size m) else None.
Definition regions (entries : list MemoryMapping) : list (Z * Z) := omap region_of entries.

Definition add_region (r : Z * Z) (heap : HS) : Res E HS :=
  panicking (add_to_heap heap r.1 r.2).

(** An entry whose region lies in the address space. *)
Definition entry_fits (m : MemoryMapping) : Prop := 0 <= addr m + size m <= u64_max.

Lemma add_entries_regions entries heap :
  Forall entry_fits entries ->
  for_each (@add_entry _ E HS _) entries heap = for_each add_region (regions entries) heap.
Proof.
  assert (Hone : ∀ m heap, entry_fits m -> @add_entry _ E HS _ m heap =
    match region_of m with Some r => add_region r heap | None => Ok heap end).
  { intros m h Hm. unfold add_entry, region_of. destruct (is_free m && _); [|done].
    by rewrite u64_arith_ok. }
  intros Hf. revert heap. induction Hf as [|m entries Hm _ IH]; intros heap; [done|].
  cbn [for_each]. rewrite Hone by done. unfold regions. cbn [omap list_omap].
  destruct (region_of m) as [r|]; [|by rewrite res_bind_ok, IH].
  cbn [for_each]. destruct (add_region r heap); try done. rewrite !res_bind_ok. apply IH.
Qed.

(** C25: which memory the kernel takes.  With at least one entry in the map and
    entries that fit the address space, the bootstrap hands the allocator exactly
    the regions of the free entries but the first, in order, none of them at
    address 0 and each as long as its entry says; with an empty map it panics
    when it skips the first entry. *)
Theorem init_heap_regions (b : Bootboot) (heap : HS) :
  bootboot_wf b -> 128 <= b_size b < 4096 -> Forall entry_fits (mmap b) ->
  (144 <= b_size b -> ∃ entries,
     @memory_mappings _ E b = Ok entries /\
     @init_heap _ E HS _ b heap = for_each add_region (regions (drop 1 entries)) heap /\
     ∀ s e, (s, e) ∈ regions (drop 1 entries) <-> s <> 0 /\ ∃ m, m ∈ drop 1 entries /\
       is_free m = true /\ s = addr m /\ e = addr m + size m) /\
  (b_size b < 144 -> @init_heap _ E HS _ b heap = Panic OutOfRange).
Proof.
  intros Hwf Hs Hfit. destruct (memory_mappings_total b Hwf) as [Hm _]. specialize (Hm Hs).
  unfold init_heap. rewrite Hm, res_bind_ok. destruct Hwf as [_ Hl]. unfold mmap_len in Hl.
  change ((0xfff - 0x80) / 16) with 247 in Hl. split.
  - intros Hone. eexists. split; [done|]. rewrite decide_True by (rewrite length_take; div_lia).
    rewrite res_bind_ok. split.
    + apply add_entries_regions. by apply Forall_drop, Forall_take.
    + intros s e. unfold regions. rewrite list_elem_of_omap. unfold region_of. split.
      * intros (m & Hin & Hr). destruct (is_free m) eqn:Hf; [|done]. cbn [andb] in Hr.
        destruct (Z.eqb_spec (addr m) 0); [done|]. injection Hr as <- <-. eauto 10.
      * intros (Hne & m & Hin & Hf & -> & ->). exists m. split; [done|].
        rewrite Hf, (proj2 (Z.eqb_neq _ _) Hne). done.
  - intros Hnone. rewrite decide_False by (rewrite length_take; div_lia). done.
Qed.
End Properties.

(** ** Concrete instances *)
#[local] Instance region_list : Heap (list (Z * Z)) := {
  add_to_heap h s e := if s <=? e then inr (h ++ [(s, e)]) else inl AssertFailed;
  stats_total_bytes h := foldr (fun '(s, e) n => e - s + n) 0 h }.

(** A map of three entries: used, free, free at address 0. *)
Definition sample_bootboot : Bootboot :=
  mkBootboot [66; 79; 79; 84] 176 1 0 4 0 0 [] 0 0 0 0 0 0 0 (mkArch 0 0 0 0 0 0 0 0)
    ([mkMapping 0 4097; mkMapping 1048576 (67108864 + 1); mkMapping 0 (4096 + 1)]
     ++ replicate 244 (mkMapping 0 0)).

Lemma sample_bootboot_wf : bootboot_wf sample_bootboot.
Proof. split; [simpl; unfold u32_max; lia|reflexivity]. Qed.

Lemma mapping_decodes_witness :
  size (mkMapping 1048576 (67108864 + 1)) = 67108864 /\
  (is_free (mkMapping 1048576 (67108864 + 1)) = true <-> 1 = 1) /\
  ∀ m, 0 <= _size m < 2 ^ 64 -> ∃ sz' kind', 0 <= kind' < 16 /\ sz' `mod` 16 = 0 /\
    m = mkMapping (addr m) (sz' + kind') /\ size m = sz' /\ (is_free m = true <-> kind' = 1).
Proof. apply (mapping_decodes 1048576 67108864 1); [lia|reflexivity|lia]. Defined.

Lemma memory_mappings_total_witness :
  (128 <= b_size sample_bootboot < 4096 ->
     @memory_mappings debug unit sample_bootboot =
       Ok (take (Z.to_nat ((b_size sample_bootboot - 128) / 16)) (mmap sample_bootboot))) /\
  (b_size sample_bootboot < 128 \/ 4096 <= b_size sample_bootboot ->
     ∃ p, @memory_mappings debug unit sample_bootboot = Panic p) /\
  (@memory_mappings debug unit sample_bootboot = Panic OutOfRange <->
     4096 <= b_size sample_bootboot \/ b_size sample_bootboot < 128 /\ true = false).
Proof. exact (memory_mappings_total (H := debug) sample_bootboot sample_bootboot_wf). Defined.

(** One region is handed over: the second entry. *)
Lemma init_heap_regions_witness :
  (144 <= b_size sample_bootboot -> ∃ entries,
     @memory_mappings debug unit sample_bootboot = Ok entries /\
     @init_heap debug unit _ _ sample_bootboot [] = for_each add_region (regions (drop 1 entries)) [] /\
     ∀ s e, (s, e) ∈ regions (drop 1 entries) <-> s <> 0 /\ ∃ m, m ∈ drop 1 entries /\
       is_free m = true /\ s = addr m /\ e = addr m + size m) /\
  (b_size sample_bootboot < 144 -> @init_heap debug unit _ _ sample_bootboot [] = Panic OutOfRange).
Proof.
  apply (init_heap_regions (H := debug) sample_bootboot []).
  - apply sample_bootboot_wf.
  - simpl. lia.
  - unfold sample_bootboot, mmap. apply Forall_app. split.
    + repeat constructor; vm_compute; discriminate.
    + apply Forall_replicate. split; vm_compute; discriminate.
Defined.

Example sample_heap :
  @init_heap debug unit _ _ sample_bootboot [] = Ok [(1048576, 68157440)] /\
  free_memory_mb [(1048576, 68157440)] = 64.
Proof. split; vm_compute; reflexivity. Qed.
