(* ===== verification/Serial.v ===== *)
(** * The serial port ([paraos/src/serial.rs], [paraos/src/panic.rs])

    A method of [Serial] is the list of what it does to its port's mutex and to
    the I/O ports.  The cores run such lists concurrently: [sstep i] is one step
    of core [i] and a schedule is a list of cores.  The hardware ([x86::io]) is
    the interface [Device]; the mutex of the spin crate is a flag that [lock]
    waits for. *)
From S2P Require Import Prelude.

(** ** Actions *)
Inductive action :=
  | Lock                  (* Mutex::lock *)
  | Unlock                (* drop of the guard *)
  | Outb (port v : Z)
  | AwaitTransmit (port : Z) (* while !is_transmit_empty() {} *).

Definition u16_ok (x : Z) : bool := (0 <=? x) && (x <=? u16_max).

(** [u16] addition on port numbers. *)
Definition u16_arith `{Profile} {E} (x : Z) : Res E Z := checked (u16_ok x) (x `mod` 2 ^ 16) x.

Definition COM1 : Z := 0x3f8.

(** [self.0.lock();] as a statement: the guard is a temporary and is dropped at
    the end of the statement. *)
Definition lock_statement : list action := [Lock; Unlock].

Definition char_as_u8 (c : Z) : Z := c `mod` 256.

Section Methods.
Context `{Profile} {E : Type}.

Definition serial_init (port : Z) : Res E (list action) :=
  p1 ← u16_arith (port + 1);
  p3 ← u16_arith (port + 3);
  p0 ← u16_arith (port + 0);
  p2 ← u16_arith (port + 2);
  p4 ← u16_arith (port + 4);
  Ok (lock_statement ++ [Outb p1 0x00; Outb p3 0x80; Outb p0 0x03; Outb p1 0x00; Outb p3 0x03;
                         Outb p2 0xC7; Outb p4 0x0B; Outb p4 0x0F]).

Definition write_str (port : Z) (s : list Z) : Res E (list action) :=
  p0 ← u16_arith (port + 0);
  Ok (lock_statement ++ map (fun c => Outb p0 (char_as_u8 c)) s).

Definition write_char (port : Z) (c : Z) : Res E (list action) :=
  p5 ← u16_arith (port + 5);
  p0 ← u16_arith (port + 0);
  Ok (lock_statement ++ [AwaitTransmit p5; Outb p0 (char_as_u8 c)]).

(** [write(&mut serial, ...)]: the pieces of the formatted text, in order. *)
Fixpoint write_pieces (port : Z) (pieces : list (list Z)) : Res E (list action) :=
  match pieces with
  | [] => Ok []
  | s :: pieces => a ← write_str port s; b ← write_pieces port pieces; Ok (a ++ b)
  end.

(** [panic_print]: initialise the port and print the message between newlines. *)
Definition panic_print (info : list (list Z)) : Res E (list action) :=
  a ← serial_init COM1; b ← write_pieces COM1 ([[10]] ++ info ++ [[10]]); Ok (a ++ b).
End Methods.

(** ** The machine *)
Class Device (D : Type) := { inb : D -> Z -> Z * D; outb : D -> Z -> Z -> D }.

(** [is_transmit_empty], from the value read. *)
Definition is_transmit_empty (v : Z) : bool := negb (Z.land v 0x20 =? 0).

Record sys (D : Type) := mkSys {
  mutex : bool; dev : D; threads : list (list action); trace : list (nat * Z * Z) }.
Arguments mkSys {D}. Arguments mutex {D}. Arguments dev {D}. Arguments threads {D}. Arguments trace {D}.

Section Machine.
Context {D : Type} `{Device D}.

(** One step of core [i]; [None] when it cannot move. *)
Definition sstep (i : nat) (s : sys D) : option (sys D) :=
  match threads s !! i with
  | None | Some [] => None
  | Some (act :: rest) =>
      let ts := <[i := rest]> (threads s) in
      match act with
      | Lock => if mutex s then None else Some (mkSys true (dev s) ts (trace s))
      | Unlock => Some (mkSys false (dev s) ts (trace s))
      | Outb p v => Some (mkSys (mutex s) (outb (dev s) p v) ts (trace s ++ [(i, p, v)]))
      | AwaitTransmit p =>
          let '(v, d) := inb (dev s) p in
          Some (mkSys (mutex s) d (if is_transmit_empty v then ts else threads s) (trace s))
      end
  end.

(** A schedule. *)
Fixpoint sched (is_ : list nat) (s : sys D) : option (sys D) :=
  match is_ with
  | [] => Some s
  | i :: is_ => s ← sstep i s; sched is_ s
  end.

Lemma sched_app is1 is2 s : sched (is1 ++ is2) s = (s' ← sched is1 s; sched is2 s').
Proof.
  revert s. induction is1 as [|i is1 IH]; intros s; simpl; [done|].
  destruct (sstep i s); simpl; [apply IH|done].
Qed.

(** What a program writes, and what core [i] has written. *)
Definition outs (p : list action) : list (Z * Z) :=
  omap (fun a => match a with Outb p v => Some (p, v) | _ => None end) p.
Definition written (i : nat) (t : list (nat * Z * Z)) : list (Z * Z) :=
  omap (fun '(j, p, v) => if decide (i = j) then Some (p, v) else None) t.

Lemma written_app i t1 t2 : written i (t1 ++ t2) = written i t1 ++ written i t2.
Proof. apply omap_app. Qed.

Lemma sstep_outs i j s s' p :
  sstep i s = Some s' -> threads s !! j = Some p ->
  ∃ p', threads s' !! j = Some p' /\ written j (trace s') ++ outs p' = written j (trace s) ++ outs p.
Proof.
  unfold sstep. destruct (threads s !! i) as [[|act rest]|] eqn:Hi; try done. intros Hs Hj.
  assert (Hins : ∀ a, outs [a] = [] -> act = a -> ∃ p',
    <[i := rest]> (threads s) !! j = Some p' /\ outs p' = outs p).
  { intros a Ha ->. destruct (decide (i = j)) as [->|Hne].
    - exists rest. rewrite list_lookup_insert_eq by by eapply lookup_lt_Some. split; [done|].
      rewrite Hj in Hi. injection Hi as ->. unfold outs in *. cbn [omap list_omap] in *.
      by destruct a.
    - exists p. by rewrite list_lookup_insert_ne. }
  destruct act as [| |port v|port].
  - destruct (mutex s); [done|]. injection Hs as <-. cbn [threads trace].
    destruct (Hins Lock) as (p' & Hp' & Ho); [done..|]. exists p'. by rewrite Ho.
  - injection Hs as <-. cbn [threads trace]. destruct (Hins Unlock) as (p' & Hp' & Ho); [done..|].
    exists p'. by rewrite Ho.
  - injection Hs as <-. cbn [threads trace]. rewrite written_app. destruct (decide (i = j)) as [->|Hne].
    + rewrite Hj in Hi. injection Hi as ->. exists rest.
      rewrite list_lookup_insert_eq by by eapply lookup_lt_Some. split; [done|].
      unfold written at 2, outs at 2. cbn [omap list_omap]. rewrite decide_True by done.
      by rewrite <- app_assoc.
    + exists p. rewrite list_lookup_insert_ne by done. split; [done|].
      unfold written at 2. cbn [omap list_omap]. rewrite decide_False by done. by rewrite app_nil_r.
  - destruct (inb (dev s) port) as [v d]. injection Hs as <-. cbn [threads trace].
    destruct (is_transmit_empty v); [|by eauto].
    destruct (Hins (AwaitTransmit port)) as (p' & Hp' & Ho); [done..|]. exists p'. by rewrite Ho.
Qed.

Lemma sched_outs is_ j s s' p :
  sched is_ s = Some s' -> threads s !! j = Some p ->
  ∃ p', threads s' !! j = Some p' /\ written j (trace s') ++ outs p' = written j (trace s) ++ outs p.
Proof.
  revert s p. induction is_ as [|i is_ IH]; intros s p; simpl.
  - intros [= <-]. eauto.
  - destruct (sstep i s) as [s1|] eqn:Hs; [|done]. intros Hr Hp.
    destruct (sstep_outs _ _ _ _ _ Hs Hp) as (p1 & Hp1 & Heq). rewrite <- Heq. by eapply IH.
Qed.
End Machine.

(** ** Properties *)
Inductive interleave {X} : list X -> list X -> list X -> Prop :=
  | interleave_nil : interleave [] [] []
  | interleave_l x l1 l2 l : interleave l1 l2 l -> interleave (x :: l1) l2 (x :: l)
  | interleave_r x l1 l2 l : interleave l1 l2 l -> interleave l1 (x :: l2) (x :: l).

Section Properties.
Context {D : Type} `{Device D} `{Profile} {E : Type}.

Lemma u16_arith_ok x : 0 <= x <= u16_max -> @u16_arith _ E x = Ok x.
Proof.
  intros. unfold u16_arith, checked, u16_ok. by rewrite (proj2 (Z.leb_le _ _)), (proj2 (Z.leb_le _ _)) by lia.
Qed.

Lemma write_str_ok port s :
  0 <= port <= u16_max ->
  @write_str _ E port s = Ok (lock_statement ++ map (fun c => Outb port (char_as_u8 c)) s).
Proof. intros. unfold write_str. rewrite u16_arith_ok by lia. by rewrite res_bind_ok, Z.add_0_r. Qed.

Lemma outs_write port s :
  outs (lock_statement ++ map (fun c => Outb port (char_as_u8 c)) s)
    = map (fun c => (port, char_as_u8 c)) s.
Proof. unfold outs. rewrite omap_app. simpl. induction s as [|c s IH]; simpl; [done|]. by f_equal. Qed.

(** C26: every core's text comes out complete and in order.  Whatever the other
    cores run and however the steps interleave, what core [j] has written is at
    every moment a prefix of the bytes of its string, and all of them, each
    character truncated to a byte, once it has finished. *)
Theorem write_str_in_order port s p j cores (d : D) schedule st :
  0 <= port <= u16_max -> @write_str _ E port s = Ok p -> cores !! j = Some p ->
  sched schedule (mkSys false d cores []) = Some st ->
  (∃ rest, written j (trace st) ++ rest = map (fun c => (port, char_as_u8 c)) s) /\
  (threads st !! j = Some [] -> written j (trace st) = map (fun c => (port, char_as_u8 c)) s).
Proof.
  intros Hp Hw Hj Hs. rewrite write_str_ok in Hw by done. apply Ok_inj in Hw as <-.
  destruct (sched_outs _ _ _ _ _ Hs Hj) as (p' & Hp' & Heq). rewrite outs_write in Heq.
  change (written j (trace st) ++ outs p' = map (fun c => (port, char_as_u8 c)) s) in Heq. split.
  - by exists (outs p').
  - intros Hdone. rewrite Hp' in Hdone. injection Hdone as ->. by rewrite app_nil_r in Heq.
Qed.

(** The steps of two cores that only have output left. *)
Lemma sched_interleave port s1 s2 l m (d : D) t :
  interleave s1 s2 l ->
  ∃ schedule d' t', sched schedule (mkSys m d
      [map (fun c => Outb port (char_as_u8 c)) s1; map (fun c => Outb port (char_as_u8 c)) s2] t)
    = Some (mkSys m d' [[]; []] t') /\
    map (fun x => x.2) t' = map (fun x => x.2) t ++ map char_as_u8 l.
Proof.
  intros Hi. revert d t. induction Hi as [|c l1 l2 l _ IH|c l1 l2 l _ IH]; intros d t.
  - exists [], d, t. simpl. by rewrite app_nil_r.
  - destruct (IH (outb d port (char_as_u8 c)) (t ++ [(0%nat, port, char_as_u8 c)]))
      as (sc & d' & t' & Hs & Ht). exists (0%nat :: sc), d', t'. split; [exact Hs|].
    rewrite Ht, map_app, <- app_assoc. done.
  - destruct (IH (outb d port (char_as_u8 c)) (t ++ [(1%nat, port, char_as_u8 c)]))
      as (sc & d' & t' & Hs & Ht). exists (1%nat :: sc), d', t'. split; [exact Hs|].
    rewrite Ht, map_app, <- app_assoc. done.
Qed.

(** C36: the lock does not keep two messages apart.  When two cores write a string
    each, every interleaving of the two strings is the output of some schedule,
    at whose end both have finished and the mutex is free: the guard is dropped
    before the first character. *)
Theorem write_str_not_atomic port s1 s2 p1 p2 l (d : D) :
  0 <= port <= u16_max -> @write_str _ E port s1 = Ok p1 -> @write_str _ E port s2 = Ok p2 ->
  interleave s1 s2 l ->
  ∃ schedule d' t, sched schedule (mkSys false d [p1; p2] []) = Some (mkSys false d' [[]; []] t) /\
    map (fun x => x.2) t = map char_as_u8 l.
Proof.
  intros Hp Hw1 Hw2 Hl. rewrite write_str_ok in Hw1, Hw2 by done. injection Hw1 as <-. injection Hw2 as <-.
  destruct (sched_interleave port s1 s2 l false d [] Hl) as (sc & d' & t & Hs & Ht).
  by exists ([0; 0; 1; 1]%nat ++ sc), d', t.
Qed.

(** [write_str] does not wait for the transmitter.  On a device that never
    reports an empty transmitter, [write_char] never writes its byte in any
    schedule, while [write_str] pushes all its bytes out. *)
Theorem write_str_ignores_transmitter port c pc s ps (d : D) :
  0 <= port -> port + 5 <= u16_max -> (∀ d, is_transmit_empty (fst (inb d (port + 5))) = false) ->
  @write_char _ E port c = Ok pc -> @write_str _ E port s = Ok ps ->
  (∀ schedule st, sched schedule (mkSys false d [pc] []) = Some st -> trace st = []) /\
  ∃ schedule st, sched schedule (mkSys false d [ps] []) = Some st /\ threads st = [[]] /\
    written 0 (trace st) = map (fun c => (port, char_as_u8 c)) s.
Proof.
  intros Hp Hp5 Hbusy Hc Hs. unfold write_char in Hc. rewrite !u16_arith_ok in Hc by lia.
  apply Ok_inj in Hc as <-. rewrite write_str_ok in Hs by lia. apply Ok_inj in Hs as <-. split.
  - intros schedule st Hst.
    set (rest := [AwaitTransmit (port + 5); Outb (port + 0) (char_as_u8 c)]).
    assert (Hinv : ∀ is_ m (d : D) th st, th = [Lock :: Unlock :: rest] \/ th = [Unlock :: rest] \/ th = [rest] ->
      sched is_ (mkSys m d th []) = Some st -> trace st = []).
    { clear -Hbusy. induction is_ as [|i is_ IH]; intros m d th st Hth; simpl.
      - by intros [= <-].
      - destruct (sstep i _) as [s1|] eqn:H1; [|done]. intros Hs. unfold sstep in H1.
        destruct i as [|i]; [|by destruct Hth as [->|[->| ->]]; destruct i].
        destruct Hth as [->|[->| ->]]; simpl in H1.
        + destruct m; [done|]. injection H1 as <-. eapply (IH true d); [|exact Hs]. auto.
        + injection H1 as <-. eapply (IH false d); [|exact Hs]. auto.
        + specialize (Hbusy d). destruct (inb d (port + 5)) as [v d']. simpl in Hbusy.
          rewrite Hbusy in H1. injection H1 as <-. eapply (IH m d'); [|exact Hs]. auto. }
    eapply Hinv; [|exact Hst]. by left.
  - assert (Hall : ∀ (d : D) t, ∃ st,
      sched (replicate (length s) 0%nat) (mkSys false d [map (fun c => Outb port (char_as_u8 c)) s] t) = Some st /\
      threads st = [[]] /\ written 0 (trace st) = written 0 t ++ map (fun c => (port, char_as_u8 c)) s).
    { clear. induction s as [|c s IH]; intros d t.
      - eexists. split; [reflexivity|]. split; [done|]. simpl. by rewrite app_nil_r.
      - destruct (IH (outb d port (char_as_u8 c)) (t ++ [(0%nat, port, char_as_u8 c)])) as (st & Hs & Ht & Hw).
        exists st. split; [exact Hs|]. split; [done|]. rewrite Hw, written_app, <- app_assoc. done. }
    destruct (Hall d []) as (st & Hst & Ht & Hw). exists ([0; 0]%nat ++ replicate (length s) 0%nat), st. done.
Qed.
End Properties.

(** ** Concrete instances *)
#[local] Instance busy_device : Device unit := { inb d _ := (0, d); outb d _ _ := d }.

Lemma write_str_in_order_witness :
  let p := lock_statement ++ [Outb 1016 72; Outb 1016 105] in
  let st := mkSys false tt [[]; [Outb 1016 105]] [(1%nat, 1016, 72)] in
  sched [1; 1; 1]%nat (mkSys false tt [[]; p] []) = Some st /\
  (∃ rest, written 1 (trace st) ++ rest = [(1016, 72); (1016, 105)]) /\
  (threads st !! 1%nat = Some [] -> written 1 (trace st) = [(1016, 72); (1016, 105)]).
Proof.
  intros p st. assert (Hs : sched [1; 1; 1]%nat (mkSys false tt [[]; p] []) = Some st) by reflexivity.
  split; [exact Hs|].
  refine (write_str_in_order (H0 := debug) (E := unit) COM1 [72; 105] p 1%nat [[]; p] tt _ st _ _ _ Hs).
  - vm_compute. split; discriminate.
  - reflexivity.
  - reflexivity.
Defined.

(** "ab" and "cd" come out as "acbd". *)
Lemma write_str_not_atomic_witness :
  ∃ schedule d' t,
    sched schedule (mkSys false tt [lock_statement ++ [Outb 1016 97; Outb 1016 98];
                                    lock_statement ++ [Outb 1016 99; Outb 1016 100]] [])
      = Some (mkSys false d' [[]; []] t) /\
    map (fun x => x.2) t = [97; 99; 98; 100].
Proof.
  refine (write_str_not_atomic (H0 := debug) (E := unit) COM1 [97; 98] [99; 100] _ _ [97; 99; 98; 100] tt
    _ _ _ _).
  - vm_compute. split; discriminate.
  - reflexivity.
  - reflexivity.
  - do 2 (apply interleave_l, interleave_r). constructor.
Defined.

Lemma write_str_ignores_transmitter_witness :
  let pc := lock_statement ++ [AwaitTransmit 1021; Outb 1016 33] in
  let ps := lock_statement ++ [Outb 1016 33] in
  (∀ schedule st, sched schedule (mkSys false tt [pc] []) = Some st -> trace st = []) /\
  ∃ schedule st, sched schedule (mkSys false tt [ps] []) = Some st /\ threads st = [[]] /\
    written 0 (trace st) = [(1016, 33)].
Proof.
  intros pc ps.
  refine (write_str_ignores_transmitter (H0 := debug) (E := unit) COM1 33 pc [33] ps tt _ _ _ _ _).
  - vm_compute. discriminate.
  - vm_compute. discriminate.
  - reflexivity.
  - reflexivity.
  - reflexivity.
Defined.
