(* ===== verification/Kernel.v ===== *)
(** * Starting the cores ([paraos/src/kernel.rs], [paraos/src/platform.rs])

    Every core executes [Kernel::run] on a shared [StartBarrier].  [kstep i] is
    one step of core [i], in the order of the source: create or get the barrier,
    initialise on the bootstrap core, wait, print the banner on the bootstrap
    core.  A core panics where CPUID does not answer, where the number of cores
    overflows, and where the closure it was given panics; it ends in the panic
    handler, which loops.  spin's [Barrier] is the interface [SpinBarrier]; [Once] is its
    documented effect, the first caller's value. *)
From S2P Require Import Prelude.

(** ** The number of cores ([platform.rs]) *)
Inductive TopologyType := TopologySMT | TopologyCore | TopologyOther.
Record TopologyLevel := mkLevel { level_type : TopologyType; processors : Z }.

Definition is_core_level (i : TopologyLevel) : bool :=
  match level_type i with TopologyCore => true | _ => false end.

(** [info] is what CPUID reports, [None] when it reports nothing; the sum is of
    type [u16]. *)
Definition num_cores `{Profile} {E} (info : option (list TopologyLevel)) : Res E Z :=
  levels ← of_option AssertFailed info;
  for_each (fun p sum => checked ((0 <=? sum + p) && (sum + p <=? u16_max)) ((sum + p) `mod` 2 ^ 16) (sum + p))
    (map processors (filter is_core_level levels)) 0.

(** ** spin's barrier, for one rendezvous *)
Class SpinBarrier (Bar : Type) := {
  barrier_new : Z -> Bar;
  barrier_arrive : Bar -> Bar;      (* a thread calls wait *)
  barrier_open : Bar -> bool        (* the waiting threads may leave *) }.
Class SpinBarrierLaws (Bar : Type) `{SpinBarrier Bar} : Prop := {
  law_barrier n k : (0 < n)%nat -> (k <= n)%nat ->
    barrier_open (Nat.iter k barrier_arrive (barrier_new (Z.of_nat n))) = bool_decide (k = n) }.

(** ** The machine *)
Record Kernel := mkKernel { bootstrap_processor_id : Z; quiet : bool }.

(** [Kernel::new] and [set_quiet]. *)
Definition kernel_new (bootstrap_processor_id : Z) : Kernel := mkKernel bootstrap_processor_id false.
Definition set_quiet (self : Kernel) (quiet : bool) : Kernel :=
  mkKernel (bootstrap_processor_id self) quiet.

(** What CPUID answers on a core: the topology, and the initial local APIC id of
    the feature information. *)
Record Cpuid := mkCpuid { topology_info : option (list TopologyLevel); feature_info : option Z }.

(** [is_bootstrap_core]. *)
Definition is_bootstrap_core {E} (self : Kernel) (cpuid : Cpuid) : Res E bool :=
  local_apic ← of_option AssertFailed (feature_info cpuid);
  Ok (local_apic =? bootstrap_processor_id self).

Inductive phase :=
  | Entered      (* before call_once *)
  | Joined       (* has the barrier *)
  | Initialising (* on the bootstrap core: port initialised, bootstrap_init next *)
  | Ready        (* before wait *)
  | Waiting      (* in wait *)
  | Released     (* after wait *)
  | Returned
  | Panicked (in_closure : bool) (p : panic) (* in the panic handler *).

#[global] Instance phase_eq_dec : EqDecision phase.
Proof. solve_decision. Defined.

Inductive event := PortInit (core : nat) | BootstrapInit (core : nat) | Banner (core : nat).

Record ksys (Bar : Type) := mkK { once : option Bar; phases : list phase; events : list event }.
Arguments mkK {Bar}. Arguments once {Bar}. Arguments phases {Bar}. Arguments events {Bar}.

Section Machine.
Context {Bar : Type} `{SpinBarrier Bar} `{Profile}.
(** [closure] is how the closure given to [run] panics, [None] when it returns;
    [cores] are the cores that run the kernel. *)
Context (self : Kernel) (closure : option panic) (cores : list Cpuid).

Definition on_bootstrap_core (i : nat) : bool :=
  match cores !! i ≫= feature_info with
  | Some local_apic => local_apic =? bootstrap_processor_id self
  | None => false
  end.

(** One step of [run] on core [i]; [None] when the core cannot move. *)
Definition kstep (i : nat) (s : ksys Bar) : option (ksys Bar) :=
  let go p := <[i := p]> (phases s) in
  match cores !! i, phases s !! i with
  | Some cpuid, Some Entered =>
      match @num_cores _ Empty_set (topology_info cpuid) with
      | Ok num_cores =>
          let b := match once s with Some b => b | None => barrier_new num_cores end in
          Some (mkK (Some b) (go Joined) (events s))
      | Panic p => Some (mkK (once s) (go (Panicked false p)) (events s))
      | Err e => match e with end
      end
  | Some cpuid, Some Joined =>
      match feature_info cpuid with
      | None => Some (mkK (once s) (go (Panicked false AssertFailed)) (events s))
      | Some local_apic =>
          if local_apic =? bootstrap_processor_id self
          then Some (mkK (once s) (go Initialising) (events s ++ [PortInit i]))
          else Some (mkK (once s) (go Ready) (events s))
      end
  | Some _, Some Initialising =>
      match closure with
      | None => Some (mkK (once s) (go Ready) (events s ++ [BootstrapInit i]))
      | Some p => Some (mkK (once s) (go (Panicked true p)) (events s))
      end
  | Some _, Some Ready => Some (mkK (barrier_arrive <$> once s) (go Waiting) (events s))
  | Some _, Some Waiting =>
      match once s with
      | Some b => if barrier_open b then Some (mkK (once s) (go Released) (events s)) else None
      | None => None
      end
  | Some _, Some Released =>
      Some (mkK (once s) (go Returned)
        (if on_bootstrap_core i && negb (quiet self) then events s ++ [Banner i] else events s))
  | _, _ => None
  end.

Fixpoint ksched (schedule : list nat) (s : ksys Bar) : option (ksys Bar) :=
  match schedule with
  | [] => Some s
  | i :: schedule => s ← kstep i s; ksched schedule s
  end.

(** [StartBarrier::new()] and every core about to enter [run]. *)
Definition kinit : ksys Bar := mkK None (replicate (length cores) Entered) [].

(** How [run] panics on core [i], if it does. *)
Definition core_panic (i : nat) : option panic :=
  cpuid ← cores !! i;
  match @num_cores _ Empty_set (topology_info cpuid), feature_info cpuid with
  | Panic p, _ => Some p
  | _, None => Some AssertFailed
  | _, Some local_apic => if local_apic =? bootstrap_processor_id self then closure else None
  end.
End Machine.

(** ** The test [bootstrap_init_only] *)
Section BootstrapInitOnly.
Context {E Bar : Type}.

(** [Kernel::new(0, &barrier)], made quiet. *)
Definition quiet_kernel : Kernel := set_quiet (kernel_new 0) true.

(** The variable [initialized] of core [i], set by the closure given to [run]. *)
Definition initialized (i : nat) (s : ksys Bar) : bool :=
  existsb (fun e => match e with BootstrapInit j => bool_decide (j = i) | _ => false end) (events s).

(** The test on core [i], after [run]. *)
Definition bootstrap_init_only (cpuid : Cpuid) (i : nat) (s : ksys Bar) : Res E unit :=
  is_bootstrap ← is_bootstrap_core quiet_kernel cpuid;
  if is_bootstrap : bool then
    if initialized i s then Ok tt else Panic AssertFailed
  else if negb (initialized i s) then Ok tt else Panic AssertFailed.
End BootstrapInitOnly.

(** ** Counting cores *)

(** A core that has called [wait]; a core that has left it. *)
Definition arrived (p : phase) : nat := match p with Waiting | Released | Returned => 1 | _ => 0 end.
Definition released (p : phase) : bool := match p with Released | Returned => true | _ => false end.

(** Steps a core still has to make, at most. *)
Definition remaining (p : phase) : nat :=
  match p with
  | Entered => 6 | Joined => 5 | Initialising => 4 | Ready => 3 | Waiting => 2 | Released => 1
  | Returned | Panicked _ _ => 0
  end.

Lemma sum_by_ones l : (∀ i p, l !! i = Some p -> arrived p = 1%nat) -> sum_by arrived l = length l.
Proof.
  intros Hall. induction l as [|q l IH]; [done|]. simpl.
  rewrite IH by (intros i p Hi; by apply (Hall (S i) p)). by rewrite (Hall 0%nat q eq_refl).
Qed.

Lemma all_arrived l : sum_by arrived l = length l -> ∀ i p, l !! i = Some p -> arrived p = 1%nat.
Proof.
  induction l as [|q l IH]; intros Hs [|i] p Hi; simplify_eq/=;
    pose proof (sum_by_bound arrived 1 l ltac:(intros []; simpl; lia)).
  - destruct p; simpl in *; lia.
  - apply (IH ltac:(destruct q; simpl in *; lia) i p Hi).
Qed.

(** The local APIC ids CPUID reports. *)
Definition apic_ids (cores : list Cpuid) : list Z := omap feature_info cores.

Lemma apic_ids_inj cores i j ci cj x :
  NoDup (apic_ids cores) -> cores !! i = Some ci -> cores !! j = Some cj ->
  feature_info ci = Some x -> feature_info cj = Some x -> i = j.
Proof.
  revert i j. induction cores as [|c cores IH]; intros [|i] [|j] Hnd Hi Hj Hci Hcj; simplify_eq/=; [done|..].
  - rewrite Hci in Hnd. apply NoDup_cons in Hnd as [Hx _]. destruct Hx.
    apply list_elem_of_omap. exists cj. by apply list_elem_of_lookup_2 in Hj.
  - rewrite Hcj in Hnd. apply NoDup_cons in Hnd as [Hx _]. destruct Hx.
    apply list_elem_of_omap. exists ci. by apply list_elem_of_lookup_2 in Hi.
  - f_equal. destruct (feature_info c); [apply NoDup_cons in Hnd as [_ Hnd]|]; by eapply IH.
Qed.

Section Properties.
Context {Bar : Type} `{SpinBarrierLaws Bar} `{Profile} (self : Kernel) (closure : option panic).
(** Every core that can tell the number of cores says [n], and no more run. *)
Context (cores : list Cpuid) (n : nat) (Hn : (0 < n)%nat) (Hle : (length cores <= n)%nat).
Context (Hagree : ∀ cpuid m, cpuid ∈ cores -> @num_cores _ Empty_set (topology_info cpuid) = Ok m -> m = Z.of_nat n).

Abbreviation boot i := (on_bootstrap_core self cores i).
Abbreviation panics i := (core_panic self closure cores i).

(** The events once the bootstrap core [j] is at [p]. *)
Definition expected (j : nat) (p : phase) : list event :=
  match p with
  | Entered | Joined => []
  | Initialising => [PortInit j]
  | Panicked in_closure _ => if in_closure then [PortInit j] else []
  | Ready | Waiting | Released => [PortInit j; BootstrapInit j]
  | Returned => [PortInit j; BootstrapInit j] ++ (if quiet self then [] else [Banner j])
  end.

(** A core that has no barrier yet. *)
Definition early (p : phase) : bool :=
  match p with Entered | Panicked false _ => true | _ => false end.

(** What is known of the core [i] at [p]. *)
Definition outcome (i : nat) (p : phase) : Prop :=
  match p with
  | Entered => True
  | Joined => ∀ cpuid, cores !! i = Some cpuid -> ∃ m, @num_cores _ Empty_set (topology_info cpuid) = Ok m
  | Initialising => boot i = true /\ panics i = closure
  | Ready | Waiting | Released | Returned => panics i = None
  | Panicked _ e => panics i = Some e
  end.

(** The invariant of the start-up. *)
Record kinv (s : ksys Bar) : Prop := {
  kinv_length : length (phases s) = length cores;
  kinv_once b : once s = Some b ->
    b = Nat.iter (sum_by arrived (phases s)) barrier_arrive (barrier_new (Z.of_nat n));
  kinv_none i p : once s = None -> phases s !! i = Some p -> early p = true;
  kinv_released i p : phases s !! i = Some p -> released p = true -> sum_by arrived (phases s) = n;
  kinv_events j p : NoDup (apic_ids cores) -> boot j = true -> phases s !! j = Some p -> events s = expected j p;
  kinv_outcome i p : phases s !! i = Some p -> outcome i p;
  kinv_no_events : (∀ j, boot j = false) -> events s = [] }.

Lemma kinv_init : kinv (kinit cores).
Proof.
  split; simpl.
  - apply length_replicate.
  - done.
  - intros i p _ [-> _]%lookup_replicate. done.
  - intros i p [-> _]%lookup_replicate. done.
  - intros j p _ _ [-> _]%lookup_replicate. done.
  - intros i p [-> _]%lookup_replicate. done.
  - done.
Qed.

Lemma boot_spec i : boot i = true <-> ∃ cpuid, cores !! i = Some cpuid /\ feature_info cpuid = Some (bootstrap_processor_id self).
Proof.
  unfold on_bootstrap_core. destruct (cores !! i) as [c|]; simpl; [|by split; [|intros (? & ? & _)]].
  destruct (feature_info c) as [x|] eqn:Hx; [|by split; [|intros (? & [= <-] & ?); congruence]].
  split; [intros ->%Z.eqb_eq; eauto|]. intros (? & [= <-] & Hc). apply Z.eqb_eq. congruence.
Qed.

Lemma boot_unique i j : NoDup (apic_ids cores) -> boot i = true -> boot j = true -> i = j.
Proof. intros Hnd (? & ? & ?)%boot_spec (? & ? & ?)%boot_spec. by eapply apic_ids_inj. Qed.

Lemma boot_dec : (∃ j, boot j = true) \/ (∀ j, boot j = false).
Proof.
  destruct (existsb (fun j => boot j) (seq 0 (length cores))) eqn:Hex.
  - left. apply existsb_exists in Hex as (j & _ & Hj). by exists j.
  - right. intros j. apply not_true_iff_false. intros Hj. apply not_true_iff_false in Hex. apply Hex, existsb_exists.
    exists j. split; [|done]. apply boot_spec in Hj as (c & Hc%lookup_lt_Some & _). apply in_seq. by split; [apply Nat.le_0_l|].
Qed.

Lemma boot_phase s j : kinv s -> boot j = true -> ∃ q, phases s !! j = Some q.
Proof.
  intros Hk (c & Hc & _)%boot_spec. apply lookup_lt_is_Some. rewrite (kinv_length _ Hk). by eapply lookup_lt_Some.
Qed.

(** A step in terms of the phases of its core. *)
Record moves (i : nat) (s s' : ksys Bar) (p p' : phase) : Prop := {
  mv_before : phases s !! i = Some p;
  mv_after : phases s' = <[i := p']> (phases s);
  mv_remaining : (remaining p' < remaining p)%nat;
  mv_outcome : outcome i p';
  mv_released : released p' = true -> released p = true \/ ∃ b, once s = Some b /\ barrier_open b = true;
  mv_quiet : boot i = false -> events s' = events s;
  mv_events : boot i = true -> events s = expected i p -> events s' = expected i p';
  mv_once : (p = Entered /\ p' = Joined /\
      once s' = Some (match once s with Some b => b | None => barrier_new (Z.of_nat n) end)) \/
    (p = Ready /\ p' = Waiting /\ once s' = barrier_arrive <$> once s) \/
    (once s' = once s /\ arrived p' = arrived p /\ (early p = true -> early p' = true)) }.

Lemma kstep_moves i s s' :
  (∀ p, phases s !! i = Some p -> outcome i p) -> kstep self closure cores i s = Some s' -> ∃ p p', moves i s s' p p'.
Proof.
  unfold kstep. intros Hout. destruct (cores !! i) as [c|] eqn:Hc; [|done].
  destruct (phases s !! i) as [p|] eqn:Hi; [|done]. specialize (Hout _ eq_refl). intros Hs. exists p.
  assert (Hpan : panics i = match @num_cores _ Empty_set (topology_info c), feature_info c with
      | Panic e, _ => Some e | _, None => Some AssertFailed
      | _, Some a => if a =? bootstrap_processor_id self then closure else None end)
    by (unfold core_panic; by rewrite Hc).
  assert (Hboot : boot i = match feature_info c with Some a => a =? bootstrap_processor_id self | None => false end)
    by (unfold on_bootstrap_core; by rewrite Hc).
  destruct p; simpl in Hout.
  - destruct (num_cores _) as [m|e|e] eqn:Hm; [|done|]; injection Hs as <-.
    + rewrite (Hagree c m) by (done || by eapply list_elem_of_lookup_2). exists Joined.
      split; simpl; try done; try lia; [|auto]. intros c' [= <-]%(eq_trans (eq_sym Hc)). by exists m.
    + exists (Panicked false e). split; simpl; try done; try lia. auto.
  - destruct (Hout c Hc) as [m Hm]. rewrite Hm in Hpan.
    destruct (feature_info c) as [a|] eqn:Ha; [destruct (a =? _) eqn:Hb|]; injection Hs as <-.
    + exists Initialising. split; simpl; try done; try lia; [congruence|by intros _ ->|auto].
    + exists Ready. split; simpl; try done; try lia; [congruence|auto].
    + exists (Panicked false AssertFailed). split; simpl; try done; try lia; auto.
  - destruct Hout as [Hb Hcl]. destruct closure as [e|] eqn:Hcle; injection Hs as <-.
    + exists (Panicked true e). split; simpl; try done; try lia; [congruence|auto].
    + exists Ready. split; simpl; try done; try lia; [congruence|congruence|by intros _ ->|auto].
  - injection Hs as <-. exists Waiting. split; simpl; try done; try lia. auto.
  - destruct (once s) as [b|] eqn:Ho; [|done]. destruct (barrier_open b) eqn:Hop; [|done]. injection Hs as <-.
    exists Released. split; simpl; try done; try lia; [eauto|]. rewrite Ho. auto.
  - injection Hs as <-. exists Returned. split; simpl; try done; try lia; [by intros ->| |auto].
    intros -> ->. simpl. by destruct (quiet self); rewrite ?app_nil_r.
  - done.
  - done.
Qed.

Lemma early_none_arrived l : (∀ i p, l !! i = Some p -> early p = true) -> sum_by arrived l = 0%nat.
Proof.
  intros Hall. induction l as [|q l IH]; [done|]. simpl. rewrite IH by (intros i p Hi; by apply (Hall (S i) p)).
  pose proof (Hall 0%nat q eq_refl) as Hq. by destruct q as [| | | | | | |[]].
Qed.

Lemma kinv_step i s s' : kinv s -> kstep self closure cores i s = Some s' -> kinv s'.
Proof.
  intros Hk Hs. pose proof Hk as [Hl Ho Hno Hr He Hout Hne].
  destruct (kstep_moves i s s' (Hout i) Hs) as (p & p' & [Hi Hp _ Hout' Hrel Hoff Hon Honce]).
  pose proof (sum_by_insert arrived _ _ _ p' Hi) as Hsum. rewrite <- Hp in Hsum.
  assert (Hlook : ∀ j q, phases s' !! j = Some q -> j = i /\ q = p' \/ j <> i /\ phases s !! j = Some q).
  { intros j q. rewrite Hp, list_lookup_insert_Some. intros [(-> & <- & _)|[? ?]]; auto. }
  split.
  - by rewrite Hp, length_insert.
  - intros b Hb. destruct Honce as [(-> & -> & Hb')|[(-> & -> & Hb')|(Hb' & Ha & _)]]; rewrite Hb' in Hb; simpl in Hsum.
    + injection Hb as <-. replace (sum_by arrived (phases s')) with (sum_by arrived (phases s)) by lia.
      destruct (once s) as [b|] eqn:Hob; [by apply Ho|]. rewrite early_none_arrived; [done|]. by intros; eapply Hno.
    + apply fmap_Some in Hb as (b0 & Hb0 & ->). rewrite (Ho _ Hb0).
      replace (sum_by arrived (phases s')) with (S (sum_by arrived (phases s))) by lia. done.
    + replace (sum_by arrived (phases s')) with (sum_by arrived (phases s)) by lia. by apply Ho.
  - intros j q Hn0 Hj. destruct Honce as [(_ & _ & Hb')|[(-> & _ & Hb')|(Hb' & _ & Hearly)]].
    + congruence.
    + rewrite Hb' in Hn0. apply fmap_None in Hn0. by apply (Hno i) in Hi.
    + rewrite Hb' in Hn0. destruct (Hlook _ _ Hj) as [[-> ->]|[_ Hj']]; [|by eapply Hno].
      apply Hearly. by eapply Hno.
  - intros j q Hj Hq. assert (Hold : sum_by arrived (phases s) = n).
    { destruct (Hlook _ _ Hj) as [[-> ->]|[_ Hj']]; [|by eapply Hr].
      destruct (Hrel Hq) as [Hp0|(b & Hb & Hop)]; [by eapply Hr|].
      pose proof (sum_by_bound arrived 1 (phases s) ltac:(intros []; simpl; lia)).
      rewrite (Ho _ Hb), law_barrier in Hop; [by apply bool_decide_eq_true in Hop|done|lia]. }
    destruct Honce as [(-> & -> & _)|[(-> & -> & _)|(_ & Ha & _)]]; simpl in Hsum; [lia| |lia].
    pose proof (sum_by_bound arrived 1 (phases s') ltac:(intros []; simpl; lia)) as Hb.
    rewrite Hp, length_insert, Hl in Hb. rewrite Hp in Hsum. lia.
  - intros j q Hnd Hb Hj. destruct (Hlook _ _ Hj) as [[-> ->]|[Hji Hj']].
    + apply Hon; [done|]. by eapply He.
    + rewrite Hoff; [by eapply He|]. destruct (boot i) eqn:Hbi; [|done]. by destruct (Hji (boot_unique _ _ Hnd Hb Hbi)).
  - intros j q Hj. destruct (Hlook _ _ Hj) as [[-> ->]|[_ Hj']]; [done|by apply Hout].
  - intros Hall. rewrite Hoff by apply Hall. by apply Hne.
Qed.

Lemma kinv_sched schedule s s' : kinv s -> ksched self closure cores schedule s = Some s' -> kinv s'.
Proof.
  revert s. induction schedule as [|i schedule IH]; intros s Hk; simpl; [by intros [= <-]|].
  destruct (kstep _ _ _ i s) as [s1|] eqn:Hs; [|done]. apply IH. by eapply kinv_step.
Qed.

(** Every step uses up one of the steps left. *)
Lemma ksched_remaining schedule s s' :
  kinv s -> ksched self closure cores schedule s = Some s' ->
  (length schedule + sum_by remaining (phases s') <= sum_by remaining (phases s))%nat.
Proof.
  revert s. induction schedule as [|i schedule IH]; intros s Hk; simpl; [intros [= <-]; lia|].
  destruct (kstep _ _ _ i s) as [s1|] eqn:Hs; [|done]. intros Hr.
  specialize (IH s1 (kinv_step _ _ _ Hk Hs) Hr).
  destruct (kstep_moves i s s1 (kinv_outcome _ Hk i) Hs) as (p & p' & [Hi Hp Hlt]).
  pose proof (sum_by_insert remaining _ _ _ p' Hi) as Hsum. rewrite <- Hp in Hsum. lia.
Qed.

(** Once a core is past the barrier every core has arrived. *)
Lemma released_all_arrived s i p j q :
  kinv s -> phases s !! i = Some p -> released p = true -> phases s !! j = Some q -> arrived q = 1%nat.
Proof.
  intros Hk Hi Hp Hj. pose proof (kinv_released _ Hk _ _ Hi Hp) as Hsum.
  pose proof (sum_by_bound arrived 1 (phases s) ltac:(intros []; simpl; lia)) as Hb.
  pose proof (kinv_length _ Hk). eapply (all_arrived (phases s)); [lia|done].
Qed.

(** C13: no core gets past the barrier before the bootstrap core has initialised.
    In every state the cores can reach, if some core has left the rendezvous,
    then every core has called [wait], and the bootstrap initialisation of the
    core whose APIC id is the bootstrap id has run. *)
Theorem bootstrap_before_release schedule s i p :
  ksched self closure cores schedule (kinit cores) = Some s -> phases s !! i = Some p -> released p = true ->
  (∀ j q, phases s !! j = Some q -> arrived q = 1%nat) /\
  (∀ j, NoDup (apic_ids cores) -> boot j = true -> BootstrapInit j ∈ events s).
Proof.
  intros Hs Hi Hp. pose proof (kinv_sched _ _ _ kinv_init Hs) as Hk. split.
  - intros j q Hj. exact (released_all_arrived _ _ _ _ _ Hk Hi Hp Hj).
  - intros j Hnd Hb. destruct (boot_phase _ _ Hk Hb) as [q Hj]. rewrite (kinv_events _ Hk _ _ Hnd Hb Hj).
    pose proof (released_all_arrived _ _ _ _ _ Hk Hi Hp Hj) as Ha.
    destruct q; try done; simpl; apply list_elem_of_further, list_elem_of_here.
Qed.

(** C23: what happens during start-up, and how often.  With distinct APIC ids the
    port is initialised, the bootstrap initialisation runs and (unless the kernel
    is quiet) the banner is printed at most once each, in this order, all by the
    bootstrap core; when every core has returned each has happened exactly once.
    If no core has the bootstrap id nothing happens at all. *)
Theorem start_up_events schedule s :
  NoDup (apic_ids cores) -> ksched self closure cores schedule (kinit cores) = Some s ->
  (∀ j, boot j = true ->
     (∃ rest, events s ++ rest = [PortInit j; BootstrapInit j] ++ (if quiet self then [] else [Banner j])) /\
     (phases s !! j = Some Returned ->
      events s = [PortInit j; BootstrapInit j] ++ (if quiet self then [] else [Banner j]))) /\
  ((∀ j, boot j = false) -> events s = []).
Proof.
  intros Hnd Hs. pose proof (kinv_sched _ _ _ kinv_init Hs) as Hk. split; [|apply (kinv_no_events _ Hk)].
  intros j Hb. destruct (boot_phase _ _ Hk Hb) as [q Hj].
  rewrite (kinv_events _ Hk _ _ Hnd Hb Hj), Hj. split.
  - destruct q as [| | | | | | |[]]; simpl; try by eexists. exists []. by rewrite app_nil_r.
  - by intros [= ->].
Qed.

(** Cores that cannot move wait, have returned or have panicked. *)
Lemma stuck_phase s :
  kinv s -> (∀ i, kstep self closure cores i s = None) ->
  ∀ i p, phases s !! i = Some p ->
    p = Waiting \/ p = Returned \/ ∃ in_closure e, p = Panicked in_closure e.
Proof.
  intros Hk Hstuck i p Hi. specialize (Hstuck i). unfold kstep in Hstuck. rewrite Hi in Hstuck.
  assert (is_Some (cores !! i)) as [c Hc].
  { apply lookup_lt_is_Some. rewrite <- (kinv_length _ Hk). by eapply lookup_lt_Some. }
  rewrite Hc in Hstuck. destruct p; try done; eauto.
  - by destruct (num_cores _) as [|[]|].
  - destruct (feature_info c); [by case_match|done].
  - by destruct closure.
Qed.

(** C14: how start-up ends.  When as many cores run the kernel as the barrier
    counts, no schedule makes more than six steps per core.  In a state in which
    no core can move, every core has returned if no core panics: the rendezvous
    neither deadlocks nor spins for ever.  But if one core panics, because CPUID
    does not answer, the number of cores overflows or the closure panics, then
    every core that panics is in the panic handler, and all others wait for
    ever. *)
Theorem start_up_completes schedule s :
  length cores = n -> ksched self closure cores schedule (kinit cores) = Some s ->
  (length schedule <= 6 * n)%nat /\
  ((∀ i, kstep self closure cores i s = None) ->
   ((∀ i, panics i = None) -> ∀ i p, phases s !! i = Some p -> p = Returned) /\
   ((∃ i e, panics i = Some e) -> ∀ i p, phases s !! i = Some p ->
      match panics i with Some e => ∃ in_closure, p = Panicked in_closure e | None => p = Waiting end)).
Proof.
  intros Hlen Hs. pose proof (kinv_sched _ _ _ kinv_init Hs) as Hk. split.
  { pose proof (ksched_remaining _ _ _ kinv_init Hs) as Hr.
    pose proof (sum_by_bound remaining 6 (phases (kinit (Bar := Bar) cores)) ltac:(intros []; simpl; lia)) as Hb.
    cbn [kinit phases] in Hr, Hb. rewrite length_replicate in Hb. lia. }
  intros Hstuck. pose proof (stuck_phase s Hk Hstuck) as Hall. split.
  - intros Hnone i p Hi. destruct (Hall _ _ Hi) as [->|[->|(c & e & ->)]]; [exfalso|done|].
    2:{ pose proof (kinv_outcome _ Hk _ _ Hi) as Ho. simpl in Ho. by rewrite Hnone in Ho. }
    assert (is_Some (cores !! i)) as [c Hc].
    { apply lookup_lt_is_Some. rewrite <- (kinv_length _ Hk). by eapply lookup_lt_Some. }
    specialize (Hstuck i). unfold kstep in Hstuck. rewrite Hc, Hi in Hstuck.
    destruct (once s) as [b|] eqn:Hob; [|by apply (kinv_none _ Hk _ _ Hob) in Hi].
    assert (Hsum : sum_by arrived (phases s) = n).
    { rewrite <- Hlen, <- (kinv_length _ Hk). apply sum_by_ones. intros j q Hj.
      destruct (Hall _ _ Hj) as [->|[->|(? & e & ->)]]; [done..|].
      pose proof (kinv_outcome _ Hk _ _ Hj) as Ho. simpl in Ho. by rewrite Hnone in Ho. }
    rewrite (kinv_once _ Hk _ Hob), Hsum, law_barrier, bool_decide_eq_true_2 in Hstuck by done. done.
  - intros (i0 & e0 & He0) i p Hi. pose proof (kinv_outcome _ Hk _ _ Hi) as Ho.
    destruct (Hall _ _ Hi) as [->|[->|(c & e & ->)]]; simpl in Ho; rewrite Ho; [done| |by exists c].
    exfalso. assert (is_Some (phases s !! i0)) as [q0 Hq0].
    { apply lookup_lt_is_Some. rewrite (kinv_length _ Hk). unfold core_panic in He0.
      destruct (cores !! i0) eqn:Hc; [by eapply lookup_lt_Some|done]. }
    pose proof (released_all_arrived _ _ _ _ _ Hk Hi eq_refl Hq0) as Ha.
    pose proof (kinv_outcome _ Hk _ _ Hq0) as Ho0. by destruct q0; simpl in Ha, Ho0; congruence.
Qed.

(** C35: with fewer running cores than the barrier counts, no core ever gets past
    the rendezvous, whatever the schedule: the number of cores reported by CPUID
    must be the number the loader starts. *)
Theorem too_few_cores_block schedule s i p :
  (length cores < n)%nat -> ksched self closure cores schedule (kinit cores) = Some s ->
  phases s !! i = Some p -> released p = false.
Proof.
  intros Hlt Hs Hi. pose proof (kinv_sched _ _ _ kinv_init Hs) as Hk.
  destruct (released p) eqn:Hp; [exfalso|done].
  pose proof (kinv_released _ Hk _ _ Hi Hp) as Hsum.
  pose proof (sum_by_bound arrived 1 (phases s) ltac:(intros []; simpl; lia)) as Hb.
  pose proof (kinv_length _ Hk). lia.
Qed.

(** C40: the kernel's own test of the start-up passes.  With distinct APIC ids, on
    every core that has returned from [run] under any schedule, the assertions of
    [bootstrap_init_only] hold; its closure does not panic. *)
Theorem bootstrap_init_only_passes {E} schedule s i cpuid :
  self = quiet_kernel -> closure = None -> NoDup (apic_ids cores) ->
  ksched self closure cores schedule (kinit cores) = Some s ->
  cores !! i = Some cpuid -> phases s !! i = Some Returned ->
  @bootstrap_init_only E Bar cpuid i s = Ok tt.
Proof.
  intros Hself Hcl Hnd Hs Hid Hi. pose proof (kinv_sched _ _ _ kinv_init Hs) as Hk.
  assert (Hb : is_bootstrap_core (E := E) quiet_kernel cpuid = Ok (boot i)).
  { pose proof (kinv_outcome _ Hk _ _ Hi) as Ho. simpl in Ho. unfold core_panic in Ho. rewrite Hid in Ho.
    cbn [mbind option_bind] in Ho. unfold is_bootstrap_core, on_bootstrap_core. rewrite Hid, <- Hself. simpl.
    destruct (feature_info cpuid); [done|]. by destruct (num_cores _). }
  unfold bootstrap_init_only, initialized. rewrite Hb, res_bind_ok. destruct (boot i) eqn:Hbi.
  - rewrite (kinv_events _ Hk _ _ Hnd Hbi Hi). simpl. by rewrite bool_decide_eq_true_2.
  - destruct boot_dec as [(j & Hj)|Hno]; [|by rewrite (kinv_no_events _ Hk Hno)].
    destruct (boot_phase _ _ Hk Hj) as [q Hq]. rewrite (kinv_events _ Hk _ _ Hnd Hj Hq).
    assert (bool_decide (j = i) = false) as Hji by (apply bool_decide_eq_false_2; congruence).
    destruct q as [| | | | | | |[]]; simpl; rewrite ?Hji; try done. by destruct (quiet self); simpl; rewrite ?Hji.
Qed.
End Properties.

(** ** Concrete instances: a barrier that counts *)
#[local] Instance counting_barrier : SpinBarrier (Z * Z) := {
  barrier_new n := (n, 0);
  barrier_arrive b := (b.1, b.2 + 1);
  barrier_open b := b.2 =? b.1 }.

#[local] Instance counting_barrier_laws : SpinBarrierLaws (Z * Z).
Proof.
  split. intros n k _ _.
  assert (Hk : Nat.iter k barrier_arrive (barrier_new (Z.of_nat n)) = (Z.of_nat n, Z.of_nat k)).
  { induction k as [|k IH]; [done|]. rewrite Nat.iter_succ, IH. unfold barrier_arrive, counting_barrier.
    cbn [fst snd]. f_equal. lia. }
  rewrite Hk. simpl. destruct (Z.eqb_spec (Z.of_nat k) (Z.of_nat n)).
  - rewrite bool_decide_eq_true_2; [done|lia].
  - rewrite bool_decide_eq_false_2; [done|lia].
Qed.

(** Two cores, of which the second (APIC id 0) is the bootstrap core; it is slow. *)
#[local] Existing Instance debug.
Definition sample_core (local_apic : Z) : Cpuid :=
  mkCpuid (Some [mkLevel TopologySMT 1; mkLevel TopologyCore 2]) (Some local_apic).
Definition sample_cores : list Cpuid := [sample_core 1; sample_core 0].
Definition sample_schedule : list nat := [0; 0; 0; 1; 1; 1; 1; 0; 0; 1; 1]%nat.
Definition sample_end : ksys (Z * Z) :=
  mkK (Some (2, 2)) [Returned; Returned] [PortInit 1; BootstrapInit 1; Banner 1].

Lemma sample_run :
  ksched (kernel_new 0) None sample_cores sample_schedule (kinit sample_cores) = Some sample_end.
Proof. vm_compute. reflexivity. Qed.

Lemma sample_ids : NoDup (apic_ids sample_cores).
Proof. apply NoDup_cons; split; [not_in|apply NoDup_singleton]. Qed.

Lemma sample_agree cpuid m :
  cpuid ∈ sample_cores -> @num_cores _ Empty_set (topology_info cpuid) = Ok m -> m = Z.of_nat 2.
Proof. intros [<-|[<-|[]]]%list_elem_of_In [= <-]; reflexivity. Qed.

Lemma bootstrap_before_release_witness :
  (∀ j q, phases sample_end !! j = Some q -> arrived q = 1%nat) /\
  (∀ j, NoDup (apic_ids sample_cores) -> on_bootstrap_core (kernel_new 0) sample_cores j = true ->
     BootstrapInit j ∈ events sample_end).
Proof.
  apply (bootstrap_before_release (kernel_new 0) None sample_cores 2 ltac:(lia) ltac:(simpl; lia) sample_agree
    sample_schedule sample_end 0 Returned); [apply sample_run|reflexivity|reflexivity].
Defined.

Lemma start_up_events_witness :
  (∀ j, on_bootstrap_core (kernel_new 0) sample_cores j = true ->
     (∃ rest, events sample_end ++ rest = [PortInit j; BootstrapInit j] ++ [Banner j]) /\
     (phases sample_end !! j = Some Returned ->
      events sample_end = [PortInit j; BootstrapInit j] ++ [Banner j])) /\
  ((∀ j, on_bootstrap_core (kernel_new 0) sample_cores j = false) -> events sample_end = []).
Proof.
  apply (start_up_events (kernel_new 0) None sample_cores 2 ltac:(lia) ltac:(simpl; lia) sample_agree
    sample_schedule sample_end sample_ids sample_run).
Defined.

(** Both endings: everyone returns; the bootstrap core's closure panics and the
    other core waits. *)
Definition panic_schedule : list nat := [0; 1; 1; 1; 0; 0]%nat.
Definition panic_end : ksys (Z * Z) := mkK (Some (2, 1)) [Waiting; Panicked true OutOfRange] [PortInit 1].

Lemma panic_run :
  ksched (kernel_new 0) (Some OutOfRange) sample_cores panic_schedule (kinit sample_cores) = Some panic_end.
Proof. vm_compute. reflexivity. Qed.

Lemma start_up_completes_witness :
  (∀ i p, phases sample_end !! i = Some p -> p = Returned) /\
  phases panic_end !! 0%nat = Some Waiting /\
  (∀ i p, phases panic_end !! i = Some p ->
     match core_panic (kernel_new 0) (Some OutOfRange) sample_cores i with
     | Some e => ∃ in_closure, p = Panicked in_closure e | None => p = Waiting end).
Proof.
  split; [|split; [reflexivity|]].
  - apply (start_up_completes (kernel_new 0) None sample_cores 2 ltac:(lia) ltac:(simpl; lia) sample_agree
      sample_schedule sample_end eq_refl sample_run); intros [|[|i]]; reflexivity.
  - apply (start_up_completes (kernel_new 0) (Some OutOfRange) sample_cores 2 ltac:(lia) ltac:(simpl; lia) sample_agree
      panic_schedule panic_end eq_refl panic_run); [intros [|[|i]]; reflexivity|].
    exists 1%nat, OutOfRange. reflexivity.
Defined.

(** One core runs and the barrier counts two. *)
Lemma too_few_cores_block_witness :
  let s := mkK (Some (2, 1)) [Waiting] [PortInit 0; BootstrapInit 0] : ksys (Z * Z) in
  ksched (kernel_new 0) None [sample_core 0] [0; 0; 0; 0]%nat (kinit [sample_core 0]) = Some s /\
  released Waiting = false.
Proof.
  intros s.
  assert (Hs : ksched (kernel_new 0) None [sample_core 0] [0; 0; 0; 0]%nat (kinit [sample_core 0]) = Some s)
    by (vm_compute; reflexivity).
  split; [exact Hs|].
  apply (too_few_cores_block (kernel_new 0) None [sample_core 0] 2 ltac:(lia) ltac:(simpl; lia)
    ltac:(intros c m [<-|[]]%list_elem_of_In [= <-]; reflexivity) [0; 0; 0; 0]%nat s 0 Waiting).
  - simpl. lia.
  - exact Hs.
  - reflexivity.
Defined.

Definition quiet_end : ksys (Z * Z) := mkK (Some (2, 2)) [Returned; Returned] [PortInit 1; BootstrapInit 1].

Lemma bootstrap_init_only_passes_witness : @bootstrap_init_only unit (Z * Z) (sample_core 0) 1 quiet_end = Ok tt.
Proof.
  apply (bootstrap_init_only_passes quiet_kernel None sample_cores 2 ltac:(lia) ltac:(simpl; lia) sample_agree
    sample_schedule quiet_end 1 (sample_core 0));
    [reflexivity|reflexivity|exact sample_ids|vm_compute; reflexivity|reflexivity|reflexivity].
Defined.
