(* ===== verification/Console.v ===== *)
(** * What the kernel prints ([paraos/src/main.rs], [kernel.rs])

    The bootstrap closure of [_start] and the banner of [Kernel::run] as texts on
    the serial port: [Boot], [Serial] and [Kernel] put together.  [core::fmt::write]
    passes the literal pieces and the formatted arguments to [write_str] one after
    the other. *)
From S2P Require Import Prelude Text Boot Serial Kernel.

(** ** The texts *)

(** [format_args!("Free memory: {}MB\n", ...)] and
    [format_args!("ParaOS [{} cores]\n", num_cores)], piece by piece. *)
Definition free_memory_message (mb : Z) : list (list Z) := [chars "Free memory: "; decimal mb; chars "MB" ++ newline].
Definition banner (num_cores : Z) : list (list Z) := [chars "ParaOS ["; decimal num_cores; chars " cores]" ++ newline].

Section Closure.
Context `{Profile} {E HS : Type} `{!Heap HS}.

(** The closure [_start] passes to [run]: it fills the heap, initialises the port
    and prints the size of the heap. *)
Definition bootstrap_init (bootboot : Bootboot) (heap : HS) : Res E (HS * list action) :=
  heap ← init_heap bootboot heap;
  a ← serial_init COM1;
  w ← write_pieces COM1 (free_memory_message (free_memory_mb heap));
  Ok (heap, a ++ w).
End Closure.

(** How the closure [_start] passes to [run] panics, if it does. *)
Definition closure_panic `{Profile} {HS : Type} `{!Heap HS} (bootboot : Bootboot) (heap : HS) : option panic :=
  match bootstrap_init (E := Empty_set) bootboot heap with
  | Ok _ => None
  | Panic p => Some p
  | Err e => match e with end
  end.

Section Console.
Context `{Profile} {E HS : Type} `{!Heap HS}.

(** [Kernel::new(BOOTBOOT.bspid as u32, &START)]. *)
Definition start_kernel (bootboot : Bootboot) : Kernel := kernel_new (bspid bootboot).

(** What the events of [Kernel::run] do to the port. *)
Definition event_actions (bootboot : Bootboot) (heap : HS) (num_cores : Z) (e : event) : Res E (list action) :=
  match e with
  | PortInit _ => serial_init COM1
  | BootstrapInit _ => '(_, a) ← bootstrap_init bootboot heap; Ok a
  | Banner _ => write_pieces COM1 (banner num_cores)
  end.
Definition console (bootboot : Bootboot) (heap : HS) (num_cores : Z) (es : list event) : Res E (list action) :=
  for_each (fun e acts => a ← event_actions bootboot heap num_cores e; Ok (acts ++ a)) es [].

Lemma write_pieces_outs pieces a :
  @write_pieces _ E COM1 pieces = Ok a -> outs a = map (fun c => (COM1, char_as_u8 c)) (concat pieces).
Proof.
  revert a. induction pieces as [|t pieces IH]; intros a Ha; cbn [write_pieces] in Ha.
  - by apply Ok_inj in Ha as <-.
  - res_step Ha as w E1. res_step Ha as b E2. apply Ok_inj in Ha as <-.
    rewrite write_str_ok in E1 by (unfold COM1, u16_max; lia). apply Ok_inj in E1 as <-.
    cbn [concat]. rewrite map_app, <- (IH b eq_refl), <- outs_write. apply omap_app.
Qed.

Lemma write_pieces_total pieces : ∃ a, @write_pieces _ E COM1 pieces = Ok a.
Proof.
  induction pieces as [|t pieces [b IH]]; cbn [write_pieces]; [by eexists|].
  rewrite write_str_ok by (unfold COM1, u16_max; lia). rewrite res_bind_ok, IH. by eexists.
Qed.

(** The bytes of [init]: interrupts off, 38400 baud, 8N1, FIFOs cleared, modem
    control twice. *)
Definition init_outs : list (Z * Z) :=
  [(0x3f9, 0x00); (0x3fb, 0x80); (0x3f8, 0x03); (0x3f9, 0x00); (0x3fb, 0x03); (0x3fa, 0xC7);
   (0x3fc, 0x0B); (0x3fc, 0x0F)].

Lemma serial_init_outs : ∃ a, @serial_init _ E COM1 = Ok a /\ outs a = init_outs.
Proof.
  unfold serial_init. rewrite !u16_arith_ok by (unfold COM1, u16_max; lia). rewrite !res_bind_ok.
  by eexists.
Qed.

(** The text of a start-up. *)
Definition start_up_text (mb num_cores : Z) : list Z :=
  chars "Free memory: " ++ decimal mb ++ chars "MB" ++ newline
  ++ chars "ParaOS [" ++ decimal num_cores ++ chars " cores]" ++ newline.
Definition on_port (text : list Z) : list (Z * Z) := map (fun c => (COM1, char_as_u8 c)) text.

Lemma console_spec (bootboot : Bootboot) (heap heap' : HS) (num_cores : Z) j k :
  @init_heap _ E HS _ bootboot heap = Ok heap' ->
  ∃ acts, console bootboot heap num_cores (take k [PortInit j; BootstrapInit j; Banner j]) = Ok acts /\
    outs acts = concat (take k [init_outs; init_outs ++ on_port (concat (free_memory_message (free_memory_mb heap')));
                                on_port (concat (banner num_cores))]).
Proof.
  intros Hheap. destruct serial_init_outs as (a & Ha & Hao).
  destruct (write_pieces_total (free_memory_message (free_memory_mb heap'))) as (w & Hw).
  destruct (write_pieces_total (banner num_cores)) as (b & Hb).
  apply write_pieces_outs in Hw as Hwo. apply write_pieces_outs in Hb as Hbo.
  assert (Hboot : bootstrap_init (E := E) bootboot heap = Ok (heap', a ++ w)).
  { unfold bootstrap_init. by rewrite Hheap, res_bind_ok, Ha, res_bind_ok, Hw. }
  assert (H1 : event_actions bootboot heap num_cores (PortInit j) = Ok a) by exact Ha.
  assert (H2 : event_actions bootboot heap num_cores (BootstrapInit j) = Ok (a ++ w)).
  { unfold event_actions. by rewrite Hboot. }
  assert (H3 : event_actions bootboot heap num_cores (Banner j) = Ok b) by exact Hb.
  unfold on_port, console. rewrite <- Hwo, <- Hbo, <- Hao.
  destruct k as [|[|[|k]]]; repeat (cbn [take for_each]; rewrite ?take_nil, ?H1, ?H2, ?H3, ?res_bind_ok);
    (eexists; split; [reflexivity|]); unfold outs; cbn [concat app]; rewrite ?omap_app, ?app_nil_r; try done.
  by rewrite <- app_assoc.
Qed.

(** C17: what the start-up prints.  When the bootstrap closure can fill the heap,
    what [run] and the closure write to the port up to any moment of any schedule
    of the cores is a prefix of two initialisations and the text, the free memory
    in megabytes and the number of cores in decimal, and it is all of it once the
    bootstrap core has returned.  Without a core of the loader's bootstrap id
    nothing is printed.  (A core that panics, because CPUID does not answer, is in
    the panic handler and writes the message of [Serial.panic_print].) *)
Theorem start_up_prints {Bar} `{SpinBarrierLaws Bar} (bootboot : Bootboot) (heap heap' : HS) cores n schedule (s : ksys Bar) :
  (0 < n)%nat -> (length cores <= n)%nat ->
  (∀ cpuid m, cpuid ∈ cores -> @num_cores _ Empty_set (topology_info cpuid) = Ok m -> m = Z.of_nat n) ->
  NoDup (apic_ids cores) ->
  ksched (start_kernel bootboot) (closure_panic bootboot heap) cores schedule (kinit cores) = Some s ->
  @init_heap _ E HS _ bootboot heap = Ok heap' ->
  ∃ acts, console bootboot heap (Z.of_nat n) (events s) = Ok acts /\
    (∀ j, on_bootstrap_core (start_kernel bootboot) cores j = true ->
       let all := init_outs ++ init_outs ++ on_port (start_up_text (free_memory_mb heap') (Z.of_nat n)) in
       (∃ rest, outs acts ++ rest = all) /\ (phases s !! j = Some Returned -> outs acts = all)) /\
    ((∀ j, on_bootstrap_core (start_kernel bootboot) cores j = false) -> acts = []).
Proof.
  intros Hn Hle Hag Hnd Hs Hheap.
  pose proof (kinv_sched _ _ _ _ Hn Hle Hag _ _ _ (kinv_init _ _ _ _) Hs) as Hk.
  destruct (boot_dec (start_kernel bootboot) cores) as [(j & Hb)|Hno].
  - destruct (boot_phase _ _ _ _ _ _ Hk Hb) as [q Hq].
    pose proof (kinv_events _ _ _ _ _ Hk j q Hnd Hb Hq) as He.
    set (k := match q with
      | Entered | Joined | Panicked false _ => 0%nat | Initialising | Panicked true _ => 1%nat
      | Returned => 3%nat | _ => 2%nat end).
    assert (events s = take k [PortInit j; BootstrapInit j; Banner j]) as -> by (rewrite He; by destruct q as [| | | | | | |[]]).
    destruct (console_spec bootboot heap heap' (Z.of_nat n) j k Hheap) as (acts & Hc & Ho).
    exists acts. split; [done|]. split.
    + intros i Hi all. rewrite (boot_unique _ _ _ _ Hnd Hi Hb), Ho. clear i Hi.
      match goal with |- context [take k ?l] => set (parts := l) end.
      assert (Hall : concat parts = all).
      { unfold parts, all, on_port. cbn [concat]. rewrite app_nil_r. unfold start_up_text. rewrite !map_app.
        cbn [concat free_memory_message banner]. by rewrite !map_app, <- !app_assoc. }
      rewrite <- Hall. split.
      * exists (concat (drop k parts)). by rewrite <- concat_app, take_drop.
      * rewrite Hq. intros [= Hret]. unfold k. by rewrite Hret.
    + intros Hno. by rewrite Hno in Hb.
  - exists []. rewrite (kinv_no_events _ _ _ _ _ Hk Hno). split; [done|]. split; [|done]. intros j Hj. by rewrite Hno in Hj.
Qed.
End Console.

(** ** A concrete instance: two cores, 64 megabytes *)
#[local] Existing Instances region_list counting_barrier counting_barrier_laws.

Example sample_text :
  start_up_text 64 2 = chars "Free memory: 64MB" ++ newline ++ chars "ParaOS [2 cores]" ++ newline.
Proof. vm_compute. reflexivity. Qed.

Lemma start_up_prints_witness :
  let text := start_up_text (free_memory_mb [(1048576, 68157440)]) (Z.of_nat 2) in
  ∃ acts, @console debug unit _ _ sample_bootboot [] (Z.of_nat 2) (events sample_end) = Ok acts /\
    (∀ j, on_bootstrap_core (start_kernel sample_bootboot) sample_cores j = true ->
       let all := init_outs ++ init_outs ++ on_port text in
       (∃ rest, outs acts ++ rest = all) /\ (phases sample_end !! j = Some Returned -> outs acts = all)) /\
    ((∀ j, on_bootstrap_core (start_kernel sample_bootboot) sample_cores j = false) -> acts = []).
Proof.
  exact (start_up_prints (H := debug) (E := unit) sample_bootboot [] [(1048576, 68157440)] sample_cores 2
    sample_schedule sample_end ltac:(lia) ltac:(simpl; lia) sample_agree sample_ids sample_run
    ltac:(vm_compute; reflexivity)).
Defined.
