(* ===== verification/TestRunner.v ===== *)
(** * The kernel's test runner ([paraos/src/test.rs], [pick_leader_core])

    In a test build every core runs all the tests; a leader prints their progress
    and, after a second rendezvous, a leader ends the emulator by a write to the
    port [0x501], value 0; the panic handler writes 1.  A core's program is the
    list of what it does to the serial port, the exit port and the barrier that
    [pick_leader_core] shares; a test is what it does to the ports and whether it
    panics.  spin's barrier is the interface [ReusableBarrier]; which core a
    rendezvous makes the leader is left open. *)
From S2P Require Import Prelude Text Serial Console.

(** ** spin's barrier, used again and again *)
Class ReusableBarrier (Bar : Type) := {
  rb_new : Z -> Bar;
  rb_arrive : Bar -> Bar;          (* a thread calls wait *)
  rb_complete : Bar -> nat -> bool (* the threads of this round may leave *) }.
Class ReusableBarrierLaws (Bar : Type) `{ReusableBarrier Bar} : Prop := {
  law_rb n k round : (0 < n)%nat ->
    rb_complete (Nat.iter k rb_arrive (rb_new (Z.of_nat n))) round = bool_decide ((round + 1) * n <= k)%nat }.

(** ** Programs *)
Inductive step := Do (a : action) | Arrive | Await (round : nat).

(** [once.call_once(...).wait()], the [round]-th time. *)
Definition pick_leader_core (round : nat) : list step := [Arrive; Await round].

(** What a test does to the ports, and the message when it panics. *)
Definition test : Type := list action * option (list (list Z)).
Definition passes (t : test) : Prop := t.2 = None.

Definition exit_port : Z := 0x501.

Definition running_message (n : nat) : list (list Z) :=
  [chars "Running "; decimal (Z.of_nat n); chars " tests" ++ newline].

Section Programs.
Context `{Profile} {E : Type}.

(** One iteration over the tests; a panic ends the run. *)
Definition run_test (leader : bool) (t : test) (st : test) : Res E test :=
  match st.2 with
  | Some info => Ok st
  | None =>
      match t.2 with
      | Some info => Ok (st.1 ++ t.1, Some info)
      | None => dot ← (if leader then write_char COM1 46 else Ok []); Ok (st.1 ++ t.1 ++ dot, None)
      end
  end.

(** [test_runner] after its rendezvous. *)
Definition test_runner (leader : bool) (tests : list test) : Res E test :=
  init ← serial_init COM1;
  running ← (if leader then write_pieces COM1 (running_message (length tests)) else Ok []);
  '(acts, panicked) ← for_each (run_test leader) tests (init ++ running, None);
  match panicked with
  | Some info => Ok (acts, Some info)
  | None => nl ← (if leader then write_char COM1 10 else Ok []); Ok (acts ++ nl, None)
  end.

(** The panic handler; then the core loops. *)
Definition panic_handler (info : list (list Z)) : Res E (list action) :=
  a ← panic_print info; Ok (a ++ [Outb exit_port 1]).

(** [_start] on one core: [test_main] runs the tests, then a leader is picked
    again and leaves the emulator; [unreachable!()] panics with [info]. *)
Definition test_start (leader1 leader2 : bool) (tests : list test) (info : list (list Z)) : Res E (list step) :=
  '(acts, panicked) ← test_runner leader1 tests;
  match panicked with
  | Some info => h ← panic_handler info; Ok (pick_leader_core 0 ++ map Do acts ++ map Do h)
  | None =>
      if leader2 then
        h ← panic_handler info;
        Ok (pick_leader_core 0 ++ map Do acts ++ pick_leader_core 1 ++ map Do ([Outb exit_port 0] ++ h))
      else Ok (pick_leader_core 0 ++ map Do acts ++ pick_leader_core 1)
  end.
End Programs.

(** ** The machine *)
Record tsys (D Bar : Type) := mkT {
  t_mutex : bool; t_dev : D; t_bar : Bar; t_threads : list (list step); t_trace : list (nat * Z * Z) }.
Arguments mkT {D Bar}. Arguments t_mutex {D Bar}. Arguments t_dev {D Bar}. Arguments t_bar {D Bar}.
Arguments t_threads {D Bar}. Arguments t_trace {D Bar}.

Section Machine.
Context {D Bar : Type} `{Device D} `{ReusableBarrier Bar}.

(** One step of core [i]; [None] when it cannot move. *)
Definition tstep (i : nat) (s : tsys D Bar) : option (tsys D Bar) :=
  match t_threads s !! i with
  | None | Some [] => None
  | Some (x :: rest) =>
      let ts := <[i := rest]> (t_threads s) in
      match x with
      | Do Lock => if t_mutex s then None else Some (mkT true (t_dev s) (t_bar s) ts (t_trace s))
      | Do Unlock => Some (mkT false (t_dev s) (t_bar s) ts (t_trace s))
      | Do (Outb p v) => Some (mkT (t_mutex s) (outb (t_dev s) p v) (t_bar s) ts (t_trace s ++ [(i, p, v)]))
      | Do (AwaitTransmit p) =>
          let '(v, d) := inb (t_dev s) p in
          Some (mkT (t_mutex s) d (t_bar s) (if is_transmit_empty v then ts else t_threads s) (t_trace s))
      | Arrive => Some (mkT (t_mutex s) (t_dev s) (rb_arrive (t_bar s)) ts (t_trace s))
      | Await round => if rb_complete (t_bar s) round
          then Some (mkT (t_mutex s) (t_dev s) (t_bar s) ts (t_trace s)) else None
      end
  end.

Fixpoint tsched (schedule : list nat) (s : tsys D Bar) : option (tsys D Bar) :=
  match schedule with
  | [] => Some s
  | i :: schedule => s ← tstep i s; tsched schedule s
  end.

(** All cores are about to run their programs. *)
Definition tinit (d : D) (progs : list (list step)) : tsys D Bar :=
  mkT false d (rb_new (Z.of_nat (length progs))) progs [].
End Machine.

(** ** What the programs contain *)
Definition off_exit (a : action) : bool :=
  match a with Outb p _ => negb (p =? exit_port) | _ => true end.

Section Contents.
Context `{Profile} {E : Type}.

Lemma serial_init_off_exit a : @serial_init _ E COM1 = Ok a -> Forall (fun x => off_exit x = true) a.
Proof.
  unfold serial_init. rewrite !u16_arith_ok by (unfold COM1, u16_max; lia). rewrite !res_bind_ok.
  intros <-%Ok_inj. by repeat constructor.
Qed.

Lemma write_pieces_off_exit pieces a :
  @write_pieces _ E COM1 pieces = Ok a -> Forall (fun x => off_exit x = true) a.
Proof.
  revert a. induction pieces as [|t pieces IH]; intros a Ha; cbn [write_pieces] in Ha.
  - apply Ok_inj in Ha as <-. constructor.
  - res_step Ha as w E1. res_step Ha as b E2. apply Ok_inj in Ha as <-.
    rewrite write_str_ok in E1 by (unfold COM1, u16_max; lia). apply Ok_inj in E1 as <-.
    rewrite !Forall_app. split_and!; [by repeat constructor| |by apply IH].
    apply Forall_forall. by intros x (c & -> & _)%list_elem_of_fmap.
Qed.

Lemma write_char_off_exit c a : @write_char _ E COM1 c = Ok a -> Forall (fun x => off_exit x = true) a.
Proof.
  unfold write_char. rewrite !u16_arith_ok by (unfold COM1, u16_max; lia). rewrite !res_bind_ok.
  intros <-%Ok_inj. by repeat constructor.
Qed.

Lemma run_tests_spec leader tests acts panicked acts' panicked' :
  Forall (fun t : test => Forall (fun x => off_exit x = true) t.1) tests ->
  for_each (@run_test _ E leader) tests (acts, panicked) = Ok (acts', panicked') ->
  Forall (fun x => off_exit x = true) acts ->
  Forall (fun x => off_exit x = true) acts' /\ (panicked' = None -> panicked = None /\ Forall passes tests).
Proof.
  intros Htests. revert acts panicked. induction Htests as [|t tests Ht _ IH]; intros acts panicked Hr Ha;
    cbn [for_each] in Hr.
  - apply Ok_inj in Hr as [= <- <-]. split; [done|]. by split.
  - res_step Hr as [a1 p1] E1. unfold run_test in E1. simpl in E1. destruct panicked as [info|].
    + apply Ok_inj in E1 as [= <- <-]. destruct (IH _ _ Hr Ha) as [Ha' Hp]. split; [done|]. by intros [? _]%Hp.
    + destruct t as [ta [info|]]; simpl in *.
      * apply Ok_inj in E1 as [= <- <-]. destruct (IH _ _ Hr) as [Ha' Hp]; [by apply Forall_app|].
        split; [done|]. by intros [? _]%Hp.
      * res_step E1 as dot E2. apply Ok_inj in E1 as [= <- <-].
        destruct (IH _ _ Hr) as [Ha' Hp].
        { rewrite !Forall_app. split_and!; [done..|].
          destruct leader; [by eapply write_char_off_exit|apply Ok_inj in E2 as <-; constructor]. }
        split; [done|]. intros [_ Hps]%Hp. split; [done|]. by constructor.
Qed.

Lemma test_runner_spec leader tests acts panicked :
  Forall (fun t : test => Forall (fun x => off_exit x = true) t.1) tests ->
  @test_runner _ E leader tests = Ok (acts, panicked) ->
  Forall (fun x => off_exit x = true) acts /\ (panicked = None -> Forall passes tests).
Proof.
  intros Htests. unfold test_runner. intros Hr. res_step Hr as init E1. res_step Hr as running E2.
  res_step Hr as [a1 p1] E3. apply serial_init_off_exit in E1.
  destruct (run_tests_spec _ _ _ _ _ _ Htests E3) as [Ha Hp].
  { apply Forall_app. split; [done|].
    destruct leader; [by eapply write_pieces_off_exit|apply Ok_inj in E2 as <-; constructor]. }
  destruct p1 as [info|].
  - by apply Ok_inj in Hr as [= <- <-].
  - res_step Hr as nl E4. apply Ok_inj in Hr as [= <- <-]. split; [|intros _; by apply Hp].
    apply Forall_app. split; [done|].
    destruct leader; [by eapply write_char_off_exit|apply Ok_inj in E4 as <-; constructor].
Qed.

Lemma panic_handler_spec info h :
  @panic_handler _ E info = Ok h -> Outb exit_port 0 ∉ h.
Proof.
  unfold panic_handler, panic_print. intros Hh. res_step Hh as a E1. apply Ok_inj in Hh as <-.
  res_step E1 as b E2. res_step E1 as c E3. apply Ok_inj in E1 as <-.
  apply serial_init_off_exit in E2. apply write_pieces_off_exit in E3. rewrite Forall_forall in E2, E3.
  rewrite !not_elem_of_app. split_and!; [by intros ?%E2|by intros ?%E3|not_in].
Qed.
End Contents.

(** ** Rounds *)

(** The rendezvous a core enters. *)
Definition arrivals (x : step) : nat := match x with Arrive => 1 | _ => 0 end.

Lemma arrivals_do acts : sum_by arrivals (map Do acts) = 0%nat.
Proof. induction acts; simpl; auto. Qed.

(** A prefix that contains what comes only later contains what is before it. *)
Lemma prefix_contains {X} (d r l1 l2 : list X) x y :
  d ++ r = l1 ++ l2 -> x ∈ d -> x ∉ l1 -> y ∈ l1 -> y ∈ d.
Proof.
  intros Heq Hx Hn Hy. destruct (app_eq_inv _ _ _ _ Heq) as [(k & -> & _)|(k & -> & _)].
  - apply elem_of_app. by left.
  - exfalso. apply Hn, elem_of_app. by left.
Qed.

Section Shape.
Context `{Profile} {E : Type}.

Lemma test_start_spec leader1 leader2 tests info prog :
  Forall (fun t : test => Forall (fun x => off_exit x = true) t.1) tests ->
  @test_start _ E leader1 leader2 tests info = Ok prog ->
  (sum_by arrivals prog <= 2)%nat /\ (~ Forall passes tests -> (sum_by arrivals prog <= 1)%nat) /\
  ∀ d r, d ++ r = prog -> Do (Outb exit_port 0) ∈ d -> Await 1 ∈ d.
Proof.
  intros Htests. unfold test_start. intros Hp. res_step Hp as [acts panicked] E1.
  destruct (test_runner_spec _ _ _ _ Htests E1) as [Ha Hpass].
  assert (Hacts : Do (Outb exit_port 0) ∉ map Do acts).
  { intros (x & [= <-] & Hin)%list_elem_of_fmap. rewrite Forall_forall in Ha. by apply Ha in Hin. }
  assert (Hhandler : ∀ h, @panic_handler _ E info = Ok h -> Do (Outb exit_port 0) ∉ map Do h).
  { intros h Hh (x & [= <-] & Hin)%list_elem_of_fmap. by apply panic_handler_spec in Hh. }
  set (l1 := pick_leader_core 0 ++ map Do acts) in *.
  assert (Hl1 : Do (Outb exit_port 0) ∉ l1 ++ [Arrive; Await 1]).
  { unfold l1. rewrite !not_elem_of_app. split_and!; [not_in|done|not_in]. }
  assert (Hc : sum_by arrivals l1 = 1%nat) by (unfold l1; rewrite sum_by_app, arrivals_do; done).
  destruct panicked as [info'|]; [|destruct leader2].
  - res_step Hp as h E2. apply Ok_inj in Hp as <-. rewrite app_assoc, sum_by_app, arrivals_do.
    change (pick_leader_core 0 ++ map Do acts) with l1. rewrite Hc. split_and!; [lia|lia|].
    intros d r Heq Hin. exfalso.
    assert (Hin' : Do (Outb exit_port 0) ∈ l1 ++ map Do h) by (rewrite <- Heq; apply elem_of_app; by left).
    apply elem_of_app in Hin' as [Hin'|(x & [= <-] & Hx)%list_elem_of_fmap]; [apply Hl1, elem_of_app; by left|].
    by apply panic_handler_spec in E2.
  - res_step Hp as h E2. apply Ok_inj in Hp as <-. rewrite app_assoc.
    change (pick_leader_core 0 ++ map Do acts) with l1. rewrite !sum_by_app, Hc, arrivals_do.
    split_and!; [simpl; lia|by intros []; apply Hpass|].
    intros d r Heq Hin. rewrite app_assoc in Heq. eapply prefix_contains; [exact Heq|exact Hin|exact Hl1|].
    apply elem_of_app. right. apply list_elem_of_further, list_elem_of_here.
  - apply Ok_inj in Hp as <-. rewrite app_assoc. change (pick_leader_core 0 ++ map Do acts) with l1.
    rewrite sum_by_app, Hc. split_and!; [simpl; lia|by intros []; apply Hpass|].
    intros d r Heq Hin. exfalso. apply Hl1. change [Arrive; Await 1] with (pick_leader_core 1).
    rewrite <- Heq. apply elem_of_app. by left.
Qed.
End Shape.

(** ** The invariant *)
Section Invariant.
Context {D Bar : Type} `{Device D} `{ReusableBarrierLaws Bar} (progs : list (list step)).
Abbreviation n := (length progs).

(** [k] cores have entered a rendezvous so far. *)
Record tinv (k : nat) (s : tsys D Bar) : Prop := {
  tinv_length : length (t_threads s) = n;
  tinv_bar : t_bar s = Nat.iter k rb_arrive (rb_new (Z.of_nat n));
  tinv_arrived : (k + sum_by (sum_by arrivals) (t_threads s) = sum_by (sum_by arrivals) progs)%nat;
  tinv_cores i port v : (i, port, v) ∈ t_trace s -> (i < n)%nat;
  tinv_done i p r : progs !! i = Some p -> t_threads s !! i = Some r ->
    ∃ d, d ++ r = p /\ (∀ round, Await round ∈ d -> ((round + 1) * n <= k)%nat) /\
      ∀ port v, (i, port, v) ∈ t_trace s -> Do (Outb port v) ∈ d }.

Lemma tinv_init d : tinv 0 (tinit d progs).
Proof.
  split; simpl; [done..|by intros ? ? ? ?%not_elem_of_nil|]. intros i p r Hp Hr. rewrite Hp in Hr. injection Hr as <-. exists [].
  split; [done|]. split; [by intros ? ?%not_elem_of_nil|by intros ? ? ?%not_elem_of_nil].
Qed.

(** Core [i] has performed [x], which may have added to the trace. *)
Lemma tinv_perform k k' s s' i x rest :
  tinv k s -> t_threads s !! i = Some (x :: rest) -> t_threads s' = <[i := rest]> (t_threads s) ->
  k' = (k + arrivals x)%nat -> t_bar s' = Nat.iter k' rb_arrive (rb_new (Z.of_nat n)) ->
  (∀ round, x = Await round -> ((round + 1) * n <= k)%nat) ->
  (∀ y, y ∈ t_trace s' -> y ∈ t_trace s \/ ∃ port v, y = (i, port, v) /\ x = Do (Outb port v)) ->
  tinv k' s'.
Proof.
  intros [Hl Hb Ha Hc Hd] Hi Ht -> Hb' Hround Htr.
  pose proof (sum_by_insert (sum_by arrivals) _ _ _ rest Hi) as Hsum. rewrite <- Ht in Hsum. simpl in Hsum.
  split; [by rewrite Ht, length_insert|done|lia| |].
  { intros j port v [Hin|(? & ? & [= -> _ _] & _)]%Htr; [by eapply Hc|]. rewrite <- Hl. by eapply lookup_lt_Some. }
  intros j p r Hp. rewrite Ht, list_lookup_insert_Some.
  intros [(<- & <- & _)|[Hne Hr]].
  - destruct (Hd i p (x :: rest) Hp Hi) as (d & Hdp & Haw & Hout). exists (d ++ [x]).
    rewrite <- app_assoc. split; [done|]. split.
    + intros round [Hin|Hx%list_elem_of_singleton]%elem_of_app; [apply Haw in Hin; lia|].
      specialize (Hround round (eq_sym Hx)). lia.
    + intros port v [Hin|(port' & v' & [= <- <-] & ->)]%Htr; apply elem_of_app; [left; by apply Hout|right].
      apply list_elem_of_here.
  - destruct (Hd j p r Hp Hr) as (d & Hdp & Haw & Hout). exists d. split; [done|]. split.
    + intros round Hin%Haw. lia.
    + intros port v [Hin|(port' & v' & [= -> _ _] & _)]%Htr; [by apply Hout|done].
Qed.

Lemma tinv_step k s i s' : tinv k s -> tstep i s = Some s' -> ∃ k', tinv k' s'.
Proof.
  intros Hinv. unfold tstep. destruct (t_threads s !! i) as [[|x rest]|] eqn:Hi; [done| |done].
  assert (Hpos : (0 < n)%nat).
  { rewrite <- (tinv_length _ _ Hinv). apply lookup_lt_Some in Hi. lia. }
  pose proof (tinv_bar _ _ Hinv) as Hbar. destruct x as [[| |port v|port]| |round]; cbn zeta.
  - destruct (t_mutex s); [done|]. intros [= <-]. exists k.
    eapply (tinv_perform k k s); try done; simpl; try lia; by left.
  - intros [= <-]. exists k. eapply (tinv_perform k k s); try done; simpl; try lia; by left.
  - intros [= <-]. exists k. eapply (tinv_perform k k s); try done; simpl; try lia.
    intros y [Hy|Hy%list_elem_of_singleton]%elem_of_app; [by left|right]. subst y. by exists port, v.
  - destruct (inb (t_dev s) port) as [v d]. intros [= <-]. exists k. destruct (is_transmit_empty v).
    + eapply (tinv_perform k k s); try done; simpl; try lia; by left.
    + destruct Hinv. by split.
  - intros [= <-]. exists (S k). eapply (tinv_perform k (S k) s); try done; simpl; try lia; [by rewrite Hbar|by left].
  - destruct (rb_complete (t_bar s) round) eqn:Hc; [|done]. intros [= <-]. exists k.
    rewrite Hbar, law_rb in Hc by done. apply bool_decide_eq_true in Hc.
    eapply (tinv_perform k k s); try done; simpl; try lia; [by intros ? [= <-]|by left].
Qed.

Lemma tinv_sched schedule k s s' : tinv k s -> tsched schedule s = Some s' -> ∃ k', tinv k' s'.
Proof.
  revert k s. induction schedule as [|i schedule IH]; intros k s Hinv; simpl; [intros [= <-]; by exists k|].
  destruct (tstep i s) as [s1|] eqn:Hs; [|done]. destruct (tinv_step _ _ _ _ Hinv Hs) as [k1 Hk1]. by apply (IH k1 s1).
Qed.
End Invariant.

(** ** Properties *)
Section Properties.
Context {D Bar : Type} `{Device D} `{ReusableBarrierLaws Bar} `{Profile} {E : Type}.

(** The programs of the cores, core [i] with the tests [suite !! i]. *)
Definition cores_run (leader1 leader2 : nat) (info : list (list Z)) (suite : list (list test))
    (progs : list (list step)) : Prop :=
  length progs = length suite /\
  ∀ i tests, suite !! i = Some tests -> ∃ prog, progs !! i = Some prog /\
    @test_start _ E (bool_decide (i = leader1)) (bool_decide (i = leader2)) tests info = Ok prog.

Lemma sum_by_le {X} (g : X -> nat) m l : (∀ x, x ∈ l -> (g x <= m)%nat) -> (sum_by g l <= m * length l)%nat.
Proof.
  induction l as [|x l IH]; intros Hg; simpl; [lia|]. pose proof (Hg x (list_elem_of_here _ _)).
  specialize (IH (fun y Hy => Hg y (list_elem_of_further _ _ _ Hy))). lia.
Qed.

(** C16: the test run reports success only when every test on every core has
    passed.  Whatever cores the two rendezvous make leaders and however the
    cores' steps interleave, if 0 has been written to the exit port, by whichever
    core, then no test of any core panicked, provided the tests themselves keep
    off the exit port. *)
Theorem success_means_all_passed leader1 leader2 info suite progs schedule (d : D) (s : tsys D Bar) i :
  cores_run leader1 leader2 info suite progs ->
  (∀ tests t, tests ∈ suite -> t ∈ tests -> Forall (fun x => off_exit x = true) t.1) ->
  tsched schedule (tinit d progs) = Some s -> (i, exit_port, 0) ∈ t_trace s ->
  ∀ tests, tests ∈ suite -> Forall passes tests.
Proof.
  intros [Hlen Hprogs] Hoff Hs Hin tests Htests.
  destruct (tinv_sched progs _ _ _ _ (tinv_init progs d) Hs) as [k Hinv].
  destruct (decide (Forall passes tests)) as [|Hfail]; [done|exfalso].
  assert (Hspec : ∀ j p, progs !! j = Some p -> ∃ ts, suite !! j = Some ts /\
    (sum_by arrivals p <= 2)%nat /\ (~ Forall passes ts -> (sum_by arrivals p <= 1)%nat) /\
    ∀ d r, d ++ r = p -> Do (Outb exit_port 0) ∈ d -> Await 1 ∈ d).
  { intros j p Hj. destruct (lookup_lt_is_Some_2 suite j) as [ts Hts].
    { rewrite <- Hlen. by eapply lookup_lt_Some. }
    destruct (Hprogs j ts Hts) as (p' & Hp' & Hstart). rewrite Hj in Hp'. injection Hp' as <-.
    exists ts. split; [done|]. eapply test_start_spec; [|exact Hstart].
    apply Forall_forall. intros t Ht. apply (Hoff ts); [by eapply list_elem_of_lookup_2|done]. }
  destruct (lookup_lt_is_Some_2 progs i) as [p Hp]; [by eapply tinv_cores|].
  destruct (lookup_lt_is_Some_2 (t_threads s) i) as [r Hr].
  { rewrite (tinv_length _ _ _ Hinv). by eapply lookup_lt_Some. }
  destruct (tinv_done _ _ _ Hinv i p r Hp Hr) as (dn & Hd & Haw & Hout).
  destruct (Hspec i p Hp) as (_ & _ & _ & _ & Hafter).
  pose proof (Haw 1%nat (Hafter _ _ Hd (Hout _ _ Hin))) as Hk.
  pose proof (tinv_arrived _ _ _ Hinv) as Hsum.
  apply list_elem_of_lookup in Htests as [j Hj]. destruct (Hprogs j tests Hj) as (q & Hq & _).
  destruct (Hspec j q Hq) as (ts & Hts & _ & Hone & _). rewrite Hj in Hts. injection Hts as <-. specialize (Hone Hfail).
  pose proof (sum_by_insert (sum_by arrivals) progs j q [] Hq) as Hins. simpl in Hins.
  assert (Hle : (sum_by (sum_by arrivals) (<[j:=[]]> progs) <= 2 * (length progs - 1))%nat).
  { rewrite insert_take_drop by by eapply lookup_lt_Some. rewrite sum_by_app. simpl.
    assert (Htake : (sum_by (sum_by arrivals) (take j progs) <= 2 * length (take j progs))%nat).
    { apply sum_by_le. intros x (m & Hm & _)%elem_of_take. by destruct (Hspec m x Hm) as (? & _ & ? & _). }
    assert (Hdrop : (sum_by (sum_by arrivals) (drop (S j) progs) <= 2 * length (drop (S j) progs))%nat).
    { apply sum_by_le. intros x [m Hm]%list_elem_of_lookup. rewrite lookup_drop in Hm.
      by destruct (Hspec _ x Hm) as (? & _ & ? & _). }
    rewrite length_take, length_drop in *. apply lookup_lt_Some in Hq. lia. }
  apply lookup_lt_Some in Hq. lia.
Qed.
End Properties.

(** ** Concrete instances: two cores, one test *)
#[local] Instance counting : ReusableBarrier (Z * Z) := {
  rb_new n := (n, 0);
  rb_arrive b := (b.1, b.2 + 1);
  rb_complete b round := (Z.of_nat round + 1) * b.1 <=? b.2 }.

#[local] Instance counting_laws : ReusableBarrierLaws (Z * Z).
Proof.
  split. intros n k round _.
  assert (Hk : Nat.iter k rb_arrive (rb_new (Z.of_nat n)) = (Z.of_nat n, Z.of_nat k)).
  { induction k as [|k IH]; [done|]. rewrite Nat.iter_succ, IH. unfold rb_arrive, counting.
    cbn [fst snd]. f_equal. lia. }
  rewrite Hk. simpl. destruct (Z.leb_spec ((Z.of_nat round + 1) * Z.of_nat n) (Z.of_nat k)).
  - rewrite bool_decide_eq_true_2; [done|lia].
  - rewrite bool_decide_eq_false_2; [done|lia].
Qed.

(** A transmitter that is always ready. *)
#[local] Instance ready : Device unit := { inb d _ := (0x20, d); outb d _ _ := d }.

Definition sample_suite : list (list test) := [[([], None)]; [([], None)]].
Definition sample_prog (leader1 leader2 : bool) : list step :=
  match @test_start debug unit leader1 leader2 [([], None)] [] with Ok p => p | _ => [] end.
Definition sample_progs : list (list step) := [sample_prog true false; sample_prog false true].

Lemma sample_cores_run : @cores_run debug unit 0 1 [] sample_suite sample_progs.
Proof. split; [done|]. intros [|[|i]] tests [= <-]; by eexists. Qed.

(** Both cores run to the second rendezvous; then core 1 leaves the emulator. *)
Definition sample_schedule : list nat := [0; 1]%nat ++ replicate 42 0%nat ++ replicate 14 1%nat.
Definition sample_finish : tsys unit (Z * Z) := default (tinit tt []) (tsched sample_schedule (tinit tt sample_progs)).
Lemma sample_finishes : tsched sample_schedule (tinit tt sample_progs) = Some sample_finish.
Proof. vm_compute. reflexivity. Qed.

Lemma success_means_all_passed_witness : Forall (Forall passes) sample_suite.
Proof.
  apply Forall_forall. apply (success_means_all_passed (Bar := Z * Z) (H2 := debug) (E := unit) 0 1 [] sample_suite sample_progs
    sample_schedule tt sample_finish 1).
  - exact sample_cores_run.
  - intros tests t Hts Ht. unfold sample_suite in Hts.
    assert (tests = [([], None)]) as -> by (by apply list_elem_of_In in Hts as [<-|[<-|[]]]).
    apply list_elem_of_singleton in Ht as ->. constructor.
  - exact sample_finishes.
  - apply list_elem_of_In. vm_compute. tauto.
Defined.

(** A core that is no leader may initialise the port, clearing its FIFOs, in the
    middle of the leader's message: between the first two letters of "Running". *)
Lemma port_reset_within_message :
  ∃ schedule (s : tsys unit (Z * Z)) pre mid,
    tsched schedule (tinit tt sample_progs) = Some s /\
    t_trace s = pre ++ [(0%nat, 0x3f8, 82)] ++ mid ++ [(0%nat, 0x3f8, 117)] /\ (1%nat, 0x3fa, 0xC7) ∈ mid.
Proof.
  exists ([0; 1]%nat ++ replicate 14 0%nat ++ replicate 11 1%nat ++ [0%nat]).
  eexists _, (map (fun '(p, v) => (0%nat, p, v)) init_outs), (map (fun '(p, v) => (1%nat, p, v)) init_outs).
  split; [vm_compute; reflexivity|]. split; [reflexivity|]. apply list_elem_of_In. vm_compute. tauto.
Qed.
