(* ===== verification/Emulator.v ===== *)
(** * Running compiled modules ([parawasm_tests/src/testing.rs])

    The test crate loads assembled modules into a CPU emulator, calls their
    functions through a trampoline and counts the instructions executed.  The
    emulator library is the interface [Unicorn]; the modules are shared with the
    tests ([Rc<RefCell<Module>>]), so they are cells of an explicit store and a
    handle is an index.  An operation is a function from the world, the emulator
    and the cells, to the world it leaves and its outcome: [?] leaves the changes
    made before it in place. *)
From S2P Require Import Prelude X86 Assembler ModuleApi.

(** ** The emulator library

    A code hook is named by an identifier; [emu_start] gives the calls of hooks,
    in order, the machine it leaves and its error, if any.  The last fields
    observe the machine: its mapped bytes, registers, hooks, and the addresses of
    the instructions that [emu_start] executes. *)
Class Unicorn (UC UE : Type) := {
  uc_RSP : Z;
  uc_R10 : Z;
  uc_new : UE + UC;
  mem_map : UC -> Z -> Z -> UE + UC;
  mem_write : UC -> Z -> list Z -> UE + UC;
  mem_read : UC -> Z -> nat -> UE + list Z;
  reg_read : UC -> Z -> UE + Z;
  reg_write : UC -> Z -> Z -> UE + UC;
  add_code_hook : UC -> Z -> Z -> UE + (Z * UC);
  remove_hook : UC -> Z -> UE + UC;
  emu_start : UC -> Z -> Z -> Z -> Z -> list (Z * Z) * UC * option UE;
  uc_byte : UC -> Z -> option Z;
  uc_reg : UC -> Z -> Z;
  uc_hooks : UC -> list Z;
  uc_executed : UC -> Z -> Z -> list Z }.

Definition mapped `{Unicorn UC UE} (uc : UC) (a : Z) (n : nat) : Prop :=
  ∀ k, (k < n)%nat -> is_Some (uc_byte uc (a + Z.of_nat k)).

(** The byte at [x] after [bs] has been written at [a]. *)
Definition written (a : Z) (bs : list Z) (old : Z -> option Z) (x : Z) : option Z :=
  if decide (a <= x < a + Z.of_nat (length bs)) then bs !! Z.to_nat (x - a) else old x.

Definition stack_register `{Unicorn UC UE} (r : Z) : Prop := r = uc_RSP \/ r = uc_R10.

(** Documented behaviour. *)
Class UnicornLaws (UC UE : Type) `{Unicorn UC UE} : Prop := {
  law_registers : uc_RSP <> uc_R10;
  law_uc_new uc : uc_new = inr uc -> (∀ x, uc_byte uc x = None) /\ uc_hooks uc = [];
  law_mem_map uc a n uc' : mem_map uc a n = inr uc' ->
    (∀ x, is_Some (uc_byte uc' x) <-> is_Some (uc_byte uc x) \/ a <= x < a + n) /\
    uc_hooks uc' = uc_hooks uc;
  law_mem_write uc a bs : mapped uc a (length bs) -> ∃ uc', mem_write uc a bs = inr uc';
  law_mem_written uc a bs uc' : mem_write uc a bs = inr uc' ->
    mapped uc a (length bs) /\ (∀ x, uc_byte uc' x = written a bs (uc_byte uc) x) /\
    uc_reg uc' = uc_reg uc /\ uc_hooks uc' = uc_hooks uc;
  law_mem_read uc a n : mapped uc a n -> ∃ bs, mem_read uc a n = inr bs /\ length bs = n /\
    (∀ k, (k < n)%nat -> bs !! k = uc_byte uc (a + Z.of_nat k));
  law_reg_read uc r : stack_register r -> reg_read uc r = inr (uc_reg uc r);
  law_reg_write uc r v : stack_register r -> 0 <= v < 2 ^ 64 -> ∃ uc', reg_write uc r v = inr uc';
  law_reg_written uc r v uc' : reg_write uc r v = inr uc' ->
    (stack_register r -> uc_reg uc' r = v) /\ (∀ r', stack_register r' -> r' <> r -> uc_reg uc' r' = uc_reg uc r') /\
    uc_byte uc' = uc_byte uc /\ uc_hooks uc' = uc_hooks uc;
  law_add_hook uc : ∃ h uc', add_code_hook uc 0 u64_max = inr (h, uc');
  law_hook_added uc b e h uc' : add_code_hook uc b e = inr (h, uc') ->
    (h ∉ uc_hooks uc) /\ uc_hooks uc' = uc_hooks uc ++ [h] /\
    uc_byte uc' = uc_byte uc /\ uc_reg uc' = uc_reg uc;
  law_hook_removed uc h uc' : remove_hook uc h = inr uc' ->
    uc_hooks uc' = filter (fun h' => h' <> h) (uc_hooks uc) /\ uc_byte uc' = uc_byte uc;
  (* hooks over the whole address space are called for every instruction *)
  law_emu_start uc b e calls uc' r : emu_start uc b e 0 0 = (calls, uc', r) ->
    calls = flat_map (fun a => map (fun h => (h, a)) (uc_hooks uc)) (uc_executed uc b e) /\
    uc_hooks uc' = uc_hooks uc /\
    (∀ x, is_Some (uc_byte uc' x) <-> is_Some (uc_byte uc x)) }.

(** ** State *)
Inductive Error (UE IE : Type) :=
  | EmulationError (e : UE)
  | InternalAssemblyError (e : IE)
  | FunctionNotFound.
Arguments EmulationError {UE IE}.
Arguments InternalAssemblyError {UE IE}.
Arguments FunctionNotFound {UE IE}.

(** [struct Module]: a module in the emulator's memory. *)
Record EmuModule (MT : Type) := mkCell {
  offset : Z; emu_module : AssembledModule MT; executed_instructions : gmap Z Z }.
Arguments mkCell {MT}.
Arguments offset {MT}.
Arguments emu_module {MT}.
Arguments executed_instructions {MT}.

(** [struct Emulator]; [closures] holds the module list each hook's closure has
    captured. *)
Record Emulator (UC : Type) := mkEmulator {
  emulator : UC; closures : gmap Z (list nat);
  module_offset : Z; trampoline_len : Z; trampoline_offset : Z; modules : list nat }.
Arguments mkEmulator {UC}.
Arguments emulator {UC}.
Arguments closures {UC}.
Arguments module_offset {UC}.
Arguments trampoline_len {UC}.
Arguments trampoline_offset {UC}.
Arguments modules {UC}.

Record world (UC MT : Type) := mkWorld { self : Emulator UC; cells : list (EmuModule MT) }.
Arguments mkWorld {UC MT}.
Arguments self {UC MT}.
Arguments cells {UC MT}.

Definition EM (UC MT E B : Type) : Type := world UC MT -> world UC MT * Res E B.
#[global] Instance em_ret {UC MT E} : MRet (EM UC MT E) := fun B b w => (w, Ok b).
#[global] Instance em_bind {UC MT E} : MBind (EM UC MT E) := fun B C f m w =>
  match m w with (w, Ok b) => f b w | (w, Err e) => (w, Err e) | (w, Panic p) => (w, Panic p) end.

Definition set_emulator {UC} (uc : UC) (s : Emulator UC) : Emulator UC :=
  mkEmulator uc (closures s) (module_offset s) (trampoline_len s) (trampoline_offset s) (modules s).

(** [Module::instruction_execution_count] *)
Definition instruction_execution_count {MT} (self : EmuModule MT) (off : Z) : Z :=
  default 0 (executed_instructions self !! off).

Definition module_len {MT} (c : EmuModule MT) : Z := Z.of_nat (length (binary (emu_module c))).
Definition module_end {MT} (c : EmuModule MT) : Z := offset c + module_len c.

Definition memory_size : Z := 128 * 1024 * 1024.

Section Emulator.
Context {UC UE A IE MT : Type} `{Unicorn UC UE} `{Assembler A IE} `{Profile} `{ByteOrder}.
Abbreviation M := (EM UC MT (Error UE IE)).
Abbreviation W := (world UC MT).
Abbreviation R := (Res (Error UE IE)).

Definition lift {B} (r : R B) : M B := fun w => (w, r).
Definition get {B} (f : W -> B) : M B := fun w => (w, Ok (f w)).
Definition modify (f : W -> W) : M unit := fun w => (f w, Ok tt).
Definition emulation {B} (r : UE + B) : R B := map_err EmulationError (of_sum r).
Definition assembly {B} (r : IE + B) : R B := map_err InternalAssemblyError (of_sum r).

(** A method of the emulator library that changes the machine. *)
Definition uc_update (f : UC -> UE + UC) : M unit := fun w =>
  match f (emulator (self w)) with
  | inr uc => (mkWorld (set_emulator uc (self w)) (cells w), Ok tt)
  | inl e => (w, Err (EmulationError e))
  end.
Definition uc_query {B} (f : UC -> UE + B) : M B := fun w => (w, emulation (f (emulator (self w)))).

(** [Emulator::new] *)
Definition emulator_new : R (Emulator UC) :=
  emulator ← emulation uc_new;
  let initial_offset := 0 in
  emulator ← emulation (mem_map emulator initial_offset (128 * 1024 * 1024));
  assembler ← assembly (asm_new 64);
  assembler ← assembly (asm_add assembler (i_call_reg R10));
  assembler ← assembly (asm_add assembler i_nop);
  trampoline ← assembly (asm_assemble assembler);
  emulator ← emulation (mem_write emulator initial_offset trampoline);
  emulator ← emulation (reg_write emulator uc_RSP (128 * 1024 * 1024 - 1));
  module_offset ← u64_arith (initial_offset + Z.of_nat (length trampoline));
  Ok (mkEmulator emulator ∅ module_offset (Z.of_nat (length trampoline)) initial_offset []).

Definition add_to_module_offset (n : Z) : M unit :=
  off ← get (fun w => module_offset (self w));
  off ← lift (u64_arith (off + n));
  modify (fun w => let s := self w in
    mkWorld (mkEmulator (emulator s) (closures s) off (trampoline_len s) (trampoline_offset s) (modules s)) (cells w)).

Definition add_module (module : AssembledModule MT) : M nat :=
  module_offset ← get (fun w => module_offset (self w));
  _ ← uc_update (fun uc => mem_write uc module_offset (binary module));
  let emu_module := mkCell module_offset module ∅ in
  _ ← add_to_module_offset (Z.of_nat (length (binary module)));
  new_module ← get (fun w => length (cells w));
  _ ← modify (fun w => let s := self w in
    mkWorld (mkEmulator (emulator s) (closures s) (Emulator.module_offset s) (trampoline_len s) (trampoline_offset s)
      (modules s ++ [new_module])) (cells w ++ [emu_module]));
  mret new_module.

(** The cell a handle points to; a handle always has one. *)
Definition borrow (module : nat) : M (EmuModule MT) := fun w =>
  (w, of_option AssertFailed (cells w !! module)).

Definition update_module (module : nat) : M unit :=
  m ← borrow module;
  uc_update (fun uc => mem_write uc (offset m) (binary (emu_module m))).

Fixpoint update_modules (l : list nat) : M unit :=
  match l with
  | [] => mret tt
  | module :: l => _ ← update_module module; update_modules l
  end.

Definition add_memory (mem : list Z) : M Z :=
  offset ← get (fun w => module_offset (self w));
  _ ← uc_update (fun uc => mem_write uc offset mem);
  _ ← add_to_module_offset (Z.of_nat (length mem));
  mret offset.

(** The hook's closure: the module an address is attributed to, and the count of
    the instruction there.  [candidate_end] does not overflow, [add_module] has
    computed it before; [try_borrow_mut] succeeds, no cell is borrowed while the
    emulation runs. *)
Definition matching_module (cells : list (EmuModule MT)) (modules : list nat) (addr : Z) : option nat :=
  find_map (fun module_candidate =>
    match cells !! module_candidate with
    | Some m =>
        let candidate_begin := offset m in
        let candidate_end := offset m + Z.of_nat (length (binary (emu_module m))) in
        if (candidate_begin <=? addr) && (addr <=? candidate_end) then Some module_candidate else None
    | None => None
    end) modules.

Definition code_hook (modules : list nat) (addr : Z) (cells : list (EmuModule MT)) : R (list (EmuModule MT)) :=
  match matching_module cells modules addr with
  | Some module =>
      m ← of_option AssertFailed (cells !! module);
      n ← match executed_instructions m !! (addr - offset m) with
          | None => Ok 1
          | Some n => u64_arith (n + 1)
          end;
      Ok (<[module := mkCell (offset m) (emu_module m) (<[addr - offset m := n]> (executed_instructions m))]> cells)
  | None => Ok cells
  end.

Definition run_hooks (closures : gmap Z (list nat)) (calls : list (Z * Z)) (cells : list (EmuModule MT))
    : R (list (EmuModule MT)) :=
  for_each (fun '(hook, addr) cells =>
    match closures !! hook with
    | Some modules => code_hook modules addr cells
    | None => Ok cells
    end) calls cells.

(** [emu_start] with the hooks it calls. *)
Definition emulate (begin until : Z) : M unit := fun w =>
  let '(calls, uc, r) := emu_start (emulator (self w)) begin until 0 0 in
  let s := set_emulator uc (self w) in
  match run_hooks (closures s) calls (cells w) with
  | Ok cells => (mkWorld s cells, match r with None => Ok tt | Some e => Err (EmulationError e) end)
  | Err e => (mkWorld s (cells w), Err e)
  | Panic p => (mkWorld s (cells w), Panic p)
  end.

Definition add_hook : M Z := fun w =>
  let s := self w in
  match add_code_hook (emulator s) 0 u64_max with
  | inr (hook, uc) =>
      (mkWorld (mkEmulator uc (<[hook := modules s]> (closures s)) (module_offset s) (trampoline_len s)
        (trampoline_offset s) (modules s)) (cells w), Ok hook)
  | inl e => (w, Err (EmulationError e))
  end.

Definition drop_hook (hook : Z) : M unit := fun w =>
  let s := self w in
  match remove_hook (emulator s) hook with
  | inr uc =>
      (mkWorld (mkEmulator uc (delete hook (closures s)) (module_offset s) (trampoline_len s)
        (trampoline_offset s) (modules s)) (cells w), Ok tt)
  | inl e => (w, Err (EmulationError e))
  end.

(** [call_function] up to the start of the emulation; the listing it prints is
    left out. *)
Definition prepare_call {I} `{FunctionIdentifier I} (module : nat) (identifier : I) : M Z :=
  m ← borrow module;
  function_offset ← lift (match function_entry_point (ModuleApi.module (emu_module m)) identifier with
                          | Some offset => Ok offset
                          | None => Err FunctionNotFound
                          end);
  let module_offset := offset m in
  modules ← get (fun w => modules (self w));
  _ ← update_modules modules;
  hook ← add_hook;
  addr ← lift (u64_arith (module_offset + function_offset));
  _ ← uc_update (fun uc => reg_write uc uc_R10 addr);
  mret hook.

Definition call_function {I} `{FunctionIdentifier I} (module : nat) (identifier : I) : M unit :=
  hook ← prepare_call module identifier;
  begin ← get (fun w => trampoline_offset (self w));
  len ← get (fun w => trampoline_len (self w));
  until ← lift (u64_arith (begin + len));
  _ ← emulate begin until;
  drop_hook hook.

Definition pop : M Z :=
  stack ← uc_query (fun uc => reg_read uc uc_RSP);
  buf ← uc_query (fun uc => mem_read uc stack 8);
  stack ← lift (u64_arith (stack + 8));
  _ ← uc_update (fun uc => reg_write uc uc_RSP stack);
  mret (read_u64 buf).

Definition push (value : Z) : M unit :=
  stack ← uc_query (fun uc => reg_read uc uc_RSP);
  stack ← lift (u64_arith (stack - 8));
  _ ← uc_update (fun uc => reg_write uc uc_RSP stack);
  let buf := write_u64 (replicate 8 0) value in
  uc_update (fun uc => mem_write uc stack buf).

Definition read_register (register : Z) : M Z := uc_query (fun uc => reg_read uc register).
Definition write_register (register value : Z) : M unit := uc_update (fun uc => reg_write uc register value).
End Emulator.

(** ** Layout of the emulator's memory *)

(** The modules lie one after the other between [lo] and [hi]. *)
Fixpoint chain {MT} (lo : Z) (cs : list (EmuModule MT)) (hi : Z) : Prop :=
  match cs with
  | [] => lo <= hi
  | c :: cs => lo <= offset c /\ chain (module_end c) cs hi
  end.

(** The part of a cell that executing code does not change. *)
Definition same_place {MT} (c c' : EmuModule MT) : Prop :=
  offset c' = offset c /\ module_len c' = module_len c.

#[global] Instance same_place_preorder {MT} : PreOrder (@same_place MT).
Proof. split; [by intros c|]. intros c1 c2 c3 [Ho Hl] [Ho' Hl']. split; congruence. Qed.

Section Chain.
Context {MT : Type}.
Implicit Types c : EmuModule MT.

Lemma module_len_nonneg c : 0 <= module_len c.
Proof. unfold module_len. lia. Qed.

Lemma chain_le lo cs hi : @chain MT lo cs hi -> lo <= hi.
Proof.
  revert lo. induction cs as [|c cs IH]; simpl; [done|]. intros lo [? ?%IH].
  pose proof (module_len_nonneg c). unfold module_end in *. lia.
Qed.

Lemma chain_weaken lo cs hi hi' : hi <= hi' -> @chain MT lo cs hi -> chain lo cs hi'.
Proof.
  intros Hle. revert lo. induction cs as [|c cs IH]; simpl; [lia|]. intros lo [Hlo Hc]. split; [done|by apply IH].
Qed.

Lemma chain_snoc lo cs hi c :
  chain lo cs hi -> hi <= offset c -> chain lo (cs ++ [c]) (module_end c).
Proof.
  revert lo. induction cs as [|c' cs IH]; simpl; [lia|]. intros lo [? ?] ?. split; [done|by apply IH].
Qed.

Lemma chain_lookup lo cs hi i c :
  chain lo cs hi -> cs !! i = Some c -> lo <= offset c /\ module_end c <= hi.
Proof.
  revert lo i. induction cs as [|c' cs IH]; intros lo i Hc Hi; [done|]. destruct Hc as [Hlo Hc].
  destruct i as [|i].
  - injection Hi as ->. split; [done|]. by eapply chain_le.
  - destruct (IH _ _ Hc Hi). pose proof (module_len_nonneg c'). unfold module_end in *. lia.
Qed.

Lemma chain_apart lo cs hi i j c c' :
  chain lo cs hi -> (i < j)%nat -> cs !! i = Some c -> cs !! j = Some c' -> module_end c <= offset c'.
Proof.
  revert lo i j. induction cs as [|c0 cs IH]; intros lo i j Hc Hij Hi Hj; [done|]. destruct Hc as [_ Hc].
  destruct j as [|j]; [lia|]. destruct i as [|i].
  - injection Hi as ->. eapply chain_lookup in Hc as [??]; [|exact Hj]. lia.
  - apply (IH _ i j Hc); [lia|done..].
Qed.

Lemma chain_same_place lo (cs cs' : list (EmuModule MT)) hi :
  Forall2 same_place cs cs' -> chain lo cs hi -> chain lo cs' hi.
Proof.
  intros Hs. revert lo. induction Hs as [|c c' cs cs' [Ho Hl] _ IH]; intros lo; simpl; [done|].
  unfold module_end. rewrite Ho, Hl. intros [? ?]. split; [done|]. by apply IH.
Qed.

Lemma same_place_insert (cs : list (EmuModule MT)) i c c' :
  cs !! i = Some c -> same_place c c' -> Forall2 same_place cs (<[i := c']> cs).
Proof.
  intros Hi Hs. apply Forall2_lookup. intros k. destruct (decide (k = i)) as [->|Hk].
  - rewrite list_lookup_insert_eq, Hi by by eapply lookup_lt_Some. by constructor.
  - rewrite list_lookup_insert_ne by done. destruct (cs !! k); by constructor.
Qed.
End Chain.

(** ** Counting *)
Definition occurrences (a : Z) (l : list Z) : Z := Z.of_nat (length (filter (fun x => x = a) l)).

Lemma occurrences_cons a x l : occurrences a (x :: l) = (if decide (x = a) then 1 else 0) + occurrences a l.
Proof. unfold occurrences. rewrite filter_cons. case_decide; simpl; lia. Qed.

Lemma occurrences_app a l k : occurrences a (l ++ k) = occurrences a l + occurrences a k.
Proof. unfold occurrences. rewrite filter_app, length_app. lia. Qed.

(** Every instruction of a trace is reported to every hook. *)
Lemma occurrences_calls a (hooks trace : list Z) :
  occurrences a (map snd (flat_map (fun x => map (fun h => (h, x)) hooks) trace)) =
    Z.of_nat (length hooks) * occurrences a trace.
Proof.
  induction trace as [|x trace IH]; [unfold occurrences; simpl; lia|].
  simpl. rewrite map_app, occurrences_app, IH, occurrences_cons, map_map. simpl.
  assert (occurrences a (map (fun _ : Z => x) hooks) = (if decide (x = a) then 1 else 0) * Z.of_nat (length hooks)) as ->.
  { clear. induction hooks as [|h hooks IH]; simpl; [unfold occurrences; simpl; case_decide; lia|].
    rewrite occurrences_cons, IH. case_decide; lia. }
  lia.
Qed.

Lemma filter_ne_absent (h : Z) (l : list Z) : h ∉ l -> filter (fun h' => h' <> h) l = l.
Proof.
  induction l as [|x l IH]; [done|]. rewrite not_elem_of_cons. intros [Hx Hl].
  by rewrite filter_cons_True, IH by auto.
Qed.

Lemma calls_from_hooks (P : Z -> Prop) (hooks trace : list Z) :
  Forall P hooks -> Forall (fun '(h, _) => P h) (flat_map (fun a => map (fun h => (h, a)) hooks) trace).
Proof.
  intros Hp. induction trace as [|a trace IH]; simpl; [constructor|]. apply Forall_app. split; [|done].
  apply Forall_map. by eapply Forall_impl.
Qed.

Section Counting.
Context {UC UE A IE MT : Type} `{Unicorn UC UE} `{Assembler A IE} `{Profile}.
Abbreviation R := (Res (Error UE IE)).
Implicit Types cs : list (EmuModule MT).

Lemma matching_module_same_place cs cs' ms a :
  Forall2 same_place cs cs' -> matching_module cs' ms a = matching_module cs ms a.
Proof.
  intros Hs. unfold matching_module. induction ms as [|m ms IH]; [done|]. simpl. rewrite IH.
  rewrite Forall2_lookup in Hs. destruct (Hs m) as [c c' [Ho Hl]|]; [|done].
  unfold module_len in Hl. by rewrite Ho, Hl.
Qed.

(** One call of a hook: it counts the instruction once, for the module its
    address is attributed to. *)
Lemma code_hook_counts cs cs' ms a :
  overflow_checks = true -> (code_hook ms a cs : R _) = Ok cs' ->
  Forall2 same_place cs cs' /\
  ∀ j c, cs !! j = Some c -> ∃ c', cs' !! j = Some c' /\ emu_module c' = emu_module c /\ ∀ o,
    instruction_execution_count c' o = instruction_execution_count c o +
      (if decide (a = offset c + o /\ matching_module cs ms (offset c + o) = Some j) then 1 else 0).
Proof.
  intros Hov. unfold code_hook. destruct (matching_module cs ms a) as [m|] eqn:Hm.
  - destruct (cs !! m) as [cm|] eqn:Hcm; [|done]. simpl of_option. rewrite res_bind_ok. intros Hn.
    res_step Hn as n E. apply Ok_inj in Hn as <-.
    assert (n = instruction_execution_count cm (a - offset cm) + 1) as ->.
    { unfold instruction_execution_count. destruct (executed_instructions cm !! _); simpl in *.
      - by apply u64_arith_exact in E.
      - by apply Ok_inj in E. }
    split; [by eapply same_place_insert|]. intros j c Hc. destruct (decide (j = m)) as [->|Hj].
    + rewrite Hc in Hcm. injection Hcm as ->. eexists.
      rewrite list_lookup_insert_eq by by eapply lookup_lt_Some. split; [done|]. split; [done|]. intros o.
      unfold instruction_execution_count at 1. simpl.
      destruct (decide (o = a - offset cm)) as [->|Ho].
      * rewrite lookup_insert_eq, decide_True; [done|]. split; [lia|]. rewrite <- Hm. f_equal. lia.
      * rewrite lookup_insert_ne by done. rewrite decide_False by lia.
        fold (instruction_execution_count cm o). lia.
    + exists c. rewrite list_lookup_insert_ne by done. split; [done|]. split; [done|]. intros o.
      rewrite decide_False; [lia|]. intros [-> Hj']. congruence.
  - intros <-%Ok_inj. split; [done|]. intros j c Hc. exists c. split; [done|]. split; [done|].
    intros o. rewrite decide_False; [lia|]. intros [-> Hj']. congruence.
Qed.

(** Whatever it counts, a hook leaves the modules where they are. *)
Lemma code_hook_keeps cs cs' ms a :
  (code_hook ms a cs : R _) = Ok cs' -> Forall2 same_place cs cs' /\ map emu_module cs' = map emu_module cs.
Proof.
  unfold code_hook. destruct (matching_module cs ms a) as [m|]; [|by intros <-%Ok_inj].
  destruct (cs !! m) as [cm|] eqn:Hcm; [|done]. simpl of_option. rewrite res_bind_ok. intros Hn.
  res_step Hn as n E. apply Ok_inj in Hn as <-. split; [by eapply same_place_insert|].
  change (list_fmap ?A ?B) with (@fmap list _ A B). apply list_eq. intros k.
  destruct (decide (k = m)) as [->|Hk].
  - rewrite !list_lookup_fmap, list_lookup_insert_eq, Hcm by by eapply lookup_lt_Some. done.
  - by rewrite !list_lookup_fmap, list_lookup_insert_ne.
Qed.

Lemma run_hooks_keeps closures calls cs cs' :
  (run_hooks closures calls cs : R _) = Ok cs' ->
  Forall2 same_place cs cs' /\ map emu_module cs' = map emu_module cs.
Proof.
  revert cs. induction calls as [|[h a] calls IH]; intros cs; unfold run_hooks; cbn [for_each].
  - by intros <-%Ok_inj.
  - intros Hr. res_step Hr as cs1 E. apply IH in Hr as [Hs2 Hm2]. destruct (closures !! h).
    + apply code_hook_keeps in E as [Hs1 Hm1]. split; [by etrans|congruence].
    + by apply Ok_inj in E as <-.
Qed.

Lemma run_hooks_counts closures ms calls cs cs' :
  overflow_checks = true ->
  Forall (fun '(h, _) => closures !! h = Some ms) calls -> (run_hooks closures calls cs : R _) = Ok cs' ->
  ∀ j c, cs !! j = Some c -> ∃ c', cs' !! j = Some c' /\ emu_module c' = emu_module c /\ ∀ o,
    instruction_execution_count c' o = instruction_execution_count c o +
      (if decide (matching_module cs ms (offset c + o) = Some j)
       then occurrences (offset c + o) (map snd calls) else 0).
Proof.
  intros Hov Hcl. revert cs. induction Hcl as [|[h a] calls Hh _ IH]; intros cs; unfold run_hooks; cbn [for_each].
  - intros <-%Ok_inj j c Hc. exists c. split_and!; [done..|]. intros o. unfold occurrences. simpl.
    case_decide; lia.
  - rewrite Hh. intros Hr j c Hc. res_step Hr as cs1 E.
    destruct (code_hook_counts _ _ _ _ Hov E) as [Hs Hcount].
    destruct (Hcount j c Hc) as (c1 & Hc1 & Hm1 & Hn1).
    destruct (IH _ Hr j c1 Hc1) as (c' & Hc' & Hm' & Hn'). exists c'. split; [done|]. split; [congruence|].
    intros o. rewrite Hn', Hn1. rewrite (matching_module_same_place _ _ _ _ Hs).
    assert (offset c1 = offset c) as ->.
    { rewrite Forall2_lookup in Hs. specialize (Hs j). rewrite Hc, Hc1 in Hs. by inversion Hs as [? ? [? ?]|]. }
    rewrite map_cons, occurrences_cons. simpl snd. repeat case_decide; first [lia|tauto].
Qed.
End Counting.

(** ** A reference emulator

    Memory from address 0 on, and a processor that executes [call r10; nop] over
    a function of [nop]s that ends in [ret]. *)
Module RetEmulator.
Record machine := mkMachine { mem : gmap Z Z; top : Z; regs : gmap Z Z; hooks : list Z }.

Definition byte (uc : machine) (x : Z) : option Z :=
  if decide (0 <= x < top uc) then Some (default 0 (mem uc !! x)) else None.

Fixpoint write (m : gmap Z Z) (a : Z) (bs : list Z) : gmap Z Z :=
  match bs with [] => m | b :: bs => <[a := b]> (write m (a + 1) bs) end.

Definition in_memory (uc : machine) (a : Z) (n : nat) : Prop :=
  n = O \/ (0 <= a /\ a + Z.of_nat n <= top uc).
#[global] Instance in_memory_dec uc a n : Decision (in_memory uc a n).
Proof. unfold in_memory. apply _. Defined.

(** The instructions executed from [a] on, and whether a [ret] was reached. *)
Fixpoint run (fuel : nat) (uc : machine) (a : Z) : list Z * bool :=
  match fuel with
  | O => ([], false)
  | S fuel =>
      match byte uc a with
      | Some 144 => let '(l, ok) := run fuel uc (a + 1) in (a :: l, ok)
      | Some 195 => ([a], true)
      | _ => ([], false)
      end
  end.
Definition call (uc : machine) : list Z * bool := run 100 uc (default 0 (regs uc !! 108)).
Definition executed (uc : machine) (b e : Z) : list Z :=
  b :: fst (call uc) ++ (if snd (call uc) then [e - 1] else []).
Definition fresh (l : list Z) : Z := foldr Z.max 0 l + 1.

#[global] Instance ret_emulator : Unicorn machine unit := {
  uc_RSP := 44;
  uc_R10 := 108;
  uc_new := inr (mkMachine ∅ 0 ∅ []);
  mem_map uc a n := if decide (a = 0 /\ top uc = 0 /\ 0 <= n)
                    then inr (mkMachine (mem uc) n (regs uc) (hooks uc)) else inl tt;
  mem_write uc a bs := if decide (in_memory uc a (length bs))
                       then inr (mkMachine (write (mem uc) a bs) (top uc) (regs uc) (hooks uc)) else inl tt;
  mem_read uc a n := if decide (in_memory uc a n)
                     then inr (map (fun k => default 0 (mem uc !! (a + Z.of_nat k))) (seq 0 n)) else inl tt;
  reg_read uc r := inr (default 0 (regs uc !! r));
  reg_write uc r v := inr (mkMachine (mem uc) (top uc) (<[r := v]> (regs uc)) (hooks uc));
  add_code_hook uc b e := inr (fresh (hooks uc), mkMachine (mem uc) (top uc) (regs uc) (hooks uc ++ [fresh (hooks uc)]));
  remove_hook uc h := inr (mkMachine (mem uc) (top uc) (regs uc) (filter (fun h' => h' <> h) (hooks uc)));
  emu_start uc b e _ _ :=
    (flat_map (fun a => map (fun h => (h, a)) (hooks uc)) (executed uc b e), uc,
     if snd (call uc) then None else Some tt);
  uc_byte := byte;
  uc_reg uc r := default 0 (regs uc !! r);
  uc_hooks := hooks;
  uc_executed := executed }.

Lemma fresh_not_in l : fresh l ∉ l.
Proof.
  assert (∀ x, x ∈ l -> x < fresh l) as Hlt; [|by intros ?%Hlt%Z.lt_irrefl].
  unfold fresh. induction l as [|y l IH]; intros x; [by intros ?%not_elem_of_nil|].
  simpl. intros [->|Hx%IH]%elem_of_cons; lia.
Qed.

Lemma lookup_write m a bs x :
  write m a bs !! x = written a bs (fun x => m !! x) x.
Proof.
  revert a. induction bs as [|b bs IH]; intros a; unfold written; cbn [write].
  - rewrite decide_False; [done|]. simpl. lia.
  - destruct (decide (x = a)) as [->|Hx].
    + rewrite lookup_insert_eq, decide_True by (simpl; lia). by rewrite Z.sub_diag.
    + rewrite lookup_insert_ne, IH by done. unfold written. simpl length.
      destruct (decide (a + 1 <= x < a + 1 + Z.of_nat (length bs))).
      * rewrite decide_True by lia. replace (Z.to_nat (x - a)) with (S (Z.to_nat (x - (a + 1)))) by lia. done.
      * by rewrite decide_False by lia.
Qed.

Lemma mapped_in_memory uc a n : mapped uc a n <-> in_memory uc a n.
Proof.
  unfold mapped, in_memory. simpl. unfold byte. split.
  - intros Hm. destruct n as [|n]; [by left|right].
    pose proof (Hm 0%nat ltac:(lia)) as H0. pose proof (Hm n ltac:(lia)) as Hn.
    case_decide; [|by destruct H0]. case_decide; [|by destruct Hn]. lia.
  - intros [->|Ht] k Hk; [lia|]. rewrite decide_True by lia. by eexists.
Qed.

#[global] Instance ret_emulator_laws : UnicornLaws machine unit.
Proof.
  split; simpl.
  - done.
  - intros uc [= <-]. split; [|done]. intros x. unfold byte. simpl. by rewrite decide_False by lia.
  - intros uc a n uc'. case_decide as Hd; [|done]. intros [= <-]. split; [|done]. intros x. unfold byte. simpl.
    destruct Hd as (-> & -> & Hn). rewrite (decide_False (P := 0 <= x < 0)) by lia.
    case_decide; [split; [intros _; right; lia|by eexists]|]. split; [by intros []|intros [[]|?]; [done|lia]].
  - intros uc a bs Hm%mapped_in_memory. rewrite decide_True by done. by eexists.
  - intros uc a bs uc'. case_decide as Hd; [|done]. intros [= <-]. split_and!; [by apply mapped_in_memory| |done..].
    intros x. unfold byte. simpl. rewrite lookup_write. unfold written.
    destruct (decide (a <= x < a + Z.of_nat (length bs))) as [Hx|]; [|done].
    destruct Hd as [Hz|Hd]; [lia|]. rewrite decide_True by lia.
    destruct (lookup_lt_is_Some_2 bs (Z.to_nat (x - a))) as [b ->]; [lia|done].
  - intros uc a n Hm%mapped_in_memory. rewrite decide_True by done. eexists. split; [done|].
    rewrite length_map, length_seq. split; [done|]. intros k Hk.
    unfold byte. destruct Hm as [->|Hm]; [lia|]. rewrite decide_True by lia.
    change (map ?f ?l) with (f <$> l). rewrite list_lookup_fmap, lookup_seq_lt by done. done.
  - done.
  - intros. by eexists.
  - intros uc r v uc' [= <-]. simpl. split_and!; [|intros r' _ Hr|done..].
    + by rewrite lookup_insert_eq.
    + by rewrite lookup_insert_ne.
  - intros. by eexists _, _.
  - intros uc b e h uc' [= <- <-]. split_and!; [apply fresh_not_in|done..].
  - intros uc h uc' [= <-]. done.
  - intros uc b e calls uc' r [= <- <- _]. done.
Qed.
End RetEmulator.

