(* ===== verification/EmulatorRuns.v ===== *)
(** * The emulated runs ([parawasm_tests/src/testing.rs])

    What a test can reach with the emulator: the layout invariant of the loaded
    modules, what a call starts from, what it counts, and the stack. *)
From S2P Require Import Prelude X86 Assembler ModuleApi Emulator.

(** ** Reachable worlds *)
Section Reachable.
Context {UC UE A IE MT : Type} `{Unicorn UC UE} `{Assembler A IE} `{Profile} `{ByteOrder}.
Context `{!UnicornLaws UC UE} `{!ByteOrderLaws}.
Abbreviation M := (EM UC MT (Error UE IE)).
Abbreviation W := (world UC MT).
Abbreviation R := (Res (Error UE IE)).

(** What a test can do: make an emulator, load modules (with well-formed import
    slots, as compilations leave them) and memory, link imports of loaded
    modules through their handles, call functions, use the stack and registers.
    The outcome of a step does not matter, failed operations included. *)
Inductive reachable : W -> Prop :=
  | r_new emu : (emulator_new : R _) = Ok emu -> reachable (mkWorld emu [])
  | r_add_module w module : reachable w -> slots_wf module ->
      reachable (fst ((add_module module : M _) w))
  | r_add_memory w mem : reachable w -> reachable (fst ((add_memory mem : M _) w))
  | r_link w h c m f addr module : reachable w -> cells w !! h = Some c ->
      (link_import (emu_module c) m f addr : R _) = Ok module ->
      reachable (mkWorld (self w) (<[h := mkCell (offset c) module (executed_instructions c)]> (cells w)))
  | r_call w {I} `{FunctionIdentifier I} h (identifier : I) : reachable w ->
      reachable (fst ((call_function h identifier : M _) w))
  | r_push w value : reachable w -> reachable (fst ((push value : M _) w))
  | r_pop w : reachable w -> reachable (fst ((pop : M _) w))
  | r_write_register w r value : reachable w -> reachable (fst ((write_register r value : M _) w)).

(** The layout: every handle has a cell, the modules lie one after the other
    behind the trampoline and below [module_offset], in mapped memory, and every
    live hook has its closure. *)
Record emu_wf (w : W) : Prop := {
  wf_handles : modules (self w) = seq 0 (length (cells w));
  wf_trampoline : trampoline_offset (self w) = 0 /\ 0 <= trampoline_len (self w);
  wf_chain : chain (trampoline_len (self w)) (cells w) (module_offset (self w));
  wf_top : module_offset (self w) <= memory_size;
  wf_mapped x : is_Some (uc_byte (emulator (self w)) x) <-> 0 <= x < memory_size;
  wf_slots : Forall (fun c => slots_wf (emu_module c)) (cells w);
  wf_hooks h : h ∈ uc_hooks (emulator (self w)) <-> is_Some (closures (self w) !! h) }.

Lemma em_bind_ok {B C} (f : B -> M C) (m : M B) w w1 b : m w = (w1, Ok b) -> mbind f m w = f b w1.
Proof. unfold mbind, em_bind. by intros ->. Qed.

Lemma em_bind_inv {B C} (f : B -> M C) (m : M B) w w' c :
  mbind f m w = (w', Ok c) -> ∃ w1 b, m w = (w1, Ok b) /\ f b w1 = (w', Ok c).
Proof. unfold mbind, em_bind. destruct (m w) as [w1 [b| |]]; [|done..]. by exists w1, b. Qed.

(** Computations that keep a property of the world whatever their outcome. *)
Definition keeps {B} (P : W -> Prop) (m : M B) : Prop := ∀ w, P w -> P (fst (m w)).

Lemma keeps_bind {B C} P (m : M B) (f : B -> M C) :
  keeps P m -> (∀ b, keeps P (f b)) -> keeps P (mbind f m).
Proof.
  intros Hm Hf w Hw. unfold mbind, em_bind. specialize (Hm w Hw).
  destruct (m w) as [w1 [b| |]]; [by apply Hf|done..].
Qed.

Lemma keeps_ret {B} P (b : B) : keeps P (mret b : M B).
Proof. by intros w. Qed.
Lemma keeps_lift {B} P (r : R B) : keeps P (lift r).
Proof. by intros w. Qed.
Lemma keeps_get {B} P (f : W -> B) : keeps P (get f).
Proof. by intros w. Qed.
Lemma keeps_query {B} P (f : UC -> UE + B) : keeps P (uc_query f).
Proof. by intros w. Qed.
Lemma keeps_borrow P h : keeps P (borrow h).
Proof. by intros w. Qed.

(** The machine may change as long as its mapped memory and its hooks do not. *)
Lemma wf_set_emulator (w : W) uc :
  emu_wf w -> (∀ x, is_Some (uc_byte uc x) <-> is_Some (uc_byte (emulator (self w)) x)) ->
  uc_hooks uc = uc_hooks (emulator (self w)) -> emu_wf (mkWorld (set_emulator uc (self w)) (cells w)).
Proof.
  intros [] Hb Hh. split; simpl; [done..| |done|].
  - intros x. by rewrite Hb.
  - intros h. by rewrite Hh.
Qed.

Lemma written_mapped (uc : UC) a bs x :
  mapped uc a (length bs) -> is_Some (written a bs (uc_byte uc) x) <-> is_Some (uc_byte uc x).
Proof.
  intros Hm. unfold written. case_decide as Hx; [|done].
  rewrite lookup_lt_is_Some. specialize (Hm (Z.to_nat (x - a)) ltac:(lia)).
  replace (a + Z.of_nat (Z.to_nat (x - a))) with x in Hm by lia. split; [done|lia].
Qed.

Lemma keeps_mem_write a bs : keeps emu_wf (uc_update (fun uc => mem_write uc a bs)).
Proof.
  intros w Hw. unfold uc_update. destruct (mem_write _ a bs) as [e|uc] eqn:E; [done|].
  apply law_mem_written in E as (Hm & Hb & _ & Hh). apply wf_set_emulator; [done| |done].
  intros x. rewrite Hb. by apply written_mapped.
Qed.

Lemma keeps_reg_write r v : keeps emu_wf (uc_update (fun uc => reg_write uc r v)).
Proof.
  intros w Hw. unfold uc_update. destruct (reg_write _ r v) as [e|uc] eqn:E; [done|].
  apply law_reg_written in E as (_ & _ & Hb & Hh). apply wf_set_emulator; [done| |done].
  intros x. by rewrite Hb.
Qed.

Lemma keeps_update_modules l : keeps emu_wf (update_modules l : M unit).
Proof.
  induction l as [|h l IH]; [apply keeps_ret|]. apply keeps_bind; [|done].
  apply keeps_bind; [apply keeps_borrow|]. intros m. apply keeps_mem_write.
Qed.

Lemma keeps_add_hook : keeps emu_wf (add_hook : M Z).
Proof.
  intros w [?????? Hhooks]. unfold add_hook. destruct (add_code_hook _ 0 u64_max) as [e|[h uc]] eqn:E; [done|].
  apply law_hook_added in E as (Hnew & Hh & Hb & _). split; simpl; [done..| |done|].
  - intros x. by rewrite Hb.
  - intros h'. rewrite Hh, elem_of_app, list_elem_of_singleton, lookup_insert_is_Some', Hhooks.
    split; (intros [?|?]; [auto|auto]).
Qed.

Lemma keeps_drop_hook h : keeps emu_wf (drop_hook h : M unit).
Proof.
  intros w [?????? Hhooks]. unfold drop_hook. destruct (remove_hook _ h) as [e|uc] eqn:E; [done|].
  apply law_hook_removed in E as [Hh Hb]. split; simpl; [done..| |done|].
  - intros x. by rewrite Hb.
  - intros h'. rewrite Hh, list_elem_of_filter, lookup_delete_is_Some, Hhooks.
    split; intros [? ?]; auto.
Qed.

(** Counting keeps the layout. *)
Lemma wf_set_cells (w : W) cs :
  emu_wf w -> Forall2 same_place (cells w) cs -> Forall (fun c => slots_wf (emu_module c)) cs ->
  emu_wf (mkWorld (self w) cs).
Proof.
  intros [] Hs Hsl. split; simpl; [|done| |done..].
  - by rewrite <- (Forall2_length _ _ _ Hs).
  - by eapply chain_same_place.
Qed.

Lemma keeps_emulate b e : keeps emu_wf (emulate b e : M unit).
Proof.
  intros w Hw. unfold emulate. destruct (emu_start _ b e 0 0) as [[calls uc] r] eqn:E.
  apply law_emu_start in E as (_ & Hh & Hb).
  assert (Hw' : emu_wf (mkWorld (set_emulator uc (self w)) (cells w))) by by apply wf_set_emulator.
  destruct (run_hooks _ calls _) as [cs| |] eqn:Hr; [|done..].
  apply run_hooks_keeps in Hr as [Hs Hm]. apply (wf_set_cells _ cs Hw' Hs).
  change (Forall (slots_wf ∘ emu_module) cs). apply Forall_fmap. change (emu_module <$> cs) with (map emu_module cs).
  rewrite Hm. apply (proj2 (Forall_fmap _ _ _)), wf_slots. done.
Qed.

(** Where a piece of memory has been written there was room for it. *)
Lemma mem_write_room (w : W) bs uc :
  emu_wf w -> mem_write (emulator (self w)) (module_offset (self w)) bs = inr uc ->
  0 <= module_offset (self w) /\ module_offset (self w) + Z.of_nat (length bs) <= memory_size.
Proof.
  intros Hw (Hm & _)%law_mem_written. pose proof (wf_top w Hw). pose proof (chain_le _ _ _ (wf_chain w Hw)).
  destruct (wf_trampoline w Hw). split; [lia|]. destruct (decide (length bs = 0%nat)); [lia|].
  specialize (Hm (length bs - 1)%nat ltac:(lia)). rewrite (wf_mapped w Hw) in Hm. lia.
Qed.

Definition set_module_offset (off : Z) (w : W) : W :=
  let s := self w in
  mkWorld (mkEmulator (emulator s) (closures s) off (trampoline_len s) (trampoline_offset s) (modules s)) (cells w).

Lemma add_to_module_offset_ok (w : W) n :
  emu_wf w -> 0 <= n -> module_offset (self w) + n <= memory_size ->
  (add_to_module_offset n : M unit) w = (set_module_offset (module_offset (self w) + n) w, Ok tt) /\
  emu_wf (set_module_offset (module_offset (self w) + n) w).
Proof.
  intros Hw Hn Ht. pose proof (chain_le _ _ _ (wf_chain w Hw)). destruct (wf_trampoline w Hw).
  split.
  - unfold add_to_module_offset. erewrite em_bind_ok by reflexivity.
    by erewrite em_bind_ok by (unfold lift; rewrite u64_arith_ok by (unfold memory_size, u64_max in *; lia); reflexivity).
  - destruct Hw. split; simpl; try done. eapply chain_weaken; [|done]. lia.
Qed.

Lemma keeps_add_memory bs : keeps emu_wf (add_memory bs : M Z).
Proof.
  intros w Hw. unfold add_memory. erewrite em_bind_ok by reflexivity.
  pose proof (keeps_mem_write (module_offset (self w)) bs w Hw) as Hw1.
  unfold mbind at 1, em_bind at 1. unfold uc_update in Hw1 |- *.
  destruct (mem_write _ _ bs) as [e|uc] eqn:E; [done|]. destruct (mem_write_room w bs uc Hw E).
  destruct (add_to_module_offset_ok _ (Z.of_nat (length bs)) Hw1) as [E2 Hw2]; [lia|done|].
  by erewrite em_bind_ok by exact E2.
Qed.

Lemma keeps_add_module m : slots_wf m -> keeps emu_wf (add_module m : M nat).
Proof.
  intros Hm w Hw. unfold add_module. erewrite em_bind_ok by reflexivity.
  pose proof (keeps_mem_write (module_offset (self w)) (binary m) w Hw) as Hw1.
  unfold mbind at 1, em_bind at 1. unfold uc_update in Hw1 |- *.
  destruct (mem_write _ _ (binary m)) as [e|uc] eqn:E; [done|]. destruct (mem_write_room w _ uc Hw E).
  destruct (add_to_module_offset_ok _ (Z.of_nat (length (binary m))) Hw1) as [E2 Hw2]; [lia|done|].
  erewrite em_bind_ok by exact E2. destruct Hw2. split; simpl in *; [|done| |done..| |done].
  - by rewrite wf_handles0, length_app, seq_app.
  - apply (chain_snoc _ _ _ (mkCell (module_offset (self w)) m ∅) (wf_chain w Hw)). done.
  - apply Forall_app. split; [done|]. by apply Forall_singleton.
Qed.

Lemma keeps_prepare_call {I} `{FunctionIdentifier I} h (identifier : I) :
  keeps emu_wf (prepare_call h identifier : M Z).
Proof.
  unfold prepare_call. apply keeps_bind; [apply keeps_borrow|intros m].
  apply keeps_bind; [apply keeps_lift|intros o]. apply keeps_bind; [apply keeps_get|intros ms].
  apply keeps_bind; [apply keeps_update_modules|intros _]. apply keeps_bind; [apply keeps_add_hook|intros hook].
  apply keeps_bind; [apply keeps_lift|intros addr]. apply keeps_bind; [apply keeps_reg_write|intros _].
  apply keeps_ret.
Qed.

Lemma keeps_call_function {I} `{FunctionIdentifier I} h (identifier : I) :
  keeps emu_wf (call_function h identifier : M unit).
Proof.
  unfold call_function. apply keeps_bind; [apply keeps_prepare_call|intros hook].
  apply keeps_bind; [apply keeps_get|intros b]. apply keeps_bind; [apply keeps_get|intros l].
  apply keeps_bind; [apply keeps_lift|intros e]. apply keeps_bind; [apply keeps_emulate|intros _].
  apply keeps_drop_hook.
Qed.

Lemma keeps_push v : keeps emu_wf (push v : M unit).
Proof.
  unfold push. apply keeps_bind; [apply keeps_query|intros sp]. apply keeps_bind; [apply keeps_lift|intros sp'].
  apply keeps_bind; [apply keeps_reg_write|intros _]. apply keeps_mem_write.
Qed.

Lemma keeps_pop : keeps emu_wf (pop : M Z).
Proof.
  unfold pop. apply keeps_bind; [apply keeps_query|intros sp]. apply keeps_bind; [apply keeps_query|intros buf].
  apply keeps_bind; [apply keeps_lift|intros sp']. apply keeps_bind; [apply keeps_reg_write|intros _].
  apply keeps_ret.
Qed.

Lemma emulation_inv {B} (r : UE + B) b : (emulation r : R B) = Ok b -> r = inr b.
Proof. destruct r; [done|]. by intros <-%Ok_inj. Qed.

Lemma new_wf emu : (emulator_new : R _) = Ok emu -> emu_wf (mkWorld emu []).
Proof.
  unfold emulator_new. intros Hn.
  res_step Hn as uc0 E0. res_step Hn as uc1 E1. res_step Hn as a0 E2. res_step Hn as a1 E3.
  res_step Hn as a2 E4. res_step Hn as tr E5. res_step Hn as uc2 E6. res_step Hn as uc3 E7.
  res_step Hn as off E8. apply Ok_inj in Hn as <-.
  apply emulation_inv, law_uc_new in E0 as [Hb0 Hh0]. apply emulation_inv, law_mem_map in E1 as [Hb1 Hh1].
  apply emulation_inv, law_mem_written in E6 as (Hm & Hb2 & _ & Hh2).
  apply emulation_inv, law_reg_written in E7 as (_ & _ & Hb3 & Hh3).
  assert (Hmap : ∀ x, is_Some (uc_byte uc1 x) <-> 0 <= x < memory_size).
  { intros x. rewrite Hb1, Hb0, is_Some_alt. unfold memory_size. split; [intros [?|?]; [done|lia]|auto]. }
  assert (Hlen : Z.of_nat (length tr) <= memory_size).
  { destruct (decide (length tr = 0%nat)) as [Hz|]; [by rewrite Hz|].
    specialize (Hm (length tr - 1)%nat ltac:(lia)). rewrite Hmap in Hm. lia. }
  rewrite u64_arith_ok in E8 by (unfold memory_size, u64_max in *; lia). apply Ok_inj in E8 as <-.
  split; simpl; [done|lia|lia|lia| |done|].
  - intros x. rewrite Hb3, Hb2, <- Hmap. by apply written_mapped.
  - intros h. rewrite Hh3, Hh2, Hh1, Hh0, lookup_empty, is_Some_alt. split; [by intros ?%not_elem_of_nil|done].
Qed.

Lemma reachable_wf w : reachable w -> emu_wf w.
Proof.
  induction 1 as [emu Hn|w m _ Hw Hm|w bs _ Hw|w h c m f addr c' _ Hw Hc Hl|w I ? h id _ Hw|w v _ Hw|w _ Hw|w r v _ Hw].
  - by apply new_wf.
  - by apply keeps_add_module.
  - by apply keeps_add_memory.
  - pose proof (wf_slots w Hw) as Hs. rewrite Forall_forall in Hs.
    pose proof (Hs c (list_elem_of_lookup_2 _ _ _ Hc)) as Hcs.
    destruct (link_import_wf _ _ _ _ _ Hcs Hl) as (Hs' & Hm' & Hlen).
    apply wf_set_cells; [done| |].
    + eapply same_place_insert; [done|]. split; [done|]. unfold module_len, binary. simpl. by rewrite Hlen.
    + apply Forall_insert; [by apply Forall_forall|done].
  - by apply keeps_call_function.
  - by apply keeps_push.
  - by apply keeps_pop.
  - by apply keeps_reg_write.
Qed.

(** ** Loading *)

(** The machine holds the module's current binary at its offset. *)
Definition holds (uc : UC) (c : EmuModule MT) : Prop :=
  ∀ k b, binary (emu_module c) !! k = Some b -> uc_byte uc (offset c + Z.of_nat k) = Some b.

Lemma written_holds (uc uc' : UC) (c : EmuModule MT) :
  (∀ x, uc_byte uc' x = written (offset c) (binary (emu_module c)) (uc_byte uc) x) -> holds uc' c.
Proof.
  intros Hb k b Hk. pose proof (lookup_lt_Some _ _ _ Hk). rewrite Hb. unfold written.
  rewrite decide_True by lia. rewrite <- Hk. f_equal. lia.
Qed.

Lemma written_elsewhere (uc uc' : UC) (c c' : EmuModule MT) :
  module_end c <= offset c' \/ module_end c' <= offset c ->
  (∀ x, uc_byte uc' x = written (offset c) (binary (emu_module c)) (uc_byte uc) x) ->
  holds uc c' -> holds uc' c'.
Proof.
  intros Hd Hb Hc k b Hk. pose proof (lookup_lt_Some _ _ _ Hk). rewrite Hb. unfold written.
  unfold module_end, module_len in Hd. rewrite decide_False by lia. by apply Hc.
Qed.

Lemma module_mapped (w : W) i c :
  emu_wf w -> cells w !! i = Some c ->
  0 <= offset c /\ module_end c <= memory_size /\
  mapped (emulator (self w)) (offset c) (length (binary (emu_module c))).
Proof.
  intros Hw Hc. destruct (chain_lookup _ _ _ _ _ (wf_chain w Hw) Hc). pose proof (wf_top w Hw).
  destruct (wf_trampoline w Hw). split_and!; [lia|lia|]. intros k Hk. apply (wf_mapped w Hw).
  unfold module_end, module_len in *. lia.
Qed.

Lemma modules_apart (w : W) i j c c' :
  emu_wf w -> i <> j -> cells w !! i = Some c -> cells w !! j = Some c' ->
  module_end c <= offset c' \/ module_end c' <= offset c.
Proof.
  intros Hw Hij Hi Hj. pose proof (wf_chain w Hw) as Hc. destruct (decide (i < j)%nat).
  - left. by eapply (chain_apart _ _ _ i j).
  - right. eapply (chain_apart _ _ _ j i); [done|lia|done..].
Qed.

Lemma update_module_loads (w : W) h c :
  emu_wf w -> cells w !! h = Some c ->
  ∃ uc, (update_module h : M unit) w = (mkWorld (set_emulator uc (self w)) (cells w), Ok tt) /\
    emu_wf (mkWorld (set_emulator uc (self w)) (cells w)) /\
    uc_reg uc = uc_reg (emulator (self w)) /\ uc_hooks uc = uc_hooks (emulator (self w)) /\
    ∀ x, uc_byte uc x = written (offset c) (binary (emu_module c)) (uc_byte (emulator (self w))) x.
Proof.
  intros Hw Hc. destruct (module_mapped w h c Hw Hc) as (_ & _ & Hm).
  destruct (law_mem_write _ _ _ Hm) as [uc E]. exists uc. unfold update_module.
  rewrite (em_bind_ok _ _ w w c) by (unfold borrow; by rewrite Hc).
  pose proof (keeps_mem_write (offset c) (binary (emu_module c)) w Hw) as Hw'.
  unfold uc_update in *. rewrite E in *. by apply law_mem_written in E as (_ & Hb & Hr & Hh).
Qed.

Lemma update_modules_load l (w : W) :
  emu_wf w -> Forall (fun h => (h < length (cells w))%nat) l ->
  ∃ uc, (update_modules l : M unit) w = (mkWorld (set_emulator uc (self w)) (cells w), Ok tt) /\
    uc_reg uc = uc_reg (emulator (self w)) /\ uc_hooks uc = uc_hooks (emulator (self w)) /\
    (∀ i c, cells w !! i = Some c -> i ∈ l \/ holds (emulator (self w)) c -> holds uc c) /\
    (∀ x, (∀ i c, cells w !! i = Some c -> ~ offset c <= x < module_end c) ->
       uc_byte uc x = uc_byte (emulator (self w)) x).
Proof.
  intros Hw Hl. revert w Hw Hl. induction l as [|h l IH]; intros w Hw Hl.
  - exists (emulator (self w)). destruct w as [[] ?]. split_and!; [done..| |done].
    intros i c _ [Hi|]; [by apply not_elem_of_nil in Hi|done].
  - apply Forall_cons in Hl as [Hh Hl]. apply lookup_lt_is_Some in Hh as [c Hc].
    destruct (update_module_loads w h c Hw Hc) as (uc1 & E1 & Hw1 & Hr1 & Hh1 & Hb1).
    destruct (IH _ Hw1 Hl) as (uc & E & Hr & Hh & Hhold & Hb). simpl in *. exists uc.
    rewrite (em_bind_ok _ _ _ _ _ E1), E. split_and!; [done|congruence|congruence| |].
    + intros i c' Hi Hor. apply (Hhold i c' Hi). destruct (decide (i = h)) as [->|Hne].
      * right. assert (c' = c) as -> by congruence. by eapply written_holds.
      * destruct Hor as [Hin|Hold]; [left; by apply elem_of_cons in Hin as [->|]|right].
        eapply written_elsewhere; [by apply (modules_apart w h i)|done|done].
    + intros x Hx. rewrite Hb by done. rewrite Hb1. unfold written.
      rewrite decide_False; [done|]. exact (Hx h c Hc).
Qed.

Lemma prepare_call_loads {I} `{FunctionIdentifier I} (w : W) h (identifier : I) m entry :
  emu_wf w -> cells w !! h = Some m ->
  function_entry_point (ModuleApi.module (emu_module m)) identifier = Some entry ->
  0 <= entry <= module_len m ->
  ∃ w' hook, (prepare_call h identifier : M Z) w = (w', Ok hook) /\
    cells w' = cells w /\ closures (self w') = <[hook := modules (self w)]> (closures (self w)) /\
    trampoline_offset (self w') = trampoline_offset (self w) /\
    trampoline_len (self w') = trampoline_len (self w) /\
    (hook ∉ uc_hooks (emulator (self w))) /\
    uc_hooks (emulator (self w')) = uc_hooks (emulator (self w)) ++ [hook] /\
    uc_reg (emulator (self w')) uc_R10 = offset m + entry /\
    uc_reg (emulator (self w')) uc_RSP = uc_reg (emulator (self w)) uc_RSP /\
    (∀ i c, cells w !! i = Some c -> holds (emulator (self w')) c) /\
    (∀ x, (∀ i c, cells w !! i = Some c -> ~ offset c <= x < module_end c) ->
       uc_byte (emulator (self w')) x = uc_byte (emulator (self w)) x).
Proof.
  intros Hw Hm Hf He. destruct (module_mapped w h m Hw Hm) as (Ho & Htop & _).
  destruct (update_modules_load (modules (self w)) w Hw) as (uc & E & Hr & Hh & Hhold & Hb).
  { rewrite (wf_handles w Hw). apply Forall_forall. intros i Hi%elem_of_seq. lia. }
  unfold prepare_call. rewrite (em_bind_ok _ _ w w m) by (unfold borrow; by rewrite Hm). rewrite Hf.
  rewrite (em_bind_ok _ _ w w entry) by done. rewrite (em_bind_ok _ _ w w (modules (self w))) by done.
  rewrite (em_bind_ok _ _ _ _ _ E). destruct (law_add_hook uc) as (hook & uc1 & E1).
  erewrite em_bind_ok by (unfold add_hook; simpl; rewrite E1; reflexivity).
  erewrite em_bind_ok by (unfold lift; rewrite u64_arith_ok by
    (unfold module_end, memory_size, u64_max in *; lia); reflexivity).
  apply law_hook_added in E1 as (Hnew & Hh1 & Hb1 & Hr1).
  destruct (law_reg_write uc1 uc_R10 (offset m + entry)) as [uc2 E2];
    [by right|unfold module_end, memory_size in *; lia|].
  erewrite em_bind_ok by (unfold uc_update; simpl; rewrite E2; reflexivity).
  apply law_reg_written in E2 as (Hr2 & Hr2' & Hb2 & Hh2).
  eexists _, hook. split; [reflexivity|]. simpl. rewrite Hh2, Hh1, Hh in *.
  split_and!; [done..|by apply Hr2; right| | |].
  - rewrite Hr2', Hr1, Hr by (by left || apply law_registers). done.
  - intros i c Hi k b Hk. rewrite Hb2, Hb1. apply (Hhold i c Hi); [left|done].
    rewrite (wf_handles w Hw), elem_of_seq. apply lookup_lt_Some in Hi. lia.
  - intros x Hx. rewrite Hb2, Hb1. by apply Hb.
Qed.

(** ** Attribution *)

(** An address belongs to the first module it lies in, where a module extends to
    one byte behind its last. *)
Lemma matching_module_first (w : W) j c a :
  emu_wf w -> cells w !! j = Some c -> offset c <= a <= module_end c ->
  (∀ i c', (i < j)%nat -> cells w !! i = Some c' -> module_end c' < a) ->
  matching_module (cells w) (modules (self w)) a = Some j.
Proof.
  intros Hw Hc Ha Hlt. rewrite (wf_handles w Hw). pose proof (lookup_lt_Some _ _ _ Hc) as Hj.
  replace (length (cells w)) with (j + S (length (cells w) - S j))%nat by lia.
  rewrite seq_app. simpl. apply find_map_first.
  - apply Forall_forall. intros i Hi%elem_of_seq. destruct (cells w !! i) as [c'|] eqn:Hi'; [|done].
    pose proof (Hlt i c' ltac:(lia) Hi') as Hlt'. unfold module_end, module_len in Hlt'.
    cbv zeta. by rewrite (proj2 (Z.leb_gt a _)), andb_false_r by done.
  - rewrite Hc. cbv zeta. unfold module_end, module_len in Ha.
    by rewrite (proj2 (Z.leb_le (offset c) a)), (proj2 (Z.leb_le a _)) by lia.
Qed.

(** The addresses executed by a call that starts in the prepared world [w]. *)
Definition trace (w : W) : list Z :=
  uc_executed (emulator (self w)) (trampoline_offset (self w)) (trampoline_offset (self w) + trampoline_len (self w)).

(** What a successful call counts: every hook in place counts every executed
    instruction for the module its address is attributed to. *)
Lemma call_function_counts {I} `{FunctionIdentifier I} (w w' : W) h (identifier : I) m entry :
  overflow_checks = true -> emu_wf w -> cells w !! h = Some m ->
  function_entry_point (ModuleApi.module (emu_module m)) identifier = Some entry ->
  0 <= entry <= module_len m ->
  (∀ hook captured, closures (self w) !! hook = Some captured -> captured = modules (self w)) ->
  (call_function h identifier : M unit) w = (w', Ok tt) ->
  ∃ w1 hook, (prepare_call h identifier : M Z) w = (w1, Ok hook) /\
    uc_hooks (emulator (self w')) = uc_hooks (emulator (self w)) /\
    ∀ j c, cells w !! j = Some c -> ∃ c', cells w' !! j = Some c' /\ ∀ o,
      instruction_execution_count c' o = instruction_execution_count c o +
        (if decide (matching_module (cells w) (modules (self w)) (offset c + o) = Some j)
         then Z.of_nat (S (length (uc_hooks (emulator (self w))))) * occurrences (offset c + o) (trace w1) else 0).
Proof.
  intros Hov Hw Hm Hf He Hcl Hcall.
  destruct (prepare_call_loads w h identifier m entry Hw Hm Hf He)
    as (w1 & hook & E & Hc1 & Hcl1 & Hto & Htl & Hnew & Hh1 & _).
  exists w1, hook. split; [done|]. unfold call_function in Hcall. rewrite (em_bind_ok _ _ _ _ _ E) in Hcall.
  pose proof (keeps_prepare_call h identifier w Hw) as Hw1. rewrite E in Hw1. simpl in Hw1.
  rewrite (em_bind_ok _ _ w1 w1 (trampoline_offset (self w1))) in Hcall by done.
  rewrite (em_bind_ok _ _ w1 w1 (trampoline_len (self w1))) in Hcall by done.
  apply em_bind_inv in Hcall as (w1' & until & El & Hcall). injection El as <- ->%u64_arith_exact; [|done].
  apply em_bind_inv in Hcall as (w2 & [] & E2 & Hcall). unfold emulate in E2.
  destruct (emu_start _ _ _ 0 0) as [[calls uc] r] eqn:Es. apply law_emu_start in Es as (Hcalls & Hh & _).
  destruct (run_hooks _ calls _) as [cs| |] eqn:Hr; [|done..].
  destruct r; [done|]. injection E2 as <-. unfold drop_hook in Hcall. simpl in Hcall.
  destruct (remove_hook uc hook) as [|uc'] eqn:Ed; [done|]. injection Hcall as <-. simpl.
  apply law_hook_removed in Ed as [Hhd _]. split.
  - rewrite Hhd, Hh, Hh1, filter_app, filter_cons_False, filter_nil, app_nil_r by by intros [].
    by apply filter_ne_absent.
  - intros j c Hc. rewrite <- Hc1 in Hc. simpl in Hr.
    eapply (run_hooks_counts _ (modules (self w))) in Hr as (c' & Hc' & _ & Hn); [|done| |exact Hc].
    + exists c'. split; [done|]. intros o. rewrite Hn, Hc1. case_decide; [|done].
      by rewrite Hcalls, occurrences_calls, Hh1, length_app, Nat.add_comm.
    + rewrite Hcl1, Hcalls. apply (calls_from_hooks (fun h' => _ !! h' = _)). apply Forall_forall.
      intros h' Hin. rewrite Hh1 in Hin. apply elem_of_app in Hin as [Hin|Hin%list_elem_of_singleton].
      * rewrite lookup_insert_ne by by intros ->. apply (wf_hooks w Hw) in Hin as [captured Hcap].
        by rewrite Hcap, (Hcl _ _ Hcap).
      * by rewrite Hin, lookup_insert_eq.
Qed.

(** ** The stack *)
Lemma push_spec (w : W) v :
  let sp := uc_reg (emulator (self w)) uc_RSP in
  emu_wf w -> 8 <= sp <= memory_size ->
  ∃ w', (push v : M unit) w = (w', Ok tt) /\ cells w' = cells w /\
    uc_reg (emulator (self w')) uc_RSP = sp - 8 /\
    ∀ x, uc_byte (emulator (self w')) x = written (sp - 8) (le_bytes 8 v) (uc_byte (emulator (self w))) x.
Proof.
  intros sp Hw Hsp. unfold push.
  rewrite (em_bind_ok _ _ w w sp) by (unfold uc_query; by rewrite law_reg_read by by left).
  erewrite em_bind_ok by (unfold lift; rewrite u64_arith_ok by (unfold memory_size, u64_max in *; lia); reflexivity).
  destruct (law_reg_write (emulator (self w)) uc_RSP (sp - 8)) as [uc1 E1];
    [by left|unfold memory_size in *; lia|].
  erewrite em_bind_ok by (unfold uc_update; rewrite E1; reflexivity).
  apply law_reg_written in E1 as (Hr1 & _ & Hb1 & _). rewrite law_write_u64 by done.
  destruct (law_mem_write uc1 (sp - 8) (le_bytes 8 v)) as [uc2 E2].
  { intros k Hk. rewrite length_le_bytes in Hk. rewrite Hb1. apply (wf_mapped w Hw). lia. }
  unfold uc_update, set_emulator. cbn [self emulator]. rewrite E2. eexists. split; [reflexivity|].
  apply law_mem_written in E2 as (_ & Hb2 & Hr2 & _). simpl. split_and!; [done| |].
  - rewrite Hr2. apply Hr1. by left.
  - intros x. by rewrite Hb2, Hb1.
Qed.

Lemma pop_spec (w : W) v :
  let sp := uc_reg (emulator (self w)) uc_RSP in
  emu_wf w -> 0 <= sp -> sp + 8 <= memory_size -> 0 <= v < 2 ^ 64 ->
  (∀ k, (k < 8)%nat -> uc_byte (emulator (self w)) (sp + Z.of_nat k) = le_bytes 8 v !! k) ->
  ∃ w', (pop : M Z) w = (w', Ok v) /\ cells w' = cells w /\
    uc_reg (emulator (self w')) uc_RSP = sp + 8 /\
    uc_byte (emulator (self w')) = uc_byte (emulator (self w)).
Proof.
  intros sp Hw Hsp Htop Hv Hbytes. unfold pop.
  rewrite (em_bind_ok _ _ w w sp) by (unfold uc_query; by rewrite law_reg_read by by left).
  destruct (law_mem_read (emulator (self w)) sp 8) as (bs & E & Hl & Hbs).
  { intros k Hk. apply (wf_mapped w Hw). lia. }
  assert (bs = le_bytes 8 v) as ->.
  { apply list_eq. intros k. destruct (decide (k < 8)%nat).
    - rewrite Hbs by done. by apply Hbytes.
    - by rewrite !lookup_ge_None_2 by (rewrite ?Hl, ?length_le_bytes; lia). }
  rewrite (em_bind_ok _ _ w w (le_bytes 8 v)) by (unfold uc_query; by rewrite E).
  erewrite em_bind_ok by (unfold lift; rewrite u64_arith_ok by (unfold memory_size, u64_max in *; lia); reflexivity).
  destruct (law_reg_write (emulator (self w)) uc_RSP (sp + 8)) as [uc1 E1];
    [by left|unfold memory_size in *; lia|].
  erewrite em_bind_ok by (unfold uc_update; rewrite E1; reflexivity).
  rewrite law_read_u64 by done. eexists. split; [reflexivity|].
  apply law_reg_written in E1 as (Hr1 & _ & Hb1 & _). split_and!; [done|apply Hr1; by left|done].
Qed.

Fixpoint push_all (vs : list Z) : M unit :=
  match vs with [] => mret tt | v :: vs => _ ← push v; push_all vs end.
Fixpoint pop_all (n : nat) : M (list Z) :=
  match n with O => mret [] | S n => vs ← pop_all n; v ← pop; mret (vs ++ [v]) end.

Lemma keeps_pop_all n : keeps emu_wf (pop_all n).
Proof.
  induction n as [|n IH]; [apply keeps_ret|]. apply keeps_bind; [done|intros vs].
  apply keeps_bind; [apply keeps_pop|intros v]. apply keeps_ret.
Qed.

Lemma keeps_push_all vs : keeps emu_wf (push_all vs).
Proof.
  induction vs as [|v vs IH]; [apply keeps_ret|]. apply keeps_bind; [apply keeps_push|done].
Qed.

Lemma push_all_pop_all vs (w : W) :
  let sp := uc_reg (emulator (self w)) uc_RSP in
  emu_wf w -> Forall (fun v => 0 <= v < 2 ^ 64) vs -> 8 * Z.of_nat (length vs) <= sp <= memory_size ->
  ∃ w1 w2, push_all vs w = (w1, Ok tt) /\ pop_all (length vs) w1 = (w2, Ok (reverse vs)) /\
    uc_reg (emulator (self w2)) uc_RSP = sp /\ cells w2 = cells w /\
    ∀ x, ~ sp - 8 * Z.of_nat (length vs) <= x < sp ->
      uc_byte (emulator (self w2)) x = uc_byte (emulator (self w)) x.
Proof.
  revert w. induction vs as [|v vs IH]; intros w sp Hw Hv Hsp; [by exists w, w|].
  apply Forall_cons in Hv as [Hv Hvs]. simpl length in *.
  destruct (push_spec w v Hw) as (w0 & E0 & Hc0 & Hr0 & Hb0); [fold sp; lia|].
  pose proof (keeps_push v w Hw) as Hw0. rewrite E0 in Hw0. simpl in Hw0.
  destruct (IH w0 Hw0 Hvs) as (w1 & w2 & E1 & E2 & Hr2 & Hc2 & Hb2); [rewrite Hr0; fold sp; lia|].
  pose proof (keeps_push_all vs w0 Hw0) as Hw1. rewrite E1 in Hw1. simpl in Hw1.
  pose proof (keeps_pop_all (length vs) w1 Hw1) as Hw2. rewrite E2 in Hw2. simpl in Hw2.
  rewrite Hr0 in Hr2, Hb2. fold sp in Hr2, Hb2, Hb0.
  destruct (pop_spec w2 v Hw2) as (w3 & E3 & Hc3 & Hr3 & Hb3); [rewrite Hr2; lia..|done| |].
  { intros k Hk. rewrite Hr2, Hb2 by lia. rewrite Hb0. unfold written. rewrite length_le_bytes.
    rewrite decide_True by lia. f_equal. lia. }
  exists w1, w3. rewrite Hr2 in Hr3. split_and!.
  - simpl. by rewrite (em_bind_ok _ _ _ _ _ E0).
  - simpl. rewrite (em_bind_ok _ _ _ _ _ E2), (em_bind_ok _ _ _ _ _ E3), reverse_cons. done.
  - rewrite Hr3. lia.
  - congruence.
  - intros x Hx. rewrite Hb3, Hb2 by lia. rewrite Hb0. unfold written. rewrite length_le_bytes.
    by rewrite decide_False by lia.
Qed.
End Reachable.

(** ** Properties *)
Section Properties.
Context {UC UE A IE MT : Type} `{Unicorn UC UE} `{Assembler A IE} `{Profile} `{ByteOrder}.
Context `{!UnicornLaws UC UE} `{!ByteOrderLaws}.
Abbreviation M := (EM UC MT (Error UE IE)).
Abbreviation W := (world UC MT).

(** C37: calling a function starts the emulation with the current code of every
    module.  From any world the operations can reach, [call_function] for a
    function without entry point returns [FunctionNotFound] and changes nothing;
    otherwise it runs the trampoline from a world where the machine holds the
    binary of each module, links made through the shared handles included, at the
    module's offset, the bytes outside the modules and the stack pointer are
    unchanged, and [r10] holds the function's address. *)
Theorem call_function_loads {I} `{FunctionIdentifier I} (w : W) h (identifier : I) m :
  reachable (A := A) (IE := IE) w -> cells w !! h = Some m ->
  match function_entry_point (ModuleApi.module (emu_module m)) identifier with
  | None => (call_function h identifier : M unit) w = (w, Err FunctionNotFound)
  | Some entry =>
      0 <= entry <= module_len m ->
      ∃ w1 hook, (call_function h identifier : M unit) w =
          (_ ← emulate 0 (trampoline_len (self w)); drop_hook hook : M unit) w1 /\
        cells w1 = cells w /\
        uc_reg (emulator (self w1)) uc_R10 = offset m + entry /\
        uc_reg (emulator (self w1)) uc_RSP = uc_reg (emulator (self w)) uc_RSP /\
        (∀ i c, cells w !! i = Some c -> holds (emulator (self w1)) c) /\
        (∀ x, (∀ i c, cells w !! i = Some c -> ~ offset c <= x < module_end c) ->
           uc_byte (emulator (self w1)) x = uc_byte (emulator (self w)) x)
  end.
Proof.
  intros Hw%reachable_wf Hm. destruct (function_entry_point _ identifier) as [entry|] eqn:Hf.
  - intros He. destruct (prepare_call_loads (IE := IE) w h identifier m entry Hw Hm Hf He)
      as (w1 & hook & E & Hc & _ & Hto & Htl & _ & _ & Hr & Hsp & Hhold & Hb).
    exists w1, hook. split_and!; [|done..]. unfold call_function. rewrite (em_bind_ok _ _ _ _ _ E).
    destruct (wf_trampoline w Hw) as [Hz Hlen]. pose proof (wf_top w Hw).
    pose proof (chain_le _ _ _ (wf_chain w Hw)).
    rewrite (em_bind_ok _ _ w1 w1 0) by (unfold get; by rewrite Hto, Hz).
    rewrite (em_bind_ok _ _ w1 w1 (trampoline_len (self w))) by (unfold get; by rewrite Htl).
    rewrite (em_bind_ok _ _ w1 w1 (trampoline_len (self w))); [done|].
    unfold lift. rewrite u64_arith_ok by (unfold memory_size, u64_max in *; lia). done.
  - unfold call_function, prepare_call, mbind, em_bind, borrow, lift. by rewrite Hm; simpl; rewrite Hf.
Qed.

(** C38: instructions are counted for the module they belong to.  When a call
    returns, the count of the instruction at [o] of a module has grown by the
    number of times its address was executed, times the number of hooks in place
    (one, plus one for every earlier call whose emulation failed), provided that
    no module loaded earlier ends exactly at that address. *)
Theorem instructions_counted {I} `{FunctionIdentifier I} (w w' : W) h (identifier : I) m entry j c o :
  overflow_checks = true -> reachable (A := A) (IE := IE) w -> cells w !! h = Some m ->
  function_entry_point (ModuleApi.module (emu_module m)) identifier = Some entry ->
  0 <= entry <= module_len m ->
  (∀ hook captured, closures (self w) !! hook = Some captured -> captured = modules (self w)) ->
  (call_function h identifier : M unit) w = (w', Ok tt) ->
  cells w !! j = Some c -> 0 <= o < module_len c ->
  (∀ i c', (i < j)%nat -> cells w !! i = Some c' -> module_end c' <> offset c + o) ->
  ∃ w1 hook c', (prepare_call h identifier : M Z) w = (w1, Ok hook) /\ cells w' !! j = Some c' /\
    instruction_execution_count c' o = instruction_execution_count c o +
      Z.of_nat (S (length (uc_hooks (emulator (self w))))) * occurrences (offset c + o) (trace w1).
Proof.
  intros Hov Hw%reachable_wf Hm Hf He Hcl Hcall Hc Ho Hend.
  destruct (call_function_counts (IE := IE) w w' h identifier m entry Hov Hw Hm Hf He Hcl Hcall) as (w1 & hook & E & _ & Hn).
  destruct (Hn j c Hc) as (c' & Hc' & Hcount). exists w1, hook, c'. split_and!; [done..|].
  rewrite Hcount, decide_True; [done|]. apply (matching_module_first _ _ c); [done..|unfold module_end; lia|].
  intros i c0 Hi Hc0. pose proof (chain_apart _ _ _ i j _ _ (wf_chain w Hw) Hi Hc0 Hc).
  pose proof (Hend i c0 Hi Hc0). lia.
Qed.

(** The first instruction of a module loaded right behind another one is
    counted for the other one.  The hook takes a module to extend to one byte
    behind its end: executions of the first byte of a module never show in its
    count, and do show in the count one past the end of its predecessor. *)
Theorem first_instruction_miscounted {I} `{FunctionIdentifier I} (w w' : W) h (identifier : I) m entry i ci cj :
  overflow_checks = true -> reachable (A := A) (IE := IE) w -> cells w !! h = Some m ->
  function_entry_point (ModuleApi.module (emu_module m)) identifier = Some entry ->
  0 <= entry <= module_len m ->
  (∀ hook captured, closures (self w) !! hook = Some captured -> captured = modules (self w)) ->
  (call_function h identifier : M unit) w = (w', Ok tt) ->
  cells w !! i = Some ci -> cells w !! S i = Some cj -> 0 < module_len ci -> module_end ci = offset cj ->
  ∃ w1 hook ci' cj', (prepare_call h identifier : M Z) w = (w1, Ok hook) /\
    cells w' !! i = Some ci' /\ cells w' !! S i = Some cj' /\
    instruction_execution_count cj' 0 = instruction_execution_count cj 0 /\
    instruction_execution_count ci' (module_len ci) = instruction_execution_count ci (module_len ci) +
      Z.of_nat (S (length (uc_hooks (emulator (self w))))) * occurrences (offset cj) (trace w1).
Proof.
  intros Hov Hw%reachable_wf Hm Hf He Hcl Hcall Hi Hj Hlen Hadj.
  destruct (call_function_counts (IE := IE) w w' h identifier m entry Hov Hw Hm Hf He Hcl Hcall) as (w1 & hook & E & _ & Hn).
  destruct (Hn i ci Hi) as (ci' & Hci' & Hcount). destruct (Hn (S i) cj Hj) as (cj' & Hcj' & Hcountj).
  assert (Hmatch : matching_module (cells w) (modules (self w)) (offset cj) = Some i).
  { apply (matching_module_first _ _ ci); [done..|unfold module_end in *; lia|].
    intros k ck Hk Hck. pose proof (chain_apart _ _ _ k i _ _ (wf_chain w Hw) Hk Hck Hi).
    unfold module_end in *. lia. }
  exists w1, hook, ci', cj'. split_and!; [done..| |].
  - rewrite Hcountj, Z.add_0_r, decide_False; [lia|]. rewrite Hmatch. intros [=]. lia.
  - rewrite Hcount. change (offset ci + module_len ci) with (module_end ci). by rewrite Hadj, decide_True.
Qed.

(** C39: the emulator's stack is last in, first out.  Values pushed from any
    reachable world whose stack pointer has room below it come back in reverse
    order, with the stack pointer, the modules and all memory above and below the
    pushed words as before. *)
Theorem pops_return_pushes vs (w : W) :
  let sp := uc_reg (emulator (self w)) uc_RSP in
  reachable (A := A) (IE := IE) w -> Forall (fun v => 0 <= v < 2 ^ 64) vs ->
  8 * Z.of_nat (length vs) <= sp <= memory_size ->
  ∃ w1 w2, (push_all vs : M unit) w = (w1, Ok tt) /\ (pop_all (length vs) : M (list Z)) w1 = (w2, Ok (reverse vs)) /\
    uc_reg (emulator (self w2)) uc_RSP = sp /\ cells w2 = cells w /\
    ∀ x, ~ sp - 8 * Z.of_nat (length vs) <= x < sp ->
      uc_byte (emulator (self w2)) x = uc_byte (emulator (self w)) x.
Proof. intros sp Hw%reachable_wf. by apply push_all_pop_all. Qed.

(** A call whose emulation fails leaves its hook behind.  [?] returns before
    [remove_hook], so the hooks are one more than before the call, and by
    [instructions_counted] every later call counts each instruction once more. *)
Theorem failed_call_keeps_hook {I} `{FunctionIdentifier I} (w w1 w' : W) h (identifier : I) m entry hook e :
  reachable (A := A) (IE := IE) w -> cells w !! h = Some m ->
  function_entry_point (ModuleApi.module (emu_module m)) identifier = Some entry ->
  0 <= entry <= module_len m ->
  (prepare_call h identifier : M Z) w = (w1, Ok hook) ->
  (emulate 0 (trampoline_len (self w1)) : M unit) w1 = (w', Err e) ->
  (call_function h identifier : M unit) w = (w', Err e) /\
  uc_hooks (emulator (self w')) = uc_hooks (emulator (self w)) ++ [hook] /\
  closures (self w') !! hook = Some (modules (self w)).
Proof.
  intros Hw%reachable_wf Hm Hf He E Hemu.
  destruct (prepare_call_loads (IE := IE) w h identifier m entry Hw Hm Hf He)
    as (w1' & hook' & E' & Hc & Hcl & Hto & Htl & _ & Hh & _).
  rewrite E in E'. injection E' as <- <-. destruct (wf_trampoline w Hw) as [Hz Hlen]. pose proof (wf_top w Hw).
  pose proof (chain_le _ _ _ (wf_chain w Hw)). split.
  - unfold call_function. rewrite (em_bind_ok _ _ _ _ _ E).
    rewrite (em_bind_ok _ _ w1 w1 0) by (unfold get; by rewrite Hto, Hz).
    rewrite (em_bind_ok _ _ w1 w1 (trampoline_len (self w1))) by done.
    rewrite (em_bind_ok _ _ w1 w1 (trampoline_len (self w1))).
    + unfold mbind, em_bind. by rewrite Hemu.
    + unfold lift. rewrite Htl, u64_arith_ok by (unfold memory_size, u64_max in *; lia). done.
  - unfold emulate in Hemu. destruct (emu_start _ _ _ 0 0) as [[calls uc] r] eqn:Es.
    apply law_emu_start in Es as (_ & Hhu & _).
    destruct (run_hooks _ calls _) as [cs| |]; [destruct r; [|done]| |done]; injection Hemu as <- _; simpl;
      by rewrite Hhu, Hh, Hcl, lookup_insert_eq.
Qed.
End Properties.

(** ** Examples *)
Module Test.
Import RetEmulator BufferAssembler.
#[local] Existing Instance debug.

Definition code_module (code : list Z) : AssembledModule unit :=
  mkAssembled (mkModule ∅ {[0 := 0]} {[0 := 0]} {["foo" := 0]} ∅ []) code.
Definition no_emulator : Emulator machine := mkEmulator (mkMachine ∅ 0 ∅ []) ∅ 0 0 0 [].
Definition new_emulator : Emulator machine :=
  match (emulator_new : Res (Error unit error) _) with Ok emu => emu | _ => no_emulator end.

Definition step {B} (m : EM machine unit (Error unit error) B) (w : world machine unit) : world machine unit :=
  fst (m w).
(** [ret] at address 2, [nop; ret] at 3, an invalid byte at 5. *)
Definition test_world : world machine unit :=
  step (add_module (code_module [0])) (step (add_module (code_module [144; 195]))
    (step (add_module (code_module [195])) (mkWorld new_emulator []))).

Lemma code_module_wf code : Z.of_nat (length code) <= u64_max -> slots_wf (code_module code).
Proof. by split; simpl. Qed.

Lemma test_reachable : reachable (A := buffer) (IE := error) test_world.
Proof.
  unfold test_world, step. do 3 (apply r_add_module; [|by apply code_module_wf]).
  apply r_new. vm_compute. reflexivity.
Qed.

Definition cell (i : nat) : EmuModule unit := default (mkCell 0 (code_module []) ∅) (cells test_world !! i).
Definition called (h : nat) : world machine unit :=
  step (call_function h "foo") test_world.
Definition prepared (h : nat) : world machine unit :=
  step (prepare_call h "foo") test_world.

Example counts_of_second :
  map (fun c => map_to_list (executed_instructions c)) (cells (called 1)) = [[(1, 1)]; [(1, 1)]; []].
Proof. vm_compute. reflexivity. Qed.

Lemma call_function_loads_witness :
  ∃ w1 hook, (call_function 1 "foo" : EM machine unit (Error unit error) unit) test_world =
      (_ ← emulate 0 2; drop_hook hook : EM machine unit (Error unit error) unit) w1 /\
    uc_reg (emulator (self w1)) 108 = 3 /\ ∀ i c, cells test_world !! i = Some c -> holds (emulator (self w1)) c.
Proof.
  assert (Hc : cells test_world !! 1%nat = Some (cell 1)) by (vm_compute; reflexivity).
  assert (Hf : function_entry_point (ModuleApi.module (emu_module (cell 1))) "foo" = Some 0) by (vm_compute; reflexivity).
  pose proof (call_function_loads test_world 1 "foo" (cell 1) test_reachable Hc) as Hl. rewrite Hf in Hl.
  destruct Hl as (w1 & hook & E & _ & Hr & _ & Hhold & _); [vm_compute; split; discriminate|].
  exists w1, hook. split; [exact E|]. split; [exact Hr|exact Hhold].
Defined.

(** The closures all have captured the modules there are. *)
Lemma test_closures hook captured : closures (self test_world) !! hook = Some captured -> captured = modules (self test_world).
Proof. replace (closures (self test_world)) with (∅ : gmap Z (list nat)) by (vm_compute; reflexivity). by rewrite lookup_empty. Qed.

Lemma instructions_counted_witness :
  ∃ w1 hook c', (prepare_call 1 "foo" : EM machine unit (Error unit error) Z) test_world = (w1, Ok hook) /\
    cells (called 1) !! 1%nat = Some c' /\ instruction_execution_count c' 1 = 0 + 1 * occurrences 4 (trace w1).
Proof.
  refine (instructions_counted (A := buffer) (IE := error) (UC := machine) test_world (called 1) 1 "foo" (cell 1) 0 1 (cell 1) 1
    eq_refl test_reachable _ _ _ test_closures _ _ _ _).
  - vm_compute. reflexivity.
  - vm_compute. reflexivity.
  - vm_compute. split; discriminate.
  - vm_compute. reflexivity.
  - vm_compute. reflexivity.
  - vm_compute. split; [discriminate|reflexivity].
  - intros [|i] c' Hi; [|lia]. intros [= <-]. vm_compute. discriminate.
Defined.

Lemma first_instruction_miscounted_witness :
  ∃ w1 hook ci' cj', (prepare_call 1 "foo" : EM machine unit (Error unit error) Z) test_world = (w1, Ok hook) /\
    cells (called 1) !! 0%nat = Some ci' /\ cells (called 1) !! 1%nat = Some cj' /\
    instruction_execution_count cj' 0 = 0 /\
    instruction_execution_count ci' 1 = 0 + 1 * occurrences 3 (trace w1).
Proof.
  refine (first_instruction_miscounted (A := buffer) (IE := error) (UC := machine) test_world (called 1) 1 "foo" (cell 1) 0 0 (cell 0) (cell 1)
    eq_refl test_reachable _ _ _ test_closures _ _ _ _ _).
  - vm_compute. reflexivity.
  - vm_compute. reflexivity.
  - vm_compute. split; discriminate.
  - vm_compute. reflexivity.
  - vm_compute. reflexivity.
  - vm_compute. reflexivity.
  - vm_compute. reflexivity.
  - vm_compute. reflexivity.
Defined.

Lemma pops_return_pushes_witness :
  ∃ w1 w2, (push_all [1; 2] : EM machine unit (Error unit error) unit) test_world = (w1, Ok tt) /\
    (pop_all 2 : EM machine unit (Error unit error) (list Z)) w1 = (w2, Ok [2; 1]) /\
    uc_reg (emulator (self w2)) 44 = 134217727.
Proof.
  destruct (pops_return_pushes (A := buffer) (IE := error) (UC := machine) [1; 2] test_world test_reachable)
    as (w1 & w2 & E1 & E2 & Hr & _).
  - by repeat (constructor; [lia|]).
  - vm_compute. split; discriminate.
  - exists w1, w2. split; [exact E1|]. split; [exact E2|exact Hr].
Defined.

Lemma failed_call_keeps_hook_witness :
  (call_function 2 "foo" : EM machine unit (Error unit error) unit) test_world = (called 2, Err (EmulationError tt)) /\
  uc_hooks (emulator (self (called 2))) = [] ++ [1] /\ closures (self (called 2)) !! 1 = Some [0; 1; 2]%nat.
Proof.
  refine (failed_call_keeps_hook (A := buffer) (UC := machine) test_world (prepared 2) (called 2) 2 "foo" (cell 2) 0 1
    (EmulationError tt) test_reachable _ _ _ _ _).
  - vm_compute. reflexivity.
  - vm_compute. reflexivity.
  - vm_compute. split; discriminate.
  - vm_compute. reflexivity.
  - vm_compute. reflexivity.
Defined.
End Test.
